(** * ConduitCore: a shallow embedding of the C performance core

    The development follows the five translation units of
    [Sources/ConduitCore/src]: the line buffer, the SSE parser, the JSON
    repair pass, the JSON completer and the vector kernels.

    Conventions.  A C [char]/[uint8_t] is an [ascii]; a byte buffer is a
    [list ascii] indexed with [nth]; [size_t] quantities are [nat] (no buffer
    reaches the 2^64 boundary, so the unsigned wrap-around is never taken);
    the C [int] of the retry field is a [Z] whose 32-bit wrap-around is written
    out.  A [char *] handed out without a length is the C string at the
    start of its allocation ([cstr]), whatever length the owner records.
    The recursion of the completer takes the number of activations the stack
    holds as an argument, and the one read it makes through a pointer into a
    frame that has returned goes through a function argument.  Handles are
    assumed non-NULL: the [if (!buf) return] guards are the only code left
    out. *)

From Stdlib Require Import Ascii String ZArith Bool Arith Lia List.
From Stdlib Require Import Floats.SpecFloat.
Import ListNotations.

(* ================================================================== *)
(** * Part I. Models                                                   *)
(* ================================================================== *)

(** ** Bytes and raw memory helpers *)

Module Bytes.

Definition NUL : ascii := "000"%char.
Definition TAB : ascii := "009"%char.
Definition LF : ascii := "010"%char.
Definition CR : ascii := "013"%char.
Definition SP : ascii := " "%char.

(** A C string literal as a byte list. *)
Definition bytes (s : string) : list ascii := list_ascii_of_string s.

(** [buf[i]]; reading outside the list yields NUL. *)
Definition get (buf : list ascii) (i : nat) : ascii := nth i buf NUL.

(** [buf[i] = c]; a store outside the list leaves it unchanged. *)
Fixpoint store (buf : list ascii) (i : nat) (c : ascii) : list ascii :=
  match buf, i with
  | [], _ => []
  | _ :: t, O => c :: t
  | x :: t, S j => x :: store t j c
  end.

(** [memcpy(dst + off, src, length src)]. *)
Fixpoint memcpy (dst : list ascii) (off : nat) (src : list ascii) : list ascii :=
  match off, dst with
  | O, _ =>
      match src, dst with
      | [], _ => dst
      | _, [] => []
      | c :: src', _ :: dst' => c :: memcpy dst' O src'
      end
  | S off', [] => []
  | S off', x :: dst' => x :: memcpy dst' off' src
  end.

(** [memchr(s, c, n)] as the offset of the first hit within the first [n]
    bytes of [s]. *)
Fixpoint memchr (s : list ascii) (c : ascii) (n : nat) : option nat :=
  match n, s with
  | S n', x :: s' =>
      if Ascii.eqb x c then Some O else option_map S (memchr s' c n')
  | _, _ => None
  end.

(** The C string that starts at [buf]: the bytes before the first NUL. *)
Fixpoint cstr (buf : list ascii) : list ascii :=
  match buf with
  | [] => []
  | c :: buf' => if Ascii.eqb c NUL then [] else c :: cstr buf'
  end.

(** The [n] bytes read at [buf]. *)
Definition peek (buf : list ascii) (n : nat) : list ascii :=
  map (get buf) (seq 0 n).

(** The four bytes every whitespace test of the core spells out. *)
Definition is_ws (c : ascii) : bool :=
  Ascii.eqb c SP || Ascii.eqb c TAB || Ascii.eqb c LF || Ascii.eqb c CR.

End Bytes.

(* ------------------------------------------------------------------ *)
(** ** conduit_line_buffer.c *)

Module LineBuffer.
Import Bytes.

Record conduit_line_buffer := mkbuf {
  data : list ascii;
  capacity : nat;
  read_pos : nat;
  write_pos : nat
}.

(** Fresh [malloc]/[realloc] bytes are indeterminate; the model fills them
    with NUL. *)
Definition conduit_line_buffer_create (initial_capacity : nat)
  : conduit_line_buffer :=
  let initial_capacity :=
    if initial_capacity <? 256 then 256 else initial_capacity in
  mkbuf (repeat NUL initial_capacity) initial_capacity 0 0.

Definition maybe_compact (buf : conduit_line_buffer) : conduit_line_buffer :=
  if (capacity buf / 2 <? read_pos buf) && (0 <? read_pos buf) then
    let pending := write_pos buf - read_pos buf in
    let data' :=
      if 0 <? pending
      then memcpy (data buf) 0 (firstn pending (skipn (read_pos buf) (data buf)))
      else data buf in
    mkbuf data' (capacity buf) 0 pending
  else buf.

(** [alloc_ok] is the outcome [realloc] would have, consulted only on the
    growth path.  The result pairs the return code with the buffer. *)
Definition conduit_line_buffer_append (buf : conduit_line_buffer)
    (bytes_in : list ascii) (alloc_ok : bool) : Z * conduit_line_buffer :=
  let length := List.length bytes_in in
  if length =? 0 then (0%Z, buf) else
  let needed := write_pos buf + length in
  let grown :=
    if capacity buf <? needed then
      let buf := maybe_compact buf in
      let needed := write_pos buf + length in
      if capacity buf <? needed then
        let new_cap := capacity buf * 2 in
        let new_cap := if new_cap <? needed then needed else new_cap in
        if alloc_ok
        then inr (mkbuf (data buf ++ repeat NUL (new_cap - capacity buf))
                        new_cap (read_pos buf) (write_pos buf))
        else inl buf
      else inr buf
    else inr buf in
  match grown with
  | inl buf => ((-1)%Z, buf)
  | inr buf =>
      (0%Z, mkbuf (memcpy (data buf) (write_pos buf) bytes_in)
                  (capacity buf) (read_pos buf) (write_pos buf + length))
  end.

Record next_line_result := mkres {
  nl_ret : Z;                       (* the return value, 1 or 0 *)
  nl_buf : conduit_line_buffer;     (* the buffer afterwards *)
  nl_line_out : list ascii;         (* the caller's [line_out] afterwards *)
  nl_line_len : nat;                (* [*line_len] afterwards *)
  nl_consume : nat                  (* the local [consume]; 0 when nothing was taken *)
}.

Definition conduit_line_buffer_next_line (buf : conduit_line_buffer)
    (line_out : list ascii) (line_out_capacity : nat) (line_len : nat)
  : next_line_result :=
  let no_line := mkres 0 buf line_out line_len 0 in
  let pending := write_pos buf - read_pos buf in
  if pending =? 0 then no_line else
  let start := skipn (read_pos buf) (data buf) in
  let newline_lf := memchr start LF pending in
  let newline_cr := memchr start CR pending in
  let newline :=
    match newline_lf, newline_cr with
    | Some lf, Some cr => Some (if lf <? cr then lf else cr)
    | Some lf, None => Some lf
    | None, cr => cr
    end in
  match newline with
  | None => no_line
  | Some line_bytes =>
      if line_out_capacity <=? line_bytes then no_line else
      let line_out := memcpy line_out 0 (firstn line_bytes start) in
      let line_out := store line_out line_bytes NUL in
      let consume := line_bytes + 1 in
      let consume :=
        if Ascii.eqb (get start line_bytes) CR then
          let next_pos := read_pos buf + consume in
          if (next_pos <? write_pos buf)
             && Ascii.eqb (get (data buf) next_pos) LF
          then consume + 1 else consume
        else consume in
      let buf := mkbuf (data buf) (capacity buf)
                       (read_pos buf + consume) (write_pos buf) in
      mkres 1 (maybe_compact buf) line_out line_bytes consume
  end.

Definition conduit_line_buffer_pending (buf : conduit_line_buffer) : nat :=
  write_pos buf - read_pos buf.

(** The bytes of the pending region [[read_pos, write_pos)]. *)
Definition pending_bytes (buf : conduit_line_buffer) : list ascii :=
  firstn (write_pos buf - read_pos buf) (skipn (read_pos buf) (data buf)).

(** *** Driving a buffer with a script of calls *)

Inductive call :=
| Append (bytes_in : list ascii) (alloc_ok : bool)
| NextLine (line_out_capacity : nat).

Record trace := mktrace {
  final : conduit_line_buffer;
  lines : list (list ascii);   (* the lines handed out, in order *)
  appended : nat;              (* B: bytes of the successful appends *)
  consumed : nat;              (* C: sum of [consume] over successful next_line *)
  stream : list ascii          (* the successful appends, concatenated *)
}.

Definition step (t : trace) (c : call) : trace :=
  match c with
  | Append bs ok =>
      let '(rc, buf) := conduit_line_buffer_append (final t) bs ok in
      if (rc =? 0)%Z
      then mktrace buf (lines t) (appended t + List.length bs) (consumed t)
                   (stream t ++ bs)
      else mktrace buf (lines t) (appended t) (consumed t) (stream t)
  | NextLine cap =>
      let r := conduit_line_buffer_next_line (final t) (repeat NUL cap) cap 0 in
      if (nl_ret r =? 1)%Z
      then mktrace (nl_buf r)
                   (lines t ++ [firstn (nl_line_len r) (nl_line_out r)])
                   (appended t) (consumed t + nl_consume r) (stream t)
      else mktrace (nl_buf r) (lines t) (appended t) (consumed t) (stream t)
  end.

Definition run (initial_capacity : nat) (script : list call) : trace :=
  fold_left step script
    (mktrace (conduit_line_buffer_create initial_capacity) [] 0 0 []).

(** *** The reference splitter of the specification

    Splitting a byte sequence on LF, CR or CRLF, the pair CRLF being one
    delimiter; only terminated lines are produced. *)
Fixpoint split_lines_aux (s acc : list ascii) : list (list ascii) :=
  match s with
  | [] => []
  | c :: s' =>
      if Ascii.eqb c LF then rev acc :: split_lines_aux s' []
      else if Ascii.eqb c CR then
        match s' with
        | c' :: s'' =>
            if Ascii.eqb c' LF then rev acc :: split_lines_aux s'' []
            else rev acc :: split_lines_aux s' []
        | [] => [rev acc]
        end
      else split_lines_aux s' (c :: acc)
  end.

Definition split_lines (s : list ascii) : list (list ascii) :=
  split_lines_aux s [].

(** *** conduit_line_buffer_drain

    The return value [to_copy], the buffer and the caller's [out]
    afterwards.  Unlike [next_line] it writes no terminator and does not
    compact. *)
Definition conduit_line_buffer_drain (buf : conduit_line_buffer)
    (out : list ascii) (out_capacity : nat)
  : nat * conduit_line_buffer * list ascii :=
  let pending := write_pos buf - read_pos buf in
  if pending =? 0 then (0, buf, out) else
  let to_copy := if pending <? out_capacity then pending else out_capacity in
  let out := memcpy out 0 (firstn to_copy (skipn (read_pos buf) (data buf))) in
  (to_copy,
   mkbuf (data buf) (capacity buf) (read_pos buf + to_copy) (write_pos buf),
   out).

(** *** Sessions: the three operations in any order

    What a caller observes: each line returned by [next_line] together with
    the number of bytes it consumed, and each chunk returned by [drain]. *)
Inductive op :=
| OpAppend (bytes_in : list ascii) (alloc_ok : bool)
| OpNextLine (line_out_capacity : nat)
| OpDrain (out_capacity : nat).

Inductive item :=
| Line (line : list ascii) (consume : nat)
| Chunk (chunk : list ascii).

Record session := mksession {
  s_buf : conduit_line_buffer;
  s_items : list item;        (* what was handed out, in call order *)
  s_fed : list ascii          (* the successful appends, concatenated *)
}.

Definition session_step (s : session) (o : op) : session :=
  match o with
  | OpAppend bs ok =>
      let '(rc, buf) := conduit_line_buffer_append (s_buf s) bs ok in
      mksession buf (s_items s)
                (if (rc =? 0)%Z then s_fed s ++ bs else s_fed s)
  | OpNextLine cap =>
      let r := conduit_line_buffer_next_line (s_buf s) (repeat NUL cap) cap 0 in
      mksession (nl_buf r)
                (if (nl_ret r =? 1)%Z
                 then s_items s
                      ++ [Line (firstn (nl_line_len r) (nl_line_out r)) (nl_consume r)]
                 else s_items s)
                (s_fed s)
  | OpDrain cap =>
      let '(to_copy, buf, out) :=
        conduit_line_buffer_drain (s_buf s) (repeat NUL cap) cap in
      mksession buf
                (if 0 <? to_copy then s_items s ++ [Chunk (firstn to_copy out)]
                 else s_items s)
                (s_fed s)
  end.

Definition session_run (initial_capacity : nat) (script : list op) : session :=
  fold_left session_step script
    (mksession (conduit_line_buffer_create initial_capacity) [] []).

(** No CR of the byte sequence is directly followed by an LF. *)
Fixpoint no_crlf (s : list ascii) : bool :=
  match s with
  | c :: ((c' :: _) as s') =>
      negb (Ascii.eqb c CR && Ascii.eqb c' LF) && no_crlf s'
  | _ => true
  end.

End LineBuffer.

(* ------------------------------------------------------------------ *)
(** ** conduit_sse_parser.c *)

Module SSE.
Import Bytes.

(** A [dyn_str_t]: the allocation [ds_data] ([ds_capacity] bytes; the NULL
    pointer of a string nothing was appended to is the empty allocation) and
    the length [ds_len] of the content.  [realloc] is taken to succeed; it
    keeps the old bytes, and the bytes it adds, indeterminate in C, are
    filled with NUL as in the line buffer. *)
Record dyn_str := mkdyn {
  ds_data : list ascii;
  ds_len : nat;
  ds_capacity : nat
}.

Definition dyn_str_init : dyn_str := mkdyn [] 0 0.

(** [s->len = 0;] and nothing else: the bytes stay where they are. *)
Definition dyn_str_clear (s : dyn_str) : dyn_str :=
  mkdyn (ds_data s) 0 (ds_capacity s).

Definition dyn_str_append (s : dyn_str) (d : list ascii) : dyn_str :=
  let len := List.length d in
  if len =? 0 then s else
  let needed := ds_len s + len + 1 in
  let s :=
    if ds_capacity s <? needed then
      let new_cap := if 0 <? ds_capacity s then ds_capacity s * 2 else 128 in
      let new_cap := if new_cap <? needed then needed else new_cap in
      mkdyn (ds_data s ++ repeat NUL (new_cap - ds_capacity s)) (ds_len s) new_cap
    else s in
  let data := memcpy (ds_data s) (ds_len s) d in
  let len' := ds_len s + len in
  mkdyn (store data len' NUL) len' (ds_capacity s).

Definition dyn_str_append_char (s : dyn_str) (c : ascii) : dyn_str :=
  dyn_str_append s [c].

(** [s->data ? s->data : ""], as the callback reads it: a [char *] without
    a length, so the text runs to the first NUL of the allocation wherever
    [ds_len] stands. *)
Definition dyn_str_cstr (s : dyn_str) : list ascii :=
  match ds_data s with
  | [] => []
  | data => cstr data
  end.

(** The content: the first [ds_len] bytes. *)
Definition dyn_str_bytes (s : dyn_str) : list ascii :=
  firstn (ds_len s) (ds_data s).

Record conduit_sse_parser := mkparser {
  current_id : dyn_str;
  current_event : dyn_str;
  current_data : dyn_str;
  current_retry : Z;          (* -1 if not set *)
  has_id : bool;
  has_event : bool;
  has_data : bool;
  last_event_id : dyn_str;
  reconnection_time : Z
}.

(** [conduit_sse_event_t]: each [const char *] is the C string it points
    to; a NULL pointer is [None]. *)
Record conduit_sse_event := mkevent {
  id : option (list ascii);
  event : option (list ascii);
  data : list ascii;
  retry : Z
}.

Definition conduit_sse_parser_create : conduit_sse_parser :=
  mkparser dyn_str_init dyn_str_init dyn_str_init (-1) false false false
           dyn_str_init 3000.

Definition reset_current_event (p : conduit_sse_parser) : conduit_sse_parser :=
  mkparser (dyn_str_clear (current_id p)) (dyn_str_clear (current_event p))
           (dyn_str_clear (current_data p)) (-1) false false false
           (last_event_id p) (reconnection_time p).

(** The callback is modelled by the list of records it is called with;
    [callback = false] is the NULL callback. *)
Definition dispatch_if_needed (p : conduit_sse_parser) (callback : bool)
  : conduit_sse_parser * list conduit_sse_event :=
  let is_data_empty := ds_len (current_data p) =? 0 in
  let is_retry_only :=
    is_data_empty && negb (has_id p) && negb (has_event p) && negb (has_data p) in
  if is_retry_only then (reset_current_event p, [])
  else
    let calls :=
      if callback then
        [ mkevent (if has_id p then Some (dyn_str_cstr (current_id p)) else None)
                  (if has_event p then Some (dyn_str_cstr (current_event p)) else None)
                  (dyn_str_cstr (current_data p))
                  (current_retry p) ]
      else [] in
    (reset_current_event p, calls).

(** The C [int]: 32 bits, two's complement.  [ms * 10 + digit] is computed
    in [int]; the model writes the wrap-around the usual targets perform. *)
Definition int32 (z : Z) : Z := ((z + 2147483648) mod 4294967296 - 2147483648)%Z.

Definition is_digit (c : ascii) : bool :=
  (48 <=? nat_of_ascii c) && (nat_of_ascii c <=? 57).

(** The digit loop of the [retry] branch: [None] is [valid = false]. *)
Fixpoint retry_loop (value : list ascii) (ms : Z) : option Z :=
  match value with
  | [] => Some ms
  | c :: rest =>
      if is_digit c then
        if (214748364 <? ms)%Z then None
        else retry_loop rest (int32 (ms * 10 + (Z.of_nat (nat_of_ascii c) - 48)))
      else None
  end.

(** [while (length > 0 && line[length - 1] == '\r') length--;] *)
Fixpoint strip_trailing_cr (line : list ascii) (length : nat) : nat :=
  match length with
  | O => O
  | S n => if Ascii.eqb (get line n) CR then strip_trailing_cr line n else S n
  end.

Fixpoint bytes_eqb (a b : list ascii) : bool :=
  match a, b with
  | [], [] => true
  | x :: a', y :: b' => Ascii.eqb x y && bytes_eqb a' b'
  | _, _ => false
  end.

Definition has_bom (line : list ascii) (length : nat) : bool :=
  (3 <=? length)
  && Ascii.eqb (get line 0) (ascii_of_nat 239)
  && Ascii.eqb (get line 1) (ascii_of_nat 187)
  && Ascii.eqb (get line 2) (ascii_of_nat 191).

(** The normalised line: trailing CRs and a leading BOM removed. *)
Definition normalize (line : list ascii) : list ascii :=
  let length := strip_trailing_cr line (List.length line) in
  let line := firstn length line in
  if has_bom line length then skipn 3 line else line.

(** The [field]/[value] split of a non-empty, non-comment line. *)
Definition split_field (line : list ascii) : list ascii * list ascii :=
  let length := List.length line in
  match memchr line ":"%char length with
  | Some field_len =>
      let value := skipn (field_len + 1) line in
      let value_len := length - field_len - 1 in
      let value :=
        if (0 <? value_len) && Ascii.eqb (get value 0) SP
        then skipn 1 value else value in
      (firstn field_len line, value)
  | None => (line, [])
  end.

Definition has_null (value : list ascii) : bool :=
  existsb (fun c => Ascii.eqb c NUL) value.

(** The [if]/[else if] chain on the field name, the tail of
    [conduit_sse_ingest_line]. *)
Definition process_field (p : conduit_sse_parser) (field value : list ascii)
  : conduit_sse_parser :=
  if bytes_eqb field (bytes "event") then
    mkparser (current_id p)
             (dyn_str_append (dyn_str_clear (current_event p)) value)
             (current_data p) (current_retry p)
             (has_id p) true (has_data p)
             (last_event_id p) (reconnection_time p)
  else if bytes_eqb field (bytes "data") then
    let d := current_data p in
    let d := if 0 <? ds_len d then dyn_str_append_char d LF else d in
    mkparser (current_id p) (current_event p)
             (dyn_str_append d value) (current_retry p)
             (has_id p) (has_event p) true
             (last_event_id p) (reconnection_time p)
  else if bytes_eqb field (bytes "id") then
    if negb (has_null value) then
      mkparser (dyn_str_append (dyn_str_clear (current_id p)) value)
               (current_event p) (current_data p) (current_retry p)
               true (has_event p) (has_data p)
               (dyn_str_append (dyn_str_clear (last_event_id p)) value)
               (reconnection_time p)
    else p
  else if bytes_eqb field (bytes "retry") then
    let valid := if 0 <? List.length value then retry_loop value 0 else None in
    match valid with
    | Some ms =>
        if (0 <? ms)%Z then
          mkparser (current_id p) (current_event p) (current_data p) ms
                   (has_id p) (has_event p) (has_data p)
                   (last_event_id p) ms
        else p
    | None => p
    end
  else p.

Definition conduit_sse_ingest_line (parser : conduit_sse_parser)
    (line : list ascii) (callback : bool)
  : conduit_sse_parser * list conduit_sse_event :=
  let line := normalize line in
  let length := List.length line in
  if length =? 0 then dispatch_if_needed parser callback
  else if Ascii.eqb (get line 0) ":"%char then (parser, [])
  else
    let '(field, value) := split_field line in
    (process_field parser field value, []).

Definition conduit_sse_finish (parser : conduit_sse_parser) (callback : bool)
  : conduit_sse_parser * list conduit_sse_event :=
  if (0 <? ds_len (current_data parser)) || has_id parser || has_event parser
  then dispatch_if_needed parser callback
  else (parser, []).

(** *** Driving a parser with a script *)

Inductive call :=
| IngestLine (line : list ascii)
| Finish.

Definition do_call (p : conduit_sse_parser) (c : call) (callback : bool) :=
  match c with
  | IngestLine line => conduit_sse_ingest_line p line callback
  | Finish => conduit_sse_finish p callback
  end.

(** The final parser and every record the callback saw, in order. *)
Fixpoint run_from (p : conduit_sse_parser) (script : list call) (callback : bool)
  : conduit_sse_parser * list conduit_sse_event :=
  match script with
  | [] => (p, [])
  | c :: rest =>
      let '(p1, ev1) := do_call p c callback in
      let '(p2, ev2) := run_from p1 rest callback in
      (p2, ev1 ++ ev2)
  end.

Definition run (script : list call) (callback : bool) :=
  run_from conduit_sse_parser_create script callback.

(** What the normalised line says its field and value are; [None] for a
    blank line or a comment. *)
Definition field_of (line : list ascii) : option (list ascii * list ascii) :=
  let line := normalize line in
  if List.length line =? 0 then None
  else if Ascii.eqb (get line 0) ":"%char then None
  else Some (split_field line).

(** The line is not a [data] field whose value is empty or begins with a
    NUL byte: as a C string its value is not empty. *)
Definition data_has_text (c : call) : Prop :=
  match c with
  | IngestLine line =>
      match field_of line with
      | Some (field, value) =>
          bytes_eqb field (bytes "data") = true -> cstr value <> []
      | None => True
      end
  | Finish => True
  end.

(** The line is not a [data] field whose value begins with a NUL byte (an
    empty value is allowed). *)
Definition data_not_cut (c : call) : Prop :=
  match c with
  | IngestLine line =>
      match field_of line with
      | Some (field, value) =>
          bytes_eqb field (bytes "data") = true -> value <> [] -> cstr value <> []
      | None => True
      end
  | Finish => True
  end.


(** The event the claim excludes: empty data, NULL id, NULL event. *)
Definition nonempty_event (e : conduit_sse_event) : Prop :=
  data e <> [] \/ id e <> None \/ event e <> None.

(** The decimal value of a digit string. *)
Definition decimal (value : list ascii) : Z :=
  fold_left (fun acc c => (acc * 10 + (Z.of_nat (nat_of_ascii c) - 48))%Z) value 0%Z.

(** *** What a block of lines says

    The value a call contributes to the field [name], if it is a line of
    that field. *)
Definition value_of (name : list ascii) (c : call) : option (list ascii) :=
  match c with
  | IngestLine line =>
      match field_of line with
      | Some (field, value) => if bytes_eqb field name then Some value else None
      | None => None
      end
  | Finish => None
  end.

Fixpoint values_of (name : list ascii) (seg : list call) : list (list ascii) :=
  match seg with
  | [] => []
  | c :: seg' =>
      match value_of name c with
      | Some v => v :: values_of name seg'
      | None => values_of name seg'
      end
  end.

Definition null {A : Type} (l : list A) : bool :=
  match l with [] => true | _ => false end.

(** Leading empty values dropped, the others joined with LF. *)
Fixpoint drop_empty (values : list (list ascii)) : list (list ascii) :=
  match values with
  | [] :: values' => drop_empty values'
  | _ => values
  end.

Fixpoint join_lf (values : list (list ascii)) : list ascii :=
  match values with
  | [] => []
  | [v] => v
  | v :: values' => v ++ LF :: join_lf values'
  end.

(** The outcome of the [retry] branch on one value: the stored number. *)
Definition retry_ms (value : list ascii) : option Z :=
  if 0 <? List.length value then
    match retry_loop value 0 with
    | Some ms => if (0 <? ms)%Z then Some ms else None
    | None => None
    end
  else None.

Fixpoint retry_values (values : list (list ascii)) : list Z :=
  match values with
  | [] => []
  | v :: values' =>
      match retry_ms v with
      | Some ms => ms :: retry_values values'
      | None => retry_values values'
      end
  end.

Definition block_ids (seg : list call) : list (list ascii) :=
  filter (fun v => negb (has_null v)) (values_of (bytes "id") seg).

Definition block_is_empty (seg : list call) : bool :=
  null (values_of (bytes "data") seg) && null (block_ids seg)
  && null (values_of (bytes "event") seg).

(** The text a buffer shows once it was cleared and given [v], if it
    showed [old] before: a zero-length append writes nothing, so the old
    text stays; otherwise the text is [v] up to its first NUL. *)
Definition shown (old v : list ascii) : list ascii :=
  match v with
  | [] => old
  | _ => cstr v
  end.

(** The record a block reports when it starts on the parser [p], whose
    buffers may still hold the text of earlier events. *)
Definition block_event (p : conduit_sse_parser) (seg : list call)
  : conduit_sse_event :=
  let ids := block_ids seg in
  let events := values_of (bytes "event") seg in
  mkevent (if null ids then None
           else Some (fold_left shown ids (dyn_str_cstr (current_id p))))
          (if null events then None
           else Some (fold_left shown events (dyn_str_cstr (current_event p))))
          (shown (dyn_str_cstr (current_data p))
                 (join_lf (drop_empty (values_of (bytes "data") seg))))
          (last (retry_values (values_of (bytes "retry") seg)) (-1)%Z).

(** The allocation is [ds_capacity] bytes long and has room for the
    content and its terminator. *)
Definition dyn_str_wf (s : dyn_str) : Prop :=
  List.length (ds_data s) = ds_capacity s
  /\ (ds_len s < ds_capacity s \/ (ds_capacity s = 0 /\ ds_len s = 0)).

Definition parser_wf (p : conduit_sse_parser) : Prop :=
  dyn_str_wf (current_id p) /\ dyn_str_wf (current_event p)
  /\ dyn_str_wf (current_data p) /\ dyn_str_wf (last_event_id p).

Definition no_boundary (c : call) : Prop :=
  match c with
  | IngestLine line => normalize line <> []
  | Finish => False
  end.

(** Comments and lines of unknown fields. *)
Definition known_field (field : list ascii) : bool :=
  bytes_eqb field (bytes "event") || bytes_eqb field (bytes "data")
  || bytes_eqb field (bytes "id") || bytes_eqb field (bytes "retry").

Definition inert (c : call) : bool :=
  match c with
  | IngestLine line =>
      match field_of line with
      | Some (field, _) => negb (known_field field)
      | None => negb (List.length (normalize line) =? 0)
      end
  | Finish => false
  end.

End SSE.

(* ------------------------------------------------------------------ *)
(** ** conduit_json_repair.c *)

Module JsonRepair.
Import Bytes.

Inductive bracket_type_t := BRACKET_BRACE | BRACKET_SQUARE.
Inductive json_context_t := CTX_UNKNOWN | CTX_OBJECT | CTX_ARRAY.

Definition QUOTE : ascii := ascii_of_nat 34.
Definition BACKSLASH : ascii := "\"%char.
Definition COMMA : ascii := ","%char.
Definition COLON : ascii := ":"%char.
Definition LBRACE : ascii := "{"%char.
Definition RBRACE : ascii := "}"%char.
Definition LBRACKET : ascii := "["%char.
Definition RBRACKET : ascii := "]"%char.

(** [while (len > 0 && is_ws(buf[len - 1])) len--;] *)
Fixpoint trim_trailing_whitespace (buf : list ascii) (len : nat) : nat :=
  match len with
  | O => O
  | S n => if is_ws (get buf n) then trim_trailing_whitespace buf n else S n
  end.

Definition in_range (lo hi : nat) (c : ascii) : bool :=
  (lo <=? nat_of_ascii c) && (nat_of_ascii c <=? hi).

Definition is_hex_digit (c : ascii) : bool :=
  in_range 48 57 c || in_range 97 102 c || in_range 65 70 c.

(** [for (i = ...; i < len; i++) if (buf[i] == '\\') backslash_pos = i;]
    with [n] iterations left. *)
Fixpoint last_backslash (buf : list ascii) (i n backslash_pos : nat) : nat :=
  match n with
  | O => backslash_pos
  | S n' =>
      last_backslash buf (S i) n'
        (if Ascii.eqb (get buf i) BACKSLASH then i else backslash_pos)
  end.

(** [for (i = ...; i < len && is_hex_digit(buf[i]); i++) hex_count++;] *)
Fixpoint count_hex (buf : list ascii) (i n : nat) : nat :=
  match n with
  | O => O
  | S n' => if is_hex_digit (get buf i) then S (count_hex buf (S i) n') else O
  end.

Definition remove_partial_unicode_escape (buf : list ascii) (len : nat) : nat :=
  if len <? 2 then len else
  let search_start := if 6 <? len then len - 6 else 0 in
  let backslash_pos := last_backslash buf search_start (len - search_start) len in
  if len <=? backslash_pos then len else
  if len <=? backslash_pos + 1 then len else
  if Ascii.eqb (get buf (backslash_pos + 1)) "u"%char then
    let hex_count := count_hex buf (backslash_pos + 2) (len - (backslash_pos + 2)) in
    if hex_count <? 4 then backslash_pos else len
  else len.

(** The bracket stack is a list whose head is [stack[depth - 1]]. *)
Definition push (cap : nat) (b : bracket_type_t) (stack : list bracket_type_t) :=
  if List.length stack <? cap then b :: stack else stack.

Definition pop (stack : list bracket_type_t) := tl stack.

(** One iteration of the string-aware bracket scan shared by
    [find_context] and the first pass of [conduit_json_repair]. *)
Definition track (cap : nat) (c : ascii)
    (st : bool * bool * list bracket_type_t) : bool * bool * list bracket_type_t :=
  let '(in_string, escape_next, stack) := st in
  if escape_next then (in_string, false, stack)
  else if in_string then
    if Ascii.eqb c BACKSLASH then (in_string, true, stack)
    else if Ascii.eqb c QUOTE then (false, escape_next, stack)
    else st
  else if Ascii.eqb c QUOTE then (true, escape_next, stack)
  else if Ascii.eqb c LBRACE then (in_string, escape_next, push cap BRACKET_BRACE stack)
  else if Ascii.eqb c RBRACE then (in_string, escape_next, pop stack)
  else if Ascii.eqb c LBRACKET then (in_string, escape_next, push cap BRACKET_SQUARE stack)
  else if Ascii.eqb c RBRACKET then (in_string, escape_next, pop stack)
  else st.

Definition find_context (buf : list ascii) (len : nat) : json_context_t :=
  let '(_, _, stack) :=
    fold_left (fun st c => track 256 c st) (firstn len buf) (false, false, []) in
  match stack with
  | [] => CTX_UNKNOWN
  | BRACKET_BRACE :: _ => CTX_OBJECT
  | BRACKET_SQUARE :: _ => CTX_ARRAY
  end.

(** [while (len > 0 && buf[len - 1] != QUOTE) len--;] *)
Fixpoint back_to_quote (buf : list ascii) (len : nat) : nat :=
  match len with
  | O => O
  | S n => if Ascii.eqb (get buf n) QUOTE then S n else back_to_quote buf n
  end.

(** [while (check > 0 && buf[check - 1] == '\\') { backslash_count++; check--; }] *)
Fixpoint backslash_count (buf : list ascii) (check : nat) : nat :=
  match check with
  | O => O
  | S n => if Ascii.eqb (get buf n) BACKSLASH then S (backslash_count buf n) else O
  end.

(** The [while (idx > 0)] search for the unescaped opening quote. *)
Fixpoint find_open_quote (buf : list ascii) (idx : nat) : nat :=
  match idx with
  | O => O
  | S n =>
      if Ascii.eqb (get buf idx) QUOTE && Nat.even (backslash_count buf idx)
      then idx
      else find_open_quote buf n
  end.

(** [while (prev > 0 && is_ws(buf[prev])) prev--;] *)
Fixpoint skip_ws_back (buf : list ascii) (prev : nat) : nat :=
  match prev with
  | O => O
  | S n => if is_ws (get buf prev) then skip_ws_back buf n else prev
  end.

Definition drop_comma (buf : list ascii) (len : nat) : nat :=
  if (0 <? len) && Ascii.eqb (get buf (len - 1)) COMMA then len - 1 else len.

(** Pattern: trailing comma. *)
Definition kvp_trailing_comma (buf : list ascii) (len : nat) : nat :=
  if (0 <? len) && Ascii.eqb (get buf (len - 1)) COMMA
  then trim_trailing_whitespace buf (len - 1) else len.

(** Pattern: ends with a colon (a key without its value). *)
Definition kvp_dangling_key (buf : list ascii) (len : nat) : nat :=
  if (0 <? len) && Ascii.eqb (get buf (len - 1)) COLON then
    let len := trim_trailing_whitespace buf (len - 1) in
    if (0 <? len) && Ascii.eqb (get buf (len - 1)) QUOTE then
      let len := back_to_quote buf (len - 1) in
      let len := if 0 <? len then len - 1 else len in
      let len := trim_trailing_whitespace buf len in
      drop_comma buf len
    else len
  else len.

(** Pattern: ends with a quoted string that may be an incomplete key. *)
Definition kvp_trailing_string (buf : list ascii) (len : nat) : nat :=
  if (0 <? len) && Ascii.eqb (get buf (len - 1)) QUOTE then
    let close_quote := len - 1 in
    let idx := close_quote in
    let idx := if 0 <? idx then idx - 1 else idx in
    let idx := find_open_quote buf idx in
    let prev := idx in
    let prev := if 0 <? prev then prev - 1 else prev in
    let prev := skip_ws_back buf prev in
    if (prev <? len) && Ascii.eqb (get buf prev) LBRACE then
      trim_trailing_whitespace buf idx
    else if (prev <? len) && Ascii.eqb (get buf prev) COMMA then
      match find_context buf prev with
      | CTX_OBJECT => drop_comma buf (trim_trailing_whitespace buf idx)
      | _ => len
      end
    else len
  else len.

Definition remove_incomplete_kvp (buf : list ascii) (len : nat) : nat :=
  let len := trim_trailing_whitespace buf len in
  let len := kvp_trailing_comma buf len in
  let len := kvp_dangling_key buf len in
  kvp_trailing_string buf len.

(** [while (j < input_len && is_ws(input[j])) j++;] with [n] bytes left. *)
Fixpoint skip_ws_fwd (buf : list ascii) (j n : nat) : nat :=
  match n with
  | O => j
  | S n' => if is_ws (get buf j) then skip_ws_fwd buf (S j) n' else j
  end.

(** [remove_trailing_commas(output, input_len, output, output_capacity)]:
    the only call passes the same buffer as source and destination, so the
    model reads and writes one memory.  [n] is the number of iterations the
    [for] loop has left ([input_len - i]). *)
Fixpoint remove_trailing_commas_loop (n i out : nat) (in_string escape_next : bool)
    (input_len output_capacity : nat) (buf : list ascii) : nat * list ascii :=
  match n with
  | O => (out, buf)
  | S n' =>
      if negb (out <? output_capacity - 1) then (out, buf) else
      let c := get buf i in
      let next := remove_trailing_commas_loop n' (S i) in
      if escape_next then next (S out) in_string false input_len output_capacity (store buf out c)
      else if in_string then
        let escape_next' := if Ascii.eqb c BACKSLASH then true else escape_next in
        let in_string' :=
          if Ascii.eqb c BACKSLASH then in_string
          else if Ascii.eqb c QUOTE then false else in_string in
        next (S out) in_string' escape_next' input_len output_capacity (store buf out c)
      else if Ascii.eqb c QUOTE then
        next (S out) true escape_next input_len output_capacity (store buf out c)
      else if Ascii.eqb c COMMA then
        let j := skip_ws_fwd buf (i + 1) (input_len - (i + 1)) in
        if (j <? input_len)
           && (Ascii.eqb (get buf j) RBRACE || Ascii.eqb (get buf j) RBRACKET)
        then next out in_string escape_next input_len output_capacity buf
        else next (S out) in_string escape_next input_len output_capacity (store buf out c)
      else next (S out) in_string escape_next input_len output_capacity (store buf out c)
  end.

Definition remove_trailing_commas (buf : list ascii) (input_len output_capacity : nat)
  : nat * list ascii :=
  remove_trailing_commas_loop input_len 0 0 false false input_len output_capacity buf.

(** [while (start < input_len && is_ws(input[start])) start++;] *)
Fixpoint skip_leading_ws (input : list ascii) : list ascii :=
  match input with
  | c :: rest => if is_ws c then skip_leading_ws rest else input
  | [] => []
  end.

Record pass := mkpass {
  in_string : bool;
  escape_next : bool;
  bracket_stack : list bracket_type_t;
  out : nat;
  output : list ascii
}.

(** The first pass, over the input bytes from [start] on. *)
Fixpoint copy_loop (input : list ascii) (capacity_for_content effective_max : nat)
    (st : pass) : pass :=
  match input with
  | [] => st
  | c :: rest =>
      if negb (out st <? capacity_for_content) then st else
      let '(s, e, k) :=
        track effective_max c (in_string st, escape_next st, bracket_stack st) in
      copy_loop rest capacity_for_content effective_max
        (mkpass s e k (S (out st)) (store (output st) (out st) c))
  end.

(** The closing loop: [for (i = stack_depth - 1; i >= 0 && out < cap - 1; i--)]. *)
Fixpoint close_loop (stack : list bracket_type_t) (output_capacity out : nat)
    (output : list ascii) : nat * list ascii :=
  match stack with
  | [] => (out, output)
  | b :: below =>
      if negb (out <? output_capacity - 1) then (out, output) else
      let out := trim_trailing_whitespace output out in
      let out := drop_comma output out in
      let closer := match b with BRACKET_BRACE => RBRACE | BRACKET_SQUARE => RBRACKET end in
      close_loop below output_capacity (S out) (store output out closer)
  end.

(** [max_depth] clamped below by 1, then [effective_max], its cap at 256. *)
Definition effective_max (max_depth : Z) : nat :=
  let max_depth := if (max_depth <? 1)%Z then 1%Z else max_depth in
  Z.to_nat (if (max_depth <? 256)%Z then max_depth else 256%Z).

(** The result is the return value and the output buffer afterwards. *)
Definition conduit_json_repair (input : list ascii) (output : list ascii)
    (output_capacity : nat) (max_depth : Z) : Z * list ascii :=
  if output_capacity <? 3 then ((-1)%Z, output) else
  let rest := skip_leading_ws input in
  match rest with
  | [] => (2%Z, store (store (store output 0 LBRACE) 1 RBRACE) 2 NUL)
  | _ :: _ =>
      let effective_max := effective_max max_depth in
      if output_capacity <=? effective_max + 2 then ((-1)%Z, output) else
      let capacity_for_content := output_capacity - (effective_max + 2) in
      let st := copy_loop rest capacity_for_content effective_max
                  (mkpass false false [] 0 output) in
      let output := JsonRepair.output st in
      let out := JsonRepair.out st in
      let '(out, output) :=
        if in_string st then
          let out := remove_partial_unicode_escape output out in
          let out :=
            if escape_next st && (0 <? out)
               && Ascii.eqb (get output (out - 1)) BACKSLASH
            then out - 1 else out in
          if out <? output_capacity - 1
          then (S out, store output out QUOTE) else (out, output)
        else (out, output) in
      let out := trim_trailing_whitespace output out in
      let out := drop_comma output out in
      let out := remove_incomplete_kvp output out in
      let '(out, output) := close_loop (bracket_stack st) output_capacity out output in
      let output := store output out NUL in
      let '(final_len, output) := remove_trailing_commas output out output_capacity in
      let output := store output final_len NUL in
      (Z.of_nat final_len, output)
  end.

(** The repaired text: the first [ret] bytes of the output buffer. *)
Definition repaired (input : list ascii) (output_capacity : nat) (max_depth : Z)
  : option (list ascii) :=
  let '(ret, output) :=
    conduit_json_repair input (repeat NUL output_capacity) output_capacity max_depth in
  if (ret <? 0)%Z then None else Some (firstn (Z.to_nat ret) output).

(** Test inputs are written with ['] standing for the double quote. *)
Definition json (s : string) : list ascii :=
  map (fun c => if Ascii.eqb c "'"%char then QUOTE else c) (bytes s).

End JsonRepair.


(* ------------------------------------------------------------------ *)
(** ** conduit_json_completer.c *)

Module JsonCompleter.
Import Bytes.
Import JsonRepair (QUOTE, BACKSLASH, COMMA, COLON, LBRACE, RBRACE,
                   LBRACKET, RBRACKET, in_range, json).

Definition suffix_buf_size : nat := 128.

(** Where the [suffix] pointer of a [completion_t] points: nowhere
    ([{0}]), into a string literal (the bytes from the pointer on), or at
    the [suffix_buf] of the struct the suffix was built in. *)
Inductive suffix_ptr :=
| Null
| Literal (s : list ascii)
| OwnBuf.

(** [completion_t].  The struct is returned by value: in the copy the
    caller receives, an [OwnBuf] pointer still designates the buffer in the
    frame of the function that has returned, not the [suffix_buf] of the
    copy. *)
Record completion := mkcompletion {
  found : bool;
  suffix : suffix_ptr;
  suffix_len : nat;
  end_offset : nat;
  suffix_buf : list ascii
}.

(** [completion_t r = {0};] *)
Definition r0 : completion :=
  mkcompletion false Null 0 0 (repeat NUL suffix_buf_size).

(** [r.found = true; r.suffix = "..."; r.suffix_len = ...;
    r.end_offset = ...;] with a string literal. *)
Definition found_literal (s : list ascii) (end_offset : nat) : completion :=
  mkcompletion true (Literal s) (List.length s) end_offset
               (repeat NUL suffix_buf_size).

(** How a call ends.  The C code recurses without looking at the stack:
    [StackOverflow] is a call of [complete_value] that finds no room on it.
    [OutOfSteps] is the model's own bound on the two [while] loops running
    out, which no input brings about. *)
Inductive outcome (A : Type) : Type :=
| Returned (a : A)
| StackOverflow
| OutOfSteps.

Arguments Returned {A} a.
Arguments StackOverflow {A}.
Arguments OutOfSteps {A}.

(** [while (pos < len && is_ws(json[pos])) pos++;] with [n] bytes left. *)
Fixpoint skip_ws_loop (json : list ascii) (pos n : nat) : nat :=
  match n with
  | O => pos
  | S n' => if is_ws (get json pos) then skip_ws_loop json (S pos) n' else pos
  end.

Definition skip_ws (json : list ascii) (len pos : nat) : nat :=
  skip_ws_loop json pos (len - pos).

(** The scan for the closing quote shared by [complete_string] and the
    string case of [find_end_of_complete_value]: the index of the
    unescaped quote, or [None] with the scan at [len]. *)
Fixpoint string_scan (json : list ascii) (cur n : nat) (escaped : bool) : option nat :=
  match n with
  | O => None
  | S n' =>
      let c := get json cur in
      if Ascii.eqb c BACKSLASH then string_scan json (S cur) n' (negb escaped)
      else if Ascii.eqb c QUOTE && negb escaped then Some cur
      else string_scan json (S cur) n' false
  end.

Definition complete_string (json : list ascii) (len pos : nat) : completion :=
  if (len <=? pos) || negb (Ascii.eqb (get json pos) QUOTE) then r0 else
  let cur := pos + 1 in
  match string_scan json cur (len - cur) false with
  | Some _ => r0
  | None => found_literal [QUOTE] (Nat.max cur len)
  end.

Definition is_digit (c : ascii) : bool := in_range 48 57 c.

(** [while (cur < len && json[cur] >= '0' && json[cur] <= '9') cur++;] *)
Fixpoint skip_digits (json : list ascii) (cur n : nat) : nat :=
  match n with
  | O => cur
  | S n' => if is_digit (get json cur) then skip_digits json (S cur) n' else cur
  end.

Definition digits (json : list ascii) (len cur : nat) : nat :=
  skip_digits json cur (len - cur).

Definition complete_number (json : list ascii) (len pos : nat) : completion :=
  let cur := pos in
  let cur := if (cur <? len) && Ascii.eqb (get json cur) "-"%char then cur + 1 else cur in
  if len <=? cur then found_literal (bytes "0") cur else
  if Ascii.eqb (get json cur) "."%char then found_literal (bytes "0.0") cur else
  let cur := digits json len cur in
  (* decimal part: [inl] is the early return *)
  let after_frac :=
    if (cur <? len) && Ascii.eqb (get json cur) "."%char then
      let cur := cur + 1 in
      let frac_start := cur in
      let cur := digits json len cur in
      if cur =? frac_start then inl (found_literal (bytes "0") cur) else inr cur
    else inr cur in
  match after_frac with
  | inl r => r
  | inr cur =>
      if (cur <? len)
         && (Ascii.eqb (get json cur) "e"%char || Ascii.eqb (get json cur) "E"%char)
      then
        let cur := cur + 1 in
        let cur :=
          if (cur <? len)
             && (Ascii.eqb (get json cur) "+"%char || Ascii.eqb (get json cur) "-"%char)
          then cur + 1 else cur in
        if (len <=? cur) || negb (is_digit (get json cur))
        then found_literal (bytes "0") cur
        else r0
      else r0
  end.

(** The matching loop of [complete_special]: [None] on a mismatch,
    otherwise the final [cur] and the unmatched rest of [value]. *)
Fixpoint special_loop (json : list ascii) (len cur : nat) (value : list ascii)
  : option (nat * list ascii) :=
  match value with
  | [] => Some (cur, [])
  | v :: value' =>
      if cur <? len then
        if Ascii.eqb (get json cur) v then special_loop json len (S cur) value'
        else None
      else Some (cur, value)
  end.

(** [r.suffix = value + matched] points into the literal [value]. *)
Definition complete_special (json : list ascii) (len pos : nat) (value : list ascii)
  : completion :=
  match special_loop json len pos value with
  | None => r0
  | Some (_, []) => r0
  | Some (cur, rest) => found_literal rest cur
  end.

(** What one pass through the [requires_comma] block does. *)
Inductive flow :=
| Return (r : completion)
| Break
| Continue (cur last_valid : nat).

Definition comma_step (json : list ascii) (len : nat) (closer : ascii)
    (cur : nat) (requires_comma : bool) (last_valid : nat) : flow :=
  if requires_comma then
    if Ascii.eqb (get json cur) COMMA then
      let cur := skip_ws json len (cur + 1) in
      if len <=? cur then Break else Continue cur cur
    else Return (found_literal [closer] last_valid)
  else Continue cur last_valid.

(** The bracket-matching scan of [find_end_of_complete_value]. *)
Fixpoint bracket_scan (json : list ascii) (open close : ascii)
    (cur n : nat) (level : Z) (in_str esc : bool) : nat :=
  match n with
  | O => cur
  | S n' =>
      let ch := get json cur in
      if in_str then
        if Ascii.eqb ch BACKSLASH
        then bracket_scan json open close (S cur) n' level in_str (negb esc)
        else if Ascii.eqb ch QUOTE && negb esc
        then bracket_scan json open close (S cur) n' level false esc
        else bracket_scan json open close (S cur) n' level in_str false
      else if Ascii.eqb ch QUOTE
      then bracket_scan json open close (S cur) n' level true false
      else if Ascii.eqb ch open
      then bracket_scan json open close (S cur) n' (level + 1)%Z in_str esc
      else if Ascii.eqb ch close then
        if (level - 1 =? 0)%Z then cur + 1
        else bracket_scan json open close (S cur) n' (level - 1)%Z in_str esc
      else bracket_scan json open close (S cur) n' level in_str esc
  end.

Definition is_number_char (c : ascii) : bool :=
  Ascii.eqb c "-"%char || Ascii.eqb c "+"%char || Ascii.eqb c "."%char
  || Ascii.eqb c "e"%char || Ascii.eqb c "E"%char || is_digit c.

Fixpoint skip_number_chars (json : list ascii) (cur n : nat) : nat :=
  match n with
  | O => cur
  | S n' => if is_number_char (get json cur) then skip_number_chars json (S cur) n' else cur
  end.

(** [pos + k <= len && memcmp(json + pos, word, k) == 0] *)
Definition matches (json : list ascii) (len pos : nat) (word : list ascii) : bool :=
  (pos + List.length word <=? len)
  && SSE.bytes_eqb (firstn (List.length word) (skipn pos json)) word.

Section Recursion.

(** What the bytes of a [suffix_buf] read as once the function whose frame
    held it has returned.  C leaves such a read undefined; on the usual
    targets nothing has overwritten the frame yet and the bytes come back
    as they were. *)
Variable returned : list ascii -> list ascii.

(** The [suffix_len] bytes a caller reads through [c.suffix], where [c] is
    the struct a callee returned. *)
Definition suffix_bytes (c : completion) : list ascii :=
  peek (match suffix c with
        | Null => []
        | Literal s => s
        | OwnBuf => returned (suffix_buf c)
        end) (suffix_len c).

(** The composite suffix: the callee's suffix followed by [tail], built
    in [r.suffix_buf], or the literal [fallback] when it does not fit. *)
Definition composite (elem : completion) (tail fallback : list ascii)
  : completion :=
  let total := suffix_len elem + List.length tail in
  if total <? suffix_buf_size then
    let buf := memcpy (repeat NUL suffix_buf_size) 0 (suffix_bytes elem) in
    let buf := memcpy buf (suffix_len elem) tail in
    let buf := store buf total NUL in
    mkcompletion true OwnBuf total (end_offset elem) buf
  else
    mkcompletion true (Literal fallback) (List.length fallback)
                 (end_offset elem) (repeat NUL suffix_buf_size).

Variables (json : list ascii) (len : nat) (max_depth : Z).

(** [complete_value] one activation further down the stack. *)
Variable complete_value_rec : nat -> Z -> outcome completion.

Definition find_end_of_complete_value (pos : nat) : outcome nat :=
  let pos := skip_ws json len pos in
  if len <=? pos then Returned pos else
  match complete_value_rec pos 0%Z with
  | StackOverflow => StackOverflow
  | OutOfSteps => OutOfSteps
  | Returned c =>
      if found c then Returned (end_offset c) else
      let ch := get json pos in
      if Ascii.eqb ch QUOTE then
        let cur := pos + 1 in
        match string_scan json cur (len - cur) false with
        | Some q => Returned (q + 1)
        | None => Returned (Nat.max cur len)
        end
      else if Ascii.eqb ch LBRACE || Ascii.eqb ch LBRACKET then
        let close := if Ascii.eqb ch LBRACE then RBRACE else RBRACKET in
        Returned (bracket_scan json ch close pos (len - pos) 0%Z false false)
      else if Ascii.eqb ch "t"%char then
        Returned (if matches json len pos (bytes "true") then pos + 4 else pos)
      else if Ascii.eqb ch "f"%char then
        Returned (if matches json len pos (bytes "false") then pos + 5 else pos)
      else if Ascii.eqb ch "n"%char then
        Returned (if matches json len pos (bytes "null") then pos + 4 else pos)
      else if Ascii.eqb ch "-"%char || is_digit ch then
        Returned (skip_number_chars json pos (len - pos))
      else Returned pos
  end.

(** The [while (cur < len)] loop of [complete_array]; [n] bounds the
    number of iterations. *)
Fixpoint array_loop (n : nat) (depth : Z) (cur : nat) (requires_comma : bool)
    (last_valid : nat) : outcome completion :=
  match n with
  | O => OutOfSteps
  | S n' =>
      let close := found_literal [RBRACKET] in
      if negb (cur <? len) then Returned (close last_valid) else
      if Ascii.eqb (get json cur) RBRACKET then Returned r0 else
      match comma_step json len RBRACKET cur requires_comma last_valid with
      | Return r => Returned r
      | Break => Returned (close last_valid)
      | Continue cur last_valid =>
          if len <=? cur then Returned (close last_valid) else
          if Ascii.eqb (get json cur) RBRACKET then Returned r0 else
          match complete_value_rec cur (depth + 1)%Z with
          | StackOverflow => StackOverflow
          | OutOfSteps => OutOfSteps
          | Returned elem =>
              if found elem then
                Returned (composite elem [RBRACKET] [RBRACKET])
              else
                match find_end_of_complete_value cur with
                | StackOverflow => StackOverflow
                | OutOfSteps => OutOfSteps
                | Returned e => array_loop n' depth e true e
                end
          end
      end
  end.

Definition complete_array (pos : nat) (depth : Z) : outcome completion :=
  if (len <=? pos) || negb (Ascii.eqb (get json pos) LBRACKET) then Returned r0 else
  let cur := pos + 1 in
  let last_valid := cur in
  let cur := skip_ws json len cur in
  if (len <=? cur) || Ascii.eqb (get json cur) RBRACKET
  then Returned (found_literal [RBRACKET] cur)
  else array_loop (2 * len + 2) depth cur false last_valid.

(** The [while (cur < len)] loop of [complete_object]. *)
Fixpoint object_loop (n : nat) (depth : Z) (cur : nat) (requires_comma : bool)
    (last_valid : nat) : outcome completion :=
  match n with
  | O => OutOfSteps
  | S n' =>
      let close := found_literal [RBRACE] in
      if negb (cur <? len) then Returned (close last_valid) else
      if Ascii.eqb (get json cur) RBRACE then Returned r0 else
      match comma_step json len RBRACE cur requires_comma last_valid with
      | Return r => Returned r
      | Break => Returned (close last_valid)
      | Continue cur last_valid =>
          if len <=? cur then Returned (close last_valid) else
          if Ascii.eqb (get json cur) RBRACE then Returned r0 else
          (* key *)
          let key_comp := complete_string json len cur in
          if found key_comp then
            Returned (composite key_comp (bytes ": null}") [RBRACE])
          else
            match find_end_of_complete_value cur with
            | StackOverflow => StackOverflow
            | OutOfSteps => OutOfSteps
            | Returned key_end =>
                if key_end <=? cur then Returned (close last_valid) else
                let cur := key_end in
                let last_valid := cur in
                (* colon *)
                let cur := skip_ws json len cur in
                if (len <=? cur) || negb (Ascii.eqb (get json cur) COLON)
                then Returned (found_literal (bytes ": null}") last_valid)
                else
                  let cur := cur + 1 in
                  let last_valid := cur in
                  (* value *)
                  let cur := skip_ws json len cur in
                  if len <=? cur
                  then Returned (found_literal (bytes "null}") last_valid)
                  else
                    match complete_value_rec cur (depth + 1)%Z with
                    | StackOverflow => StackOverflow
                    | OutOfSteps => OutOfSteps
                    | Returned val_comp =>
                        if found val_comp then
                          Returned (composite val_comp [RBRACE] [RBRACE])
                        else
                          match find_end_of_complete_value cur with
                          | StackOverflow => StackOverflow
                          | OutOfSteps => OutOfSteps
                          | Returned val_end =>
                              object_loop n' depth val_end true val_end
                          end
                    end
            end
      end
  end.

Definition complete_object (pos : nat) (depth : Z) : outcome completion :=
  if (len <=? pos) || negb (Ascii.eqb (get json pos) LBRACE) then Returned r0 else
  let cur := pos + 1 in
  let last_valid := cur in
  let cur := skip_ws json len cur in
  if (len <=? cur) || Ascii.eqb (get json cur) RBRACE
  then Returned (found_literal [RBRACE] cur)
  else object_loop (2 * len + 2) depth cur false last_valid.

End Recursion.

(** [complete_value].  [stack] is the number of nested activations of
    [complete_value] the stack still has room for; every activation the
    C code opens, from [complete_array], [complete_object] or
    [find_end_of_complete_value], takes one.  [depth] is the counter the
    code compares with [max_depth]; [find_end_of_complete_value] restarts
    it at 0. *)
Fixpoint complete_value (returned : list ascii -> list ascii) (stack : nat)
    (json : list ascii) (len : nat) (max_depth : Z)
    (pos : nat) (depth : Z) : outcome completion :=
  match stack with
  | O => StackOverflow
  | S stack' =>
      if (max_depth <=? depth)%Z then Returned r0 else
      let pos := skip_ws json len pos in
      if len <=? pos then Returned r0 else
      let c := get json pos in
      let rec := complete_value returned stack' json len max_depth in
      if Ascii.eqb c LBRACE then complete_object returned json len rec pos depth
      else if Ascii.eqb c LBRACKET then complete_array returned json len rec pos depth
      else if Ascii.eqb c QUOTE then Returned (complete_string json len pos)
      else if Ascii.eqb c "t"%char then Returned (complete_special json len pos (bytes "true"))
      else if Ascii.eqb c "f"%char then Returned (complete_special json len pos (bytes "false"))
      else if Ascii.eqb c "n"%char then Returned (complete_special json len pos (bytes "null"))
      else if Ascii.eqb c "-"%char || is_digit c then Returned (complete_number json len pos)
      else Returned r0
  end.

(** The return value and the output buffer afterwards. *)
Definition conduit_json_complete (returned : list ascii -> list ascii)
    (stack : nat) (input : list ascii) (output : list ascii)
    (output_capacity : nat) (max_depth : Z) : outcome (Z * list ascii) :=
  let input_len := List.length input in
  if output_capacity <? 1 then Returned ((-1)%Z, output) else
  if input_len =? 0 then Returned (0%Z, store output 0 NUL) else
  let max_depth := if (max_depth <? 1)%Z then 64%Z else max_depth in
  match complete_value returned stack input input_len max_depth 0 0%Z with
  | StackOverflow => StackOverflow
  | OutOfSteps => OutOfSteps
  | Returned c =>
      if negb (found c) then Returned (0%Z, store output 0 NUL) else
      let total := end_offset c + suffix_len c in
      if output_capacity <? total + 1 then Returned ((-1)%Z, output) else
      let output := memcpy output 0 (firstn (end_offset c) input) in
      let output := memcpy output (end_offset c) (suffix_bytes returned c) in
      let output := store output total NUL in
      Returned (Z.of_nat total, output)
  end.

(** The completed text when the call returns a length, [Some []] meaning
    "already complete". *)
Definition completed (returned : list ascii -> list ascii) (stack : nat)
    (input : list ascii) (output_capacity : nat) (max_depth : Z)
  : option (list ascii) :=
  match conduit_json_complete returned stack input (repeat NUL output_capacity)
          output_capacity max_depth with
  | Returned (ret, output) =>
      if (ret <? 0)%Z then None else Some (firstn (Z.to_nat ret) output)
  | StackOverflow => None
  | OutOfSteps => None
  end.

(** Reads of returned frames that give the bytes back. *)
Definition intact (b : list ascii) : list ascii := b.

End JsonCompleter.

(* ------------------------------------------------------------------ *)
(** ** conduit_vector_ops.c (the scalar fallback) *)

Module VectorOps.

(** A C [float] is an IEEE 754 binary32 value: [spec_float] with a 24-bit
    significand and exponents up to 128, rounding to nearest even.  All
    NaNs are one value here: their signs and payloads are not modelled. *)
Definition float := spec_float.
Definition prec : Z := 24.
Definition emax : Z := 128.

Definition fadd : float -> float -> float := SFadd prec emax.
Definition fmul : float -> float -> float := SFmul prec emax.
Definition fdiv : float -> float -> float := SFdiv prec emax.
Definition sqrtf : float -> float := SFsqrt prec emax.
Definition fzero : float := S754_zero false.       (* 0.0f *)
Definition fone : float := S754_finite false 8388608 (-23).  (* 1.0f *)
Definition feq (a b : float) : bool := SFeqb a b.   (* a == b *)
Definition fgt (a b : float) : bool := SFltb b a.   (* a > b *)

(** [a[i]] *)
Definition at_ (a : list float) (i : nat) : float := nth i a fzero.

Fixpoint fstore (a : list float) (i : nat) (x : float) : list float :=
  match a, i with
  | [], _ => []
  | _ :: t, O => x :: t
  | y :: t, S j => y :: fstore t j x
  end.

(** [for (i = ...; i < count; i++) result += a[i] * b[i];] *)
Fixpoint dot_loop (a b : list float) (i n : nat) (result : float) : float :=
  match n with
  | O => result
  | S n' => dot_loop a b (S i) n' (fadd result (fmul (at_ a i) (at_ b i)))
  end.

Definition conduit_dot_product (a b : list float) (count : nat) : float :=
  if count =? 0 then fzero else dot_loop a b 0 count fzero.

(** The fused loop of [conduit_cosine_similarity]. *)
Fixpoint cosine_loop (a b : list float) (i n : nat) (acc : float * float * float)
  : float * float * float :=
  match n with
  | O => acc
  | S n' =>
      let '(dot, normA, normB) := acc in
      cosine_loop a b (S i) n'
        (fadd dot (fmul (at_ a i) (at_ b i)),
         fadd normA (fmul (at_ a i) (at_ a i)),
         fadd normB (fmul (at_ b i) (at_ b i)))
  end.

Definition conduit_cosine_similarity (a b : list float) (count : nat) : float :=
  if count =? 0 then fzero else
  let '(dot, normA, normB) := cosine_loop a b 0 count (fzero, fzero, fzero) in
  let denom := fmul (sqrtf normA) (sqrtf normB) in
  if fgt denom fzero then fdiv dot denom else fzero.

(** The per-vector loop of the batch kernel. *)
Fixpoint batch_inner (query vec : list float) (i n : nat) (acc : float * float)
  : float * float :=
  match n with
  | O => acc
  | S n' =>
      let '(dot, vec_norm_sq) := acc in
      batch_inner query vec (S i) n'
        (fadd dot (fmul (at_ query i) (at_ vec i)),
         fadd vec_norm_sq (fmul (at_ vec i) (at_ vec i)))
  end.

Fixpoint batch_outer (query vectors : list float) (dimensions : nat)
    (query_norm : float) (v n : nat) (results : list float) : list float :=
  match n with
  | O => results
  | S n' =>
      let vec := skipn (v * dimensions) vectors in
      let '(dot, vec_norm_sq) := batch_inner query vec 0 dimensions (fzero, fzero) in
      let vec_norm := sqrtf vec_norm_sq in
      let r := if fgt vec_norm fzero
               then fdiv dot (fmul query_norm vec_norm) else fzero in
      batch_outer query vectors dimensions query_norm (S v) n' (fstore results v r)
  end.

Fixpoint zero_fill (i n : nat) (results : list float) : list float :=
  match n with
  | O => results
  | S n' => zero_fill (S i) n' (fstore results i fzero)
  end.

Definition conduit_cosine_similarity_batch (query vectors : list float)
    (dimensions count : nat) (results : list float) : list float :=
  if (dimensions =? 0) || (count =? 0) then results else
  let query_norm_sq := dot_loop query query 0 dimensions fzero in
  let query_norm := sqrtf query_norm_sq in
  if feq query_norm fzero then zero_fill 0 count results
  else batch_outer query vectors dimensions query_norm 0 count results.

Definition fsub : float -> float -> float := SFsub prec emax.

(** [for (...) { float d = a[i] - b[i]; sum += d * d; }] *)
Fixpoint euclid_loop (a b : list float) (i n : nat) (sum : float) : float :=
  match n with
  | O => sum
  | S n' =>
      let d := fsub (at_ a i) (at_ b i) in
      euclid_loop a b (S i) n' (fadd sum (fmul d d))
  end.

Definition conduit_euclidean_distance (a b : list float) (count : nat) : float :=
  if count =? 0 then fzero else sqrtf (euclid_loop a b 0 count fzero).

(** Neither an infinity nor a NaN. *)
Definition is_finite (x : float) : bool :=
  match x with
  | S754_zero _ | S754_finite _ _ _ => true
  | _ => false
  end.

(** Positive or negative zero. *)
Definition is_zero (x : float) : bool :=
  match x with
  | S754_zero _ => true
  | _ => false
  end.

End VectorOps.

(* ------------------------------------------------------------------ *)
(** ** Syntactically valid JSON

    The yardstick of the repair and completer properties: the strict JSON
    grammar (RFC 8259) as a one-pass recogniser with a stack of open
    containers.  It is structurally recursive on the text, so validity is a
    decidable, total predicate. *)

Module Json.
Import Bytes.
Import JsonRepair (QUOTE, BACKSLASH, COMMA, COLON, LBRACE, RBRACE,
                   LBRACKET, RBRACKET, in_range, is_hex_digit).

Inductive frame := FObject | FArray.

(** Where in a number the recogniser stands. *)
Inductive numstate :=
| NMinus        (* after the sign: a digit must follow *)
| NZero         (* after a leading 0 *)
| NInt          (* inside the integer digits *)
| NDot          (* after the point: a digit must follow *)
| NFrac         (* inside the fraction digits *)
| NExp          (* after e/E: a sign or digit must follow *)
| NExpSign      (* after the exponent sign: a digit must follow *)
| NExpDigits.   (* inside the exponent digits *)

(** Where in [true], [false] or [null] the recogniser stands, named by
    the letters still to come. *)
Inductive lit := Lrue | Lue | Le | Lalse | Llse | Lse | Lull | Lll | Ll.

(** The letter expected next and the state after it ([None]: the literal
    is complete). *)
Definition lit_expect (l : lit) : ascii * option lit :=
  match l with
  | Lrue => ("r"%char, Some Lue)
  | Lue => ("u"%char, Some Le)
  | Le => ("e"%char, None)
  | Lalse => ("a"%char, Some Llse)
  | Llse => ("l"%char, Some Lse)
  | Lse => ("s"%char, Some Le)
  | Lull => ("u"%char, Some Lll)
  | Lll => ("l"%char, Some Ll)
  | Ll => ("l"%char, None)
  end.

Inductive mode :=
| MValue                    (* a value must start (whitespace allowed) *)
| MArrFirst                 (* after [: a value or ] *)
| MObjFirst                 (* after {: a key or } *)
| MKey                      (* after a comma in an object: a key *)
| MColon                    (* after a key: the colon *)
| MAfter                    (* after a value: comma, closer or the end *)
| MStr (is_key : bool)      (* inside a string *)
| MEsc (is_key : bool)      (* after a backslash *)
| MHex (is_key : bool) (n : nat)   (* inside \u, n + 1 hex digits to come *)
| MNum (ns : numstate)
| MLit (l : lit).           (* inside true/false/null *)

Definition config := (mode * list frame)%type.

Definition is_digit (c : ascii) : bool := in_range 48 57 c.
Definition is_digit19 (c : ascii) : bool := in_range 49 57 c.
Definition is_control (c : ascii) : bool := nat_of_ascii c <? 32.

Definition is_simple_escape (c : ascii) : bool :=
  Ascii.eqb c QUOTE || Ascii.eqb c BACKSLASH || Ascii.eqb c "/"%char
  || Ascii.eqb c "b"%char || Ascii.eqb c "f"%char || Ascii.eqb c "n"%char
  || Ascii.eqb c "r"%char || Ascii.eqb c "t"%char.

(** The mode a finished string leaves: a key wants its colon. *)
Definition after_string (is_key : bool) : mode :=
  if is_key then MColon else MAfter.

(** A value starts with [c]. *)
Definition start_value (c : ascii) (stack : list frame) : option config :=
  if Ascii.eqb c LBRACE then Some (MObjFirst, FObject :: stack)
  else if Ascii.eqb c LBRACKET then Some (MArrFirst, FArray :: stack)
  else if Ascii.eqb c QUOTE then Some (MStr false, stack)
  else if Ascii.eqb c "-"%char then Some (MNum NMinus, stack)
  else if Ascii.eqb c "0"%char then Some (MNum NZero, stack)
  else if is_digit19 c then Some (MNum NInt, stack)
  else if Ascii.eqb c "t"%char then Some (MLit Lrue, stack)
  else if Ascii.eqb c "f"%char then Some (MLit Lalse, stack)
  else if Ascii.eqb c "n"%char then Some (MLit Lull, stack)
  else None.

(** [c] follows a complete value. *)
Definition after_value (c : ascii) (stack : list frame) : option config :=
  if is_ws c then Some (MAfter, stack)
  else match stack with
       | FObject :: below =>
           if Ascii.eqb c COMMA then Some (MKey, stack)
           else if Ascii.eqb c RBRACE then Some (MAfter, below)
           else None
       | FArray :: below =>
           if Ascii.eqb c COMMA then Some (MValue, stack)
           else if Ascii.eqb c RBRACKET then Some (MAfter, below)
           else None
       | [] => None
       end.

(** A number may end here. *)
Definition num_final (ns : numstate) : bool :=
  match ns with
  | NZero | NInt | NFrac | NExpDigits => true
  | _ => false
  end.

Definition is_e (c : ascii) : bool := Ascii.eqb c "e"%char || Ascii.eqb c "E"%char.
Definition is_sign (c : ascii) : bool := Ascii.eqb c "+"%char || Ascii.eqb c "-"%char.

(** The next state inside a number, [None] when [c] does not continue it. *)
Definition num_step (ns : numstate) (c : ascii) : option numstate :=
  match ns with
  | NMinus =>
      if Ascii.eqb c "0"%char then Some NZero
      else if is_digit19 c then Some NInt else None
  | NZero =>
      if Ascii.eqb c "."%char then Some NDot
      else if is_e c then Some NExp else None
  | NInt =>
      if is_digit c then Some NInt
      else if Ascii.eqb c "."%char then Some NDot
      else if is_e c then Some NExp else None
  | NDot => if is_digit c then Some NFrac else None
  | NFrac =>
      if is_digit c then Some NFrac
      else if is_e c then Some NExp else None
  | NExp =>
      if is_sign c then Some NExpSign
      else if is_digit c then Some NExpDigits else None
  | NExpSign => if is_digit c then Some NExpDigits else None
  | NExpDigits => if is_digit c then Some NExpDigits else None
  end.

Definition step (cfg : config) (c : ascii) : option config :=
  let '(m, stack) := cfg in
  match m with
  | MValue => if is_ws c then Some cfg else start_value c stack
  | MArrFirst =>
      if is_ws c then Some cfg
      else if Ascii.eqb c RBRACKET then Some (MAfter, tl stack)
      else start_value c stack
  | MObjFirst =>
      if is_ws c then Some cfg
      else if Ascii.eqb c RBRACE then Some (MAfter, tl stack)
      else if Ascii.eqb c QUOTE then Some (MStr true, stack)
      else None
  | MKey =>
      if is_ws c then Some cfg
      else if Ascii.eqb c QUOTE then Some (MStr true, stack)
      else None
  | MColon =>
      if is_ws c then Some cfg
      else if Ascii.eqb c COLON then Some (MValue, stack)
      else None
  | MAfter => after_value c stack
  | MStr k =>
      if Ascii.eqb c QUOTE then Some (after_string k, stack)
      else if Ascii.eqb c BACKSLASH then Some (MEsc k, stack)
      else if is_control c then None
      else Some cfg
  | MEsc k =>
      if is_simple_escape c then Some (MStr k, stack)
      else if Ascii.eqb c "u"%char then Some (MHex k 3, stack)
      else None
  | MHex k n =>
      if is_hex_digit c then
        match n with
        | O => Some (MStr k, stack)
        | S n' => Some (MHex k n', stack)
        end
      else None
  | MNum ns =>
      match num_step ns c with
      | Some ns' => Some (MNum ns', stack)
      | None => if num_final ns then after_value c stack else None
      end
  | MLit l =>
      let '(x, next) := lit_expect l in
      if Ascii.eqb c x then
        Some (match next with Some l' => MLit l' | None => MAfter end, stack)
      else None
  end.

Fixpoint run (cfg : config) (s : list ascii) : option config :=
  match s with
  | [] => Some cfg
  | c :: s' =>
      match step cfg c with
      | Some cfg' => run cfg' s'
      | None => None
      end
  end.

(** The text may end in this configuration. *)
Definition accepting (cfg : config) : bool :=
  match cfg with
  | (MAfter, []) => true
  | (MNum ns, []) => num_final ns
  | _ => false
  end.

Definition initial : config := (MValue, []).

(** The [in_string] and [escape_next] flags a string-aware scanner holds
    in this mode. *)
Definition flags_of (m : mode) : bool * bool :=
  match m with
  | MStr _ | MHex _ _ => (true, false)
  | MEsc _ => (true, true)
  | _ => (false, false)
  end.

Definition valid (s : list ascii) : bool :=
  match run initial s with
  | Some cfg => accepting cfg
  | None => false
  end.

(** Leading and trailing ASCII whitespace removed. *)
Fixpoint ltrim (s : list ascii) : list ascii :=
  match s with
  | c :: rest => if is_ws c then ltrim rest else s
  | [] => []
  end.

Definition rtrim (s : list ascii) : list ascii := rev (ltrim (rev s)).
Definition trim (s : list ascii) : list ascii := rtrim (ltrim s).

(** *** Texts cut short

    The closing brackets owed to the open containers, innermost first. *)
Definition closer_of (f : frame) : ascii :=
  match f with FObject => RBRACE | FArray => RBRACKET end.

Definition closers (stack : list frame) : list ascii := map closer_of stack.

(** A complete value has just ended. *)
Definition value_ended (m : mode) : bool :=
  match m with
  | MAfter => true
  | MNum ns => num_final ns
  | _ => false
  end.

(** A value is expected next, and a string here is a value, not a key. *)
Definition value_start (m : mode) : bool :=
  match m with
  | MValue | MArrFirst => true
  | _ => false
  end.

(** The deepest nesting reached while reading [s] from [cfg]. *)
Fixpoint peak (cfg : config) (s : list ascii) : nat :=
  match s with
  | [] => List.length (snd cfg)
  | c :: s' =>
      match step cfg c with
      | Some cfg' => Nat.max (List.length (snd cfg)) (peak cfg' s')
      | None => List.length (snd cfg)
      end
  end.

Definition nesting (s : list ascii) : nat := peak initial s.

End Json.

(* ================================================================== *)
(** * Part II. Properties                                              *)
(* ================================================================== *)

(** ** Raw memory facts *)

Module BytesFacts.
Import Bytes.

Lemma store_length buf i c : length (store buf i c) = length buf.
Proof.
  revert i; induction buf as [|x t IH]; intros [|j]; simpl; auto.
Qed.

Lemma memcpy_length dst off src : length (memcpy dst off src) = length dst.
Proof.
  revert off src; induction dst as [|x t IH]; intros [|off] [|c src]; simpl; auto.
Qed.

Lemma get_store_same buf i c : i < length buf -> get (store buf i c) i = c.
Proof.
  unfold get; revert i; induction buf as [|x t IH]; intros [|j] H; simpl in *;
    try lia; auto.
  apply IH; lia.
Qed.

Lemma get_store_other buf i j c : i <> j -> get (store buf i c) j = get buf j.
Proof.
  unfold get; revert i j; induction buf as [|x t IH]; intros [|i] [|j] H; simpl;
    try congruence; auto.
Qed.

Lemma firstn_store_below buf i c n :
  n <= i -> firstn n (store buf i c) = firstn n buf.
Proof.
  revert i n; induction buf as [|x t IH]; intros [|i] [|n] H; simpl; auto; try lia.
  f_equal; apply IH; lia.
Qed.

Lemma firstn_store_snoc buf i c :
  i < length buf -> firstn (S i) (store buf i c) = firstn i buf ++ [c].
Proof.
  revert i; induction buf as [|x t IH]; intros [|i] H; simpl in *; try lia; auto.
  f_equal; apply IH; lia.
Qed.

Lemma skipn_store_above buf i c n :
  i < n -> skipn n (store buf i c) = skipn n buf.
Proof.
  revert i n; induction buf as [|x t IH]; intros [|i] [|n] H; simpl; auto; try lia.
  apply IH; lia.
Qed.

(** [memcpy] inside the destination overwrites exactly its window. *)
Lemma memcpy_spec dst off src :
  off + length src <= length dst ->
  memcpy dst off src = firstn off dst ++ src ++ skipn (off + length src) dst.
Proof.
  revert off src; induction dst as [|x t IH]; intros [|off] [|c src] H;
    simpl in *; auto; try lia.
  - f_equal. rewrite (IH 0 src) by (simpl; lia). reflexivity.
  - f_equal. rewrite (IH off []) by (simpl; lia). simpl.
    rewrite Nat.add_0_r. reflexivity.
  - f_equal. rewrite (IH off (c :: src)) by (simpl; lia). reflexivity.
Qed.

Lemma firstn_memcpy_0 dst src :
  length src <= length dst -> firstn (length src) (memcpy dst 0 src) = src.
Proof.
  intros H. rewrite memcpy_spec by (simpl; lia). simpl.
  rewrite firstn_app, firstn_all, Nat.sub_diag. simpl. apply app_nil_r.
Qed.

Lemma memchr_some s c n k :
  memchr s c n = Some k ->
  k < n /\ k < length s /\ get s k = c /\ forall j, j < k -> get s j <> c.
Proof.
  revert s k; induction n as [|n IH]; intros [|x s] k; simpl; try discriminate.
  destruct (Ascii.eqb_spec x c) as [->|Hne].
  - intros [= <-]. repeat split; try lia.
  - destruct (memchr s c n) as [k'|] eqn:E; simpl; try discriminate.
    intros [= <-]. destruct (IH _ _ E) as (H1 & H2 & H3 & H4).
    repeat split; try lia; auto.
    intros [|j] Hj; unfold get; simpl; auto. apply H4; lia.
Qed.

Lemma memchr_none s c n :
  memchr s c n = None -> forall j, j < n -> j < length s -> get s j <> c.
Proof.
  revert s; induction n as [|n IH]; intros [|x s]; simpl; intros H j Hj Hl;
    try lia.
  destruct (Ascii.eqb_spec x c) as [->|Hne]; try discriminate.
  destruct (memchr s c n) eqn:E; simpl in H; try discriminate.
  destruct j as [|j]; unfold get; simpl; auto.
  apply (IH s E); lia.
Qed.

End BytesFacts.

(* ------------------------------------------------------------------ *)
(** ** Line buffer *)

Module LineBufferFacts.
Import Bytes BytesFacts LineBuffer.

(** The representation invariant of the data model. *)
Definition wf (buf : conduit_line_buffer) : Prop :=
  read_pos buf <= write_pos buf /\ write_pos buf <= capacity buf
  /\ length (data buf) = capacity buf.

Lemma create_wf n : wf (conduit_line_buffer_create n).
Proof.
  unfold wf, conduit_line_buffer_create; simpl.
  rewrite repeat_length. lia.
Qed.

Lemma compact_pending buf :
  conduit_line_buffer_pending (maybe_compact buf) = conduit_line_buffer_pending buf.
Proof.
  unfold conduit_line_buffer_pending, maybe_compact.
  destruct (_ && _); simpl; lia.
Qed.

Lemma compact_wf buf : wf buf -> wf (maybe_compact buf).
Proof.
  unfold wf, maybe_compact. intros (H1 & H2 & H3).
  destruct (_ && _); simpl; auto.
  repeat split; try lia.
  destruct (0 <? _); auto. now rewrite memcpy_length.
Qed.

Lemma append_spec buf bs ok :
  wf buf ->
  let '(rc, buf') := conduit_line_buffer_append buf bs ok in
  wf buf' /\
  ((rc = 0%Z /\
    conduit_line_buffer_pending buf' = conduit_line_buffer_pending buf + length bs)
   \/ (rc = (-1)%Z /\
       conduit_line_buffer_pending buf' = conduit_line_buffer_pending buf)).
Proof.
  intros Hwf. unfold conduit_line_buffer_append.
  destruct (Nat.eqb_spec (length bs) 0) as [E|E].
  { split; auto. left. split; auto. lia. }
  assert (Hc := compact_wf _ Hwf). assert (Hp := compact_pending buf).
  unfold conduit_line_buffer_pending in *.
  destruct (Nat.ltb_spec (capacity buf) (write_pos buf + length bs)) as [L1|L1].
  - destruct (Nat.ltb_spec (capacity (maybe_compact buf))
                (write_pos (maybe_compact buf) + length bs)) as [L2|L2].
    + destruct ok.
      * destruct Hc as (C1 & C2 & C3). unfold wf; simpl.
        rewrite memcpy_length, length_app, repeat_length.
        split; [|left; split; auto; lia].
        destruct (Nat.ltb_spec (capacity (maybe_compact buf) * 2)
                    (write_pos (maybe_compact buf) + length bs)); lia.
      * split; auto.
    + destruct Hc as (C1 & C2 & C3). unfold wf; simpl.
      rewrite memcpy_length. split; [lia | left; split; auto; lia].
  - destruct Hwf as (C1 & C2 & C3). unfold wf; simpl.
    rewrite memcpy_length. split; [lia | left; split; auto; lia].
Qed.

(** What a call of [conduit_line_buffer_next_line] found: the offset of
    the earliest LF or CR within the pending bytes. *)
Definition earliest_newline (buf : conduit_line_buffer) : option nat :=
  let pending := write_pos buf - read_pos buf in
  let start := skipn (read_pos buf) (data buf) in
  match memchr start LF pending, memchr start CR pending with
  | Some lf, Some cr => Some (if lf <? cr then lf else cr)
  | Some lf, None => Some lf
  | None, cr => cr
  end.

Lemma earliest_newline_bound buf k :
  earliest_newline buf = Some k -> k < write_pos buf - read_pos buf.
Proof.
  unfold earliest_newline.
  destruct (memchr _ LF _) as [lf|] eqn:E1; destruct (memchr _ CR _) as [cr|] eqn:E2;
    intros [= <-];
    try (apply memchr_some in E1); try (apply memchr_some in E2);
    try destruct (lf <? cr); intuition.
Qed.

Lemma next_line_unfold buf line_out cap ll :
  conduit_line_buffer_next_line buf line_out cap ll =
  match earliest_newline buf with
  | None => mkres 0 buf line_out ll 0
  | Some line_bytes =>
      if cap <=? line_bytes then mkres 0 buf line_out ll 0 else
      let start := skipn (read_pos buf) (data buf) in
      let consume :=
        if Ascii.eqb (get start line_bytes) CR then
          if (read_pos buf + (line_bytes + 1) <? write_pos buf)
             && Ascii.eqb (get (data buf) (read_pos buf + (line_bytes + 1))) LF
          then line_bytes + 1 + 1 else line_bytes + 1
        else line_bytes + 1 in
      mkres 1 (maybe_compact (mkbuf (data buf) (capacity buf)
                                    (read_pos buf + consume) (write_pos buf)))
            (store (memcpy line_out 0 (firstn line_bytes start)) line_bytes NUL)
            line_bytes consume
  end.
Proof.
  unfold conduit_line_buffer_next_line, earliest_newline.
  destruct (Nat.eqb_spec (write_pos buf - read_pos buf) 0) as [E|E].
  - rewrite E. destruct (skipn _ _); reflexivity.
  - reflexivity.
Qed.

Lemma next_line_spec buf line_out cap ll :
  wf buf ->
  let r := conduit_line_buffer_next_line buf line_out cap ll in
  wf (nl_buf r) /\
  conduit_line_buffer_pending (nl_buf r) + nl_consume r
    = conduit_line_buffer_pending buf /\
  ((nl_ret r = 0%Z /\ nl_consume r = 0) \/
   (nl_ret r = 1%Z /\
    (nl_consume r = nl_line_len r + 1 \/ nl_consume r = nl_line_len r + 2))).
Proof.
  intros Hwf. cbv zeta. rewrite next_line_unfold.
  destruct (earliest_newline buf) as [k|] eqn:E.
  2:{ simpl. split; [auto|]. split; [lia|]. left; auto. }
  destruct (cap <=? k).
  { simpl. split; [auto|]. split; [lia|]. left; auto. }
  apply earliest_newline_bound in E. cbv zeta.
  set (consume := if Ascii.eqb _ CR then _ else _).
  assert (Hc : (consume = k + 1 \/ consume = k + 2)
               /\ read_pos buf + consume <= write_pos buf).
  { subst consume. destruct (Ascii.eqb _ CR); [|lia].
    destruct (Nat.ltb_spec (read_pos buf + (k + 1)) (write_pos buf)); simpl;
      [destruct (Ascii.eqb _ LF)|]; lia. }
  destruct Hc as (Hc1 & Hc2). destruct Hwf as (W1 & W2 & W3). simpl.
  split; [apply compact_wf; unfold wf; simpl; lia|].
  split; [rewrite compact_pending; unfold conduit_line_buffer_pending; simpl; lia|].
  right; auto.
Qed.

(** The accounting invariant of a trace. *)
Definition accounted (t : trace) : Prop :=
  wf (final t) /\
  conduit_line_buffer_pending (final t) + consumed t = appended t.

Lemma step_accounted t c : accounted t -> accounted (step t c).
Proof.
  intros (Hwf & Hacc). destruct c as [bs ok | cap]; simpl.
  - generalize (append_spec _ bs ok Hwf).
    destruct (conduit_line_buffer_append (final t) bs ok) as [rc buf'].
    intros (Hwf' & [(-> & Hp) | (-> & Hp)]); simpl; split; simpl; auto; lia.
  - generalize (next_line_spec _ (repeat NUL cap) cap 0 Hwf). cbv zeta.
    set (r := conduit_line_buffer_next_line _ _ _ _).
    intros (Hwf' & Hp & [(-> & Hz) | (-> & Hz)]); simpl; split; simpl; auto; lia.
Qed.

Lemma run_accounted init script : accounted (run init script).
Proof.
  unfold run.
  assert (H : accounted
                (mktrace (conduit_line_buffer_create init) [] 0 0 [])).
  { split; simpl; [apply create_wf | reflexivity]. }
  revert H. generalize (mktrace (conduit_line_buffer_create init) [] 0 0 []).
  induction script as [|c script IH]; intros t Ht; simpl; auto.
  apply IH, step_accounted, Ht.
Qed.

(** C7.  After any script of [append] and [next_line] calls on a fresh
    buffer, [pending()] is exactly B - C, where B is the number of bytes of
    the successful appends and C the bytes consumed by the successful
    [next_line] calls (each consumes its line plus one or two delimiter
    bytes); and [maybe_compact] never changes the pending count. *)
Theorem pending_is_appended_minus_consumed :
  forall (initial_capacity : nat) (script : list call),
    let t := run initial_capacity script in
    conduit_line_buffer_pending (final t) = appended t - consumed t
    /\ consumed t <= appended t
    /\ (forall buf, conduit_line_buffer_pending (maybe_compact buf)
                    = conduit_line_buffer_pending buf)
    /\ (forall buf line_out cap ll,
          let r := conduit_line_buffer_next_line buf line_out cap ll in
          nl_ret r = 1%Z ->
          nl_consume r = nl_line_len r + 1 \/ nl_consume r = nl_line_len r + 2).
Proof.
  intros init script t. destruct (run_accounted init script) as (Hwf & Hacc).
  fold t in Hwf, Hacc. repeat split; try lia.
  - apply compact_pending.
  - intros buf line_out cap ll r Hr. subst r.
    rewrite next_line_unfold in *.
    destruct (earliest_newline buf); simpl in *; try discriminate.
    destruct (cap <=? n); simpl in *; try discriminate.
    destruct (Ascii.eqb _ CR); auto. destruct (_ && _); auto.
    right; lia.
Qed.

(** *** Finding the delimiter *)

Lemma memchr_firstn s c n : memchr (firstn n s) c n = memchr s c n.
Proof.
  revert s; induction n as [|n IH]; intros [|x s]; simpl; auto.
  destruct (Ascii.eqb x c); auto. now rewrite IH.
Qed.

Lemma memchr_app_hit line c rest n :
  Forall (fun x => x <> c) line -> length line < n ->
  memchr (line ++ c :: rest) c n = Some (length line).
Proof.
  revert n; induction line as [|x line IH]; intros [|n] Hall Hn; simpl in *; try lia.
  - now rewrite Ascii.eqb_refl.
  - inversion Hall; subst.
    destruct (Ascii.eqb_spec x c); [contradiction|].
    rewrite IH by (auto; lia). reflexivity.
Qed.

Lemma memchr_app_miss line d c rest n k :
  Forall (fun x => x <> c) line -> d <> c ->
  memchr (line ++ d :: rest) c n = Some k -> length line < k.
Proof.
  intros Hall Hd Hk. apply memchr_some in Hk. destruct Hk as (_ & _ & Hg & _).
  destruct (Nat.lt_trichotomy k (length line)) as [L|[L|L]]; auto; exfalso.
  - unfold get in Hg. rewrite app_nth1 in Hg by auto.
    rewrite Forall_forall in Hall. apply (Hall (nth k line NUL)); auto.
    apply nth_In; auto.
  - subst k. unfold get in Hg. rewrite app_nth2, Nat.sub_diag in Hg by auto.
    simpl in Hg. contradiction.
Qed.

Definition not_newline (c : ascii) : Prop := c <> LF /\ c <> CR.

Lemma earliest_newline_found buf line d rest :
  pending_bytes buf = line ++ d :: rest ->
  d = LF \/ d = CR -> Forall not_newline line ->
  earliest_newline buf = Some (length line).
Proof.
  intros Hp Hd Hline. unfold earliest_newline, pending_bytes in *.
  set (n := write_pos buf - read_pos buf) in *.
  set (start := skipn (read_pos buf) (data buf)) in *.
  assert (Hn : length line < n).
  { assert (L : length (firstn n start) <= n) by apply firstn_le_length.
    rewrite Hp, length_app in L. simpl in L. lia. }
  rewrite <- (memchr_firstn start LF), <- (memchr_firstn start CR), Hp.
  assert (H1 : Forall (fun x => x <> LF) line)
    by (eapply Forall_impl; [|exact Hline]; intros a Ha; apply Ha).
  assert (H2 : Forall (fun x => x <> CR) line)
    by (eapply Forall_impl; [|exact Hline]; intros a Ha; apply Ha).
  destruct Hd as [-> | ->].
  - rewrite memchr_app_hit by auto.
    destruct (memchr (line ++ LF :: rest) CR n) as [cr|] eqn:E; auto.
    apply memchr_app_miss in E; auto; [|discriminate].
    destruct (Nat.ltb_spec (length line) cr); auto; lia.
  - rewrite (@memchr_app_hit line CR) by auto.
    destruct (memchr (line ++ CR :: rest) LF n) as [lf|] eqn:E; auto.
    apply memchr_app_miss in E; auto; [|discriminate].
    destruct (Nat.ltb_spec lf (length line)); auto; lia.
Qed.

Lemma pending_prefix buf line tail :
  pending_bytes buf = line ++ tail ->
  firstn (length line) (skipn (read_pos buf) (data buf)) = line.
Proof.
  unfold pending_bytes. intros Hp.
  set (n := write_pos buf - read_pos buf) in *.
  set (start := skipn (read_pos buf) (data buf)) in *.
  assert (Hn : length line <= n).
  { assert (L : length (firstn n start) <= n) by apply firstn_le_length.
    rewrite Hp, length_app in L. lia. }
  replace (length line) with (Nat.min (length line) n) by lia.
  rewrite <- firstn_firstn, Hp, firstn_app, Nat.sub_diag, firstn_all. simpl.
  apply app_nil_r.
Qed.

(** C10.  When the pending bytes start with a line of [length line] bytes
    followed by a delimiter: a [line_out] whose capacity is at most the
    line length (equal included) is refused with return value 0 and neither
    the buffer nor the outputs change; a larger one receives the line bytes
    with a NUL terminator right behind them. *)
Theorem next_line_needs_room_for_terminator :
  forall (buf : conduit_line_buffer) (line rest line_out : list ascii)
         (d : ascii) (line_out_capacity line_len : nat),
    pending_bytes buf = line ++ d :: rest ->
    d = LF \/ d = CR ->
    Forall not_newline line ->
    length line_out = line_out_capacity ->
    let r := conduit_line_buffer_next_line buf line_out line_out_capacity line_len in
    (line_out_capacity <= length line ->
       nl_ret r = 0%Z /\ nl_buf r = buf /\ nl_line_out r = line_out
       /\ nl_line_len r = line_len)
    /\ (length line < line_out_capacity ->
          nl_ret r = 1%Z /\ nl_line_len r = length line
          /\ firstn (length line) (nl_line_out r) = line
          /\ get (nl_line_out r) (length line) = NUL).
Proof.
  intros buf line rest line_out d cap ll Hp Hd Hline Hcap r. subst r.
  rewrite next_line_unfold, (earliest_newline_found _ _ _ _ Hp Hd Hline).
  destruct (Nat.leb_spec cap (length line)) as [L|L]; split; intros L'; try lia.
  - simpl. auto.
  - simpl. rewrite (pending_prefix buf line (d :: rest) Hp). repeat split.
    + rewrite firstn_store_below by lia. apply firstn_memcpy_0. lia.
    + apply get_store_same. rewrite memcpy_length. lia.
Qed.

Lemma next_line_needs_room_for_terminator_witness :
  let buf := mkbuf (bytes "ab" ++ [LF] ++ bytes "cd") 5 0 5 in
  (let r := conduit_line_buffer_next_line buf (repeat SP 2) 2 7 in
   nl_ret r = 0%Z /\ nl_buf r = buf /\ nl_line_out r = repeat SP 2
   /\ nl_line_len r = 7)
  /\ (let r := conduit_line_buffer_next_line buf (repeat SP 3) 3 7 in
      nl_ret r = 1%Z /\ nl_line_len r = 2
      /\ firstn 2 (nl_line_out r) = bytes "ab" /\ get (nl_line_out r) 2 = NUL).
Proof.
  intros buf.
  assert (Hp : pending_bytes buf = bytes "ab" ++ LF :: bytes "cd") by reflexivity.
  assert (Hl : Forall not_newline (bytes "ab"))
    by (repeat constructor; discriminate).
  split.
  - apply (@next_line_needs_room_for_terminator buf (bytes "ab") (bytes "cd")
             (repeat SP 2) LF 2 7 Hp (or_introl eq_refl) Hl eq_refl).
    simpl; lia.
  - apply (@next_line_needs_room_for_terminator buf (bytes "ab") (bytes "cd")
             (repeat SP 3) LF 3 7 Hp (or_introl eq_refl) Hl eq_refl).
    simpl; lia.
Defined.

(** C4 (failing input).  A CRLF pair split across two appends, with a
    [next_line] call in between: the CR is taken as a whole delimiter
    because the LF has not arrived, and the LF then ends a spurious empty
    line.  The reference splitter, which treats CRLF as one delimiter, gives
    two lines for the same bytes. *)
Theorem crlf_split_across_appends :
  let part1 := bytes "a" ++ [CR] in
  let part2 := [LF] ++ bytes "b" ++ [LF] in
  lines (run 256 [Append part1 true; NextLine 16;
                  Append part2 true; NextLine 16; NextLine 16])
    = [bytes "a"; []; bytes "b"]
  /\ split_lines (part1 ++ part2) = [bytes "a"; bytes "b"]
  /\ lines (run 256 [Append part1 true; Append part2 true;
                     NextLine 16; NextLine 16; NextLine 16])
       = [bytes "a"; bytes "b"].
Proof. vm_compute. auto. Qed.

(** *** The pending bytes are the unread part of the stream *)

Lemma pending_bytes_length buf :
  wf buf -> length (pending_bytes buf) = conduit_line_buffer_pending buf.
Proof.
  intros (H1 & H2 & H3). unfold pending_bytes, conduit_line_buffer_pending.
  rewrite length_firstn, length_skipn. lia.
Qed.

Lemma compact_bytes buf :
  wf buf -> pending_bytes (maybe_compact buf) = pending_bytes buf.
Proof.
  intros (H1 & H2 & H3). unfold maybe_compact.
  destruct (_ && _); auto. unfold pending_bytes at 1. simpl.
  rewrite Nat.sub_0_r.
  destruct (Nat.ltb_spec 0 (write_pos buf - read_pos buf)) as [L|L].
  - assert (Hl : length (pending_bytes buf) = write_pos buf - read_pos buf).
    { unfold pending_bytes. rewrite length_firstn, length_skipn. lia. }
    fold (pending_bytes buf). rewrite <- Hl at 1.
    apply firstn_memcpy_0. lia.
  - unfold pending_bytes.
    replace (write_pos buf - read_pos buf) with 0 by lia. reflexivity.
Qed.

(** Writing [bs] at the write position extends the pending bytes by [bs]. *)
Lemma write_bytes data cap r w bs :
  r <= w -> w + length bs <= length data ->
  pending_bytes (mkbuf (memcpy data w bs) cap r (w + length bs))
  = pending_bytes (mkbuf data cap r w) ++ bs.
Proof.
  intros Hr Hw. unfold pending_bytes. simpl.
  rewrite memcpy_spec by lia.
  rewrite skipn_app, length_firstn.
  replace (r - Nat.min w (length data)) with 0 by lia. simpl.
  rewrite firstn_app, length_skipn, length_firstn.
  replace (w + length bs - r - (Nat.min w (length data) - r)) with (length bs) by lia.
  rewrite firstn_app, Nat.sub_diag, firstn_all. simpl. rewrite app_nil_r.
  rewrite (firstn_all2 (skipn r (firstn w data)))
    by (rewrite length_skipn, length_firstn; lia).
  rewrite firstn_skipn_comm. replace (r + (w - r)) with w by lia. reflexivity.
Qed.

Lemma grow_bytes data cap cap' r w ext :
  r <= w -> w <= length data ->
  pending_bytes (mkbuf (data ++ ext) cap' r w) = pending_bytes (mkbuf data cap r w).
Proof.
  intros Hr Hw. unfold pending_bytes. simpl.
  rewrite skipn_app, firstn_app, length_skipn.
  replace (w - r - (length data - r)) with 0 by lia. simpl. apply app_nil_r.
Qed.

Lemma append_bytes buf bs ok :
  wf buf ->
  let '(rc, buf') := conduit_line_buffer_append buf bs ok in
  pending_bytes buf' = pending_bytes buf ++ (if (rc =? 0)%Z then bs else []).
Proof.
  intros Hwf. unfold conduit_line_buffer_append.
  destruct (Nat.eqb_spec (length bs) 0) as [E|E].
  { destruct bs; [|discriminate]. simpl. now rewrite app_nil_r. }
  assert (Hc := compact_wf _ Hwf). assert (Hb := compact_bytes _ Hwf).
  assert (Hre : forall b, b = mkbuf (data b) (capacity b) (read_pos b) (write_pos b))
    by (intros []; reflexivity).
  destruct (Nat.ltb_spec (capacity buf) (write_pos buf + length bs)) as [L1|L1].
  - destruct (Nat.ltb_spec (capacity (maybe_compact buf))
                (write_pos (maybe_compact buf) + length bs)) as [L2|L2].
    + destruct ok; simpl.
      * destruct Hc as (C1 & C2 & C3).
        rewrite write_bytes; try lia.
        2:{ rewrite length_app, repeat_length.
            destruct (Nat.ltb_spec (capacity (maybe_compact buf) * 2)
                        (write_pos (maybe_compact buf) + length bs)); lia. }
        rewrite (grow_bytes _ (capacity (maybe_compact buf))) by lia.
        now rewrite <- Hre, Hb.
      * now rewrite Hb, app_nil_r.
    + destruct Hc as (C1 & C2 & C3). simpl.
      rewrite write_bytes by lia. now rewrite <- Hre, Hb.
  - destruct Hwf as (C1 & C2 & C3). simpl.
    rewrite write_bytes by lia. now rewrite <- Hre.
Qed.

Lemma advance_bytes buf consume :
  pending_bytes (mkbuf (data buf) (capacity buf) (read_pos buf + consume)
                       (write_pos buf))
  = skipn consume (pending_bytes buf).
Proof.
  unfold pending_bytes. simpl.
  rewrite skipn_firstn_comm, skipn_skipn.
  f_equal; [lia | f_equal; lia].
Qed.

Lemma next_line_bytes buf line_out cap ll :
  wf buf ->
  let r := conduit_line_buffer_next_line buf line_out cap ll in
  pending_bytes (nl_buf r) = skipn (nl_consume r) (pending_bytes buf).
Proof.
  intros Hwf. cbv zeta. rewrite next_line_unfold.
  destruct (earliest_newline buf) as [k|] eqn:E; [|reflexivity].
  destruct (cap <=? k); [reflexivity|].
  apply earliest_newline_bound in E. cbv zeta.
  set (consume := if Ascii.eqb _ CR then _ else _).
  assert (Hc : read_pos buf + consume <= write_pos buf).
  { subst consume. destruct (Ascii.eqb _ CR); [|lia].
    destruct (Nat.ltb_spec (read_pos buf + (k + 1)) (write_pos buf)); simpl;
      [destruct (Ascii.eqb _ LF)|]; lia. }
  simpl. rewrite compact_bytes.
  - apply advance_bytes.
  - destruct Hwf as (W1 & W2 & W3). unfold wf; simpl. lia.
Qed.

(** The stream invariant of a trace. *)
Definition streamed (t : trace) : Prop :=
  wf (final t)
  /\ consumed t <= length (stream t)
  /\ pending_bytes (final t) = skipn (consumed t) (stream t).

Lemma step_streamed t c : streamed t -> streamed (step t c).
Proof.
  intros (Hwf & Hle & Hb). destruct c as [bs ok | cap]; simpl.
  - generalize (append_spec _ bs ok Hwf) (append_bytes _ bs ok Hwf).
    destruct (conduit_line_buffer_append (final t) bs ok) as [rc buf'].
    intros (Hwf' & _) Hb'.
    destruct (rc =? 0)%Z; unfold streamed; simpl.
    + rewrite length_app, skipn_app, Hb', Hb.
      replace (consumed t - length (stream t)) with 0 by lia.
      split; [auto|]. split; [lia | reflexivity].
    + rewrite Hb', Hb, app_nil_r. auto.
  - generalize (next_line_spec _ (repeat NUL cap) cap 0 Hwf)
               (next_line_bytes _ (repeat NUL cap) cap 0 Hwf). cbv zeta.
    set (r := conduit_line_buffer_next_line _ _ _ _).
    intros (Hwf' & Hp & Hret) Hb'.
    assert (Hl := pending_bytes_length _ Hwf).
    rewrite Hb, length_skipn in Hl.
    destruct Hret as [(-> & Hz) | (-> & _)]; unfold streamed; simpl.
    + rewrite Hz in Hb'. simpl in Hb'. rewrite Hb', Hb. auto.
    + rewrite Hb', Hb, skipn_skipn.
      split; [auto|]. split; [lia | f_equal; lia].
Qed.

(** X1.  After any script, the pending region [[read_pos, write_pos)]
    holds exactly the bytes of the successful appends that no [next_line] has
    consumed: growth and compaction move them but never change them. *)
Theorem pending_bytes_are_unread_stream :
  forall (initial_capacity : nat) (script : list call),
    let t := run initial_capacity script in
    pending_bytes (final t) = skipn (consumed t) (stream t)
    /\ length (stream t) = appended t.
Proof.
  intros init script t.
  assert (H : streamed t /\ length (stream t) = appended t).
  { subst t. unfold run.
    assert (H0 : streamed (mktrace (conduit_line_buffer_create init) [] 0 0 [])
                 /\ length (stream (mktrace (conduit_line_buffer_create init) [] 0 0 []))
                    = appended (mktrace (conduit_line_buffer_create init) [] 0 0 [])).
    { split; [|reflexivity]. split; [apply create_wf|]. split; auto. }
    revert H0. generalize (mktrace (conduit_line_buffer_create init) [] 0 0 []).
    induction script as [|c script IH]; intros t0 (Hs & Hl); simpl; auto.
    apply IH. split; [now apply step_streamed|].
    destruct c as [bs ok | cap]; simpl.
    - destruct (conduit_line_buffer_append (final t0) bs ok) as [rc buf'].
      destruct (rc =? 0)%Z; simpl; auto. rewrite length_app. lia.
    - destruct (_ =? 1)%Z; simpl; auto. }
  destruct H as ((_ & _ & Hb) & Hl). auto.
Qed.

(** *** Draining a buffer yields the reference split *)

(** What follows a delimiter [d] once it is consumed: a CR takes a directly
    following LF with it. *)
Definition after_delimiter (d : ascii) (rest : list ascii) : list ascii :=
  match rest with
  | c :: rest' => if Ascii.eqb d CR && Ascii.eqb c LF then rest' else rest
  | [] => []
  end.

Lemma get_firstn l n k : k < n -> get (firstn n l) k = get l k.
Proof.
  unfold get. revert l k; induction n as [|n IH]; intros [|x l] [|k] H;
    simpl; auto; try lia.
  apply IH; lia.
Qed.

Lemma get_skipn l r k : get (skipn r l) k = get l (r + k).
Proof.
  unfold get. revert l; induction r as [|r IH]; intros [|x l]; simpl; auto.
  destruct k; reflexivity.
Qed.

Lemma next_line_found buf line d rest line_out cap ll :
  wf buf ->
  pending_bytes buf = line ++ d :: rest ->
  d = LF \/ d = CR -> Forall not_newline line ->
  length line < cap -> length line_out = cap ->
  let r := conduit_line_buffer_next_line buf line_out cap ll in
  nl_ret r = 1%Z /\ nl_line_len r = length line
  /\ firstn (length line) (nl_line_out r) = line
  /\ pending_bytes (nl_buf r) = after_delimiter d rest.
Proof.
  intros Hwf Hp Hd Hline Hcap Hout.
  pose proof (next_line_bytes buf line_out cap ll Hwf) as Hbytes.
  cbv zeta in *. rewrite next_line_unfold in *.
  rewrite (earliest_newline_found _ _ _ _ Hp Hd Hline) in *.
  destruct (Nat.leb_spec cap (length line)) as [L|_]; [lia|].
  cbv zeta in *. simpl nl_ret. simpl nl_line_len. simpl nl_line_out.
  rewrite (pending_prefix buf line (d :: rest) Hp).
  split; [reflexivity|]. split; [reflexivity|]. split.
  { rewrite firstn_store_below by lia. apply firstn_memcpy_0. lia. }
  simpl nl_buf in *. simpl nl_consume in Hbytes. rewrite Hbytes. clear Hbytes.
  assert (Hlen := pending_bytes_length _ Hwf).
  unfold conduit_line_buffer_pending in Hlen.
  rewrite Hp, length_app in Hlen. simpl in Hlen.
  assert (Hg : forall k, k < write_pos buf - read_pos buf ->
                         get (data buf) (read_pos buf + k) = get (line ++ d :: rest) k).
  { intros k Hk. rewrite <- Hp. unfold pending_bytes.
    now rewrite get_firstn, get_skipn. }
  rewrite get_skipn, Hg by lia.
  replace (get (line ++ d :: rest) (length line)) with d
    by (unfold get; rewrite app_nth2, Nat.sub_diag by lia; reflexivity).
  rewrite Hp.
  assert (Hs1 : skipn (length line + 1) (line ++ d :: rest) = rest).
  { rewrite skipn_app, skipn_all2 by lia.
    replace (length line + 1 - length line) with 1 by lia. reflexivity. }
  unfold after_delimiter.
  destruct (Ascii.eqb d CR) eqn:Ecr; [|destruct rest; rewrite Hs1; reflexivity].
  destruct rest as [|c rest']; simpl in Hlen.
  - destruct (Nat.ltb_spec (read_pos buf + (length line + 1)) (write_pos buf));
      [lia|]. simpl. exact Hs1.
  - destruct (Nat.ltb_spec (read_pos buf + (length line + 1)) (write_pos buf));
      [|lia].
    rewrite Hg by lia.
    replace (get (line ++ d :: c :: rest') (length line + 1)) with c.
    2:{ unfold get. rewrite app_nth2 by lia.
        replace (length line + 1 - length line) with 1 by lia. reflexivity. }
    simpl. destruct (Ascii.eqb c LF); [|exact Hs1].
    rewrite skipn_app, skipn_all2 by lia.
    replace (length line + 1 + 1 - length line) with 2 by lia. reflexivity.
Qed.

Lemma memchr_absent s c : forall n,
  Forall (fun x => x <> c) s -> memchr s c n = None.
Proof.
  induction s as [|x s IH]; intros [|n] H; simpl; auto.
  inversion H; subst. destruct (Ascii.eqb_spec x c); [contradiction|].
  now rewrite IH.
Qed.

Lemma next_line_none buf line_out cap ll :
  Forall not_newline (pending_bytes buf) ->
  conduit_line_buffer_next_line buf line_out cap ll = mkres 0 buf line_out ll 0.
Proof.
  intros H. rewrite next_line_unfold. unfold earliest_newline.
  rewrite <- (memchr_firstn _ LF), <- (memchr_firstn _ CR).
  fold (pending_bytes buf).
  rewrite !memchr_absent; auto.
  - eapply Forall_impl; [|exact H]. intros a Ha; apply Ha.
  - eapply Forall_impl; [|exact H]. intros a Ha; apply Ha.
Qed.

Lemma newline_split (p : list ascii) :
  Forall not_newline p
  \/ exists line d rest,
       p = line ++ d :: rest /\ (d = LF \/ d = CR) /\ Forall not_newline line.
Proof.
  induction p as [|c p IH]; [left; constructor|].
  destruct (Ascii.eqb_spec c LF) as [->|Hlf].
  { right. exists [], LF, p. repeat split; auto. }
  destruct (Ascii.eqb_spec c CR) as [->|Hcr].
  { right. exists [], CR, p. repeat split; auto. }
  destruct IH as [H | (line & d & rest & -> & Hd & Hl)].
  - left. constructor; auto. split; auto.
  - right. exists (c :: line), d, rest. repeat split; auto.
    constructor; auto. split; auto.
Qed.

Lemma split_lines_aux_line line : forall tail acc,
  Forall not_newline line ->
  split_lines_aux (line ++ tail) acc = split_lines_aux tail (rev line ++ acc).
Proof.
  induction line as [|c line IH]; intros tail acc H; simpl; auto.
  inversion H as [|? ? (Hlf & Hcr) Hrest]; subst.
  destruct (Ascii.eqb_spec c LF); [contradiction|].
  destruct (Ascii.eqb_spec c CR); [contradiction|].
  rewrite IH by auto. now rewrite <- app_assoc.
Qed.

Lemma split_lines_none p : Forall not_newline p -> split_lines p = [].
Proof.
  intros H. unfold split_lines.
  rewrite <- (app_nil_r p), split_lines_aux_line by auto. reflexivity.
Qed.

Lemma split_lines_first line d rest :
  Forall not_newline line -> d = LF \/ d = CR ->
  split_lines (line ++ d :: rest) = line :: split_lines (after_delimiter d rest).
Proof.
  intros Hl Hd. unfold split_lines. rewrite split_lines_aux_line by auto.
  rewrite app_nil_r.
  destruct Hd as [-> | ->]; simpl.
  - rewrite rev_involutive. destruct rest; reflexivity.
  - rewrite rev_involutive. destruct rest as [|c rest]; [reflexivity|].
    unfold after_delimiter. rewrite Ascii.eqb_refl. cbn [andb].
    destruct (Ascii.eqb c LF); reflexivity.
Qed.

Lemma fold_step_lines n cap : forall t,
  wf (final t) -> length (pending_bytes (final t)) < cap ->
  lines (fold_left step (repeat (NextLine cap) n) t)
  = lines t ++ firstn n (split_lines (pending_bytes (final t))).
Proof.
  induction n as [|n IH]; intros t Hwf Hcap; simpl repeat; cbn [fold_left].
  - simpl. now rewrite app_nil_r.
  - destruct (newline_split (pending_bytes (final t)))
      as [Hnone | (line & d & rest & Hp & Hd & Hl)].
    + assert (Es : step t (NextLine cap)
                   = mktrace (final t) (lines t) (appended t) (consumed t) (stream t)).
      { simpl. now rewrite next_line_none. }
      rewrite Es, IH by auto. simpl.
      rewrite (split_lines_none _ Hnone). now destruct n.
    + assert (Hlc : length line < cap)
        by (rewrite Hp, length_app in Hcap; simpl in Hcap; lia).
      destruct (next_line_found (final t) line d rest (repeat NUL cap) cap 0
                  Hwf Hp Hd Hl Hlc (repeat_length _ _)) as (R1 & R2 & R3 & R4).
      destruct (next_line_spec (final t) (repeat NUL cap) cap 0 Hwf) as (Hwf' & _).
      cbn [step]. cbv zeta. rewrite R1. simpl Z.eqb. cbv iota.
      rewrite IH; cbn [final lines]; auto.
      * rewrite R2, R3, R4, Hp, (split_lines_first line d rest Hl Hd).
        rewrite <- app_assoc. reflexivity.
      * rewrite R4. rewrite Hp, length_app in Hcap. simpl in Hcap.
        unfold after_delimiter. destruct rest as [|c rest']; simpl in *; [lia|].
        destruct (_ && _); simpl; lia.
Qed.

Lemma append_all_ok buf bs :
  fst (conduit_line_buffer_append buf bs true) = 0%Z.
Proof.
  unfold conduit_line_buffer_append.
  destruct (_ =? 0); auto. destruct (_ <? _); auto. destruct (_ <? _); auto.
Qed.

Lemma fold_appends chunks : forall t,
  streamed t ->
  let t' := fold_left step (map (fun bs => Append bs true) chunks) t in
  streamed t' /\ lines t' = lines t /\ consumed t' = consumed t
  /\ stream t' = stream t ++ concat chunks.
Proof.
  induction chunks as [|bs chunks IH]; intros t Hs;
    cbn [map fold_left concat]; cbv zeta.
  - rewrite app_nil_r. auto.
  - pose proof (step_streamed t (Append bs true) Hs) as Hs1.
    destruct (IH _ Hs1) as (I1 & I2 & I3 & I4).
    split; [exact I1|]. rewrite I2, I3, I4. clear IH I1 I2 I3 I4 Hs1.
    cbn [step]. pose proof (append_all_ok (final t) bs) as Hrc.
    destruct (conduit_line_buffer_append (final t) bs true) as [rc buf'].
    simpl in Hrc. subst rc. simpl. rewrite <- app_assoc. auto.
Qed.

(** X2.  When all bytes are appended before the first [next_line] call,
    in any chunking (a CRLF pair may be split across two appends), the first
    [n] calls of [next_line] return the first [n] lines of the reference
    split of the concatenated input. *)
Theorem drained_lines_are_reference_split :
  forall (initial_capacity : nat) (chunks : list (list ascii))
         (n line_out_capacity : nat),
    length (concat chunks) < line_out_capacity ->
    lines (run initial_capacity
             (map (fun bs => Append bs true) chunks
              ++ repeat (NextLine line_out_capacity) n))
    = firstn n (split_lines (concat chunks)).
Proof.
  intros init chunks n cap Hcap. unfold run. rewrite fold_left_app.
  set (t0 := mktrace (conduit_line_buffer_create init) [] 0 0 []).
  assert (H0 : streamed t0).
  { split; [apply create_wf|]. split; auto. }
  destruct (fold_appends chunks t0 H0) as ((Hwf & _ & Hb) & Hl & Hc & Hs).
  set (t1 := fold_left step _ t0) in *.
  simpl in Hl, Hc, Hs. rewrite Hc, Hs in Hb. simpl in Hb.
  rewrite fold_step_lines; auto; rewrite Hb; auto.
  now rewrite Hl.
Qed.

Lemma drained_lines_are_reference_split_witness :
  let chunks := [bytes "a" ++ [CR]; [LF] ++ bytes "b" ++ [LF]; bytes "c"] in
  length (concat chunks) < 16
  /\ lines (run 0 (map (fun bs => Append bs true) chunks
                   ++ repeat (NextLine 16) 3))
     = firstn 3 (split_lines (concat chunks))
  /\ split_lines (concat chunks) = [bytes "a"; bytes "b"].
Proof.
  intros chunks.
  assert (H : length (concat chunks) < 16) by (vm_compute; lia).
  split; [exact H|]. split; [|reflexivity].
  exact (drained_lines_are_reference_split 0 chunks 3 16 H).
Defined.

End LineBufferFacts.

(* ------------------------------------------------------------------ *)
(** ** Line buffer: draining and whole sessions *)

Module LineBufferSessions.
Import Bytes LineBuffer BytesFacts LineBufferFacts.

Lemma drain_spec buf out cap :
  wf buf -> length out = cap ->
  let '(to_copy, buf', out') := conduit_line_buffer_drain buf out cap in
  to_copy = Nat.min (conduit_line_buffer_pending buf) cap
  /\ firstn to_copy out' = firstn to_copy (pending_bytes buf)
  /\ skipn to_copy out' = skipn to_copy out
  /\ length out' = cap
  /\ pending_bytes buf' = skipn to_copy (pending_bytes buf)
  /\ wf buf'
  /\ capacity buf' = capacity buf.
Proof.
  intros Hwf Hout. unfold conduit_line_buffer_drain, conduit_line_buffer_pending.
  pose proof (pending_bytes_length _ Hwf) as Hlen.
  unfold conduit_line_buffer_pending in Hlen.
  destruct Hwf as (W1 & W2 & W3).
  destruct (Nat.eqb_spec (write_pos buf - read_pos buf) 0) as [E|E].
  - rewrite E. simpl. repeat split; auto.
  - set (to_copy := if _ <? cap then _ else cap).
    assert (Hmin : to_copy = Nat.min (write_pos buf - read_pos buf) cap).
    { subst to_copy. destruct (Nat.ltb_spec (write_pos buf - read_pos buf) cap); lia. }
    set (src := firstn to_copy (skipn (read_pos buf) (data buf))).
    assert (Hsrc : src = firstn to_copy (pending_bytes buf)).
    { subst src. unfold pending_bytes. rewrite firstn_firstn.
      f_equal. lia. }
    assert (Hl : length src = to_copy).
    { rewrite Hsrc, length_firstn, Hlen. lia. }
    split; [exact Hmin|].
    rewrite memcpy_spec by (rewrite Hl; lia). simpl firstn. simpl app.
    split; [|split; [|split; [|split; [|split]]]].
    + rewrite <- Hl at 1. rewrite firstn_app, Nat.sub_diag, firstn_all.
      simpl. now rewrite app_nil_r.
    + rewrite <- Hl at 1. rewrite skipn_app, Nat.sub_diag, skipn_all.
      simpl. now rewrite Hl.
    + rewrite length_app, length_skipn, Hl. simpl. lia.
    + apply advance_bytes.
    + unfold wf; simpl. lia.
    + reflexivity.
Qed.

(** The three line delimiters. *)
Definition delimiter (d : list ascii) : Prop :=
  d = [LF] \/ d = [CR] \/ d = [CR; LF].

Lemma compact_capacity buf : capacity (maybe_compact buf) = capacity buf.
Proof. unfold maybe_compact. destruct (_ && _); reflexivity. Qed.

Lemma next_line_outcome buf cap :
  wf buf ->
  let r := conduit_line_buffer_next_line buf (repeat NUL cap) cap 0 in
  wf (nl_buf r) /\ capacity (nl_buf r) = capacity buf
  /\ ((nl_ret r = 0%Z /\ nl_buf r = buf)
      \/ (nl_ret r = 1%Z
          /\ exists line d,
               Forall not_newline line /\ delimiter d
               /\ length line < cap
               /\ firstn (nl_line_len r) (nl_line_out r) = line
               /\ nl_consume r = length line + length d
               /\ pending_bytes buf = line ++ d ++ pending_bytes (nl_buf r))).
Proof.
  intros Hwf. cbv zeta.
  destruct (next_line_spec buf (repeat NUL cap) cap 0 Hwf) as (Hwf' & Hcount & _).
  split; [exact Hwf'|]. split.
  { rewrite next_line_unfold. destruct (earliest_newline buf); [|reflexivity].
    destruct (cap <=? n); [reflexivity|]. cbv zeta. simpl nl_buf.
    now rewrite compact_capacity. }
  destruct (newline_split (pending_bytes buf))
    as [Hnone | (line & d & rest & Hp & Hd & Hl)].
  { left. now rewrite next_line_none. }
  destruct (Nat.leb_spec cap (length line)) as [Hsmall | Hroom].
  { left. rewrite next_line_unfold,
      (earliest_newline_found _ _ _ _ Hp Hd Hl).
    destruct (Nat.leb_spec cap (length line)); [auto | lia]. }
  right.
  destruct (next_line_found buf line d rest (repeat NUL cap) cap 0
              Hwf Hp Hd Hl Hroom (repeat_length _ _)) as (R1 & R2 & R3 & R4).
  split; [exact R1|].
  pose proof (pending_bytes_length _ Hwf) as L0.
  pose proof (pending_bytes_length _ Hwf') as L1.
  rewrite Hp, length_app in L0. simpl in L0. rewrite R4 in L1.
  assert (Hcases : exists dl, delimiter dl /\ d :: rest = dl ++ after_delimiter d rest).
  { unfold after_delimiter. destruct rest as [|c rest'].
    - exists [d]. split; [|reflexivity].
      destruct Hd as [-> | ->]; [left | right; left]; reflexivity.
    - destruct (Ascii.eqb_spec d CR) as [-> | Hcr]; cbn [andb].
      + destruct (Ascii.eqb_spec c LF) as [-> | Hlf].
        * exists [CR; LF]. split; [right; right|]; reflexivity.
        * exists [CR]. split; [right; left|]; reflexivity.
      + exists [d]. split; [|reflexivity].
        destruct Hd as [-> | ->]; [left; reflexivity | contradiction]. }
  destruct Hcases as (dl & Hdl & Hsplit).
  exists line, dl. rewrite R2, R4.
  split; [exact Hl|]. split; [exact Hdl|]. split; [exact Hroom|].
  split; [exact R3|]. split.
  - apply (f_equal (@length ascii)) in Hsplit. rewrite length_app in Hsplit.
    simpl in Hsplit. unfold conduit_line_buffer_pending in *. lia.
  - now rewrite Hp, Hsplit.
Qed.

(** The bytes an observed item stands for: a line without CR or LF,
    followed by its delimiter, or a drained chunk. *)
Definition piece_of (i : item) (bs : list ascii) : Prop :=
  match i with
  | Line line consume =>
      Forall not_newline line
      /\ exists d, delimiter d /\ bs = line ++ d /\ consume = length bs
  | Chunk chunk => chunk <> [] /\ bs = chunk
  end.

Definition conserved (s : session) : Prop :=
  wf (s_buf s)
  /\ exists pieces,
       Forall2 piece_of (s_items s) pieces
       /\ s_fed s = concat pieces ++ pending_bytes (s_buf s).

Lemma session_step_conserved s o : conserved s -> conserved (session_step s o).
Proof.
  intros (Hwf & pieces & Hitems & Hfed).
  destruct o as [bs ok | cap | cap]; cbn [session_step].
  - generalize (append_spec _ bs ok Hwf) (append_bytes _ bs ok Hwf).
    destruct (conduit_line_buffer_append (s_buf s) bs ok) as [rc buf'].
    intros (Hwf' & _) Hb. split; [exact Hwf'|]. exists pieces. cbn.
    split; [exact Hitems|]. rewrite Hb, Hfed.
    destruct (rc =? 0)%Z; [now rewrite app_assoc | now rewrite app_nil_r].
  - destruct (next_line_outcome (s_buf s) cap Hwf) as (Hwf' & _ & Hcase).
    split; [exact Hwf'|]. cbn.
    destruct Hcase as [(-> & ->) | (-> & line & d & Hl & Hd & _ & Hout & Hc & Hp)].
    + exists pieces. auto.
    + exists (pieces ++ [line ++ d]). cbn. split.
      * apply Forall2_app; [exact Hitems|]. constructor; [|constructor].
        cbn. rewrite Hout. split; [exact Hl|]. exists d.
        rewrite length_app. auto.
      * rewrite concat_app. cbn. rewrite app_nil_r, Hfed, Hp.
        now rewrite <- !app_assoc.
  - generalize (drain_spec (s_buf s) (repeat NUL cap) cap Hwf (repeat_length _ _)).
    destruct (conduit_line_buffer_drain (s_buf s) (repeat NUL cap) cap)
      as [[to_copy buf'] out'].
    intros (Hmin & Hfirst & _ & _ & Hrest & Hwf' & _).
    split; [exact Hwf'|]. cbn [s_buf s_items s_fed].
    destruct (Nat.ltb_spec 0 to_copy) as [Hpos | Hzero].
    + exists (pieces ++ [firstn to_copy (pending_bytes (s_buf s))]). split.
      * apply Forall2_app; [exact Hitems|]. constructor; [|constructor].
        cbn [piece_of]. split; [|symmetry; exact Hfirst]. rewrite Hfirst.
        pose proof (pending_bytes_length _ Hwf) as L.
        destruct to_copy; [lia|].
        destruct (pending_bytes (s_buf s)); [simpl in L; lia | discriminate].
      * rewrite concat_app. cbn [concat]. rewrite app_nil_r, Hfed, Hrest.
        now rewrite <- app_assoc, firstn_skipn.
    + exists pieces. split; [exact Hitems|].
      replace to_copy with 0 in Hrest by lia. now rewrite Hrest.
Qed.

Lemma session_run_conserved init script : conserved (session_run init script).
Proof.
  unfold session_run.
  assert (H0 : conserved (mksession (conduit_line_buffer_create init) [] [])).
  { split; [apply create_wf|]. exists []. split; [constructor|reflexivity]. }
  revert H0. generalize (mksession (conduit_line_buffer_create init) [] []).
  induction script as [|o script IH]; intros s0 H0; simpl; auto.
  apply IH. now apply session_step_conserved.
Qed.

Lemma append_capacity buf bs ok :
  capacity buf <= capacity (snd (conduit_line_buffer_append buf bs ok)).
Proof.
  unfold conduit_line_buffer_append.
  destruct (length bs =? 0); [simpl; lia|]. cbv zeta.
  destruct (capacity buf <? write_pos buf + length bs); [|simpl; lia].
  rewrite compact_capacity.
  destruct (Nat.ltb_spec (capacity buf) (write_pos (maybe_compact buf) + length bs));
    [|simpl; rewrite compact_capacity; lia].
  destruct ok; simpl; [|rewrite compact_capacity; lia].
  destruct (Nat.ltb_spec (capacity buf * 2)
              (write_pos (maybe_compact buf) + length bs)); lia.
Qed.

Lemma session_step_capacity s o :
  wf (s_buf s) -> capacity (s_buf s) <= capacity (s_buf (session_step s o)).
Proof.
  intros Hwf. destruct o as [bs ok | cap | cap]; cbn [session_step].
  - pose proof (append_capacity (s_buf s) bs ok) as H.
    destruct (conduit_line_buffer_append (s_buf s) bs ok); exact H.
  - destruct (next_line_outcome (s_buf s) cap Hwf) as (_ & E & _).
    cbn [s_buf]. rewrite E. lia.
  - generalize (drain_spec (s_buf s) (repeat NUL cap) cap Hwf (repeat_length _ _)).
    destruct (conduit_line_buffer_drain (s_buf s) (repeat NUL cap) cap)
      as [[to_copy buf'] out'].
    intros (_ & _ & _ & _ & _ & _ & E). cbn [s_buf]. rewrite E. lia.
Qed.

(** *** Interleaved reads of a stream without CRLF pairs *)

Lemma no_crlf_tail c s : no_crlf (c :: s) = true -> no_crlf s = true.
Proof.
  destruct s as [|c' s]; [reflexivity|]. cbn [no_crlf].
  now intros (_ & H)%andb_prop.
Qed.

Lemma no_crlf_prefix a : forall b, no_crlf (a ++ b) = true -> no_crlf a = true.
Proof.
  induction a as [|c a IH]; intros b H; [reflexivity|].
  destruct a as [|c' a]; [reflexivity|].
  cbn [app no_crlf] in *. apply andb_prop in H as (H1 & H2).
  rewrite H1. cbn [andb]. exact (IH b H2).
Qed.

Lemma no_crlf_lone_cr x : forall rest,
  no_crlf (x ++ CR :: rest) = true -> after_delimiter CR rest = rest.
Proof.
  induction x as [|a x IH]; intros rest H.
  - destruct rest as [|c rest]; [reflexivity|].
    cbn [app no_crlf] in H. apply andb_prop in H as (H & _).
    unfold after_delimiter. rewrite Ascii.eqb_refl in *. cbn [andb] in *.
    now destruct (Ascii.eqb c LF).
  - apply IH. exact (no_crlf_tail _ _ H).
Qed.

Lemma split_lines_piece line d rest :
  Forall not_newline line -> delimiter d ->
  (d = [CR] -> after_delimiter CR rest = rest) ->
  split_lines (line ++ d ++ rest) = line :: split_lines rest.
Proof.
  intros Hl [-> | [-> | ->]] Hcr; cbn [app].
  - rewrite split_lines_first by auto. f_equal. f_equal.
    unfold after_delimiter. now destruct rest.
  - rewrite split_lines_first by auto. now rewrite Hcr.
  - rewrite split_lines_first by auto. reflexivity.
Qed.

(** The lines handed out so far are the reference split of the part of
    the stream already consumed, and that split does not depend on what
    follows. *)
Definition split_so_far (t : trace) : Prop :=
  wf (final t)
  /\ (no_crlf (stream t) = true ->
      exists done,
        stream t = done ++ pending_bytes (final t)
        /\ forall rest, no_crlf (done ++ rest) = true ->
             split_lines (done ++ rest) = lines t ++ split_lines rest).

Lemma step_split_so_far t c : split_so_far t -> split_so_far (step t c).
Proof.
  intros (Hwf & Hinv). destruct c as [bs ok | cap]; cbn [step].
  - generalize (append_spec _ bs ok Hwf) (append_bytes _ bs ok Hwf).
    destruct (conduit_line_buffer_append (final t) bs ok) as [rc buf'].
    intros (Hwf' & _) Hb.
    destruct (rc =? 0)%Z; (split; [exact Hwf'|]); cbn [final stream lines];
      intros Hs.
    + destruct (Hinv (no_crlf_prefix _ _ Hs)) as (done & Hst & Hclosed).
      exists done. split; [|exact Hclosed].
      now rewrite Hb, Hst, app_assoc.
    + destruct (Hinv Hs) as (done & Hst & Hclosed).
      exists done. split; [|exact Hclosed]. now rewrite Hb, app_nil_r.
  - destruct (next_line_outcome (final t) cap Hwf) as (Hwf' & _ & Hcase).
    cbv zeta.
    destruct Hcase as [(-> & ->) | (-> & line & d & Hl & Hd & _ & Hout & _ & Hp)];
      simpl Z.eqb; cbv iota; (split; [assumption|]); cbn [final stream lines].
    + exact Hinv.
    + intros Hs. destruct (Hinv Hs) as (done & Hst & Hclosed).
      exists (done ++ line ++ d). split.
      * now rewrite Hst, Hp, <- !app_assoc.
      * intros rest Hrest. rewrite <- !app_assoc in *.
        rewrite Hclosed by exact Hrest.
        rewrite Hout. f_equal. cbn [app].
        apply split_lines_piece; auto.
        intros ->. apply (no_crlf_lone_cr (done ++ line)).
        now rewrite <- app_assoc.
Qed.

Lemma run_split_so_far init script : split_so_far (run init script).
Proof.
  unfold run.
  assert (H0 : split_so_far (mktrace (conduit_line_buffer_create init) [] 0 0 [])).
  { split; [apply create_wf|]. intros _. exists []. split; reflexivity. }
  revert H0. generalize (mktrace (conduit_line_buffer_create init) [] 0 0 []).
  induction script as [|c script IH]; intros t0 H0; simpl; auto.
  apply IH. now apply step_split_so_far.
Qed.

(** X7.  [conduit_line_buffer_drain] returns [min(pending, out_capacity)],
    copies that many of the oldest pending bytes to the front of [out],
    leaves the rest of [out] as it was (no terminator is written) and keeps
    the bytes it did not copy pending, in order. *)
Theorem drain_hands_out_oldest_pending_bytes :
  forall (buf : conduit_line_buffer) (out : list ascii) (out_capacity : nat),
    wf buf -> length out = out_capacity ->
    let '(to_copy, buf', out') := conduit_line_buffer_drain buf out out_capacity in
    to_copy = Nat.min (conduit_line_buffer_pending buf) out_capacity
    /\ firstn to_copy out' = firstn to_copy (pending_bytes buf)
    /\ skipn to_copy out' = skipn to_copy out
    /\ pending_bytes buf' = skipn to_copy (pending_bytes buf)
    /\ conduit_line_buffer_pending buf' = conduit_line_buffer_pending buf - to_copy.
Proof.
  intros buf out cap Hwf Hout.
  generalize (drain_spec buf out cap Hwf Hout).
  destruct (conduit_line_buffer_drain buf out cap) as [[to_copy buf'] out'].
  intros (H1 & H2 & H3 & _ & H5 & Hwf' & _).
  split; [exact H1|]. split; [exact H2|]. split; [exact H3|]. split; [exact H5|].
  rewrite <- !pending_bytes_length by assumption.
  now rewrite H5, length_skipn.
Qed.

Lemma drain_hands_out_oldest_pending_bytes_witness :
  let buf := mkbuf (bytes "abcde") 5 1 4 in
  let out := repeat SP 3 in
  wf buf /\ length out = 2 + 1
  /\ (let '(to_copy, buf', out') := conduit_line_buffer_drain buf out 3 in
      to_copy = Nat.min (conduit_line_buffer_pending buf) 3
      /\ firstn to_copy out' = firstn to_copy (pending_bytes buf)
      /\ skipn to_copy out' = skipn to_copy out
      /\ pending_bytes buf' = skipn to_copy (pending_bytes buf)
      /\ conduit_line_buffer_pending buf' = conduit_line_buffer_pending buf - to_copy).
Proof.
  intros buf out.
  assert (Hwf : wf buf) by (unfold wf; simpl; lia).
  assert (Hout : length out = 3) by reflexivity.
  split; [exact Hwf|]. split; [exact Hout|].
  exact (drain_hands_out_oldest_pending_bytes buf out 3 Hwf Hout).
Defined.

(** X8.  No byte is lost, duplicated or reordered by any sequence of
    [append], [next_line] and [drain] calls: the returned lines (none of
    which contains CR or LF), each followed by one of the delimiters LF, CR
    or CRLF, and the drained chunks, concatenated in call order and followed
    by the bytes still pending, are exactly the successfully appended
    bytes. *)
Theorem session_conserves_stream :
  forall (initial_capacity : nat) (script : list op),
    let s := session_run initial_capacity script in
    exists pieces,
      Forall2 piece_of (s_items s) pieces
      /\ s_fed s = concat pieces ++ pending_bytes (s_buf s).
Proof.
  intros init script s.
  destruct (session_run_conserved init script) as (_ & H). exact H.
Qed.

(** X9.  For a stream in which no CR is directly followed by an LF, any
    interleaving of [append] and [next_line] calls (any chunking, any
    [line_out] capacities, failed allocations included) hands out the
    reference lines: the lines returned so far, followed by the reference
    split of the bytes still pending, are the reference split of everything
    appended. *)
Theorem interleaved_lines_are_reference_split :
  forall (initial_capacity : nat) (script : list call),
    let t := run initial_capacity script in
    no_crlf (stream t) = true ->
    split_lines (stream t) = lines t ++ split_lines (pending_bytes (final t)).
Proof.
  intros init script t Hs.
  destruct (run_split_so_far init script) as (_ & H).
  destruct (H Hs) as (done & Hst & Hclosed).
  fold t in Hst. rewrite Hst. apply Hclosed. fold t. now rewrite <- Hst.
Qed.

Lemma interleaved_lines_are_reference_split_witness :
  let script :=
    [Append (bytes "a" ++ [CR]) true; NextLine 16;
     Append (bytes "b" ++ [LF; LF] ++ bytes "cd") true; NextLine 16;
     NextLine 1; Append [CR] true; NextLine 2] in
  let t := run 0 script in
  no_crlf (stream t) = true
  /\ split_lines (stream t) = lines t ++ split_lines (pending_bytes (final t))
  /\ lines t = [bytes "a"; bytes "b"; []].
Proof.
  intros script t.
  assert (Hs : no_crlf (stream t) = true) by reflexivity.
  split; [exact Hs|]. split; [|reflexivity].
  exact (interleaved_lines_are_reference_split 0 script Hs).
Defined.

(** X10.  The buffer structure stays sound under every sequence of calls:
    [read_pos <= write_pos <= capacity], the allocation holds exactly
    [capacity] bytes, and [capacity] never falls below 256 or the requested
    initial capacity. *)
Theorem session_keeps_buffer_sound :
  forall (initial_capacity : nat) (script : list op),
    let buf := s_buf (session_run initial_capacity script) in
    read_pos buf <= write_pos buf
    /\ write_pos buf <= capacity buf
    /\ length (data buf) = capacity buf
    /\ Nat.max 256 initial_capacity <= capacity buf.
Proof.
  intros init script. cbv zeta. unfold session_run.
  set (s0 := mksession (conduit_line_buffer_create init) [] []).
  assert (H0 : conserved s0 /\ Nat.max 256 init <= capacity (s_buf s0)).
  { split.
    - split; [apply create_wf|]. exists []. split; [constructor|reflexivity].
    - unfold s0, conduit_line_buffer_create. cbn [s_buf capacity].
      destruct (Nat.ltb_spec init 256); lia. }
  clearbody s0. revert s0 H0.
  induction script as [|o script IH]; intros s0 (Hc & Hcap); cbn [fold_left].
  - destruct Hc as ((W1 & W2 & W3) & _). auto.
  - apply IH. split; [now apply session_step_conserved|].
    pose proof (session_step_capacity s0 o (proj1 Hc)). lia.
Qed.

End LineBufferSessions.

(* ------------------------------------------------------------------ *)
(** ** SSE parser *)

Module SSEFacts.
Import Bytes SSE BytesFacts.

(** *** The dynamic strings *)

Lemma cstr_app_nul a rest : cstr (a ++ NUL :: rest) = cstr a.
Proof.
  induction a as [|c a IH]; cbn [app cstr]; [reflexivity|].
  destruct (Ascii.eqb c NUL); [reflexivity | now rewrite IH].
Qed.

Lemma cstr_app_nonempty a b : cstr a <> [] -> cstr (a ++ b) <> [].
Proof.
  destruct a as [|c a]; cbn [app cstr]; [congruence|].
  destruct (Ascii.eqb c NUL); [congruence | discriminate].
Qed.

Lemma cstr_nonempty a : cstr a <> [] -> a <> [].
Proof. destruct a; [cbn; congruence | discriminate]. Qed.

Lemma store_app_at a x rest c : store (a ++ x :: rest) (length a) c = a ++ c :: rest.
Proof. induction a as [|y a IH]; cbn [app length store]; [reflexivity | now rewrite IH]. Qed.

Lemma dyn_str_cstr_data s : dyn_str_cstr s = cstr (ds_data s).
Proof. unfold dyn_str_cstr. now destruct (ds_data s). Qed.

Lemma dyn_str_bytes_length s :
  dyn_str_wf s -> length (dyn_str_bytes s) = ds_len s.
Proof.
  intros (Hl & H). unfold dyn_str_bytes. rewrite length_firstn. lia.
Qed.

Lemma dyn_str_init_wf : dyn_str_wf dyn_str_init.
Proof. split; [reflexivity | right; split; reflexivity]. Qed.

Lemma dyn_str_clear_wf s : dyn_str_wf s -> dyn_str_wf (dyn_str_clear s).
Proof.
  intros (Hl & H). split; [exact Hl|]. cbn [dyn_str_clear ds_len ds_capacity].
  destruct H as [H | (H & _)]; [left; lia | right; auto].
Qed.

(** An append of one or more bytes leaves the allocation holding the old
    content, the new bytes and a terminator, in this order. *)
Lemma dyn_str_append_data s d :
  dyn_str_wf s -> d <> [] ->
  exists rest,
    ds_data (dyn_str_append s d) = dyn_str_bytes s ++ d ++ NUL :: rest
    /\ ds_len (dyn_str_append s d) = ds_len s + length d
    /\ dyn_str_wf (dyn_str_append s d).
Proof.
  intros (Hl & Hlen) Hd. unfold dyn_str_append.
  assert (Hpos : 0 < length d) by (destruct d; [congruence | cbn; lia]).
  destruct (Nat.eqb_spec (length d) 0) as [E|_]; [lia|].
  set (needed := ds_len s + length d + 1).
  set (s0 := if ds_capacity s <? needed then _ else s).
  assert (H0 : length (ds_data s0) = ds_capacity s0 /\ ds_len s0 = ds_len s
               /\ needed <= ds_capacity s0
               /\ firstn (ds_len s) (ds_data s0) = dyn_str_bytes s).
  { subst s0. destruct (Nat.ltb_spec (ds_capacity s) needed) as [L|L].
    - cbn [ds_data ds_len ds_capacity].
      set (c2 := if 0 <? ds_capacity s then ds_capacity s * 2 else 128).
      assert (Hc2 : ds_capacity s <= c2).
      { subst c2. destruct (0 <? ds_capacity s) eqn:Ec; [lia|].
        apply Nat.ltb_ge in Ec. lia. }
      set (c3 := if c2 <? needed then needed else c2).
      assert (Hc3 : needed <= c3 /\ c2 <= c3).
      { subst c3. destruct (Nat.ltb_spec c2 needed); lia. }
      rewrite length_app, repeat_length. repeat split; try lia.
      unfold dyn_str_bytes. rewrite firstn_app.
      replace (ds_len s - length (ds_data s)) with 0 by lia.
      cbn [firstn]. apply app_nil_r.
    - repeat split; auto. }
  clearbody s0. destruct H0 as (Hl0 & Hlen0 & Hcap0 & Hb0).
  rewrite Hlen0. subst needed.
  rewrite memcpy_spec by lia. rewrite Hb0.
  destruct (skipn (ds_len s + length d) (ds_data s0)) as [|x rest] eqn:Es.
  { apply (f_equal (@length _)) in Es. rewrite length_skipn in Es.
    cbn [length] in Es. lia. }
  exists rest. cbn [ds_data ds_len ds_capacity].
  assert (Hbl : length (dyn_str_bytes s) = ds_len s).
  { rewrite <- Hb0, length_firstn. lia. }
  split.
  - rewrite app_assoc.
    replace (ds_len s + length d) with (length (dyn_str_bytes s ++ d))
      by (rewrite length_app; lia).
    rewrite store_app_at. now rewrite <- app_assoc.
  - split; [reflexivity|]. split.
    + cbn [ds_data ds_capacity]. rewrite store_length, !length_app.
      cbn [length]. rewrite Hbl. apply (f_equal (@length _)) in Es.
      rewrite length_skipn in Es. cbn [length] in Es. lia.
    + cbn [ds_len ds_capacity]. left. lia.
Qed.

(** What an append does to the content and to the text the callback
    would read. *)
Lemma dyn_str_append_spec s d :
  dyn_str_wf s ->
  dyn_str_wf (dyn_str_append s d)
  /\ dyn_str_bytes (dyn_str_append s d) = dyn_str_bytes s ++ d
  /\ dyn_str_cstr (dyn_str_append s d)
     = match d with
       | [] => dyn_str_cstr s
       | _ => cstr (dyn_str_bytes s ++ d)
       end.
Proof.
  intros Hwf. destruct d as [|c d].
  - cbn [dyn_str_append length Nat.eqb]. rewrite app_nil_r. auto.
  - destruct (dyn_str_append_data s (c :: d) Hwf ltac:(discriminate))
      as (rest & Hdata & Hlen & Hwf').
    split; [exact Hwf'|]. split.
    + unfold dyn_str_bytes at 1. rewrite Hdata, Hlen, app_assoc.
      rewrite firstn_app, length_app, (dyn_str_bytes_length s Hwf).
      rewrite Nat.sub_diag. cbn [firstn]. rewrite app_nil_r.
      apply firstn_all2. rewrite length_app, (dyn_str_bytes_length s Hwf). lia.
    + rewrite dyn_str_cstr_data, Hdata, app_assoc. apply cstr_app_nul.
Qed.

(** Clearing and refilling, as the [event] and [id] branches do. *)
Lemma dyn_str_refill s v :
  dyn_str_wf s ->
  dyn_str_wf (dyn_str_append (dyn_str_clear s) v)
  /\ dyn_str_bytes (dyn_str_append (dyn_str_clear s) v) = v
  /\ dyn_str_cstr (dyn_str_append (dyn_str_clear s) v) = shown (dyn_str_cstr s) v.
Proof.
  intros Hwf.
  destruct (dyn_str_append_spec (dyn_str_clear s) v (dyn_str_clear_wf s Hwf))
    as (H1 & H2 & H3).
  split; [exact H1|]. split; [exact H2|]. rewrite H3. now destruct v.
Qed.

(** *** Dispatch *)

Lemma dispatch_state p cb : fst (dispatch_if_needed p cb) = reset_current_event p.
Proof. unfold dispatch_if_needed. destruct (_ && _); reflexivity. Qed.

Lemma dispatch_event p cb e :
  In e (snd (dispatch_if_needed p cb)) ->
  e = mkevent (if has_id p then Some (dyn_str_cstr (current_id p)) else None)
              (if has_event p then Some (dyn_str_cstr (current_event p)) else None)
              (dyn_str_cstr (current_data p)) (current_retry p)
  /\ (0 < ds_len (current_data p) \/ has_id p = true \/ has_event p = true
      \/ has_data p = true).
Proof.
  unfold dispatch_if_needed.
  destruct (ds_len (current_data p)) as [|n] eqn:Ed; cbn [Nat.eqb andb];
    destruct (has_id p), (has_event p), (has_data p), cb; cbn [negb andb snd];
    intros H; try contradiction; destruct H as [<- | []];
    split; auto; left; lia.
Qed.

Lemma ingest_cases p line cb :
  (field_of line = None
   /\ conduit_sse_ingest_line p line cb = dispatch_if_needed p cb)
  \/ (field_of line = None /\ conduit_sse_ingest_line p line cb = (p, []))
  \/ exists field value,
       field_of line = Some (field, value)
       /\ conduit_sse_ingest_line p line cb = (process_field p field value, []).
Proof.
  unfold conduit_sse_ingest_line, field_of.
  destruct (length (normalize line) =? 0); auto.
  destruct (Ascii.eqb _ ":"%char); auto.
  destruct (split_field (normalize line)) as [f v]. right; right. eauto.
Qed.

Lemma finish_cases p cb :
  conduit_sse_finish p cb = dispatch_if_needed p cb
  \/ conduit_sse_finish p cb = (p, []).
Proof. unfold conduit_sse_finish. destruct (_ || _); auto. Qed.

(** Case analysis on the field name, as the [if]/[else if] chain does. *)
Ltac by_field field :=
  unfold process_field;
  destruct (bytes_eqb field (bytes "event")) eqn:Eevent;
  [| destruct (bytes_eqb field (bytes "data")) eqn:Edata;
     [| destruct (bytes_eqb field (bytes "id")) eqn:Eid;
        [| destruct (bytes_eqb field (bytes "retry")) eqn:Eretry ] ] ].

(** *** The buffers stay well formed *)

Lemma reset_wf p : parser_wf p -> parser_wf (reset_current_event p).
Proof.
  intros (H1 & H2 & H3 & H4).
  split; [|split; [|split]]; cbn [reset_current_event current_id current_event
                                  current_data last_event_id];
    try apply dyn_str_clear_wf; assumption.
Qed.

Lemma process_field_wf p field value :
  parser_wf p -> parser_wf (process_field p field value).
Proof.
  intros Hwf. pose proof Hwf as (H1 & H2 & H3 & H4). by_field field.
  - split; [exact H1|]. split; [apply dyn_str_refill, H2|]. auto.
  - split; [exact H1|]. split; [exact H2|]. split; [|exact H4].
    cbn [current_data]. apply dyn_str_append_spec.
    destruct (0 <? ds_len (current_data p)); [|exact H3].
    apply dyn_str_append_spec, H3.
  - destruct (negb (has_null value)); [|exact Hwf].
    split; [apply dyn_str_refill, H1|]. split; [exact H2|].
    split; [exact H3|]. apply dyn_str_refill, H4.
  - destruct (if 0 <? length value then _ else _) as [ms|]; [|exact Hwf].
    destruct (0 <? ms)%Z; exact Hwf.
  - exact Hwf.
Qed.

Lemma do_call_wf p c cb : parser_wf p -> parser_wf (fst (do_call p c cb)).
Proof.
  intros Hwf. destruct c as [line|]; cbn [do_call].
  - destruct (ingest_cases p line cb) as [(_ & E) | [(_ & E) | (f & v & _ & E)]];
      rewrite E; cbn [fst]; auto.
    + rewrite dispatch_state. now apply reset_wf.
    + now apply process_field_wf.
  - destruct (finish_cases p cb) as [E | E]; rewrite E; cbn [fst]; auto.
    rewrite dispatch_state. now apply reset_wf.
Qed.

Lemma parser_create_wf : parser_wf conduit_sse_parser_create.
Proof.
  split; [|split; [|split]]; apply dyn_str_init_wf.
Qed.

(** *** Data lines and the dispatch test *)

(** While the data buffer holds content, the callback would read that
    content up to its first NUL, it is not empty, and [has_data] is set. *)
Definition data_live (p : conduit_sse_parser) : Prop :=
  dyn_str_wf (current_data p)
  /\ (0 < ds_len (current_data p) ->
      dyn_str_cstr (current_data p) = cstr (dyn_str_bytes (current_data p))
      /\ cstr (dyn_str_bytes (current_data p)) <> []
      /\ has_data p = true).

(** Once [has_data] is set the data buffer holds content, as long as every
    data line carried a value. *)
Definition data_seen (p : conduit_sse_parser) : Prop :=
  has_data p = true -> 0 < ds_len (current_data p).

Lemma reset_data_live p :
  dyn_str_wf (current_data p) -> data_live (reset_current_event p).
Proof.
  intros Hwf. split; [now apply dyn_str_clear_wf|].
  cbn [reset_current_event current_data dyn_str_clear ds_len]. lia.
Qed.

Lemma reset_data_seen p : data_seen (reset_current_event p).
Proof. unfold data_seen; cbn; discriminate. Qed.

(** The [data] branch on the buffer [d]. *)
Lemma data_append_spec d value :
  dyn_str_wf d ->
  let d1 := if 0 <? ds_len d then dyn_str_append_char d LF else d in
  let d' := dyn_str_append d1 value in
  dyn_str_wf d'
  /\ dyn_str_bytes d'
     = (if 0 <? ds_len d then dyn_str_bytes d ++ [LF] else dyn_str_bytes d) ++ value
  /\ ds_len d' = (if 0 <? ds_len d then ds_len d + 1 else ds_len d) + length value
  /\ (0 < ds_len d ->
      dyn_str_cstr d' = cstr (dyn_str_bytes d'))
  /\ (ds_len d = 0 ->
      dyn_str_cstr d' = shown (dyn_str_cstr d) value).
Proof.
  intros Hwf d1 d'.
  assert (H1 : dyn_str_wf d1
               /\ dyn_str_bytes d1
                  = (if 0 <? ds_len d then dyn_str_bytes d ++ [LF] else dyn_str_bytes d)
               /\ (0 < ds_len d -> dyn_str_cstr d1 = cstr (dyn_str_bytes d1))
               /\ (ds_len d = 0 -> d1 = d)).
  { subst d1. destruct (Nat.ltb_spec 0 (ds_len d)) as [L|L].
    - destruct (dyn_str_append_spec d [LF] Hwf) as (A & B & C).
      unfold dyn_str_append_char. split; [exact A|]. split; [exact B|].
      split; [|lia]. intros _. now rewrite C, B.
    - split; [exact Hwf|]. split; [reflexivity|]. split; [lia | reflexivity]. }
  destruct H1 as (Hwf1 & Hb1 & Hc1 & He1).
  destruct (dyn_str_append_spec d1 value Hwf1) as (A & B & C).
  fold d' in A, B, C.
  split; [exact A|]. split; [now rewrite B, Hb1|]. split.
  { rewrite <- (dyn_str_bytes_length d' A), B, length_app, Hb1.
    destruct (0 <? ds_len d); rewrite ?length_app, (dyn_str_bytes_length d Hwf);
      cbn [length]; lia. }
  split.
  - intros L. rewrite C, B. destruct value; [|reflexivity].
    rewrite app_nil_r. now apply Hc1.
  - intros L. rewrite C, (He1 L). unfold dyn_str_bytes. rewrite L.
    now destruct value.
Qed.

Lemma process_field_data_live p field value :
  (bytes_eqb field (bytes "data") = true -> value <> [] -> cstr value <> []) ->
  data_live p -> data_live (process_field p field value).
Proof.
  intros Hv (Hwf & Hp). by_field field; try (split; assumption).
  - pose proof (data_append_spec (current_data p) value Hwf) as S.
    cbv zeta in S. destruct S as (A & B & L & C1 & C0).
    split; [exact A|]. cbn [current_data has_data]. intros Hpos.
    destruct (Nat.ltb_spec 0 (ds_len (current_data p))) as [Lp|Lp].
    + destruct (Hp Lp) as (_ & Hne & _).
      rewrite (C1 Lp), B. split; [reflexivity|]. split; [|reflexivity].
      rewrite <- app_assoc. now apply cstr_app_nonempty.
    + assert (L0 : ds_len (current_data p) = 0) by lia.
      assert (Eb : dyn_str_bytes (current_data p) = [])
        by (unfold dyn_str_bytes; now rewrite L0).
      rewrite (C0 L0), B, Eb. cbn [app].
      destruct value as [|c v]; [cbn [length] in L; lia|].
      cbn [shown]. split; [reflexivity|]. split; [|reflexivity].
      apply Hv; [reflexivity | discriminate].
  - destruct (negb (has_null value)); split; assumption.
  - destruct (if 0 <? length value then _ else _) as [ms|]; [|split; assumption].
    destruct (0 <? ms)%Z; split; assumption.
Qed.

Lemma process_field_data_seen p field value :
  (bytes_eqb field (bytes "data") = true -> cstr value <> []) ->
  dyn_str_wf (current_data p) ->
  data_seen p -> data_seen (process_field p field value).
Proof.
  unfold data_seen. intros Hv Hwf Hp. by_field field; auto.
  - cbn [has_data current_data]. intros _.
    pose proof (data_append_spec (current_data p) value Hwf) as S.
    cbv zeta in S. destruct S as (_ & _ & L & _). rewrite L.
    specialize (Hv eq_refl). apply cstr_nonempty in Hv.
    destruct value; [congruence | cbn [length]; lia].
  - destruct (negb (has_null value)); auto.
  - destruct (if 0 <? length value then _ else _) as [ms|]; auto.
    destruct (0 <? ms)%Z; auto.
Qed.

Lemma dispatch_nonempty p cb :
  data_live p -> data_seen p -> Forall nonempty_event (snd (dispatch_if_needed p cb)).
Proof.
  intros (_ & Hl) Hs. apply Forall_forall. intros e He.
  apply dispatch_event in He. destruct He as (-> & Hne).
  unfold nonempty_event; cbn [data id event].
  assert (D : 0 < ds_len (current_data p) -> dyn_str_cstr (current_data p) <> []).
  { intros L. destruct (Hl L) as (-> & H & _). exact H. }
  destruct Hne as [H | [-> | [-> | H]]]; auto.
  - right; left; discriminate.
  - right; right; discriminate.
Qed.

Lemma finish_nonempty p cb :
  data_live p -> Forall nonempty_event (snd (conduit_sse_finish p cb)).
Proof.
  intros (_ & Hl). unfold conduit_sse_finish.
  destruct (_ || _) eqn:G; cbn [snd]; auto.
  apply Forall_forall. intros e He. apply dispatch_event in He.
  destruct He as (-> & _). unfold nonempty_event; cbn [data id event].
  apply orb_true_iff in G. destruct G as [G | G].
  - apply orb_true_iff in G. destruct G as [G | G].
    + left. apply Nat.ltb_lt in G. destruct (Hl G) as (-> & H & _). exact H.
    + rewrite G. right; left; discriminate.
  - rewrite G. right; right; discriminate.
Qed.

Lemma data_has_text_not_cut c : data_has_text c -> data_not_cut c.
Proof.
  destruct c as [line|]; cbn [data_has_text data_not_cut]; auto.
  destruct (field_of line) as [[f v]|]; auto.
Qed.

Lemma do_call_data_live p c cb :
  data_not_cut c -> data_live p -> data_live (fst (do_call p c cb)).
Proof.
  intros Hc Hp. destruct c as [line|]; cbn [do_call data_not_cut] in *.
  - destruct (ingest_cases p line cb) as [(Ef & E) | [(Ef & E) | (f & v & Ef & E)]];
      rewrite E; cbn [fst]; auto.
    + rewrite dispatch_state. apply reset_data_live, Hp.
    + rewrite Ef in Hc. now apply process_field_data_live.
  - destruct (finish_cases p cb) as [E | E]; rewrite E; cbn [fst]; auto.
    rewrite dispatch_state. apply reset_data_live, Hp.
Qed.

Lemma run_from_data_live script : forall p cb,
  Forall data_not_cut script -> data_live p ->
  data_live (fst (run_from p script cb)).
Proof.
  induction script as [|c script IH]; intros p cb Hs Hp; cbn [run_from fst]; auto.
  inversion Hs; subst.
  pose proof (do_call_data_live p c cb H1 Hp) as Hp1.
  destruct (do_call p c cb) as [p1 ev1]. cbn [fst] in Hp1.
  specialize (IH p1 cb H2 Hp1).
  destruct (run_from p1 script cb) as [p2 ev2]. exact IH.
Qed.

Lemma do_call_nonempty p c cb :
  data_has_text c -> data_live p -> data_seen p ->
  data_seen (fst (do_call p c cb))
  /\ Forall nonempty_event (snd (do_call p c cb)).
Proof.
  intros Hc Hl Hp. destruct c as [line|]; cbn [do_call data_has_text] in *.
  - destruct (ingest_cases p line cb) as [(Ef & E) | [(Ef & E) | (f & v & Ef & E)]];
      rewrite E.
    + rewrite dispatch_state. split; [apply reset_data_seen|].
      now apply dispatch_nonempty.
    + cbn [fst snd]; auto.
    + rewrite Ef in Hc. cbn [fst snd]. split; auto.
      apply process_field_data_seen; auto. apply Hl.
  - destruct (finish_cases p cb) as [E | E]; rewrite E.
    + rewrite dispatch_state. split; [apply reset_data_seen|].
      now apply dispatch_nonempty.
    + cbn [fst snd]; auto.
Qed.

Lemma run_from_nonempty script : forall p cb,
  Forall data_has_text script -> data_live p -> data_seen p ->
  Forall nonempty_event (snd (run_from p script cb)).
Proof.
  induction script as [|c script IH]; intros p cb Hs Hl Hp; cbn [run_from];
    [constructor|].
  inversion Hs; subst.
  destruct (do_call_nonempty p c cb) as (Hp1 & Hev1); auto.
  pose proof (do_call_data_live p c cb (data_has_text_not_cut c H1) Hl) as Hl1.
  destruct (do_call p c cb) as [p1 ev1]. cbn [fst snd] in *.
  specialize (IH p1 cb H2 Hl1 Hp1).
  destruct (run_from p1 script cb) as [p2 ev2]. cbn [fst snd] in *.
  apply Forall_app; auto.
Qed.

Lemma create_data_live : data_live conduit_sse_parser_create.
Proof. split; [apply dyn_str_init_wf | cbn; lia]. Qed.

(** C3 (counterexample).  A [data] line without a value sets [has_data]
    and appends nothing; a [data] line whose value is a NUL byte puts that
    byte first in the buffer.  Either way the blank line calls the callback
    with data the empty string, id NULL and event NULL. *)
Lemma empty_data_line_is_dispatched :
  snd (run [IngestLine (bytes "data"); IngestLine []] true)
    = [mkevent None None [] (-1)]
  /\ snd (run [IngestLine (bytes "data:"); IngestLine []] true)
       = [mkevent None None [] (-1)]
  /\ snd (run [IngestLine (bytes "data: " ++ [NUL]); IngestLine []] true)
       = [mkevent None None [] (-1)].
Proof. repeat split; reflexivity. Qed.

(** C3 (amended).  For every sequence of [ingest_line] and [finish] calls
    on a fresh parser in which no [data] value begins with a NUL byte,
    [finish] at the end never passes the all-empty record; and if moreover
    no [data] line has an empty value, every record passed to the callback
    has non-empty data, or a non-NULL id, or a non-NULL event. *)
Theorem dispatched_event_not_empty :
  forall (script : list call) (callback : bool),
    Forall data_not_cut script ->
    (Forall data_has_text script ->
     Forall nonempty_event (snd (run script callback)))
    /\ Forall nonempty_event
         (snd (conduit_sse_finish (fst (run script callback)) callback)).
Proof.
  intros script cb Hs. split.
  - intros Ht. apply run_from_nonempty; auto.
    + apply create_data_live.
    + unfold data_seen; cbn; discriminate.
  - apply finish_nonempty, run_from_data_live; auto. apply create_data_live.
Qed.

Lemma dispatched_event_not_empty_witness :
  let script := [IngestLine (bytes "event: ping"); IngestLine (bytes "data: hi");
                 IngestLine []; IngestLine (bytes "id: 7"); Finish;
                 IngestLine (bytes "data: x")] in
  Forall data_not_cut script
  /\ Forall data_has_text script
  /\ snd (run script true)
     = [mkevent None (Some (bytes "ping")) (bytes "hi") (-1);
        mkevent (Some (bytes "7")) None (bytes "hi") (-1)]
  /\ Forall nonempty_event (snd (run script true))
  /\ Forall nonempty_event
       (snd (conduit_sse_finish (fst (run script true)) true)).
Proof.
  intros script.
  assert (Hs : Forall data_not_cut script).
  { repeat constructor; cbn; discriminate. }
  assert (Ht : Forall data_has_text script).
  { repeat constructor; cbn; discriminate. }
  split; [exact Hs|]. split; [exact Ht|]. split; [reflexivity|].
  split.
  - exact (proj1 (@dispatched_event_not_empty script true Hs) Ht).
  - exact (proj2 (@dispatched_event_not_empty script true Hs)).
Defined.

(** *** The retry field across dispatches *)






(** *** The retry value *)

Definition digit_value (c : ascii) : Z := (Z.of_nat (nat_of_ascii c) - 48)%Z.

Definition decimal_from (value : list ascii) (ms : Z) : Z :=
  fold_left (fun acc c => (acc * 10 + digit_value c)%Z) value ms.

Lemma digit_value_range c : is_digit c = true -> (0 <= digit_value c <= 9)%Z.
Proof.
  unfold is_digit, digit_value. intros H. apply andb_true_iff in H.
  destruct H as (H1 & H2). apply Nat.leb_le in H1, H2. lia.
Qed.

Lemma decimal_from_ge value : forall ms,
  Forall (fun c => is_digit c = true) value -> (0 <= ms)%Z ->
  (ms <= decimal_from value ms)%Z.
Proof.
  induction value as [|c value IH]; intros ms Hd Hms; simpl; [lia|].
  inversion Hd; subst. pose proof (digit_value_range c H1).
  unfold decimal_from in *. simpl.
  specialize (IH (ms * 10 + digit_value c)%Z H2). lia.
Qed.

Lemma int32_small z : (0 <= z <= 2147483647)%Z -> int32 z = z.
Proof.
  intros H. unfold int32. rewrite Z.mod_small; lia.
Qed.

(** Within the range of [int] the loop computes the decimal value. *)
Lemma retry_loop_exact value : forall ms,
  Forall (fun c => is_digit c = true) value -> (0 <= ms)%Z ->
  (decimal_from value ms <= 2147483647)%Z ->
  retry_loop value ms = Some (decimal_from value ms).
Proof.
  induction value as [|c value IH]; intros ms Hd Hms Hmax; simpl; auto.
  inversion Hd; subst. rewrite H1.
  pose proof (digit_value_range c H1) as Hc.
  unfold decimal_from in Hmax. simpl in Hmax.
  fold (decimal_from value (ms * 10 + digit_value c)) in Hmax.
  pose proof (decimal_from_ge value (ms * 10 + digit_value c)%Z H2) as Hge.
  destruct (Z.ltb_spec 214748364 ms) as [L|L]; [lia|].
  fold (digit_value c). rewrite int32_small by lia.
  rewrite IH; auto; lia.
Qed.

Lemma retry_loop_non_digit value : forall ms,
  Exists (fun c => is_digit c = false) value -> retry_loop value ms = None.
Proof.
  induction value as [|c value IH]; intros ms He; simpl.
  - inversion He.
  - destruct (is_digit c) eqn:Dc; auto.
    destruct (214748364 <? ms)%Z; auto.
    apply IH. inversion He; subst; auto. congruence.
Qed.

(** C5 (failing input).  The guard [ms > 214748364] lets the value
    214748364 through, so a tenth digit 8 or 9 leaves the range of [int];
    with the wrap-around written out, the eleven-digit value 21474836481
    (far above 2,147,483,647) is accepted and both [reconnection_time] and
    [current_retry] become 1. *)
Theorem retry_overflow_is_accepted :
  let p := fst (conduit_sse_ingest_line conduit_sse_parser_create
                  (bytes "retry: 21474836481") true) in
  reconnection_time p = 1%Z /\ current_retry p = 1%Z
  /\ (2147483647 < decimal (bytes "21474836481"))%Z.
Proof. vm_compute. auto. Qed.

(** *** Retry lines within the range of [int] *)

Lemma strip_trailing_cr_last line c :
  c <> CR ->
  strip_trailing_cr (line ++ [c]) (length (line ++ [c])) = length (line ++ [c]).
Proof.
  intros Hc. rewrite length_app, Nat.add_1_r. cbn [strip_trailing_cr].
  unfold get. rewrite app_nth2, Nat.sub_diag by lia. simpl.
  destruct (Ascii.eqb_spec c CR); [contradiction | reflexivity].
Qed.

Lemma digit_not_cr c : is_digit c = true -> c <> CR.
Proof. intros H ->. discriminate. Qed.

Lemma digit_not_space c : is_digit c = true -> Ascii.eqb c SP = false.
Proof.
  intros H. destruct (Ascii.eqb_spec c SP) as [->|]; [discriminate | reflexivity].
Qed.

(** A retry line, with or without the optional space after the colon. *)
Definition retry_line (space : bool) (value : list ascii) : list ascii :=
  bytes "retry:" ++ (if space then [SP] else []) ++ value.

Lemma retry_line_field space value :
  value <> [] -> Forall (fun c => is_digit c = true) value ->
  field_of (retry_line space value) = Some (bytes "retry", value).
Proof.
  intros Hne Hd. unfold field_of.
  assert (Hn : normalize (retry_line space value) = retry_line space value).
  { destruct (exists_last Hne) as (v' & c & ->).
    apply Forall_app in Hd. destruct Hd as (_ & Hc). inversion Hc; subst.
    unfold normalize, retry_line.
    replace (bytes "retry:" ++ (if space then [SP] else []) ++ v' ++ [c])
      with ((bytes "retry:" ++ (if space then [SP] else []) ++ v') ++ [c])
      by (rewrite <- !app_assoc; reflexivity).
    rewrite strip_trailing_cr_last by (now apply digit_not_cr).
    rewrite firstn_all. destruct space; reflexivity. }
  rewrite Hn. unfold retry_line.
  destruct value as [|d value]; [congruence|]. inversion Hd; subst.
  destruct space; cbn -[bytes_eqb bytes]; unfold split_field; cbn.
  - reflexivity.
  - rewrite digit_not_space by auto. reflexivity.
Qed.

Lemma ingest_field p line cb field value :
  field_of line = Some (field, value) ->
  conduit_sse_ingest_line p line cb = (process_field p field value, []).
Proof.
  unfold conduit_sse_ingest_line, field_of.
  destruct (length (normalize line) =? 0); [discriminate|].
  destruct (Ascii.eqb _ ":"%char); [discriminate|].
  destruct (split_field (normalize line)) as [f v]. now intros [= -> ->].
Qed.

(** X3.  A retry line whose value is one or more ASCII digits denoting a
    positive integer up to 2,147,483,647 sets both [reconnection_time] and
    [current_retry] to exactly that value, changes nothing else and
    dispatches nothing. *)
Theorem retry_within_int_range_is_stored :
  forall (p : conduit_sse_parser) (space callback : bool) (value : list ascii),
    value <> [] ->
    Forall (fun c => is_digit c = true) value ->
    (0 < decimal value <= 2147483647)%Z ->
    conduit_sse_ingest_line p (retry_line space value) callback
    = (mkparser (current_id p) (current_event p) (current_data p)
                (decimal value) (has_id p) (has_event p) (has_data p)
                (last_event_id p) (decimal value), []).
Proof.
  intros p space cb value Hne Hd Hr.
  rewrite (ingest_field p _ cb _ _ (retry_line_field space value Hne Hd)).
  f_equal. unfold process_field. cbn -[retry_loop Nat.ltb].
  assert (Hl : (0 <? length value) = true)
    by (destruct value; [congruence | reflexivity]).
  rewrite Hl.
  change (decimal value) with (decimal_from value 0) in *.
  rewrite retry_loop_exact by (auto; lia).
  destruct (Z.ltb_spec 0 (decimal_from value 0)); [reflexivity | lia].
Qed.

Lemma retry_within_int_range_is_stored_witness :
  let value := bytes "2147483647" in
  value <> []
  /\ Forall (fun c => is_digit c = true) value
  /\ (0 < decimal value <= 2147483647)%Z
  /\ conduit_sse_ingest_line conduit_sse_parser_create (retry_line true value) true
     = (mkparser dyn_str_init dyn_str_init dyn_str_init 2147483647
                 false false false dyn_str_init 2147483647, []).
Proof.
  intros value.
  assert (H1 : value <> []) by discriminate.
  assert (H2 : Forall (fun c => is_digit c = true) value)
    by (repeat constructor).
  assert (H3 : (0 < decimal value <= 2147483647)%Z) by (vm_compute; split; congruence).
  split; [exact H1|]. split; [exact H2|]. split; [exact H3|].
  exact (retry_within_int_range_is_stored conduit_sse_parser_create true true
           value H1 H2 H3).
Defined.

(** X4.  A retry value that contains a byte other than an ASCII digit, or
    is empty, leaves the parser unchanged. *)
Theorem retry_with_non_digit_is_ignored :
  forall (p : conduit_sse_parser) (value : list ascii),
    value = [] \/ Exists (fun c => is_digit c = false) value ->
    process_field p (bytes "retry") value = p.
Proof.
  intros p value H. unfold process_field. cbn -[retry_loop Nat.ltb].
  destruct H as [-> | H]; [reflexivity|].
  rewrite retry_loop_non_digit by auto.
  destruct (0 <? length value); reflexivity.
Qed.

Lemma retry_with_non_digit_is_ignored_witness :
  let value := bytes "12a4" in
  (value = [] \/ Exists (fun c => is_digit c = false) value)
  /\ process_field conduit_sse_parser_create (bytes "retry") value
     = conduit_sse_parser_create.
Proof.
  intros value.
  assert (H : value = [] \/ Exists (fun c => is_digit c = false) value).
  { right. apply Exists_cons_tl, Exists_cons_tl, Exists_cons_hd. reflexivity. }
  split; [exact H|].
  exact (retry_with_non_digit_is_ignored conduit_sse_parser_create value H).
Defined.

(** *** The last event id *)

Lemma bytes_eqb_eq a : forall b, bytes_eqb a b = true -> a = b.
Proof.
  induction a as [|x a IH]; intros [|y b]; simpl; try discriminate; auto.
  intros H. apply andb_true_iff in H. destruct H as (H1 & H2).
  apply Ascii.eqb_eq in H1. subst. f_equal. auto.
Qed.

(** The id a call leaves as the last one seen. *)
Definition id_after (last : list ascii) (c : call) : list ascii :=
  match c with
  | IngestLine line =>
      match field_of line with
      | Some (field, value) =>
          if bytes_eqb field (bytes "id") && negb (has_null value)
          then value else last
      | None => last
      end
  | Finish => last
  end.

Lemma process_field_last_id p field value :
  dyn_str_wf (last_event_id p) ->
  dyn_str_bytes (last_event_id (process_field p field value))
  = if bytes_eqb field (bytes "id") && negb (has_null value)
    then value else dyn_str_bytes (last_event_id p).
Proof.
  intros Hwf. by_field field.
  - apply bytes_eqb_eq in Eevent. subst field. reflexivity.
  - apply bytes_eqb_eq in Edata. subst field. reflexivity.
  - destruct (negb (has_null value)); [|reflexivity].
    cbn [last_event_id andb]. now apply dyn_str_refill.
  - destruct (if 0 <? length value then _ else _) as [ms|]; auto.
    destruct (0 <? ms)%Z; reflexivity.
  - reflexivity.
Qed.

Lemma do_call_last_id p c cb :
  dyn_str_wf (last_event_id p) ->
  dyn_str_bytes (last_event_id (fst (do_call p c cb)))
  = id_after (dyn_str_bytes (last_event_id p)) c.
Proof.
  intros Hwf. destruct c as [line|]; cbn [do_call id_after].
  - destruct (ingest_cases p line cb) as [(Ef & E) | [(Ef & E) | (f & v & Ef & E)]];
      rewrite E.
    + now rewrite dispatch_state, Ef.
    + now rewrite Ef.
    + rewrite Ef. cbn [fst]. now apply process_field_last_id.
  - destruct (finish_cases p cb) as [E | E]; rewrite E; auto.
    now rewrite dispatch_state.
Qed.

(** X6.  After any script, the content of [last_event_id] is the value of
    the most recent [id] line whose value holds no NUL byte (empty if there
    was none); dispatches never reset it. *)
Theorem last_event_id_is_latest_id :
  forall (script : list call) (callback : bool),
    dyn_str_bytes (last_event_id (fst (run script callback)))
    = fold_left id_after script [].
Proof.
  intros script cb. unfold run.
  change (@nil ascii)
    with (dyn_str_bytes (last_event_id conduit_sse_parser_create)) at 1.
  pose proof parser_create_wf as Hwf. revert Hwf.
  generalize conduit_sse_parser_create.
  induction script as [|c script IH]; intros p Hwf; cbn [run_from fold_left fst];
    auto.
  pose proof (do_call_last_id p c cb (proj2 (proj2 (proj2 Hwf)))) as H.
  pose proof (do_call_wf p c cb Hwf) as Hwf1.
  destruct (do_call p c cb) as [p1 ev1]. cbn [fst] in H, Hwf1.
  specialize (IH p1 Hwf1). destruct (run_from p1 script cb) as [p2 ev2].
  cbn [fst] in *. now rewrite IH, H.
Qed.

End SSEFacts.

(* ------------------------------------------------------------------ *)
(** ** SSE parser: lines, blocks and whole sessions *)

Module SSESessions.
Import Bytes SSE BytesFacts SSEFacts.

(** *** How a line is cut into field and value *)

Lemma strip_trailing_cr_prefix a b : forall n,
  n <= length a -> strip_trailing_cr (a ++ b) n = strip_trailing_cr a n.
Proof.
  induction n as [|n IH]; intros Hn; [reflexivity|].
  cbn [strip_trailing_cr]. unfold get. rewrite app_nth1 by lia.
  destruct (Ascii.eqb _ CR); [apply IH; lia | reflexivity].
Qed.

Lemma strip_trailing_cr_repeat body k :
  last body NUL <> CR ->
  strip_trailing_cr (body ++ repeat CR k) (length (body ++ repeat CR k))
  = length body.
Proof.
  intros Hlast. induction k as [|k IH].
  - cbn [repeat]. rewrite app_nil_r.
    destruct body as [|x body']; [reflexivity|].
    destruct (@exists_last _ (x :: body') ltac:(discriminate)) as (b & c & E).
    rewrite E in *. rewrite last_last in Hlast.
    now apply strip_trailing_cr_last.
  - replace (repeat CR (S k)) with (repeat CR k ++ [CR])
      by (symmetry; apply (repeat_cons k CR)).
    rewrite app_assoc, length_app, Nat.add_1_r. cbn [strip_trailing_cr].
    unfold get. rewrite app_nth2, Nat.sub_diag by lia. cbn [nth].
    rewrite Ascii.eqb_refl, strip_trailing_cr_prefix by lia. exact IH.
Qed.

(** The value of a field line: one leading space, if any, is dropped. *)
Definition strip_space (rest : list ascii) : list ascii :=
  match rest with
  | c :: v => if Ascii.eqb c SP then v else rest
  | [] => []
  end.

Lemma normalize_plain body k :
  last body NUL <> CR -> get body 0 <> ascii_of_nat 239 ->
  normalize (body ++ repeat CR k) = body.
Proof.
  intros Hlast Hbom. unfold normalize.
  rewrite strip_trailing_cr_repeat by exact Hlast.
  rewrite firstn_app, Nat.sub_diag, firstn_all. cbn [firstn].
  rewrite app_nil_r. unfold has_bom.
  destruct (Ascii.eqb_spec (get body 0) (ascii_of_nat 239)); [contradiction|].
  now rewrite andb_false_r.
Qed.

Lemma last_after_colon name rest :
  last rest NUL <> CR -> last (name ++ ":"%char :: rest) NUL <> CR.
Proof.
  intros H. destruct rest as [|x rest'].
  - rewrite last_last. discriminate.
  - destruct (@exists_last _ (x :: rest') ltac:(discriminate)) as (b & c & E).
    rewrite E in *. rewrite last_last in H.
    replace (name ++ ":"%char :: b ++ [c]) with ((name ++ ":"%char :: b) ++ [c])
      by (now rewrite <- app_assoc).
    now rewrite last_last.
Qed.

Lemma split_field_colon name rest :
  Forall (fun c => c <> ":"%char) name ->
  split_field (name ++ ":"%char :: rest) = (name, strip_space rest).
Proof.
  intros Hname. unfold split_field.
  rewrite LineBufferFacts.memchr_app_hit
    by (auto; rewrite length_app; simpl; lia).
  rewrite firstn_app, Nat.sub_diag, firstn_all. cbn [firstn].
  rewrite app_nil_r, skipn_app, skipn_all2 by lia.
  replace (length name + 1 - length name) with 1 by lia.
  cbn [skipn app]. rewrite length_app. cbn [length].
  replace (length name + S (length rest) - length name - 1)
    with (length rest) by lia.
  destruct rest as [|c v]; [reflexivity|].
  cbn [length strip_space]. unfold get. cbn [nth skipn].
  now destruct (Ascii.eqb c SP).
Qed.

Lemma split_field_no_colon name :
  Forall (fun c => c <> ":"%char) name -> split_field name = (name, []).
Proof.
  intros Hname. unfold split_field.
  now rewrite LineBufferFacts.memchr_absent.
Qed.

Lemma field_of_plain body k :
  body <> [] -> last body NUL <> CR -> get body 0 <> ascii_of_nat 239 ->
  get body 0 <> ":"%char ->
  field_of (body ++ repeat CR k) = Some (split_field body).
Proof.
  intros Hne Hlast Hbom Hcolon. unfold field_of.
  rewrite normalize_plain by assumption.
  destruct body as [|x body']; [congruence|]. cbn [length Nat.eqb].
  destruct (Ascii.eqb_spec (get (x :: body') 0) ":"%char); [contradiction|].
  reflexivity.
Qed.

(** X11.  A line [name:rest] followed by any number of CRs, whose name is
    non-empty, has no colon and does not start with the byte 0xEF, is cut at
    its first colon: the field is [name] and the value is [rest] without one
    leading space (later colons and spaces belong to the value).  Without a
    colon the whole line is the field and the value is empty. *)
Theorem field_line_is_cut_at_first_colon :
  forall (name rest : list ascii) (k : nat),
    name <> [] ->
    Forall (fun c => c <> ":"%char) name ->
    get name 0 <> ascii_of_nat 239 ->
    last rest NUL <> CR ->
    field_of (name ++ ":"%char :: rest ++ repeat CR k)
      = Some (name, strip_space rest)
    /\ (last name NUL <> CR ->
        field_of (name ++ repeat CR k) = Some (name, [])).
Proof.
  intros name rest k Hne Hname Hbom Hrest.
  assert (Hfirst : get name 0 <> ":"%char).
  { destruct name as [|x name']; [congruence|]. now inversion Hname. }
  split.
  - replace (name ++ ":"%char :: rest ++ repeat CR k)
      with ((name ++ ":"%char :: rest) ++ repeat CR k)
      by (now rewrite <- app_assoc).
    assert (Hget : get (name ++ ":"%char :: rest) 0 = get name 0).
    { destruct name; [congruence | reflexivity]. }
    rewrite field_of_plain.
    + now rewrite split_field_colon.
    + destruct name; discriminate.
    + now apply last_after_colon.
    + now rewrite Hget.
    + now rewrite Hget.
  - intros Hlast. rewrite field_of_plain by assumption.
    now rewrite split_field_no_colon.
Qed.

Lemma field_line_is_cut_at_first_colon_witness :
  let name := bytes "data" in
  let rest := bytes "  a: b" in
  name <> []
  /\ Forall (fun c => c <> ":"%char) name
  /\ get name 0 <> ascii_of_nat 239
  /\ last rest NUL <> CR
  /\ field_of (bytes "data:  a: b" ++ [CR; CR]) = Some (name, bytes " a: b")
  /\ (last name NUL <> CR -> field_of (bytes "data" ++ [CR; CR]) = Some (name, [])).
Proof.
  intros name rest.
  assert (H1 : name <> []) by discriminate.
  assert (H2 : Forall (fun c => c <> ":"%char) name)
    by (repeat constructor; discriminate).
  assert (H3 : get name 0 <> ascii_of_nat 239) by discriminate.
  assert (H4 : last rest NUL <> CR) by discriminate.
  split; [exact H1|]. split; [exact H2|]. split; [exact H3|]. split; [exact H4|].
  exact (field_line_is_cut_at_first_colon name rest 2 H1 H2 H3 H4).
Defined.

(** *** Sessions *)

Lemma run_from_app a : forall p b cb,
  run_from p (a ++ b) cb
  = let '(p1, e1) := run_from p a cb in
    let '(p2, e2) := run_from p1 b cb in
    (p2, e1 ++ e2).
Proof.
  induction a as [|c a IH]; intros p b cb; cbn [app run_from].
  - now destruct (run_from p b cb).
  - destruct (do_call p c cb) as [p1 e1]. rewrite IH.
    destruct (run_from p1 a cb) as [p2 e2].
    destruct (run_from p2 b cb) as [p3 e3]. now rewrite app_assoc.
Qed.

Definition retry_in_range (z : Z) : Prop := (1 <= z <= 2147483647)%Z.

Definition retry_sound (p : conduit_sse_parser) : Prop :=
  retry_in_range (reconnection_time p)
  /\ (current_retry p = (-1)%Z \/ retry_in_range (current_retry p)).

Lemma int32_range z : (-2147483648 <= int32 z <= 2147483647)%Z.
Proof.
  unfold int32.
  pose proof (Z.mod_pos_bound (z + 2147483648) 4294967296 eq_refl). lia.
Qed.

Lemma retry_loop_range value : forall ms r,
  (ms <= 2147483647)%Z -> retry_loop value ms = Some r -> (r <= 2147483647)%Z.
Proof.
  induction value as [|c value IH]; intros ms r Hms; cbn [retry_loop].
  - now intros [= <-].
  - destruct (is_digit c); [|discriminate].
    destruct (214748364 <? ms)%Z; [discriminate|].
    apply IH. apply int32_range.
Qed.

Lemma retry_ms_range value ms : retry_ms value = Some ms -> retry_in_range ms.
Proof.
  unfold retry_ms. destruct (0 <? length value); [|discriminate].
  destruct (retry_loop value 0) as [r|] eqn:E; [|discriminate].
  destruct (Z.ltb_spec 0 r); [|discriminate]. intros [= <-].
  apply retry_loop_range in E; [|lia]. unfold retry_in_range. lia.
Qed.

Lemma process_field_retry p value :
  process_field p (bytes "retry") value
  = match retry_ms value with
    | Some ms =>
        mkparser (current_id p) (current_event p) (current_data p) ms
                 (has_id p) (has_event p) (has_data p) (last_event_id p) ms
    | None => p
    end.
Proof.
  unfold process_field, retry_ms. cbn [bytes_eqb bytes list_ascii_of_string].
  cbn -[retry_loop Nat.ltb Z.ltb].
  destruct (0 <? length value); [|reflexivity].
  destruct (retry_loop value 0) as [ms|]; [|reflexivity].
  now destruct (0 <? ms)%Z.
Qed.

Lemma process_field_retry_sound p field value :
  retry_sound p -> retry_sound (process_field p field value).
Proof.
  intros (Hr & Hc). by_field field; try (split; assumption).
  - destruct (negb (has_null value)); split; assumption.
  - apply bytes_eqb_eq in Eretry. subst field.
    pose proof (process_field_retry p value) as E.
    unfold process_field in E. cbn [bytes_eqb bytes list_ascii_of_string] in E.
    cbn -[retry_loop Nat.ltb Z.ltb] in E. rewrite E.
    destruct (retry_ms value) as [ms|] eqn:Ems; [|split; assumption].
    apply retry_ms_range in Ems. split; cbn; auto.
Qed.

Definition event_retry_sound (e : conduit_sse_event) : Prop :=
  retry e = (-1)%Z \/ retry_in_range (retry e).

Lemma reset_retry_sound p : retry_sound p -> retry_sound (reset_current_event p).
Proof. intros (Hr & _). split; cbn; auto. Qed.

Lemma dispatch_retry_sound p cb :
  retry_sound p ->
  retry_sound (fst (dispatch_if_needed p cb))
  /\ Forall event_retry_sound (snd (dispatch_if_needed p cb)).
Proof.
  intros Hs. rewrite dispatch_state. split; [now apply reset_retry_sound|].
  unfold dispatch_if_needed. destruct (_ && _); [constructor|].
  destruct cb; cbn [snd]; [|constructor].
  constructor; [|constructor]. exact (proj2 Hs).
Qed.

Lemma do_call_retry_sound p c cb :
  retry_sound p ->
  retry_sound (fst (do_call p c cb))
  /\ Forall event_retry_sound (snd (do_call p c cb)).
Proof.
  intros Hs. destruct c as [line|]; cbn [do_call].
  - destruct (ingest_cases p line cb)
      as [(_ & E) | [(_ & E) | (f & v & _ & E)]]; rewrite E.
    + now apply dispatch_retry_sound.
    + split; [exact Hs | constructor].
    + split; [now apply process_field_retry_sound | constructor].
  - destruct (finish_cases p cb) as [E | E]; rewrite E.
    + now apply dispatch_retry_sound.
    + split; [exact Hs | constructor].
Qed.

Lemma run_from_retry_sound script : forall p cb,
  retry_sound p ->
  retry_sound (fst (run_from p script cb))
  /\ Forall event_retry_sound (snd (run_from p script cb)).
Proof.
  induction script as [|c script IH]; intros p cb Hs; cbn [run_from].
  - split; [exact Hs | constructor].
  - destruct (do_call_retry_sound p c cb Hs) as (H1 & H2).
    destruct (do_call p c cb) as [p1 e1]. cbn [fst snd] in *.
    destruct (IH p1 cb H1) as (H3 & H4).
    destruct (run_from p1 script cb) as [p2 e2]. cbn [fst snd] in *.
    split; [exact H3|]. apply Forall_app. auto.
Qed.

(** X12.  Whatever lines are ingested, [reconnection_time] stays within
    1..2147483647 and [current_retry], like the [retry] of every dispatched
    event, is -1 or within that range: a [retry] value that overflows the C
    [int] is never stored as zero or negative. *)
Theorem retry_fields_stay_in_range :
  forall (script : list call) (callback : bool),
    let p := fst (run script callback) in
    (1 <= reconnection_time p <= 2147483647)%Z
    /\ (current_retry p = (-1)%Z \/ (1 <= current_retry p <= 2147483647)%Z)
    /\ Forall (fun e => retry e = (-1)%Z \/ (1 <= retry e <= 2147483647)%Z)
              (snd (run script callback)).
Proof.
  intros script cb. cbv zeta. unfold run.
  assert (H0 : retry_sound conduit_sse_parser_create).
  { split; [unfold retry_in_range; cbn; lia | now left]. }
  destruct (run_from_retry_sound script _ cb H0) as ((H1 & H2) & H3).
  split; [exact H1|]. split; [exact H2 | exact H3].
Qed.

Lemma dispatch_null_callback p :
  fst (dispatch_if_needed p false) = fst (dispatch_if_needed p true)
  /\ snd (dispatch_if_needed p false) = [].
Proof.
  rewrite !dispatch_state. split; [reflexivity|].
  unfold dispatch_if_needed. now destruct (_ && _).
Qed.

Lemma do_call_null_callback p c :
  fst (do_call p c false) = fst (do_call p c true)
  /\ snd (do_call p c false) = [].
Proof.
  destruct c as [line|]; cbn [do_call].
  - unfold conduit_sse_ingest_line.
    destruct (_ =? 0); [apply dispatch_null_callback|].
    destruct (Ascii.eqb _ _); [auto|]. destruct (split_field _); auto.
  - unfold conduit_sse_finish.
    destruct (_ || _); [apply dispatch_null_callback | auto].
Qed.

Lemma run_from_null_callback script : forall p,
  fst (run_from p script false) = fst (run_from p script true)
  /\ snd (run_from p script false) = [].
Proof.
  induction script as [|c script IH]; intros p; cbn [run_from]; [auto|].
  destruct (do_call_null_callback p c) as (H1 & H2).
  destruct (do_call p c false) as [p1 e1], (do_call p c true) as [p1' e1'].
  cbn [fst snd] in *. subst p1' e1.
  destruct (IH p1) as (H3 & H4).
  destruct (run_from p1 script false) as [p2 e2],
           (run_from p1 script true) as [p2' e2'].
  cbn [fst snd] in *. subst. auto.
Qed.

(** X13.  A NULL callback only silences the parser: the parser state
    evolves exactly as with a callback (events are still cut and the
    per-event fields reset), and nothing is reported. *)
Theorem null_callback_only_silences :
  forall (script : list call),
    fst (run script false) = fst (run script true)
    /\ snd (run script false) = [].
Proof. intros script. apply run_from_null_callback. Qed.

Lemma do_call_inert p c cb : inert c = true -> do_call p c cb = (p, []).
Proof.
  destruct c as [line|]; cbn [do_call inert]; [|discriminate].
  unfold field_of, conduit_sse_ingest_line.
  destruct (length (normalize line) =? 0); [discriminate|].
  destruct (Ascii.eqb _ ":"%char); [reflexivity|].
  destruct (split_field (normalize line)) as [f v].
  unfold known_field, process_field. intros H.
  apply negb_true_iff in H.
  apply orb_false_elim in H as (H & ->).
  apply orb_false_elim in H as (H & ->).
  apply orb_false_elim in H as (-> & ->). reflexivity.
Qed.

(** X14.  Comment lines and lines of a field other than [event], [data],
    [id] and [retry] are invisible: deleting them from any sequence of calls
    changes neither the events reported nor the final parser state. *)
Theorem comments_and_unknown_fields_are_invisible :
  forall (p : conduit_sse_parser) (script : list call) (callback : bool),
    run_from p (filter (fun c => negb (inert c)) script) callback
    = run_from p script callback.
Proof.
  intros p script cb. revert p.
  induction script as [|c script IH]; intros p; [reflexivity|].
  cbn [filter]. destruct (inert c) eqn:E; cbn [negb run_from].
  - rewrite (do_call_inert p c cb E), IH.
    now destruct (run_from p script cb).
  - destruct (do_call p c cb) as [p1 e1]. now rewrite IH.
Qed.

(** X15.  An event boundary reports at most once: directly after a blank
    line, another blank line or [conduit_sse_finish] reports nothing and
    leaves the parser as it is, and a second [conduit_sse_finish] never
    reports. *)
Theorem boundary_reports_at_most_once :
  forall (p : conduit_sse_parser) (callback : bool),
    let p1 := fst (conduit_sse_ingest_line p [] callback) in
    conduit_sse_ingest_line p1 [] callback = (p1, [])
    /\ conduit_sse_finish p1 callback = (p1, [])
    /\ snd (conduit_sse_finish (fst (conduit_sse_finish p callback)) callback) = [].
Proof.
  intros p cb. cbv zeta.
  change (conduit_sse_ingest_line p [] cb) with (dispatch_if_needed p cb).
  rewrite dispatch_state. split; [reflexivity|]. split; [reflexivity|].
  unfold conduit_sse_finish at 2.
  destruct (_ || _) eqn:E.
  - now rewrite dispatch_state.
  - cbn [fst]. unfold conduit_sse_finish. now rewrite E.
Qed.

(** *** The event a block of lines produces *)

Lemma values_of_app name a : forall b,
  values_of name (a ++ b) = values_of name a ++ values_of name b.
Proof.
  induction a as [|c a IH]; intros b; cbn [app values_of]; [reflexivity|].
  destruct (value_of name c); now rewrite IH.
Qed.

Lemma retry_values_app a : forall b,
  retry_values (a ++ b) = retry_values a ++ retry_values b.
Proof.
  induction a as [|v a IH]; intros b; cbn [app retry_values]; [reflexivity|].
  destruct (retry_ms v); now rewrite IH.
Qed.

Lemma join_lf_cons v values :
  values <> [] -> join_lf (v :: values) = v ++ LF :: join_lf values.
Proof. destruct values; [congruence | reflexivity]. Qed.

Lemma join_lf_snoc values : forall v,
  values <> [] -> join_lf (values ++ [v]) = join_lf values ++ LF :: v.
Proof.
  induction values as [|w values IH]; intros v Hne; [congruence|].
  destruct values as [|w' values]; [reflexivity|].
  change ((w :: w' :: values) ++ [v]) with (w :: ((w' :: values) ++ [v])).
  rewrite join_lf_cons by (cbn [app]; discriminate).
  rewrite IH by discriminate.
  rewrite (join_lf_cons w (w' :: values)) by discriminate.
  now rewrite <- app_assoc.
Qed.

Lemma drop_empty_head values :
  match drop_empty values with
  | [] => True
  | w :: _ => w <> []
  end.
Proof.
  induction values as [|w values IH]; cbn [drop_empty]; [exact I|].
  destruct w; [exact IH | discriminate].
Qed.

Lemma drop_empty_snoc values v :
  drop_empty (values ++ [v])
  = match drop_empty values with
    | [] => drop_empty [v]
    | _ => drop_empty values ++ [v]
    end.
Proof.
  induction values as [|w values IH]; [reflexivity|].
  cbn [app drop_empty]. destruct w; [exact IH | reflexivity].
Qed.

Lemma join_lf_nonempty values :
  match drop_empty values with
  | [] => join_lf (drop_empty values) = []
  | _ => join_lf (drop_empty values) <> []
  end.
Proof.
  pose proof (drop_empty_head values) as H.
  destruct (drop_empty values) as [|w rest]; [reflexivity|].
  destruct rest; cbn [join_lf]; [exact H|].
  destruct w; [congruence | discriminate].
Qed.

(** The accumulation rule of the [data] branch, on the joined text. *)
Lemma join_data_snoc values v :
  join_lf (drop_empty (values ++ [v]))
  = let d := join_lf (drop_empty values) in
    (if 0 <? length d then d ++ [LF] else d) ++ v.
Proof.
  cbv zeta. rewrite drop_empty_snoc.
  pose proof (join_lf_nonempty values) as H.
  destruct (drop_empty values) as [|w rest] eqn:E.
  - rewrite H. cbn [length Nat.ltb Nat.leb app]. now destruct v.
  - rewrite join_lf_snoc by discriminate.
    destruct (join_lf (w :: rest)); [congruence|].
    cbn [length]. destruct (Nat.ltb_spec 0 (S (length l))); [|lia].
    now rewrite <- app_assoc.
Qed.

(** What the per-event fields of the parser hold after the lines [seen]
    of the block that started on the buffers of [old]. *)
Definition tracks (old p : conduit_sse_parser) (seen : list call) : Prop :=
  parser_wf p
  /\ has_id p = negb (null (block_ids seen))
  /\ dyn_str_cstr (current_id p)
     = fold_left shown (block_ids seen) (dyn_str_cstr (current_id old))
  /\ has_event p = negb (null (values_of (bytes "event") seen))
  /\ dyn_str_cstr (current_event p)
     = fold_left shown (values_of (bytes "event") seen)
                 (dyn_str_cstr (current_event old))
  /\ dyn_str_bytes (current_data p)
     = join_lf (drop_empty (values_of (bytes "data") seen))
  /\ dyn_str_cstr (current_data p)
     = shown (dyn_str_cstr (current_data old))
             (join_lf (drop_empty (values_of (bytes "data") seen)))
  /\ has_data p = negb (null (values_of (bytes "data") seen))
  /\ current_retry p
     = last (retry_values (values_of (bytes "retry") seen)) (-1)%Z.

Lemma tracks_reset p : parser_wf p -> tracks p (reset_current_event p) [].
Proof.
  intros Hwf. split; [now apply reset_wf|]. repeat split.
Qed.

Lemma value_of_line name line field value :
  field_of line = Some (field, value) ->
  value_of name (IngestLine line)
  = if bytes_eqb field name then Some value else None.
Proof. intros E. cbn [value_of]. now rewrite E. Qed.

Lemma values_of_snoc name seen c :
  values_of name (seen ++ [c])
  = values_of name seen
    ++ match value_of name c with Some v => [v] | None => [] end.
Proof.
  rewrite values_of_app. cbn [values_of]. now destruct (value_of name c).
Qed.

Lemma block_ids_snoc seen c :
  block_ids (seen ++ [c])
  = block_ids seen
    ++ match value_of (bytes "id") c with
       | Some v => if has_null v then [] else [v]
       | None => []
       end.
Proof.
  unfold block_ids. rewrite values_of_snoc, filter_app. f_equal.
  destruct (value_of (bytes "id") c) as [v|]; [|reflexivity].
  cbn [filter]. now destruct (has_null v).
Qed.

Lemma null_snoc {A} (l : list A) x : null (l ++ [x]) = false.
Proof. now destruct l. Qed.

Lemma fold_shown_snoc values v old :
  fold_left shown (values ++ [v]) old = shown (fold_left shown values old) v.
Proof. now rewrite fold_left_app. Qed.

(** The [data] branch keeps the content and the text in step. *)
Lemma tracks_data old d values value :
  dyn_str_wf d ->
  dyn_str_bytes d = join_lf (drop_empty values) ->
  dyn_str_cstr d = shown old (join_lf (drop_empty values)) ->
  let d' := dyn_str_append
              (if 0 <? ds_len d then dyn_str_append_char d LF else d) value in
  dyn_str_bytes d' = join_lf (drop_empty (values ++ [value]))
  /\ dyn_str_cstr d' = shown old (join_lf (drop_empty (values ++ [value]))).
Proof.
  intros Hwf Hb Hc d'.
  pose proof (data_append_spec d value Hwf) as S. cbv zeta in S.
  fold d' in S. destruct S as (_ & B & _ & C1 & C0).
  rewrite join_data_snoc. cbv zeta. rewrite <- Hb.
  rewrite (dyn_str_bytes_length d Hwf). split; [exact B|].
  destruct (Nat.ltb_spec 0 (ds_len d)) as [L|L].
  - rewrite (C1 L), B.
    assert (Hne : dyn_str_bytes d <> []).
    { intros E. apply (f_equal (@length _)) in E.
      rewrite (dyn_str_bytes_length d Hwf) in E. cbn [length] in E. lia. }
    destruct (dyn_str_bytes d) as [|x l]; [congruence | reflexivity].
  - assert (L0 : ds_len d = 0) by lia.
    assert (Eb : dyn_str_bytes d = [])
      by (unfold dyn_str_bytes; now rewrite L0).
    rewrite (C0 L0), Hc, <- Hb, Eb. reflexivity.
Qed.

Lemma tracks_field old p seen line field value :
  field_of line = Some (field, value) ->
  tracks old p seen ->
  tracks old (process_field p field value) (seen ++ [IngestLine line]).
Proof.
  intros Ef (Hwf & Hid & Tid & Hev & Tev & Bdata & Tdata & Hdata & Tretry).
  split; [now apply process_field_wf|].
  destruct Hwf as (W1 & W2 & W3 & W4).
  rewrite block_ids_snoc, !values_of_snoc, !(value_of_line _ _ _ _ Ef).
  cbn [bytes list_ascii_of_string] in *.
  unfold process_field.
  destruct (bytes_eqb field (bytes "event")) eqn:Eevent.
  { apply bytes_eqb_eq in Eevent. subst field.
    cbn [bytes_eqb bytes list_ascii_of_string Ascii.eqb Bool.eqb andb].
    cbn [current_id current_event current_data current_retry
         has_id has_event has_data].
    rewrite !app_nil_r, null_snoc, fold_shown_snoc, <- Tev.
    destruct (dyn_str_refill (current_event p) value W2) as (_ & _ & C).
    rewrite C. repeat (split; [assumption || reflexivity|]). assumption. }
  destruct (bytes_eqb field (bytes "data")) eqn:Edata.
  { apply bytes_eqb_eq in Edata. subst field.
    cbn [bytes_eqb bytes list_ascii_of_string Ascii.eqb Bool.eqb andb].
    cbn [current_id current_event current_data current_retry
         has_id has_event has_data].
    rewrite !app_nil_r, null_snoc.
    destruct (tracks_data _ _ _ value W3 Bdata Tdata) as (B & C).
    repeat (split; [assumption || reflexivity|]). assumption. }
  destruct (bytes_eqb field (bytes "id")) eqn:Eid.
  { apply bytes_eqb_eq in Eid. subst field.
    cbn [bytes_eqb bytes list_ascii_of_string Ascii.eqb Bool.eqb andb].
    rewrite !app_nil_r.
    destruct (has_null value); cbn [negb].
    - rewrite app_nil_r.
      repeat (split; [assumption || reflexivity|]). assumption.
    - cbn [current_id current_event current_data current_retry
           has_id has_event has_data].
      rewrite null_snoc, fold_shown_snoc, <- Tid.
      destruct (dyn_str_refill (current_id p) value W1) as (_ & _ & C).
      rewrite C. repeat (split; [assumption || reflexivity|]). assumption. }
  destruct (bytes_eqb field (bytes "retry")) eqn:Eretry.
  { apply bytes_eqb_eq in Eretry. subst field.
    pose proof (process_field_retry p value) as E.
    unfold process_field in E. cbn [bytes_eqb bytes list_ascii_of_string] in E.
    cbn -[retry_loop Nat.ltb Z.ltb] in E. rewrite E. clear E.
    cbn [bytes_eqb bytes list_ascii_of_string Ascii.eqb Bool.eqb andb].
    rewrite !app_nil_r, retry_values_app. cbn [retry_values].
    destruct (retry_ms value) as [ms|].
    - cbn [current_id current_event current_data current_retry
           has_id has_event has_data].
      rewrite last_last.
      repeat (split; [assumption || reflexivity|]). reflexivity.
    - rewrite app_nil_r.
      repeat (split; [assumption || reflexivity|]). assumption. }
  cbn [bytes list_ascii_of_string] in *.
  rewrite Eevent, Edata, Eid, Eretry, !app_nil_r.
  repeat (split; [assumption || reflexivity|]). assumption.
Qed.

Lemma tracks_call old p seen c cb :
  no_boundary c -> tracks old p seen ->
  tracks old (fst (do_call p c cb)) (seen ++ [c]) /\ snd (do_call p c cb) = [].
Proof.
  destruct c as [line|]; cbn [no_boundary do_call]; [|contradiction].
  intros Hne T.
  destruct (field_of line) as [[f v]|] eqn:Ef.
  - rewrite (ingest_field p line cb f v Ef). cbn [fst snd].
    split; [now apply tracks_field | reflexivity].
  - assert (E : conduit_sse_ingest_line p line cb = (p, [])).
    { revert Ef. unfold field_of, conduit_sse_ingest_line.
      destruct (normalize line) as [|x l] eqn:En; [congruence|].
      cbn [length Nat.eqb]. destruct (Ascii.eqb _ _); [reflexivity | discriminate]. }
    rewrite E. cbn [fst snd]. split; [|reflexivity].
    unfold tracks in *.
    rewrite block_ids_snoc, !values_of_snoc. cbn [value_of]. rewrite Ef.
    rewrite !app_nil_r. exact T.
Qed.

Lemma run_from_tracks old seg : forall p seen cb,
  Forall no_boundary seg -> tracks old p seen ->
  tracks old (fst (run_from p seg cb)) (seen ++ seg)
  /\ snd (run_from p seg cb) = [].
Proof.
  induction seg as [|c seg IH]; intros p seen cb Hseg T; cbn [run_from].
  - rewrite app_nil_r. auto.
  - inversion Hseg as [|? ? Hc Hrest]; subst.
    destruct (tracks_call old p seen c cb Hc T) as (T1 & E1).
    destruct (do_call p c cb) as [p1 e1]. cbn [fst snd] in *. subst e1.
    destruct (IH p1 (seen ++ [c]) cb Hrest T1) as (T2 & E2).
    destruct (run_from p1 seg cb) as [p2 e2]. cbn [fst snd] in *. subst e2.
    rewrite <- app_assoc in T2. auto.
Qed.

Lemma dispatch_tracked old p seg :
  tracks old p seg ->
  snd (dispatch_if_needed p true)
  = if block_is_empty seg then [] else [block_event old seg].
Proof.
  intros (Hwf & Hid & Tid & Hev & Tev & Bdata & Tdata & Hdata & Tretry).
  unfold dispatch_if_needed, block_is_empty, block_event.
  rewrite <- Tid, <- Tev, <- Tdata, <- Tretry, Hid, Hev, Hdata.
  rewrite <- (dyn_str_bytes_length _ (proj1 (proj2 (proj2 Hwf)))), Bdata.
  pose proof (join_lf_nonempty (values_of (bytes "data") seg)) as Hj.
  destruct (values_of (bytes "data") seg) as [|v vs] eqn:Ev; cbn [null negb].
  - cbn [drop_empty join_lf length Nat.eqb andb].
    destruct (null (block_ids seg)), (null (values_of (bytes "event") seg));
      reflexivity.
  - rewrite !andb_false_r. cbn [andb].
    destruct (null (block_ids seg)), (null (values_of (bytes "event") seg));
      reflexivity.
Qed.

Lemma run_from_wf script : forall p cb,
  parser_wf p -> parser_wf (fst (run_from p script cb)).
Proof.
  induction script as [|c script IH]; intros p cb Hwf; cbn [run_from fst]; auto.
  pose proof (do_call_wf p c cb Hwf) as H1.
  destruct (do_call p c cb) as [p1 e1]. cbn [fst] in H1.
  specialize (IH p1 cb H1). now destruct (run_from p1 script cb).
Qed.

(** X16.  The lines of one block (no blank line among them), ingested
    after an event boundary or into a fresh parser and followed by a blank
    line, report at most one event, and none when the block has no [data],
    [event] or NUL-free [id] line.  The callback reads C strings from
    buffers that a reset does not erase.  If the [data] values, joined with
    LF after dropping leading empty values, have no byte at all, the
    event's [data] is the text the data buffer held before the block;
    otherwise it is the joined bytes up to the first NUL.  [event] and [id]
    are NULL without such a line; otherwise they are the last value that is
    not empty, up to its first NUL, or the text the buffer held before the
    block if every value is empty.  [retry] is the last accepted [retry]
    number or -1.  On a fresh parser the earlier texts are empty. *)
Theorem block_reports_its_event :
  forall (p : conduit_sse_parser) (seg : list call),
    parser_wf p ->
    Forall no_boundary seg ->
    snd (run_from (reset_current_event p) (seg ++ [IngestLine []]) true)
      = (if block_is_empty seg then [] else [block_event p seg])
    /\ snd (run (seg ++ [IngestLine []]) true)
       = (if block_is_empty seg then []
          else [block_event conduit_sse_parser_create seg]).
Proof.
  assert (H : forall p seg, parser_wf p -> Forall no_boundary seg ->
            snd (run_from (reset_current_event p) (seg ++ [IngestLine []]) true)
            = if block_is_empty seg then [] else [block_event p seg]).
  { intros p seg Hwf Hseg. rewrite run_from_app.
    destruct (run_from_tracks p seg (reset_current_event p) [] true Hseg
                (tracks_reset p Hwf)) as (T & E).
    destruct (run_from (reset_current_event p) seg true) as [p1 e1].
    cbn [fst snd app] in *. subst e1. cbn [run_from do_call].
    change (conduit_sse_ingest_line p1 [] true) with (dispatch_if_needed p1 true).
    pose proof (dispatch_tracked p p1 seg T) as D.
    destruct (dispatch_if_needed p1 true) as [p2 e2]. cbn [snd] in *.
    now rewrite app_nil_r. }
  intros p seg Hwf Hseg. split; [now apply H|].
  exact (H conduit_sse_parser_create seg parser_create_wf Hseg).
Qed.

Lemma block_reports_its_event_witness :
  let p := fst (run (map IngestLine
                       [bytes "id: 1"; bytes "event: ping"; bytes "data: hi"])
                    true) in
  let seg := map IngestLine
               [bytes "data"; bytes "event"; bytes ": note"; bytes "retry: 70";
                bytes "other: z"] in
  parser_wf p
  /\ Forall no_boundary seg
  /\ snd (run_from (reset_current_event p) (seg ++ [IngestLine []]) true)
     = [mkevent None (Some (bytes "ping")) (bytes "hi") 70]
  /\ snd (run (seg ++ [IngestLine []]) true)
     = [mkevent None (Some []) [] 70].
Proof.
  intros p seg.
  assert (Hwf : parser_wf p) by (apply run_from_wf, parser_create_wf).
  assert (Hseg : Forall no_boundary seg) by (repeat constructor; discriminate).
  split; [exact Hwf|]. split; [exact Hseg|].
  exact (block_reports_its_event p seg Hwf Hseg).
Defined.

End SSESessions.

(* ------------------------------------------------------------------ *)
(** ** Vector kernels *)

Module VectorFacts.
Import VectorOps.

(** C8 (failing input).  A query holding a NaN: its norm is NaN, which
    the batch kernel's test [query_norm == 0.0f] does not catch, so the
    result is [dot / (NaN * vec_norm)], a NaN; the single-vector kernel
    tests [denom > 0.0f], which a NaN fails, and returns 0. *)
Theorem batch_differs_on_nan_query :
  let query := [S754_nan] in
  let vectors := [fone] in
  at_ (conduit_cosine_similarity_batch query vectors 1 1 [fzero]) 0 = S754_nan
  /\ conduit_cosine_similarity query (skipn (0 * 1) vectors) 1 = fzero.
Proof. vm_compute. auto. Qed.

End VectorFacts.

(* ------------------------------------------------------------------ *)
(** ** Vector kernels: zero vectors, symmetry and the batch loop *)

Module VectorKernels.
Import VectorOps.

Lemma fsub_diag x : is_finite x = true -> fsub x x = fzero.
Proof.
  destruct x as [s | s | | s m e]; try discriminate; intros _.
  - now destruct s.
  - unfold fsub, SFsub. cbv zeta. now rewrite Z.sub_diag.
Qed.

Lemma euclid_loop_diag a : forall n i,
  (forall j, j < n -> is_finite (at_ a (i + j)) = true) ->
  euclid_loop a a i n fzero = fzero.
Proof.
  induction n as [|n IH]; intros i H; cbn [euclid_loop]; [reflexivity|].
  rewrite fsub_diag by (rewrite <- (Nat.add_0_r i); apply H; lia).
  change (fadd fzero (fmul fzero fzero)) with fzero.
  apply IH. intros j Hj. replace (S i + j) with (i + S j) by lia. apply H. lia.
Qed.

(** X24.  The Euclidean distance of a vector to itself is exactly
    [+0.0f] whenever its first [count] entries are finite; for [count = 0]
    the result is [0.0f]. *)
Theorem distance_to_itself_is_zero :
  forall (a : list float) (count : nat),
    (forall i, i < count -> is_finite (at_ a i) = true) ->
    conduit_euclidean_distance a a count = fzero.
Proof.
  intros a count H. unfold conduit_euclidean_distance.
  destruct (count =? 0); [reflexivity|].
  now rewrite euclid_loop_diag.
Qed.

Lemma distance_to_itself_is_zero_witness :
  let a := [fone; S754_finite true 12582912 (-22); S754_zero true] in
  (forall i, i < 3 -> is_finite (at_ a i) = true)
  /\ conduit_euclidean_distance a a 3 = fzero
  /\ conduit_euclidean_distance [S754_infinity false] [S754_infinity false] 1
     = S754_nan.
Proof.
  intros a.
  assert (H : forall i, i < 3 -> is_finite (at_ a i) = true).
  { intros i Hi. destruct i as [|[|[|i]]]; try reflexivity. lia. }
  split; [exact H|]. split; [|reflexivity].
  exact (distance_to_itself_is_zero a 3 H).
Defined.

(** *** One loop, three sums *)

Lemma cosine_loop_sums a b : forall n i dot normA normB,
  cosine_loop a b i n (dot, normA, normB)
  = (dot_loop a b i n dot, dot_loop a a i n normA, dot_loop b b i n normB).
Proof.
  induction n as [|n IH]; intros i dot nA nB; cbn [cosine_loop dot_loop];
    [reflexivity | apply IH].
Qed.

Lemma batch_inner_sums q v : forall n i dot norm,
  batch_inner q v i n (dot, norm)
  = (dot_loop q v i n dot, dot_loop v v i n norm).
Proof.
  induction n as [|n IH]; intros i dot norm; cbn [batch_inner dot_loop];
    [reflexivity | apply IH].
Qed.

(** *** Zero vectors *)

Lemma norm_of_zeros a : forall n i,
  (forall j, j < n -> is_zero (at_ a (i + j)) = true) ->
  dot_loop a a i n fzero = fzero.
Proof.
  induction n as [|n IH]; intros i H; cbn [dot_loop]; [reflexivity|].
  assert (H0 : is_zero (at_ a i) = true)
    by (rewrite <- (Nat.add_0_r i); apply H; lia).
  destruct (at_ a i) as [s | | |]; try discriminate.
  replace (fadd fzero (fmul (S754_zero s) (S754_zero s))) with fzero
    by (now destruct s).
  apply IH. intros j Hj. replace (S i + j) with (i + S j) by lia. apply H. lia.
Qed.

Lemma zero_norm_guard_l x y : is_zero x = true -> fgt (fmul x y) fzero = false.
Proof.
  destruct x as [s | | |]; try discriminate. intros _.
  destruct y as [t | t | | t m e]; destruct s; try destruct t; reflexivity.
Qed.

Lemma zero_norm_guard_r x y : is_zero y = true -> fgt (fmul x y) fzero = false.
Proof.
  destruct y as [s | | |]; try discriminate. intros _.
  destruct x as [t | t | | t m e]; destruct s; try destruct t; reflexivity.
Qed.

(** X25.  The cosine similarity with an all-zero vector is [0.0f], not a
    division by zero: if the first [count] entries of either argument are
    (positive or negative) zeros, the result is [+0.0f] whatever the other
    vector holds, infinities and NaNs included. *)
Theorem cosine_with_zero_vector_is_zero :
  forall (a b : list float) (count : nat),
    (forall i, i < count -> is_zero (at_ a i) = true)
    \/ (forall i, i < count -> is_zero (at_ b i) = true) ->
    conduit_cosine_similarity a b count = fzero.
Proof.
  intros a b count H. unfold conduit_cosine_similarity.
  destruct (count =? 0); [reflexivity|].
  rewrite cosine_loop_sums.
  destruct H as [H | H].
  - rewrite (norm_of_zeros a count 0 H).
    now rewrite zero_norm_guard_l.
  - rewrite (norm_of_zeros b count 0 H).
    now rewrite zero_norm_guard_r.
Qed.

Lemma cosine_with_zero_vector_is_zero_witness :
  let a := [S754_zero false; S754_zero true] in
  let b := [S754_nan; S754_infinity true] in
  ((forall i, i < 2 -> is_zero (at_ a i) = true)
   \/ (forall i, i < 2 -> is_zero (at_ b i) = true))
  /\ conduit_cosine_similarity a b 2 = fzero.
Proof.
  intros a b.
  assert (H : (forall i, i < 2 -> is_zero (at_ a i) = true)
              \/ (forall i, i < 2 -> is_zero (at_ b i) = true)).
  { left. intros i Hi. destruct i as [|[|i]]; try reflexivity. lia. }
  split; [exact H|].
  exact (cosine_with_zero_vector_is_zero a b 2 H).
Defined.

(** *** Symmetry *)

Lemma fmul_comm x y : fmul x y = fmul y x.
Proof.
  unfold fmul, SFmul.
  destruct x as [s | s | | s m e], y as [t | t | | t n f];
    try reflexivity; try (now rewrite xorb_comm).
  now rewrite xorb_comm, Pos.mul_comm, Z.add_comm.
Qed.

Lemma dot_loop_comm a b : forall n i acc,
  dot_loop a b i n acc = dot_loop b a i n acc.
Proof.
  induction n as [|n IH]; intros i acc; cbn [dot_loop]; [reflexivity|].
  now rewrite fmul_comm, IH.
Qed.

(** X26.  The dot product and the cosine similarity are symmetric in
    their two vectors: swapping the arguments gives the same value, down to
    the sign of a zero, for all inputs.  The float model has one NaN, so
    where the result is a NaN this says that both orders give a NaN, not
    that the NaNs have the same sign and payload. *)
Theorem dot_and_cosine_are_symmetric :
  forall (a b : list float) (count : nat),
    conduit_dot_product a b count = conduit_dot_product b a count
    /\ conduit_cosine_similarity a b count = conduit_cosine_similarity b a count.
Proof.
  intros a b count. split.
  - unfold conduit_dot_product. destruct (count =? 0); [reflexivity|].
    apply dot_loop_comm.
  - unfold conduit_cosine_similarity. destruct (count =? 0); [reflexivity|].
    rewrite !cosine_loop_sums.
    rewrite (dot_loop_comm a b),
            (fmul_comm (sqrtf (dot_loop a a 0 count fzero))).
    reflexivity.
Qed.

(** *** The batch loop *)

Lemma fstore_length l : forall i x, length (fstore l i x) = length l.
Proof.
  induction l as [|y l IH]; intros [|i] x; cbn [fstore length]; auto.
Qed.

Lemma at_fstore_same l : forall i x, i < length l -> at_ (fstore l i x) i = x.
Proof.
  unfold at_. induction l as [|y l IH]; intros [|i] x H; cbn in *; try lia; auto.
  apply IH. lia.
Qed.

Lemma at_fstore_other l : forall i j x, i <> j -> at_ (fstore l i x) j = at_ l j.
Proof.
  unfold at_. induction l as [|y l IH]; intros [|i] [|j] x H; cbn; auto; try lia.
Qed.

(** The value the batch loop computes for vector [v]. *)
Definition batch_entry (query vectors : list float) (dimensions : nat)
    (query_norm : float) (v : nat) : float :=
  let vec := skipn (v * dimensions) vectors in
  let dot := dot_loop query vec 0 dimensions fzero in
  let vec_norm := sqrtf (dot_loop vec vec 0 dimensions fzero) in
  if fgt vec_norm fzero then fdiv dot (fmul query_norm vec_norm) else fzero.

Lemma batch_outer_spec q vs dims qn : forall n v results,
  length (batch_outer q vs dims qn v n results) = length results
  /\ forall i,
       at_ (batch_outer q vs dims qn v n results) i
       = if (v <=? i) && (i <? v + n) && (i <? length results)
         then batch_entry q vs dims qn i else at_ results i.
Proof.
  induction n as [|n IH]; intros v results; cbn [batch_outer].
  - split; [reflexivity|]. intros i.
    destruct (Nat.leb_spec v i), (Nat.ltb_spec i (v + 0)); cbn [andb];
      try reflexivity; lia.
  - rewrite batch_inner_sums.
    destruct (IH (S v) (fstore results v
                (batch_entry q vs dims qn v))) as (L & A).
    unfold batch_entry in L, A at 1. cbv zeta in L, A.
    split; [now rewrite L, fstore_length|]. intros i. rewrite A, fstore_length.
    destruct (Nat.eq_dec v i) as [<- | Hne].
    + destruct (Nat.leb_spec (S v) v); [lia|]. cbn [andb].
      rewrite Nat.leb_refl.
      destruct (Nat.ltb_spec v (v + S n)); [|lia]. cbn [andb].
      destruct (Nat.ltb_spec v (length results)).
      * now rewrite at_fstore_same.
      * unfold at_. rewrite !nth_overflow; auto. rewrite fstore_length. lia.
    + rewrite at_fstore_other by exact Hne.
      destruct (Nat.leb_spec (S v) i), (Nat.leb_spec v i),
               (Nat.ltb_spec i (S v + n)), (Nat.ltb_spec i (v + S n));
        cbn [andb]; try reflexivity; lia.
Qed.

Lemma zero_fill_spec : forall n i0 results,
  length (zero_fill i0 n results) = length results
  /\ forall i,
       at_ (zero_fill i0 n results) i
       = if (i0 <=? i) && (i <? i0 + n) && (i <? length results)
         then fzero else at_ results i.
Proof.
  induction n as [|n IH]; intros i0 results; cbn [zero_fill].
  - split; [reflexivity|]. intros i.
    destruct (Nat.leb_spec i0 i), (Nat.ltb_spec i (i0 + 0)); cbn [andb];
      try reflexivity; lia.
  - destruct (IH (S i0) (fstore results i0 fzero)) as (L & A).
    split; [now rewrite L, fstore_length|]. intros i. rewrite A, fstore_length.
    destruct (Nat.eq_dec i0 i) as [<- | Hne].
    + destruct (Nat.leb_spec (S i0) i0); [lia|]. cbn [andb].
      rewrite Nat.leb_refl.
      destruct (Nat.ltb_spec i0 (i0 + S n)); [|lia]. cbn [andb].
      destruct (Nat.ltb_spec i0 (length results)).
      * now rewrite at_fstore_same.
      * unfold at_. rewrite !nth_overflow; auto. rewrite fstore_length. lia.
    + rewrite at_fstore_other by exact Hne.
      destruct (Nat.leb_spec (S i0) i), (Nat.leb_spec i0 i),
               (Nat.ltb_spec i (S i0 + n)), (Nat.ltb_spec i (i0 + S n));
        cbn [andb]; try reflexivity; lia.
Qed.

Lemma feq_zero x : feq x fzero = true -> is_zero x = true.
Proof.
  destruct x as [s | s | | s m e]; try reflexivity;
    try destruct s; discriminate.
Qed.

(** X27.  Entry [i] of the batch result equals the single-vector call on
    the query and vector [i] whenever the query norm compares equal to zero,
    or the product of the two norms compares greater than zero exactly when
    the norm of vector [i] does. *)
Theorem batch_agrees_with_single_call :
  forall (query vectors results : list float) (dimensions count i : nat),
    0 < dimensions -> i < count -> count <= length results ->
    let vec := skipn (i * dimensions) vectors in
    let query_norm := sqrtf (dot_loop query query 0 dimensions fzero) in
    let vec_norm := sqrtf (dot_loop vec vec 0 dimensions fzero) in
    feq query_norm fzero = true
    \/ fgt (fmul query_norm vec_norm) fzero = fgt vec_norm fzero ->
    at_ (conduit_cosine_similarity_batch query vectors dimensions count results) i
    = conduit_cosine_similarity query vec dimensions.
Proof.
  intros q vs results dims count i Hd Hi Hlen vec qn vn Hguard.
  unfold conduit_cosine_similarity_batch, conduit_cosine_similarity.
  destruct (Nat.eqb_spec dims 0); [lia|].
  destruct (Nat.eqb_spec count 0); [lia|]. cbn [orb]. cbv zeta.
  rewrite cosine_loop_sums. fold qn. fold vec. fold vn.
  destruct (feq qn fzero) eqn:Ez.
  - destruct (zero_fill_spec count 0 results) as (_ & A). rewrite A.
    destruct (Nat.ltb_spec i (0 + count)), (Nat.ltb_spec i (length results));
      try lia. cbn [Nat.leb andb].
    now rewrite (zero_norm_guard_l qn vn (feq_zero _ Ez)).
  - destruct Hguard as [? | Hguard]; [discriminate|].
    destruct (batch_outer_spec q vs dims qn count 0 results) as (_ & A).
    rewrite A.
    destruct (Nat.ltb_spec i (0 + count)), (Nat.ltb_spec i (length results));
      try lia. cbn [Nat.leb andb].
    unfold batch_entry. cbv zeta. fold vec. fold vn. now rewrite Hguard.
Qed.

Lemma batch_agrees_with_single_call_witness :
  let query := [fone; fone] in
  let vectors := [fone; fzero; fone; fone] in
  let results := [S754_nan; S754_nan] in
  0 < 2 /\ 1 < 2 /\ 2 <= length results
  /\ (feq (sqrtf (dot_loop query query 0 2 fzero)) fzero = true
      \/ fgt (fmul (sqrtf (dot_loop query query 0 2 fzero))
                   (sqrtf (dot_loop (skipn (1 * 2) vectors)
                                    (skipn (1 * 2) vectors) 0 2 fzero)))
             fzero
         = fgt (sqrtf (dot_loop (skipn (1 * 2) vectors)
                                (skipn (1 * 2) vectors) 0 2 fzero)) fzero)
  /\ at_ (conduit_cosine_similarity_batch query vectors 2 2 results) 1
     = conduit_cosine_similarity query (skipn (1 * 2) vectors) 2.
Proof.
  intros query vectors results.
  assert (H1 : 0 < 2) by lia. assert (H2 : 1 < 2) by lia.
  assert (H3 : 2 <= length results) by (cbn; lia).
  assert (H4 : feq (sqrtf (dot_loop query query 0 2 fzero)) fzero = true
      \/ fgt (fmul (sqrtf (dot_loop query query 0 2 fzero))
                   (sqrtf (dot_loop (skipn (1 * 2) vectors)
                                    (skipn (1 * 2) vectors) 0 2 fzero)))
             fzero
         = fgt (sqrtf (dot_loop (skipn (1 * 2) vectors)
                                (skipn (1 * 2) vectors) 0 2 fzero)) fzero)
    by (right; vm_compute; reflexivity).
  split; [exact H1|]. split; [exact H2|]. split; [exact H3|]. split; [exact H4|].
  exact (batch_agrees_with_single_call query vectors results 2 2 1 H1 H2 H3 H4).
Defined.

(** X28.  The batch call writes [results[0 .. count)] and nothing else:
    the array keeps its length, every entry from [count] on keeps its value,
    and with [dimensions = 0] or [count = 0] nothing is written at all. *)
Theorem batch_writes_only_its_results :
  forall (query vectors results : list float) (dimensions count : nat),
    let results' :=
      conduit_cosine_similarity_batch query vectors dimensions count results in
    length results' = length results
    /\ (forall j, count <= j -> at_ results' j = at_ results j)
    /\ (dimensions = 0 \/ count = 0 -> results' = results).
Proof.
  intros q vs results dims count. cbv zeta.
  unfold conduit_cosine_similarity_batch.
  destruct (Nat.eqb_spec dims 0) as [Hd | Hd]; [cbn [orb]; auto|].
  destruct (Nat.eqb_spec count 0) as [Hc | Hc]; [cbn [orb]; auto|].
  cbn [orb]. cbv zeta.
  destruct (feq _ fzero).
  - destruct (zero_fill_spec count 0 results) as (L & A).
    split; [exact L|]. split; [|lia]. intros j Hj. rewrite A.
    destruct (Nat.ltb_spec j (0 + count)); [lia|].
    now rewrite andb_false_r.
  - destruct (batch_outer_spec q vs dims
                (sqrtf (dot_loop q q 0 dims fzero)) count 0 results) as (L & A).
    split; [exact L|]. split; [|lia]. intros j Hj. rewrite A.
    destruct (Nat.ltb_spec j (0 + count)); [lia|].
    now rewrite andb_false_r.
Qed.

End VectorKernels.

(* ------------------------------------------------------------------ *)
(** ** JSON repair: bounds *)

Module JsonRepairBounds.
Import Bytes BytesFacts JsonRepair.

#[local] Arguments track : simpl never.

Lemma trim_le buf len : trim_trailing_whitespace buf len <= len.
Proof.
  induction len as [|n IH]; simpl; auto. destruct (is_ws _); lia.
Qed.

Lemma drop_comma_le buf len : drop_comma buf len <= len.
Proof. unfold drop_comma. destruct (_ && _); lia. Qed.

Lemma back_to_quote_le buf len : back_to_quote buf len <= len.
Proof.
  induction len as [|n IH]; simpl; auto. destruct (Ascii.eqb _ _); lia.
Qed.

Lemma find_open_quote_le buf idx : find_open_quote buf idx <= idx.
Proof.
  induction idx as [|n IH]; simpl; auto. destruct (_ && _); lia.
Qed.

Lemma skip_ws_back_le buf prev : skip_ws_back buf prev <= prev.
Proof.
  induction prev as [|n IH]; simpl; auto. destruct (is_ws _); lia.
Qed.

Lemma last_backslash_le buf : forall n i pos bound,
  pos <= bound -> i + n <= bound -> last_backslash buf i n pos <= bound.
Proof.
  induction n as [|n IH]; intros i pos bound Hp Hi; simpl; auto.
  apply IH; [destruct (Ascii.eqb _ _)|]; lia.
Qed.

Lemma unicode_le buf len : remove_partial_unicode_escape buf len <= len.
Proof.
  unfold remove_partial_unicode_escape.
  destruct (len <? 2); auto.
  set (b := last_backslash _ _ _ _).
  destruct (Nat.leb_spec len b); auto.
  destruct (len <=? b + 1); auto.
  destruct (Ascii.eqb _ _); auto.
  destruct (_ <? 4); lia.
Qed.

Lemma kvp_trailing_comma_le buf len : kvp_trailing_comma buf len <= len.
Proof.
  unfold kvp_trailing_comma. destruct (_ && _); auto.
  pose proof (trim_le buf (len - 1)). lia.
Qed.

Lemma kvp_dangling_key_le buf len : kvp_dangling_key buf len <= len.
Proof.
  unfold kvp_dangling_key. destruct (_ && _); auto. cbv zeta.
  set (a := trim_trailing_whitespace buf (len - 1)).
  assert (a <= len - 1) by apply trim_le.
  destruct (_ && _); [|lia].
  set (q := back_to_quote buf (a - 1)).
  assert (q <= a - 1) by apply back_to_quote_le.
  set (q' := if 0 <? q then q - 1 else q).
  assert (q' <= q) by (subst q'; destruct (0 <? q); lia).
  pose proof (trim_le buf q').
  pose proof (drop_comma_le buf (trim_trailing_whitespace buf q')).
  lia.
Qed.

Lemma kvp_trailing_string_le buf len : kvp_trailing_string buf len <= len.
Proof.
  unfold kvp_trailing_string. destruct (_ && _); auto. cbv zeta.
  set (i0 := if 0 <? len - 1 then len - 1 - 1 else len - 1).
  set (idx := find_open_quote buf i0).
  assert (Hidx : idx <= len).
  { pose proof (find_open_quote_le buf i0). subst i0 idx.
    destruct (0 <? len - 1); lia. }
  pose proof (trim_le buf idx).
  pose proof (drop_comma_le buf (trim_trailing_whitespace buf idx)).
  destruct (_ && _); [lia|].
  destruct (_ && _); [|lia].
  destruct (find_context _ _); lia.
Qed.

Lemma kvp_le buf len : remove_incomplete_kvp buf len <= len.
Proof.
  unfold remove_incomplete_kvp. cbv zeta.
  pose proof (trim_le buf len).
  pose proof (kvp_trailing_comma_le buf (trim_trailing_whitespace buf len)).
  pose proof (kvp_dangling_key_le buf
                (kvp_trailing_comma buf (trim_trailing_whitespace buf len))).
  pose proof (kvp_trailing_string_le buf
                (kvp_dangling_key buf
                   (kvp_trailing_comma buf (trim_trailing_whitespace buf len)))).
  lia.
Qed.

Lemma copy_loop_bound input cfc em : forall st,
  out st <= cfc ->
  out (copy_loop input cfc em st) <= cfc
  /\ length (output (copy_loop input cfc em st)) = length (output st).
Proof.
  induction input as [|c rest IH]; intros st H; simpl; auto.
  destruct (Nat.ltb_spec (out st) cfc); simpl; auto.
  destruct (track em c _) as [[s e] k].
  destruct (IH (mkpass s e k (S (out st)) (store (output st) (out st) c)))
    as (H1 & H2); simpl; [lia|].
  simpl in H2. rewrite store_length in H2. auto.
Qed.

Lemma close_loop_bound stack cap : forall out output,
  out <= cap - 1 ->
  fst (close_loop stack cap out output) <= cap - 1
  /\ length (snd (close_loop stack cap out output)) = length output.
Proof.
  induction stack as [|b below IH]; intros out output H; simpl; auto.
  destruct (Nat.ltb_spec out (cap - 1)); simpl; auto.
  set (o := drop_comma output (trim_trailing_whitespace output out)).
  assert (o <= out).
  { pose proof (trim_le output out).
    pose proof (drop_comma_le output (trim_trailing_whitespace output out)).
    subst o; lia. }
  destruct (IH (S o) (store output o
              (match b with BRACKET_BRACE => RBRACE | BRACKET_SQUARE => RBRACKET end)))
    as (I1 & I2); [lia|].
  split; [exact I1|]. rewrite I2. apply store_length.
Qed.

Lemma rtc_loop_bound cap len : forall n i out s e buf,
  out <= cap - 1 ->
  fst (remove_trailing_commas_loop n i out s e len cap buf) <= cap - 1
  /\ length (snd (remove_trailing_commas_loop n i out s e len cap buf))
     = length buf.
Proof.
  induction n as [|n IH]; intros i out s e buf H; simpl; auto.
  destruct (Nat.ltb_spec out (cap - 1)); simpl; auto.
  assert (S out <= cap - 1) by lia.
  assert (St : forall s e,
    fst (remove_trailing_commas_loop n (S i) (S out) s e len cap
           (store buf out (get buf i))) <= cap - 1
    /\ length (snd (remove_trailing_commas_loop n (S i) (S out) s e len cap
                      (store buf out (get buf i)))) = length buf).
  { intros s' e'.
    destruct (IH (S i) (S out) s' e' (store buf out (get buf i))) as (I1 & I2); auto.
    split; [exact I1|]. rewrite I2. apply store_length. }
  destruct e; auto. destruct s; auto.
  destruct (Ascii.eqb _ QUOTE); auto.
  destruct (Ascii.eqb _ COMMA); auto.
  destruct (_ && _); auto.
Qed.

Lemma skip_leading_ws_nil input :
  Forall (fun c => is_ws c = true) input -> skip_leading_ws input = [].
Proof.
  induction 1 as [|c rest Hc Hrest IH]; simpl; auto. now rewrite Hc.
Qed.

Lemma effective_max_range max_depth : 1 <= effective_max max_depth <= 256.
Proof.
  unfold effective_max.
  destruct (Z.ltb_spec max_depth 1); simpl.
  - lia.
  - destruct (Z.ltb_spec max_depth 256); lia.
Qed.

(** C1 (counterexample).  Outputs that are not valid JSON, each from a
    buffer of 64 bytes with [max_depth] 16: an unmatched closer is kept; of
    two commas before a closer only the second is dropped; a truncated
    literal is closed over as it stands. *)
Lemma repair_output_not_always_valid :
  (repaired (json "]") 64 16 = Some (json "]")
   /\ Json.valid (json "]") = false)
  /\ (repaired (json "[1,,]") 64 16 = Some (json "[1,]")
      /\ Json.valid (json "[1,]") = false)
  /\ (repaired (json "[tr") 64 16 = Some (json "[tr]")
      /\ Json.valid (json "[tr]") = false).
Proof. vm_compute. repeat split. Qed.

(** The search for a partial unicode escape takes the last backslash of
    the tail, also when that backslash is itself escaped: the string is then
    cut after the first of the two and the closing quote ends up escaped. *)
Example partial_unicode_scan_on_escaped_backslash :
  repaired (json "'\\u12") 64 16 = Some (json "'\'")
  /\ Json.valid (json "'\'") = false.
Proof. vm_compute. split; reflexivity. Qed.

(** C1 (amended).  For every input and every output buffer passing the
    reservation check (capacity greater than min(max_depth,256) + 2),
    [conduit_json_repair] succeeds: it returns a length [n] with
    [0 <= n < capacity] and [output[n]] is the NUL terminator; for empty or
    all-whitespace input the output is exactly the two bytes of an empty
    object, with return value 2. *)
Theorem repair_succeeds :
  forall (input output : list ascii) (output_capacity : nat) (max_depth : Z),
    length output = output_capacity ->
    effective_max max_depth + 2 < output_capacity ->
    let '(ret, output') :=
      conduit_json_repair input output output_capacity max_depth in
    (0 <= ret < Z.of_nat output_capacity)%Z
    /\ length output' = output_capacity
    /\ get output' (Z.to_nat ret) = NUL
    /\ (Forall (fun c => is_ws c = true) input ->
        ret = 2%Z /\ firstn 2 output' = [LBRACE; RBRACE]).
Proof.
  intros input output cap md Hlen Hcap.
  pose proof (effective_max_range md) as Hem.
  unfold conduit_json_repair.
  destruct (Nat.ltb_spec cap 3) as [L|_]; [lia|].
  destruct (skip_leading_ws input) as [|c0 rest] eqn:Es.
  { split; [lia|]. rewrite !store_length.
    split; auto. split.
    - simpl. apply get_store_same. rewrite !store_length. lia.
    - intros _. split; auto.
      destruct output as [|a [|b [|d o]]]; simpl in *; try lia. reflexivity. }
  destruct (Nat.leb_spec cap (effective_max md + 2)) as [L|_]; [lia|].
  set (cfc := cap - (effective_max md + 2)).
  set (st := copy_loop (c0 :: rest) cfc (effective_max md) _).
  destruct (copy_loop_bound (c0 :: rest) cfc (effective_max md)
              (mkpass false false [] 0 output)) as (B1 & L1); [simpl; lia|].
  fold st in B1, L1. simpl in L1.
  (* closing an open string *)
  set (ph_b := if in_string st then _ else (out st, JsonRepair.output st)).
  assert (HB : fst ph_b <= cap - 1 /\ length (snd ph_b) = cap).
  { subst ph_b. destruct (in_string st); simpl; [|split; lia].
    set (o1 := remove_partial_unicode_escape _ _).
    assert (o1 <= out st) by apply unicode_le.
    set (o2 := if _ && _ && _ then o1 - 1 else o1).
    assert (o2 <= o1) by (subst o2; destruct (_ && _ && _); lia).
    destruct (Nat.ltb_spec o2 (cap - 1)); simpl.
    - rewrite store_length. lia.
    - lia. }
  destruct ph_b as [o_b buf_b]. simpl in HB. destruct HB as (HB1 & HB2).
  set (o_c := remove_incomplete_kvp buf_b _).
  assert (HC : o_c <= cap - 1).
  { subst o_c.
    pose proof (kvp_le buf_b (drop_comma buf_b (trim_trailing_whitespace buf_b o_b))).
    pose proof (drop_comma_le buf_b (trim_trailing_whitespace buf_b o_b)).
    pose proof (trim_le buf_b o_b). lia. }
  destruct (close_loop_bound (bracket_stack st) cap o_c buf_b HC) as (D1 & D2).
  destruct (close_loop (bracket_stack st) cap o_c buf_b) as [o_d buf_d].
  simpl in D1, D2.
  unfold remove_trailing_commas.
  destruct (rtc_loop_bound cap o_d o_d 0 0 false false (store buf_d o_d NUL))
    as (E1 & E2); [lia|].
  destruct (remove_trailing_commas_loop _ _ _ _ _ _ _ _) as [fl buf_e].
  simpl in E1, E2. rewrite store_length in E2.
  rewrite store_length. split; [lia|]. split; [lia|]. split.
  - rewrite Nat2Z.id. apply get_store_same. lia.
  - intros Hws. apply skip_leading_ws_nil in Hws. congruence.
Qed.

Lemma repair_succeeds_witness :
  let input := json "{'a': [1, 2," in
  let output := repeat NUL 64 in
  length output = 64
  /\ effective_max 16 + 2 < 64
  /\ (let '(ret, output') := conduit_json_repair input output 64 16 in
      (0 <= ret < Z.of_nat 64)%Z
      /\ length output' = 64
      /\ get output' (Z.to_nat ret) = NUL
      /\ (Forall (fun c => is_ws c = true) input ->
          ret = 2%Z /\ firstn 2 output' = [LBRACE; RBRACE])).
Proof.
  intros input output.
  assert (H : effective_max 16 + 2 < 64) by (vm_compute; lia).
  split; [reflexivity|]. split; [exact H|].
  exact (repair_succeeds input output 64 16 eq_refl H).
Defined.

End JsonRepairBounds.

(* ------------------------------------------------------------------ *)
(** ** The JSON recogniser *)

Module JsonFacts.
Import Bytes BytesFacts Json.
Import JsonRepair (QUOTE, BACKSLASH, COMMA, COLON, LBRACE, RBRACE,
                   LBRACKET, RBRACKET, in_range, is_hex_digit).

Lemma is_ws_cases c : is_ws c = true -> c = SP \/ c = TAB \/ c = LF \/ c = CR.
Proof.
  unfold is_ws. intros H.
  destruct (Ascii.eqb_spec c SP); auto. destruct (Ascii.eqb_spec c TAB); auto.
  destruct (Ascii.eqb_spec c LF); auto. destruct (Ascii.eqb_spec c CR); auto.
  discriminate.
Qed.

Lemma run_app cfg a : forall b,
  run cfg (a ++ b) = match run cfg a with Some c => run c b | None => None end.
Proof.
  revert cfg; induction a as [|x a IH]; intros cfg b; simpl; auto.
  destruct (step cfg x); auto.
Qed.

(** Whitespace never turns a configuration in which the text may not end
    into one in which it may. *)
Lemma ws_keeps_rejecting cfg c cfg' :
  is_ws c = true -> accepting cfg = false -> step cfg c = Some cfg' ->
  accepting cfg' = false.
Proof.
  intros Hws Hacc Hstep. destruct cfg as [m st].
  destruct m; simpl in Hstep; rewrite ?Hws in Hstep;
    try (injection Hstep as <-; exact Hacc).
  - (* MAfter *)
    unfold after_value in Hstep. rewrite Hws in Hstep. injection Hstep as <-.
    exact Hacc.
  - (* MStr *)
    apply is_ws_cases in Hws.
    destruct Hws as [-> | [-> | [-> | ->]]]; simpl in Hstep; try discriminate.
    injection Hstep as <-. reflexivity.
  - (* MEsc *)
    apply is_ws_cases in Hws.
    destruct Hws as [-> | [-> | [-> | ->]]]; discriminate.
  - (* MHex *)
    apply is_ws_cases in Hws.
    destruct Hws as [-> | [-> | [-> | ->]]]; discriminate.
  - (* MNum *)
    assert (Hn : num_step ns c = None).
    { apply is_ws_cases in Hws.
      destruct Hws as [-> | [-> | [-> | ->]]]; destruct ns; reflexivity. }
    rewrite Hn in Hstep. destruct (num_final ns) eqn:Hf; [|discriminate].
    unfold after_value in Hstep. rewrite Hws in Hstep. injection Hstep as <-.
    destruct st; [simpl in Hacc; congruence | reflexivity].
  - (* MLit *)
    apply is_ws_cases in Hws.
    destruct Hws as [-> | [-> | [-> | ->]]]; destruct l; discriminate.
Qed.

Lemma trailing_ws_accepting w : forall cfg cfg',
  Forall (fun c => is_ws c = true) w ->
  run cfg w = Some cfg' -> accepting cfg' = true -> accepting cfg = true.
Proof.
  induction w as [|c w IH]; intros cfg cfg' Hw Hrun Hacc; simpl in Hrun.
  - now injection Hrun as ->.
  - inversion Hw; subst.
    destruct (step cfg c) as [cfg1|] eqn:Hs; [|discriminate].
    destruct (accepting cfg) eqn:Ha; auto.
    pose proof (ws_keeps_rejecting cfg c cfg1 H1 Ha Hs) as H.
    rewrite (IH cfg1 cfg' H2 Hrun Hacc) in H. discriminate.
Qed.

Lemma run_ltrim s : run initial (ltrim s) = run initial s.
Proof.
  induction s as [|c s IH]; auto.
  unfold initial in *. simpl. destruct (is_ws c) eqn:Hws; auto.
  simpl. now rewrite Hws.
Qed.

(** *** Trimming *)

Lemma ltrim_split l :
  exists w, l = w ++ ltrim l /\ Forall (fun c => is_ws c = true) w.
Proof.
  induction l as [|c l (w & E & Hw)]; simpl.
  - exists []; auto.
  - destruct (is_ws c) eqn:Hc.
    + exists (c :: w). split; [simpl; congruence | constructor; auto].
    + exists []; auto.
Qed.

Lemma ltrim_head l : match ltrim l with c :: _ => is_ws c = false | [] => True end.
Proof.
  induction l as [|c l IH]; simpl; auto.
  destruct (is_ws c) eqn:Hc; auto.
Qed.

(** [rtrim s] is [s] without its trailing whitespace, and ends in a byte
    that is not whitespace. *)
Lemma rtrim_split s :
  exists w, s = rtrim s ++ w /\ Forall (fun c => is_ws c = true) w
            /\ (rtrim s = [] \/ exists t c, rtrim s = t ++ [c] /\ is_ws c = false).
Proof.
  unfold rtrim. destruct (ltrim_split (rev s)) as (w & E & Hw).
  exists (rev w). split; [|split].
  - rewrite <- rev_app_distr, <- E. symmetry; apply rev_involutive.
  - apply Forall_rev; auto.
  - pose proof (ltrim_head (rev s)) as H.
    destruct (ltrim (rev s)) as [|c r]; auto.
    right. exists (rev r), c. auto.
Qed.

Lemma rtrim_keeps_head c r :
  is_ws c = false -> exists r', rtrim (c :: r) = c :: r'.
Proof.
  intros Hc. destruct (rtrim_split (c :: r)) as (w & E & Hw & _).
  destruct (rtrim (c :: r)) as [|x r'] eqn:Et.
  - simpl in E. subst w. inversion Hw; subst. congruence.
  - simpl in E. injection E as -> _. eauto.
Qed.

(** *** The recogniser against the string-aware bracket scan *)

(** Case analysis on the byte, along the tests the scanners make. *)
Ltac by_byte c :=
  destruct (Ascii.eqb c BACKSLASH) eqn:Ebs;
  [ apply Ascii.eqb_eq in Ebs; subst c
  | destruct (Ascii.eqb c QUOTE) eqn:Equ;
    [ apply Ascii.eqb_eq in Equ; subst c
    | destruct (Ascii.eqb c LBRACE) eqn:Elb;
      [ apply Ascii.eqb_eq in Elb; subst c
      | destruct (Ascii.eqb c RBRACE) eqn:Erb;
        [ apply Ascii.eqb_eq in Erb; subst c
        | destruct (Ascii.eqb c LBRACKET) eqn:Elk;
          [ apply Ascii.eqb_eq in Elk; subst c
          | destruct (Ascii.eqb c RBRACKET) eqn:Erk;
            [ apply Ascii.eqb_eq in Erk; subst c | ] ] ] ] ] ].

(** Running a step down to its outcome. *)
Ltac step_cases H :=
  repeat match type of H with
         | Some _ = Some _ => fail 1
         | None = Some _ => discriminate H
         | context [if ?b then _ else _] => destruct b eqn:?
         | context [match ?x with _ => _ end] => destruct x eqn:?
         end.

Lemma track_step cap m st c m' st' k :
  step (m, st) c = Some (m', st') ->
  length k <= length st ->
  exists k',
    JsonRepair.track cap c (fst (flags_of m), snd (flags_of m), k)
      = (fst (flags_of m'), snd (flags_of m'), k')
    /\ length k' <= length st'.
Proof.
  intros Hstep Hk. unfold JsonRepair.track.
  assert (Htl : length (tl k) <= length (tl st))
    by (destruct k, st; simpl in *; lia).
  destruct m as [| | | | | | q | q | q n | ns | l];
    try destruct q; try destruct ns; try destruct l;
    simpl fst; simpl snd; cbv iota beta.
  all: by_byte c; rewrite ?Ebs, ?Equ, ?Elb, ?Erb, ?Elk, ?Erk.
  all: simpl in Hstep; unfold start_value, after_value in Hstep;
       rewrite ?Ebs, ?Equ, ?Elb, ?Erb, ?Elk, ?Erk in Hstep; simpl in Hstep.
  all: try discriminate Hstep.
  all: step_cases Hstep; try discriminate.
  all: try (injection Hstep as <- <-).
  all: try (eexists; split; [reflexivity | simpl; try lia]).
  all: unfold JsonRepair.push, JsonRepair.pop;
       try (destruct (length k <? cap)); simpl in *; subst; simpl in *; lia.
Qed.

Definition scan (cap : nat) (l : list ascii)
    (a : bool * bool * list JsonRepair.bracket_type_t) :=
  fold_left (fun a c => JsonRepair.track cap c a) l a.

Lemma track_run cap l : forall m st m' st' k,
  run (m, st) l = Some (m', st') ->
  length k <= length st ->
  exists k',
    scan cap l (fst (flags_of m), snd (flags_of m), k)
      = (fst (flags_of m'), snd (flags_of m'), k')
    /\ length k' <= length st'.
Proof.
  induction l as [|c l IH]; intros m st m' st' k Hrun Hk; cbn [run] in Hrun.
  - injection Hrun as <- <-. simpl. eauto.
  - destruct (step (m, st) c) as [[m1 st1]|] eqn:Hs; [|discriminate].
    destruct (track_step cap m st c m1 st1 k Hs Hk) as (k1 & E1 & Hk1).
    unfold scan in *. cbn [fold_left]. rewrite E1. eapply IH; eauto.
Qed.

(** *** The last byte of a valid text *)

Lemma accepting_inv cfg :
  accepting cfg = true ->
  cfg = (MAfter, []) \/ exists ns, cfg = (MNum ns, []) /\ num_final ns = true.
Proof.
  destruct cfg as [m [|f st]]; destruct m; simpl; try discriminate; eauto.
Qed.

(** A text cannot end in a comma or a colon. *)
Lemma last_not_separator cfg c cfg' :
  step cfg c = Some cfg' -> accepting cfg' = true ->
  c <> COMMA /\ c <> COLON.
Proof.
  intros Hstep Hacc. destruct cfg as [m st].
  split; intros ->.
  all: destruct m as [| | | | | | q | q | q n | ns | l];
       try destruct ns; try destruct l; simpl in Hstep;
       unfold after_value in Hstep; simpl in Hstep; try discriminate.
  all: step_cases Hstep; try discriminate.
  all: injection Hstep as <-; simpl in Hacc; try discriminate.
Qed.

(** A text ending in a quote ends a top-level string. *)
Lemma last_quote cfg cfg' :
  step cfg QUOTE = Some cfg' -> accepting cfg' = true ->
  cfg = (MStr false, []).
Proof.
  intros Hstep Hacc. destruct cfg as [m st].
  destruct m as [| | | | | | q | q | q n | ns | l];
    try destruct ns; try destruct l; try destruct q; simpl in Hstep;
    unfold after_value, start_value in Hstep; simpl in Hstep; try discriminate.
  all: step_cases Hstep; try discriminate.
  all: injection Hstep as <-; simpl in Hacc; try discriminate.
  destruct st; [reflexivity | discriminate].
Qed.

(** *** Top-level strings *)

(** The top-level value is under way or complete and is not a string. *)
Definition settled (cfg : config) : Prop :=
  match cfg with
  | (_, _ :: _) => True
  | (MAfter, []) | (MNum _, []) | (MLit _, []) => True
  | _ => False
  end.

Lemma settled_step cfg c cfg' :
  settled cfg -> step cfg c = Some cfg' -> settled cfg'.
Proof.
  intros Hs Hstep. destruct cfg as [m st].
  destruct m as [| | | | | | q | q | q n | ns | l];
    try destruct ns; try destruct l; destruct st as [|f st]; simpl in Hs;
    try contradiction; simpl in Hstep;
    unfold after_value, start_value in Hstep; simpl in Hstep.
  all: step_cases Hstep; try discriminate.
  all: injection Hstep as <-; simpl; auto.
  all: try (destruct st; exact I).
  all: try (destruct q; exact I).
Qed.

Lemma settled_run l : forall cfg cfg',
  settled cfg -> run cfg l = Some cfg' -> settled cfg'.
Proof.
  induction l as [|c l IH]; intros cfg cfg' Hs Hrun; cbn [run] in Hrun.
  - now injection Hrun as <-.
  - destruct (step cfg c) as [cfg1|] eqn:E; [|discriminate].
    eapply IH; [|exact Hrun]. eapply settled_step; eauto.
Qed.

(** The first byte of a text either opens the top-level string or settles
    the run. *)
Lemma first_byte c cfg :
  is_ws c = false -> step initial c = Some cfg ->
  (c = QUOTE /\ cfg = (MStr false, [])) \/ settled cfg.
Proof.
  intros Hws Hstep. unfold initial in Hstep. simpl in Hstep.
  rewrite Hws in Hstep. unfold start_value in Hstep.
  destruct (Ascii.eqb c QUOTE) eqn:Eq.
  - apply Ascii.eqb_eq in Eq. subst c. simpl in Hstep.
    injection Hstep as <-. auto.
  - right. step_cases Hstep; try discriminate; injection Hstep as <-; exact I.
Qed.

(** Inside the top-level string. *)
Definition str_mode (m : mode) : bool :=
  match m with
  | MStr false | MEsc false | MHex false _ => true
  | _ => false
  end.

Lemma str_step m c m' st' :
  str_mode m = true -> step (m, []) c = Some (m', st') ->
  st' = [] /\ (str_mode m' = true \/ m' = MAfter).
Proof.
  intros Hm Hstep.
  destruct m as [| | | | | | q | q | q n | ns | l]; try discriminate;
    destruct q; try discriminate; simpl in Hstep.
  all: step_cases Hstep; try discriminate.
  all: injection Hstep as <- <-; simpl; auto.
Qed.

(** The number of backslashes right before index [n], as the backward
    scan of the repair counts them. *)
#[local] Abbreviation bs_count := JsonRepair.backslash_count.

Lemma bs_count_ext a b n :
  (forall j, j < n -> get a j = get b j) -> bs_count a n = bs_count b n.
Proof.
  induction n as [|n IH]; intros H; simpl; auto.
  rewrite (H n) by lia. rewrite IH; auto.
Qed.

Lemma bs_count_app p q n : n <= length p -> bs_count (p ++ q) n = bs_count p n.
Proof.
  intros H. apply bs_count_ext. intros j Hj. unfold get.
  apply app_nth1. lia.
Qed.

Lemma bs_count_snoc p c :
  bs_count (p ++ [c]) (S (length p))
  = if Ascii.eqb c BACKSLASH then S (bs_count p (length p)) else 0.
Proof.
  simpl. unfold get at 1. rewrite app_nth2, Nat.sub_diag by lia. simpl.
  rewrite bs_count_app by lia. reflexivity.
Qed.

Lemma bs_count_cons x l n :
  x <> BACKSLASH -> bs_count (x :: l) (S n) = bs_count l n.
Proof.
  intros Hx. induction n as [|n IH].
  - simpl. unfold get; simpl. destruct (Ascii.eqb_spec x BACKSLASH); congruence.
  - change (bs_count (x :: l) (S (S n)))
      with (if Ascii.eqb (get (x :: l) (S n)) BACKSLASH
            then S (bs_count (x :: l) (S n)) else 0).
    rewrite IH. reflexivity.
Qed.

(** What the run knows about the scanned part [p] of a string body. *)
Definition escapes_tracked (p : list ascii) (m : mode) : Prop :=
  match m with
  | MStr _ => Nat.even (bs_count p (length p)) = true
  | MEsc _ => Nat.even (bs_count p (length p)) = false
  | MHex _ _ => bs_count p (length p) = 0
  | _ => False
  end.

(** Every quote inside the body follows an odd run of backslashes. *)
Definition quotes_escaped (p : list ascii) : Prop :=
  forall idx, idx < length p -> get p idx = QUOTE ->
              Nat.even (bs_count p idx) = false.

Lemma even_S_false n : Nat.even n = true -> Nat.even (S n) = false.
Proof.
  intros H. rewrite Nat.even_succ, <- Nat.negb_even, H. reflexivity.
Qed.

Lemma even_S_true n : Nat.even n = false -> Nat.even (S n) = true.
Proof.
  intros H. rewrite Nat.even_succ, <- Nat.negb_even, H. reflexivity.
Qed.

Lemma string_step p m c m' :
  str_mode m = true -> str_mode m' = true ->
  step (m, []) c = Some (m', []) ->
  escapes_tracked p m -> quotes_escaped p ->
  escapes_tracked (p ++ [c]) m' /\ quotes_escaped (p ++ [c]).
Proof.
  intros Hm Hm' Hstep Ht Hq.
  assert (Hq' : Nat.even (bs_count p (length p)) = false \/ c <> QUOTE ->
                quotes_escaped (p ++ [c])).
  { intros Hc idx Hidx Hg. rewrite length_app in Hidx. simpl in Hidx.
    destruct (Nat.eq_dec idx (length p)) as [->|Hne].
    - rewrite bs_count_app by lia. destruct Hc as [Hc|Hc]; auto.
      exfalso. apply Hc. unfold get in Hg.
      rewrite app_nth2, Nat.sub_diag in Hg by lia. exact Hg.
    - rewrite bs_count_app by lia. apply Hq; [lia|].
      unfold get in *. rewrite app_nth1 in Hg by lia. exact Hg. }
  unfold escapes_tracked. rewrite length_app, Nat.add_1_r, bs_count_snoc.
  destruct m as [| | | | | | q | q | q n | ns | l]; try discriminate;
    destruct q; try discriminate; simpl in Hstep, Ht.
  - (* MStr *)
    destruct (Ascii.eqb c QUOTE) eqn:Eq.
    { injection Hstep as <-. discriminate. }
    destruct (Ascii.eqb c BACKSLASH) eqn:Eb.
    + injection Hstep as <-. split; [now apply even_S_false|].
      apply Hq'. right. intros ->. discriminate.
    + destruct (is_control c); [discriminate|]. injection Hstep as <-.
      split; [reflexivity|]. apply Hq'. right. intros ->.
      rewrite Ascii.eqb_refl in Eq. discriminate.
  - (* MEsc *)
    destruct (is_simple_escape c) eqn:Es.
    + injection Hstep as <-. split; [|apply Hq'; auto].
      destruct (Ascii.eqb c BACKSLASH); [now apply even_S_true | reflexivity].
    + destruct (Ascii.eqb c "u"%char) eqn:Eu; [|discriminate].
      injection Hstep as <-. apply Ascii.eqb_eq in Eu. subst c.
      split; [reflexivity|]. apply Hq'; auto.
  - (* MHex *)
    destruct (is_hex_digit c) eqn:Eh; [|discriminate].
    assert (Eb : Ascii.eqb c BACKSLASH = false).
    { destruct (Ascii.eqb_spec c BACKSLASH); auto. subst c. discriminate. }
    assert (Hc : c <> QUOTE) by (intros ->; discriminate).
    rewrite Eb.
    destruct n; injection Hstep as <-; split; auto; reflexivity.
Qed.

Lemma string_run l : forall p m,
  str_mode m = true -> escapes_tracked p m -> quotes_escaped p ->
  run (m, []) l = Some (MStr false, []) ->
  quotes_escaped (p ++ l).
Proof.
  induction l as [|c l IH]; intros p m Hm Ht Hq Hrun; cbn [run] in Hrun.
  - now rewrite app_nil_r.
  - destruct (step (m, []) c) as [[m1 st1]|] eqn:Hs; [|discriminate].
    destruct (str_step m c m1 st1 Hm Hs) as (-> & [Hm1 | ->]).
    + destruct (string_step p m c m1 Hm Hm1 Hs Ht Hq) as (Ht1 & Hq1).
      replace (p ++ c :: l) with ((p ++ [c]) ++ l)
        by (rewrite <- app_assoc; reflexivity).
      eapply IH; eauto.
    + exfalso. apply (settled_run l (MAfter, []) (MStr false, []) I Hrun).
Qed.

(** A valid text that ends in a quote is one string: it starts with the
    opening quote, and every quote strictly inside is escaped. *)
Lemma text_ending_in_quote c0 body cfg :
  is_ws c0 = false ->
  run initial (c0 :: body ++ [QUOTE]) = Some cfg -> accepting cfg = true ->
  c0 = QUOTE /\ quotes_escaped body.
Proof.
  intros Hws Hrun Hacc.
  change (c0 :: body ++ [QUOTE]) with ((c0 :: body) ++ [QUOTE]) in Hrun.
  rewrite run_app in Hrun.
  destruct (run initial (c0 :: body)) as [cfg1|] eqn:E1; [|discriminate].
  cbn [run] in Hrun.
  destruct (step cfg1 QUOTE) as [cfg2|] eqn:E2; [|discriminate].
  injection Hrun as ->.
  pose proof (last_quote cfg1 cfg E2 Hacc) as ->.
  cbn [run] in E1.
  destruct (step initial c0) as [cfg0|] eqn:E0; [|discriminate].
  destruct (first_byte c0 cfg0 Hws E0) as [(-> & ->) | Hs].
  - split; auto.
    apply (string_run body [] (MStr false)); auto; try reflexivity.
    intros idx Hidx. simpl in Hidx. lia.
  - exfalso. apply (settled_run body cfg0 (MStr false, []) Hs E1).
Qed.

End JsonFacts.

(* ------------------------------------------------------------------ *)
(** ** JSON repair on valid input *)

Module JsonRepairIdentity.
Import Bytes BytesFacts JsonRepair Json JsonFacts.

#[local] Arguments track : simpl never.

(** The first [n] bytes of [buf] are the text [l]. *)
Definition holds (buf : list ascii) (n : nat) (l : list ascii) : Prop :=
  firstn n buf = l /\ length l = n.

Lemma holds_get buf n l i : holds buf n l -> i < n -> get buf i = get l i.
Proof.
  intros (E & Hl) Hi. subst l. unfold get.
  revert buf i Hi Hl. induction n as [|n IH]; intros buf i Hi Hl; [lia|].
  destruct buf as [|x buf]; simpl in *; [lia|].
  destruct i as [|i]; auto. apply IH; lia.
Qed.

Lemma holds_length buf n l : holds buf n l -> n <= length buf.
Proof.
  intros (E & Hl). subst l. rewrite length_firstn in Hl. lia.
Qed.

Lemma holds_prefix buf p q :
  holds buf (length p + length q) (p ++ q) -> holds buf (length p) p.
Proof.
  intros (E & Hl). split; auto.
  replace (length p) with (Nat.min (length p) (length p + length q)) by lia.
  rewrite <- firstn_firstn, E, firstn_app, Nat.sub_diag, firstn_all. simpl.
  apply app_nil_r.
Qed.

Lemma holds_store_above buf n l i c :
  holds buf n l -> n <= i -> holds (store buf i c) n l.
Proof.
  intros (E & Hl) Hi. split; auto. now rewrite firstn_store_below.
Qed.

(** *** The first pass copies the text and scans it *)

Lemma copy_loop_spec cfc em l : forall st,
  out st + length l <= cfc ->
  out st + length l <= length (output st) ->
  let st' := copy_loop l cfc em st in
  out st' = out st + length l
  /\ firstn (out st') (output st') = firstn (out st) (output st) ++ l
  /\ (in_string st', escape_next st', bracket_stack st')
     = scan em l (in_string st, escape_next st, bracket_stack st)
  /\ length (output st') = length (output st).
Proof.
  induction l as [|c l IH]; intros st H1 H2; cbn [copy_loop length] in *.
  - rewrite Nat.add_0_r, app_nil_r. auto.
  - destruct (Nat.ltb_spec (out st) cfc) as [L|L]; [|lia]. cbn [negb].
    destruct (track em c (in_string st, escape_next st, bracket_stack st))
      as [[s e] k] eqn:Et.
    specialize (IH (mkpass s e k (S (out st)) (store (output st) (out st) c))).
    cbn [out output in_string escape_next bracket_stack] in IH.
    rewrite store_length in IH.
    destruct IH as (I1 & I2 & I3 & I4); try lia.
    split; [lia|]. split; [|split; auto].
    + rewrite I2, firstn_store_snoc by lia. rewrite <- app_assoc. reflexivity.
    + rewrite I3. unfold scan. cbn [fold_left]. rewrite Et. reflexivity.
Qed.

(** *** Trailing whitespace *)

Lemma trim_stops buf n :
  0 < n -> is_ws (get buf (n - 1)) = false -> trim_trailing_whitespace buf n = n.
Proof.
  destruct n as [|n]; [lia|]. simpl. rewrite Nat.sub_0_r. now intros _ ->.
Qed.

Lemma trim_spec buf t w :
  holds buf (length t + length w) (t ++ w) ->
  Forall (fun c => is_ws c = true) w ->
  (t = [] \/ exists t' c, t = t' ++ [c] /\ is_ws c = false) ->
  trim_trailing_whitespace buf (length t + length w) = length t.
Proof.
  intros Hh Hw Ht. revert Hh Hw. induction w as [|c w IH] using rev_ind;
    intros Hh Hw.
  - simpl. rewrite Nat.add_0_r. destruct Ht as [-> | (t' & c & -> & Hc)]; auto.
    apply trim_stops; [rewrite length_app; simpl; lia|].
    rewrite (holds_get _ _ _ (length (t' ++ [c]) - 1) Hh)
      by (rewrite length_app; simpl; lia).
    rewrite app_nil_r, length_app. simpl.
    replace (length t' + 1 - 1) with (length t') by lia.
    unfold get. rewrite app_nth2, Nat.sub_diag by lia. exact Hc.
  - apply Forall_app in Hw. destruct Hw as (Hw & Hc). inversion Hc; subst.
    rewrite length_app in *. simpl in *.
    replace (length t + (length w + 1)) with (S (length t + length w)) in * by lia.
    simpl.
    rewrite (holds_get _ _ _ (length t + length w) Hh) by lia.
    unfold get. rewrite app_assoc, app_nth2 by (rewrite length_app; lia).
    rewrite length_app, Nat.sub_diag. simpl. rewrite H1.
    apply IH; auto.
    rewrite app_assoc in Hh.
    replace (S (length t + length w)) with (length (t ++ w) + length [c]) in Hh
      by (rewrite length_app; simpl; lia).
    apply holds_prefix in Hh. now rewrite length_app in Hh.
Qed.

(** *** The tail fix-ups leave a finished text alone *)

Lemma find_open_quote_none buf n :
  (forall idx, 1 <= idx <= n -> get buf idx = QUOTE ->
               Nat.even (backslash_count buf idx) = false) ->
  find_open_quote buf n = 0.
Proof.
  induction n as [|n IH]; intros H; auto.
  cbn [find_open_quote].
  destruct (Ascii.eqb_spec (get buf (S n)) QUOTE) as [E|E]; cbn [andb].
  - rewrite (H (S n)) by (auto; lia). apply IH. intros; apply H; auto; lia.
  - apply IH. intros; apply H; auto; lia.
Qed.

Lemma trailing_string_kept buf n :
  get buf 0 = QUOTE ->
  (forall idx, 1 <= idx <= n -> get buf idx = QUOTE ->
               Nat.even (backslash_count buf idx) = false) ->
  kvp_trailing_string buf (S (S n)) = S (S n).
Proof.
  intros H0 Hq. unfold kvp_trailing_string.
  destruct (_ && _); auto. cbv zeta.
  replace (if 0 <? S (S n) - 1 then S (S n) - 1 - 1 else S (S n) - 1) with n
    by (simpl; lia).
  rewrite (find_open_quote_none buf n Hq). simpl. rewrite H0. reflexivity.
Qed.

Lemma kvp_kept buf len :
  0 < len ->
  is_ws (get buf (len - 1)) = false ->
  get buf (len - 1) <> COMMA -> get buf (len - 1) <> COLON ->
  (get buf (len - 1) = QUOTE -> kvp_trailing_string buf len = len) ->
  remove_incomplete_kvp buf len = len.
Proof.
  intros Hlen Hws Hcomma Hcolon Hquote. unfold remove_incomplete_kvp. cbv zeta.
  rewrite trim_stops by auto.
  unfold kvp_trailing_comma.
  destruct (Ascii.eqb_spec (get buf (len - 1)) COMMA); [contradiction|].
  rewrite andb_false_r.
  unfold kvp_dangling_key.
  destruct (Ascii.eqb_spec (get buf (len - 1)) COLON); [contradiction|].
  rewrite andb_false_r.
  destruct (Ascii.eqb_spec (get buf (len - 1)) QUOTE) as [E|E]; auto.
  unfold kvp_trailing_string.
  destruct (Ascii.eqb_spec (get buf (len - 1)) QUOTE); [contradiction|].
  now rewrite andb_false_r.
Qed.

Lemma drop_comma_kept buf len :
  get buf (len - 1) <> COMMA -> drop_comma buf len = len.
Proof.
  intros H. unfold drop_comma.
  destruct (Ascii.eqb_spec (get buf (len - 1)) COMMA); [contradiction|].
  now rewrite andb_false_r.
Qed.

(** *** The comma pass, read as a function on the text *)

Definition is_closer (c : ascii) : bool :=
  Ascii.eqb c RBRACE || Ascii.eqb c RBRACKET.

(** After optional whitespace a closing bracket follows. *)
Definition closer_follows (l : list ascii) : bool :=
  match ltrim l with
  | c :: _ => is_closer c
  | [] => false
  end.

(** What [remove_trailing_commas] keeps of a text. *)
Fixpoint strip_commas (in_string escape_next : bool) (l : list ascii) : list ascii :=
  match l with
  | [] => []
  | c :: l' =>
      if escape_next then c :: strip_commas in_string false l'
      else if in_string then
        c :: strip_commas
               (if Ascii.eqb c BACKSLASH then in_string
                else if Ascii.eqb c QUOTE then false else in_string)
               (if Ascii.eqb c BACKSLASH then true else escape_next) l'
      else if Ascii.eqb c QUOTE then c :: strip_commas true escape_next l'
      else if Ascii.eqb c COMMA then
        if closer_follows l' then strip_commas in_string escape_next l'
        else c :: strip_commas in_string escape_next l'
      else c :: strip_commas in_string escape_next l'
  end.

Lemma skipn_cons_get buf i :
  i < length buf -> skipn i buf = get buf i :: skipn (S i) buf.
Proof.
  revert i; induction buf as [|x buf IH]; intros [|i] H; simpl in *; try lia; auto.
  apply IH; lia.
Qed.

Lemma closer_follows_cons c l :
  closer_follows (c :: l) = if is_ws c then closer_follows l else is_closer c.
Proof. unfold closer_follows. simpl. destruct (is_ws c); reflexivity. Qed.

Lemma lookahead_spec buf : forall n j,
  j + n <= length buf ->
  (skip_ws_fwd buf j n <? j + n) && is_closer (get buf (skip_ws_fwd buf j n))
  = closer_follows (firstn n (skipn j buf)).
Proof.
  induction n as [|n IH]; intros j H.
  - simpl. rewrite Nat.add_0_r, Nat.ltb_irrefl. reflexivity.
  - cbn [skip_ws_fwd]. rewrite skipn_cons_get by lia. cbn [firstn].
    rewrite closer_follows_cons.
    destruct (is_ws (get buf j)) eqn:Hws.
    + rewrite <- IH by lia. replace (S j + n) with (j + S n) by lia. reflexivity.
    + destruct (Nat.ltb_spec j (j + S n)); [reflexivity | lia].
Qed.

(** The in-place pass writes at or behind the byte it reads, so what it
    leaves in the buffer is [strip_commas] of what it found there. *)
Lemma rtc_loop_spec len cap : forall n i out s e buf,
  out <= i -> i + n = len -> len <= length buf -> len < cap ->
  let r := remove_trailing_commas_loop n i out s e len cap buf in
  holds (snd r) (fst r)
        (firstn out buf ++ strip_commas s e (firstn n (skipn i buf))).
Proof.
  induction n as [|n IH]; intros i out s e buf Ho Hi Hl Hc.
  - simpl. rewrite app_nil_r. split; auto. rewrite length_firstn. lia.
  - cbn [remove_trailing_commas_loop].
    destruct (Nat.ltb_spec out (cap - 1)) as [_|L]; [|lia]. cbn [negb].
    rewrite (skipn_cons_get buf i) by lia. cbn [firstn].
    set (c := get buf i).
    assert (Emit : forall s' e',
      let r := remove_trailing_commas_loop n (S i) (S out) s' e' len cap
                 (store buf out c) in
      holds (snd r) (fst r)
            (firstn out buf ++ c :: strip_commas s' e' (firstn n (skipn (S i) buf)))).
    { intros s' e'.
      pose proof (IH (S i) (S out) s' e' (store buf out c)) as H.
      rewrite store_length, firstn_store_snoc, skipn_store_above in H by lia.
      rewrite <- app_assoc in H. apply H; lia. }
    cbn [strip_commas].
    destruct e; [apply Emit|]. destruct s; [apply Emit|].
    destruct (Ascii.eqb c QUOTE); [apply Emit|].
    destruct (Ascii.eqb c COMMA); [|apply Emit].
    replace (len - (i + 1)) with n by lia.
    pose proof (lookahead_spec buf n (i + 1)) as Hla.
    replace (i + 1 + n) with len in Hla by lia.
    replace (i + 1) with (S i) in * by lia.
    unfold is_closer in Hla at 1. rewrite Hla by lia.
    destruct (closer_follows _); [|apply Emit].
    apply IH; lia.
Qed.

(** *** A valid text has no comma to strip *)

Lemma comma_target m st m' st' :
  flags_of m = (false, false) -> step (m, st) COMMA = Some (m', st') ->
  m' = MKey \/ m' = MValue.
Proof.
  intros Hf Hstep.
  destruct m as [| | | | | | q | q | q n | ns | l]; try discriminate;
    try destruct ns; try destruct l; simpl in Hstep;
    unfold after_value, start_value in Hstep; simpl in Hstep; try discriminate.
  all: step_cases Hstep; try discriminate; injection Hstep as <- <-; auto.
Qed.

Lemma no_closer_after_comma l : forall m st cfg,
  m = MKey \/ m = MValue ->
  run (m, st) l = Some cfg -> closer_follows l = false.
Proof.
  induction l as [|c l IH]; intros m st cfg Hm Hrun; auto.
  cbn [run] in Hrun. rewrite closer_follows_cons.
  destruct (is_ws c) eqn:Hws.
  - apply (IH m st cfg Hm).
    destruct Hm as [-> | ->]; simpl in Hrun; rewrite Hws in Hrun; exact Hrun.
  - unfold is_closer.
    destruct (Ascii.eqb_spec c RBRACE) as [->|]; [|destruct (Ascii.eqb_spec c RBRACKET) as [->|]]; auto.
    all: destruct Hm as [-> | ->]; discriminate.
Qed.

Lemma strip_commas_valid l : forall m st cfg,
  run (m, st) l = Some cfg ->
  strip_commas (fst (flags_of m)) (snd (flags_of m)) l = l.
Proof.
  induction l as [|c l IH]; intros m st cfg Hrun; auto.
  cbn [run] in Hrun.
  destruct (step (m, st) c) as [[m1 st1]|] eqn:Hs; [|discriminate].
  specialize (IH m1 st1 cfg Hrun).
  destruct (track_step 0 m st c m1 st1 [] Hs (Nat.le_0_l _)) as (k' & Et & _).
  unfold track in Et. cbn [strip_commas].
  destruct (fst (flags_of m)) eqn:F1, (snd (flags_of m)) eqn:F2.
  - injection Et as E1 E2 _. rewrite <- E1, <- E2 in IH. now rewrite IH.
  - destruct (Ascii.eqb c BACKSLASH); [|destruct (Ascii.eqb c QUOTE)];
      injection Et as E1 E2 _; rewrite <- E1, <- E2 in IH; now rewrite IH.
  - injection Et as E1 E2 _. rewrite <- E1, <- E2 in IH. now rewrite IH.
  - assert (Hf : flags_of m = (false, false))
      by (destruct (flags_of m); simpl in *; congruence).
    destruct (Ascii.eqb c QUOTE) eqn:Eq.
    { injection Et as E1 E2 _. rewrite <- E1, <- E2 in IH. now rewrite IH. }
    assert (E : fst (flags_of m1) = false /\ snd (flags_of m1) = false).
    { destruct (Ascii.eqb c LBRACE); [|destruct (Ascii.eqb c RBRACE);
        [|destruct (Ascii.eqb c LBRACKET); [|destruct (Ascii.eqb c RBRACKET)]]];
        injection Et as E1 E2 _; auto. }
    destruct E as (E1 & E2). rewrite E1, E2 in IH.
    destruct (Ascii.eqb_spec c COMMA) as [->|]; [|now rewrite IH].
    assert (Hn : closer_follows l = false).
    { eapply no_closer_after_comma; [|exact Hrun].
      eapply comma_target; eauto. }
    now rewrite Hn, IH.
Qed.

(** *** Assembly *)

Lemma skip_leading_ws_ltrim l : skip_leading_ws l = ltrim l.
Proof.
  induction l as [|c l IH]; simpl; auto.
Qed.

(** What validity says about the trimmed text. *)
Lemma valid_trimmed input :
  valid input = true ->
  exists c0 rest w t' cl cfg cfg_s,
    ltrim input = c0 :: rest /\ is_ws c0 = false
    /\ c0 :: rest = trim input ++ w /\ Forall (fun c => is_ws c = true) w
    /\ trim input = t' ++ [cl] /\ is_ws cl = false
    /\ run initial (trim input) = Some cfg /\ accepting cfg = true
    /\ run initial (c0 :: rest) = Some cfg_s /\ accepting cfg_s = true.
Proof.
  unfold valid, trim. intros Hv.
  rewrite <- run_ltrim in Hv.
  destruct (run initial (ltrim input)) as [cfg|] eqn:Hrun_s; [|discriminate].
  destruct (rtrim_split (ltrim input)) as (w & E & Hw & Ht).
  pose proof Hrun_s as Hrun. rewrite E, run_app in Hrun.
  destruct (run initial (rtrim (ltrim input))) as [cfg_t|] eqn:Hrun_t;
    [|discriminate].
  pose proof (trailing_ws_accepting w cfg_t cfg Hw Hrun Hv) as Hacc.
  destruct Ht as [Ht | (t' & cl & Ht & Hcl)].
  { rewrite Ht in Hrun_t. simpl in Hrun_t. injection Hrun_t as <-. discriminate. }
  pose proof (ltrim_head input) as Hh.
  destruct (ltrim input) as [|c0 rest] eqn:El.
  { destruct t'; discriminate. }
  exists c0, rest, w, t', cl, cfg_t, cfg. repeat split; auto.
Qed.

(** C6.  For every input that is syntactically valid JSON (which has no
    trailing commas) and every output buffer with room for the input, the
    reserved closers and the terminator, [conduit_json_repair] returns the
    length of the input trimmed of leading and trailing whitespace and the
    output holds exactly that trimmed input. *)
Theorem repair_is_identity_on_valid_json :
  forall (input output : list ascii) (output_capacity : nat) (max_depth : Z),
    valid input = true ->
    length output = output_capacity ->
    length input + effective_max max_depth + 2 <= output_capacity ->
    let '(ret, output') :=
      conduit_json_repair input output output_capacity max_depth in
    ret = Z.of_nat (length (trim input))
    /\ firstn (length (trim input)) output' = trim input.
Proof.
  intros input output cap md Hv Hlen Hcap.
  destruct (valid_trimmed input Hv)
    as (c0 & rest & w & t' & cl & cfg & cfg_s & El & Hc0 & Es & Hw & Et & Hcl
        & Hrun & Hacc & Hrun_s & Hacc_s).
  set (t := trim input) in *.
  pose proof (JsonRepairBounds.effective_max_range md) as Hem.
  assert (Hs_len : length (c0 :: rest) <= length input).
  { destruct (ltrim_split input) as (w0 & E0 & _).
    rewrite El in E0. rewrite E0, length_app. lia. }
  assert (Hts : length t + length w = length (c0 :: rest))
    by (rewrite Es, length_app; reflexivity).
  assert (Ht_pos : 0 < length t) by (rewrite Et, length_app; simpl; lia).
  unfold conduit_json_repair.
  destruct (Nat.ltb_spec cap 3) as [L|_]; [simpl in *; lia|].
  rewrite skip_leading_ws_ltrim, El.
  destruct (Nat.leb_spec cap (effective_max md + 2)) as [L|_]; [simpl in *; lia|].
  (* first pass *)
  pose proof (copy_loop_spec (cap - (effective_max md + 2)) (effective_max md)
                (c0 :: rest) (mkpass false false [] 0 output)) as Hcopy.
  cbv zeta in Hcopy.
  set (st := copy_loop (c0 :: rest) _ _ _) in *.
  cbn [out JsonRepair.output in_string escape_next bracket_stack] in Hcopy.
  destruct Hcopy as (Hout & Hfirst & Hscan & Hlen'); [lia | lia |].
  rewrite Nat.add_0_l in Hout. simpl firstn in Hfirst at 2.
  rewrite app_nil_l in Hfirst.
  (* the scan ends outside strings with an empty stack *)
  destruct cfg as [m' st'].
  assert (Hm2 : exists m2, cfg_s = (m2, []) /\ flags_of m2 = (false, false)).
  { destruct (accepting_inv _ Hacc_s) as [-> | (ns & -> & _)];
      eexists; split; reflexivity. }
  destruct Hm2 as (m2 & -> & Hf2). unfold initial in Hrun_s.
  destruct (track_run (effective_max md) (c0 :: rest) MValue [] m2 [] []
              Hrun_s (Nat.le_refl _)) as (k' & Hk & Hk').
  simpl fst in Hk. simpl snd in Hk. rewrite Hk, Hf2 in Hscan.
  destruct k'; [|simpl in Hk'; lia].
  injection Hscan as Hin Hesc Hstack.
  rewrite Hin, Hstack, Hout.
  (* tail fix-ups *)
  assert (Hholds : holds (JsonRepair.output st) (length t + length w) (t ++ w)).
  { split; [|apply length_app]. rewrite Hts, <- Hout, Hfirst. exact Es. }
  assert (Hholds_t : holds (JsonRepair.output st) (length t) t)
    by (eapply holds_prefix; eauto).
  rewrite <- Hts.
  rewrite (trim_spec (JsonRepair.output st) t w Hholds Hw)
    by (right; eauto).
  assert (Hlast : get (JsonRepair.output st) (length t - 1) = cl).
  { rewrite (holds_get _ _ _ (length t - 1) Hholds_t) by lia.
    rewrite Et, length_app. simpl. unfold get.
    rewrite app_nth2 by lia.
    replace (length t' + 1 - 1 - length t') with 0 by lia. reflexivity. }
  assert (Hstep : exists q, run initial t' = Some q /\ step q cl = Some (m', st')).
  { rewrite Et, run_app in Hrun.
    destruct (run initial t') as [q|]; [|discriminate].
    cbn [run] in Hrun. destruct (step q cl) as [q'|] eqn:E; [|discriminate].
    injection Hrun as ->. eauto. }
  destruct Hstep as (q & Hq & Hstep).
  destruct (last_not_separator q cl (m', st') Hstep Hacc) as (Hncomma & Hncolon).
  rewrite drop_comma_kept by (rewrite Hlast; auto).
  rewrite kvp_kept; try (rewrite Hlast; auto); auto.
  2:{ (* the text ends in a quote: it is one string *)
    intros ->.
    assert (Eb : exists body, t = c0 :: body ++ [QUOTE]).
    { destruct t' as [|x body].
      - exfalso. rewrite Et in Hrun. vm_compute in Hrun.
        injection Hrun as <- <-. discriminate.
      - exists body. rewrite Et in Es. simpl in Es. injection Es as -> _.
        exact Et. }
    destruct Eb as (body & Eb).
    rewrite Eb in Hrun.
    destruct (text_ending_in_quote c0 body (m', st') Hc0 Hrun Hacc) as (-> & Hqe).
    replace (length t) with (S (S (length body)))
      by (rewrite Eb; simpl; rewrite length_app; simpl; lia).
    assert (Hlt : S (length body) < length t)
      by (rewrite Eb; simpl; rewrite length_app; simpl; lia).
    apply trailing_string_kept.
    - rewrite (holds_get _ _ _ 0 Hholds_t) by lia. rewrite Eb. reflexivity.
    - intros idx Hidx Hg.
      rewrite (holds_get _ _ _ idx Hholds_t) in Hg by lia.
      rewrite (bs_count_ext _ t idx)
        by (intros j Hj; apply (holds_get _ _ _ j Hholds_t); lia).
      rewrite Eb in *. destruct idx as [|i]; [lia|].
      rewrite bs_count_cons by discriminate.
      rewrite bs_count_app by lia.
      apply Hqe; [lia|].
      unfold get in *. simpl in Hg. rewrite app_nth1 in Hg by lia. exact Hg. }
  (* no closers, no commas to strip *)
  cbn [close_loop].
  pose proof (rtc_loop_spec (length t) cap (length t) 0 0 false false
                (store (JsonRepair.output st) (length t) NUL)) as Hrtc.
  cbv zeta in Hrtc. rewrite store_length in Hrtc.
  unfold remove_trailing_commas.
  destruct (remove_trailing_commas_loop _ _ _ _ _ _ _ _) as [final_len out_e].
  cbn [fst snd] in Hrtc.
  destruct Hrtc as (Hf & Hfl); try lia.
  simpl skipn in Hf, Hfl. simpl firstn in Hf at 2. simpl firstn in Hfl at 1.
  rewrite app_nil_l in Hf, Hfl.
  destruct (holds_store_above _ _ _ (length t) NUL Hholds_t (Nat.le_refl _))
    as (Hst & _).
  rewrite Hst in Hf, Hfl.
  pose proof (strip_commas_valid t MValue [] (m', st') Hrun) as Hsc.
  simpl fst in Hsc. simpl snd in Hsc. rewrite Hsc in Hf, Hfl.
  subst final_len. split; [reflexivity|].
  rewrite firstn_store_below by lia. exact Hf.
Qed.

(** X5.  The final comma pass runs with the output buffer as both source
    and destination.  Since it writes at or behind the byte it reads, what
    it leaves is [strip_commas] of the text it was given: outside strings,
    every comma that is followed, through whitespace, by a closing bracket
    is dropped, and nothing else changes. *)
Theorem comma_pass_in_place :
  forall (buf : list ascii) (input_len output_capacity : nat),
    input_len <= length buf ->
    input_len < output_capacity ->
    let '(final_len, buf') := remove_trailing_commas buf input_len output_capacity in
    firstn final_len buf' = strip_commas false false (firstn input_len buf)
    /\ final_len = length (strip_commas false false (firstn input_len buf))
    /\ length buf' = length buf.
Proof.
  intros buf len cap Hl Hc. unfold remove_trailing_commas.
  pose proof (rtc_loop_spec len cap len 0 0 false false buf) as H.
  pose proof (JsonRepairBounds.rtc_loop_bound cap len len 0 0 false false buf) as B.
  cbv zeta in H.
  destruct (remove_trailing_commas_loop _ _ _ _ _ _ _ _) as [fl buf'].
  cbn [fst snd] in *.
  destruct H as (H1 & H2); try lia. destruct B as (_ & B); [lia|].
  simpl in H1, H2. auto.
Qed.

Lemma comma_pass_in_place_witness :
  let buf := json "[1, 2 , ',]' , ]|" in
  16 <= length buf /\ 16 < 32
  /\ (let '(final_len, buf') := remove_trailing_commas buf 16 32 in
      firstn final_len buf' = strip_commas false false (firstn 16 buf)
      /\ final_len = length (strip_commas false false (firstn 16 buf))
      /\ length buf' = length buf)
  /\ strip_commas false false (firstn 16 buf) = json "[1, 2 , ',]'  ]".
Proof.
  intros buf.
  assert (H1 : 16 <= length buf) by (vm_compute; lia).
  assert (H2 : 16 < 32) by lia.
  split; [exact H1|]. split; [exact H2|]. split; [|reflexivity].
  exact (comma_pass_in_place buf 16 32 H1 H2).
Defined.

Lemma repair_is_identity_on_valid_json_witness :
  let input := json " {'a': [1, 2, 'x,]'], 'b': null} " in
  let output := repeat NUL 64 in
  valid input = true
  /\ length output = 64
  /\ length input + effective_max 16 + 2 <= 64
  /\ (let '(ret, output') := conduit_json_repair input output 64 16 in
      ret = Z.of_nat (length (trim input))
      /\ firstn (length (trim input)) output' = trim input).
Proof.
  intros input output.
  assert (H1 : valid input = true) by reflexivity.
  assert (H3 : length input + effective_max 16 + 2 <= 64) by (vm_compute; lia).
  split; [exact H1|]. split; [reflexivity|]. split; [exact H3|].
  exact (repair_is_identity_on_valid_json input output 64 16 H1 eq_refl H3).
Defined.

End JsonRepairIdentity.

(* ------------------------------------------------------------------ *)
(** ** JSON repair: failure, truncation and growth *)

Module JsonRepairEdges.
Import Bytes BytesFacts JsonRepair JsonRepairBounds.

#[local] Arguments track : simpl never.

Lemma skip_leading_ws_blank input :
  skip_leading_ws input = [] <-> Forall (fun c => is_ws c = true) input.
Proof.
  split; [|apply skip_leading_ws_nil].
  induction input as [|c rest IH]; [constructor|]. cbn [skip_leading_ws].
  destruct (is_ws c) eqn:E; [|discriminate]. intros H. constructor; auto.
Qed.

Lemma skip_leading_ws_head input :
  match skip_leading_ws input with
  | c :: _ => is_ws c = false
  | [] => True
  end.
Proof.
  induction input as [|c rest IH]; [exact I|]. cbn [skip_leading_ws].
  destruct (is_ws c) eqn:E; [exact IH | exact E].
Qed.

(** X17.  [conduit_json_repair] returns -1 exactly when the output buffer
    has fewer than 3 bytes, or the input is not blank and the buffer has at
    most min(max(max_depth,1),256) + 2 bytes; it then leaves the output
    buffer untouched.  In every other case the result is a length, 0 or
    more: blank input needs only 3 bytes whatever [max_depth] is. *)
Theorem repair_fails_exactly_without_room :
  forall (input output : list ascii) (output_capacity : nat) (max_depth : Z),
    let '(ret, output') :=
      conduit_json_repair input output output_capacity max_depth in
    (ret = (-1)%Z <->
       output_capacity < 3
       \/ (~ Forall (fun c => is_ws c = true) input
           /\ output_capacity <= effective_max max_depth + 2))
    /\ (ret = (-1)%Z -> output' = output)
    /\ (ret = (-1)%Z \/ (0 <= ret)%Z).
Proof.
  intros input output cap md. unfold conduit_json_repair.
  pose proof (skip_leading_ws_blank input) as Hblank.
  destruct (Nat.ltb_spec cap 3) as [L3 | L3].
  { split; [split; auto|]. auto. }
  destruct (skip_leading_ws input) as [|c0 rest] eqn:Es.
  { split; [|split; [discriminate | right; lia]].
    split; [discriminate|]. intros [H | (H & _)]; [lia|].
    exfalso. apply H. now apply Hblank. }
  assert (Hnb : ~ Forall (fun c => is_ws c = true) input).
  { intros H. apply Hblank in H. discriminate. }
  destruct (Nat.leb_spec cap (effective_max md + 2)) as [Lm | Lm].
  { split; [split; auto|]. auto. }
  cbv zeta.
  match goal with
  | |- context [if in_string ?st then ?a else ?b] =>
      destruct (if in_string st then a else b) as [o_b buf_b]
  end.
  match goal with
  | |- context [close_loop ?a ?b ?c ?d] =>
      destruct (close_loop a b c d) as [o_d buf_d]
  end.
  match goal with
  | |- context [remove_trailing_commas ?a ?b ?c] =>
      destruct (remove_trailing_commas a b c) as [fl buf_e]
  end.
  split; [|split; [lia | right; lia]].
  split; [lia|]. intros [H | (_ & H)]; lia.
Qed.

Lemma copy_loop_firstn input cfc em : forall st,
  copy_loop (firstn (cfc - out st) input) cfc em st = copy_loop input cfc em st.
Proof.
  induction input as [|c rest IH]; intros st.
  - now rewrite firstn_nil.
  - cbn [copy_loop]. destruct (Nat.ltb_spec (out st) cfc) as [L | L].
    + replace (cfc - out st) with (S (cfc - S (out st))) by lia.
      cbn [firstn copy_loop]. destruct (Nat.ltb_spec (out st) cfc); [|lia].
      cbn [negb]. destruct (track em c _) as [[s e] k].
      exact (IH (mkpass s e k (S (out st)) (store (output st) (out st) c))).
    + replace (cfc - out st) with 0 by lia. reflexivity.
Qed.

(** X18.  Input that does not fit is cut, not refused: after the leading
    whitespace only the first [output_capacity - (effective_max + 2)] bytes
    of the input are looked at, and the call behaves exactly as if the input
    ended there. *)
Theorem repair_reads_only_what_fits :
  forall (input output : list ascii) (output_capacity : nat) (max_depth : Z),
    effective_max max_depth + 2 < output_capacity ->
    conduit_json_repair input output output_capacity max_depth
    = conduit_json_repair
        (firstn (output_capacity - (effective_max max_depth + 2))
                (skip_leading_ws input))
        output output_capacity max_depth.
Proof.
  intros input output cap md Hcap. unfold conduit_json_repair.
  destruct (cap <? 3); [reflexivity|].
  pose proof (skip_leading_ws_head input) as Hhead.
  destruct (skip_leading_ws input) as [|c0 rest] eqn:Es.
  { now rewrite firstn_nil. }
  assert (E1 : firstn (cap - (effective_max md + 2)) (c0 :: rest)
               = c0 :: firstn (cap - (effective_max md + 2) - 1) rest).
  { replace (cap - (effective_max md + 2))
      with (S (cap - (effective_max md + 2) - 1)) at 1 by lia.
    reflexivity. }
  pose proof (copy_loop_firstn (c0 :: rest) (cap - (effective_max md + 2))
                (effective_max md) (mkpass false false [] 0 output)) as E.
  cbn [out] in E. rewrite Nat.sub_0_r, E1 in E.
  rewrite E1. cbn [skip_leading_ws]. rewrite Hhead.
  destruct (cap <=? effective_max md + 2); [reflexivity|]. cbv zeta.
  rewrite E. reflexivity.
Qed.

Lemma repair_reads_only_what_fits_witness :
  let input := json "  [1, 2, 3, 4, 5]" in
  effective_max 1 + 2 < 8
  /\ conduit_json_repair input (repeat NUL 8) 8 1
     = conduit_json_repair (json "[1, 2") (repeat NUL 8) 8 1
  /\ repaired input 8 1 = Some (json "[1, 2]").
Proof.
  intros input.
  assert (H : effective_max 1 + 2 < 8) by (vm_compute; lia).
  split; [exact H|]. split; [|reflexivity].
  exact (repair_reads_only_what_fits input (repeat NUL 8) 8 1 H).
Defined.

Lemma track_depth em c s e k :
  length k <= em ->
  let '(_, _, k') := track em c (s, e, k) in length k' <= em.
Proof.
  intros H. unfold track, push, pop.
  destruct e; [exact H|]. destruct s.
  { destruct (Ascii.eqb c BACKSLASH); [exact H|].
    destruct (Ascii.eqb c QUOTE); exact H. }
  destruct (Ascii.eqb c QUOTE); [exact H|].
  destruct (Ascii.eqb c LBRACE).
  { destruct (Nat.ltb_spec (length k) em); cbn [length]; lia. }
  destruct (Ascii.eqb c RBRACE).
  { destruct k; cbn [tl length] in *; lia. }
  destruct (Ascii.eqb c LBRACKET).
  { destruct (Nat.ltb_spec (length k) em); cbn [length]; lia. }
  destruct (Ascii.eqb c RBRACKET); [|exact H].
  destruct k; cbn [tl length] in *; lia.
Qed.

Lemma copy_loop_growth input cfc em : forall st,
  length (bracket_stack st) <= em ->
  out (copy_loop input cfc em st) <= out st + length input
  /\ length (bracket_stack (copy_loop input cfc em st)) <= em.
Proof.
  induction input as [|c rest IH]; intros st Hk; cbn [copy_loop length].
  - split; [lia | exact Hk].
  - destruct (out st <? cfc); cbn [negb]; [|split; [lia | exact Hk]].
    pose proof (track_depth em c (in_string st) (escape_next st)
                  (bracket_stack st) Hk) as Hk'.
    destruct (track em c _) as [[s e] k].
    destruct (IH (mkpass s e k (S (out st)) (store (output st) (out st) c)) Hk')
      as (I1 & I2).
    cbn [out] in I1. split; [lia | exact I2].
Qed.

Lemma close_loop_growth stack cap : forall out output,
  fst (close_loop stack cap out output) <= out + length stack.
Proof.
  induction stack as [|b below IH]; intros out output; cbn [close_loop length].
  - cbn. lia.
  - destruct (out <? cap - 1); cbn [negb fst]; [|lia].
    set (o := drop_comma output (trim_trailing_whitespace output out)).
    assert (o <= out).
    { pose proof (trim_le output out).
      pose proof (drop_comma_le output (trim_trailing_whitespace output out)).
      subst o; lia. }
    etransitivity; [apply IH|]. lia.
Qed.

Lemma rtc_loop_growth cap len : forall n i out s e buf,
  fst (remove_trailing_commas_loop n i out s e len cap buf) <= out + n.
Proof.
  induction n as [|n IH]; intros i out s e buf;
    cbn [remove_trailing_commas_loop]; [cbn; lia|].
  destruct (out <? cap - 1); cbn [negb]; [|cbn; lia].
  assert (St : forall s e b,
            fst (remove_trailing_commas_loop n (S i) (S out) s e len cap b)
            <= out + S n).
  { intros s' e' b. etransitivity; [apply IH|]. lia. }
  assert (Sk : forall s e b,
            fst (remove_trailing_commas_loop n (S i) out s e len cap b)
            <= out + S n).
  { intros s' e' b. etransitivity; [apply IH|]. lia. }
  destruct e; auto. destruct s; auto.
  destruct (Ascii.eqb _ QUOTE); auto.
  destruct (Ascii.eqb _ COMMA); auto.
  destruct (_ && _); auto.
Qed.

(** X19.  Repair never grows the text by more than the closing quote of
    an open string and one closer per open bracket: the returned length is
    at most the input length plus 1 plus min(max(max_depth,1),256). *)
Theorem repair_growth_is_bounded :
  forall (input output : list ascii) (output_capacity : nat) (max_depth : Z),
    let '(ret, _) := conduit_json_repair input output output_capacity max_depth in
    (ret <= Z.of_nat (length input + 1 + effective_max max_depth))%Z.
Proof.
  intros input output cap md. unfold conduit_json_repair.
  pose proof (effective_max_range md) as Hem.
  destruct (cap <? 3); [lia|].
  assert (Hlen : length (skip_leading_ws input) <= length input).
  { induction input as [|c rest IH]; [reflexivity|]. cbn [skip_leading_ws].
    destruct (is_ws c); cbn [length] in *; lia. }
  destruct (skip_leading_ws input) as [|c0 rest] eqn:Es; [lia|].
  destruct (cap <=? effective_max md + 2); [lia|]. cbv zeta.
  set (cfc := cap - (effective_max md + 2)).
  set (st := copy_loop (c0 :: rest) cfc (effective_max md) _).
  destruct (copy_loop_growth (c0 :: rest) cfc (effective_max md)
              (mkpass false false [] 0 output)) as (G1 & G2); [cbn; lia|].
  fold st in G1, G2. cbn [out] in G1.
  set (ph_b := if in_string st then _ else (out st, JsonRepair.output st)).
  assert (HB : fst ph_b <= out st + 1).
  { subst ph_b. destruct (in_string st); cbn [fst]; [|lia].
    set (o1 := remove_partial_unicode_escape _ _).
    assert (o1 <= out st) by apply unicode_le.
    set (o2 := if _ && _ && _ then o1 - 1 else o1).
    assert (o2 <= o1) by (subst o2; destruct (_ && _ && _); lia).
    destruct (o2 <? cap - 1); cbn [fst]; lia. }
  destruct ph_b as [o_b buf_b]. cbn [fst] in HB.
  set (o_c := remove_incomplete_kvp buf_b _).
  assert (HC : o_c <= o_b).
  { subst o_c.
    pose proof (kvp_le buf_b (drop_comma buf_b (trim_trailing_whitespace buf_b o_b))).
    pose proof (drop_comma_le buf_b (trim_trailing_whitespace buf_b o_b)).
    pose proof (trim_le buf_b o_b). lia. }
  pose proof (close_loop_growth (bracket_stack st) cap o_c buf_b) as HD.
  destruct (close_loop (bracket_stack st) cap o_c buf_b) as [o_d buf_d].
  cbn [fst] in HD. unfold remove_trailing_commas.
  pose proof (rtc_loop_growth cap o_d o_d 0 0 false false (store buf_d o_d NUL))
    as HE.
  destruct (remove_trailing_commas_loop _ _ _ _ _ _ _ _) as [fl buf_e].
  cbn [fst length] in *. lia.
Qed.

End JsonRepairEdges.

(* ------------------------------------------------------------------ *)
(** ** JSON repair: closing what a cut left open *)

Module JsonRepairClosing.
Import Bytes BytesFacts JsonRepair Json JsonFacts JsonRepairIdentity.

#[local] Arguments track : simpl never.
#[local] Abbreviation bs_count := JsonRepair.backslash_count.

(** The bracket stack of the repair pass that corresponds to a stack of
    open containers. *)
Definition mirror (st : list frame) : list bracket_type_t :=
  map (fun f => match f with
                | FObject => BRACKET_BRACE
                | FArray => BRACKET_SQUARE
                end) st.

Lemma track_step_exact cap m st c m' st' :
  step (m, st) c = Some (m', st') ->
  length st' <= cap ->
  track cap c (fst (flags_of m), snd (flags_of m), mirror st)
  = (fst (flags_of m'), snd (flags_of m'), mirror st').
Proof.
  intros Hstep Hcap. unfold track.
  destruct m as [| | | | | | q | q | q n | ns | l];
    try destruct q; try destruct ns; try destruct l;
    simpl fst; simpl snd; cbv iota beta.
  all: by_byte c; rewrite ?Ebs, ?Equ, ?Elb, ?Erb, ?Elk, ?Erk.
  all: simpl in Hstep; unfold start_value, after_value in Hstep;
       rewrite ?Ebs, ?Equ, ?Elb, ?Erb, ?Elk, ?Erk in Hstep; simpl in Hstep.
  all: try discriminate Hstep.
  all: step_cases Hstep; try discriminate.
  all: try (injection Hstep as <- <-).
  all: try reflexivity.
  all: unfold push, pop, mirror in *; simpl in *; rewrite ?length_map;
       subst; simpl in *;
       try match goal with
           | |- context [?a <? ?b] => destruct (Nat.ltb_spec a b); [|lia]
           end;
       try reflexivity.
  all: destruct st; reflexivity.
Qed.

Lemma peak_ge cfg l : length (snd cfg) <= peak cfg l.
Proof.
  destruct l as [|c l]; cbn [peak]; [lia|].
  destruct (step cfg c); lia.
Qed.

Lemma peak_prefix a : forall cfg b, peak cfg a <= peak cfg (a ++ b).
Proof.
  induction a as [|c a IH]; intros cfg b; cbn [app peak].
  - apply peak_ge.
  - destruct (step cfg c) as [cfg'|]; [|lia].
    pose proof (IH cfg' b). lia.
Qed.

Lemma peak_suffix a : forall cfg cfg' b,
  run cfg a = Some cfg' -> peak cfg' b <= peak cfg (a ++ b).
Proof.
  induction a as [|c a IH]; intros cfg cfg' b Hrun; cbn [app run peak] in *.
  - injection Hrun as <-. lia.
  - destruct (step cfg c) as [cfg1|]; [|discriminate].
    pose proof (IH cfg1 cfg' b Hrun). lia.
Qed.

Lemma track_run_exact cap l : forall m st m' st',
  run (m, st) l = Some (m', st') ->
  peak (m, st) l <= cap ->
  scan cap l (fst (flags_of m), snd (flags_of m), mirror st)
  = (fst (flags_of m'), snd (flags_of m'), mirror st').
Proof.
  induction l as [|c l IH]; intros m st m' st' Hrun Hpeak;
    cbn [run peak] in *.
  - now injection Hrun as <- <-.
  - destruct (step (m, st) c) as [[m1 st1]|] eqn:Hs; [|discriminate].
    pose proof (peak_ge (m1, st1) l) as Hge. cbn [snd] in Hge.
    unfold scan in *. cbn [fold_left].
    rewrite (track_step_exact cap m st c m1 st1 Hs) by lia.
    apply IH; [exact Hrun | lia].
Qed.

(** *** What precedes the end of a value *)

Lemma value_ended_before_ws m st w m' st' :
  is_ws w = true -> step (m, st) w = Some (m', st') ->
  value_ended m' = true ->
  value_ended m = true /\ st = st'.
Proof.
  intros Hw Hstep Hend. apply is_ws_cases in Hw.
  destruct m as [| | | | | | q | q | q n | ns | l];
    try destruct q; try destruct ns; try destruct l;
    destruct Hw as [-> | [-> | [-> | ->]]];
    cbn in Hstep; try discriminate;
    try (injection Hstep as <- <-; cbn in Hend; try discriminate; auto).
  all: destruct st as [|[|] st]; cbn in Hstep; try discriminate;
       injection Hstep as <- <-; auto.
Qed.

Lemma trailing_ws_value_ended w : forall m st m' st',
  Forall (fun c => is_ws c = true) w ->
  run (m, st) w = Some (m', st') -> value_ended m' = true ->
  value_ended m = true /\ st = st'.
Proof.
  induction w as [|c w IH]; intros m st m' st' Hw Hrun Hend; cbn [run] in Hrun.
  - injection Hrun as <- <-. auto.
  - inversion Hw as [|? ? Hc Hrest]; subst.
    destruct (step (m, st) c) as [[m1 st1]|] eqn:Hs; [|discriminate].
    destruct (IH m1 st1 m' st' Hrest Hrun Hend) as (H1 & <-).
    exact (value_ended_before_ws m st c m1 st1 Hc Hs H1).
Qed.

Lemma value_end_not_separator m st c m' st' :
  step (m, st) c = Some (m', st') -> value_ended m' = true ->
  c <> COMMA /\ c <> COLON.
Proof.
  intros Hstep Hend.
  split; intros ->;
    destruct m as [| | | | | | q | q | q n | ns | l];
    try destruct q; try destruct ns; try destruct l;
    cbn in Hstep; try discriminate;
    try (destruct st as [|[|] st]; cbn in Hstep; try discriminate);
    injection Hstep as <- <-; discriminate.
Qed.

Lemma value_end_quote m st m' st' :
  step (m, st) QUOTE = Some (m', st') -> value_ended m' = true ->
  m = MStr false /\ st' = st.
Proof.
  intros Hstep Hend.
  destruct m as [| | | | | | q | q | q n | ns | l];
    try destruct q; try destruct ns; try destruct l;
    cbn in Hstep; try discriminate;
    try (destruct st as [|[|] st]; cbn in Hstep; try discriminate);
    injection Hstep as <- <-; try discriminate; auto.
Qed.

(** *** Closing brackets end the text *)

Lemma step_closer m f below :
  value_ended m = true ->
  step (m, f :: below) (closer_of f) = Some (MAfter, below).
Proof.
  intros Hend.
  destruct m as [| | | | | | q | q | q n | ns | l]; try discriminate;
    try destruct ns; try discriminate; destruct f; reflexivity.
Qed.

Lemma run_closers stack : forall m,
  value_ended m = true ->
  exists m', run (m, stack) (closers stack) = Some (m', [])
             /\ accepting (m', []) = true.
Proof.
  induction stack as [|f below IH]; intros m Hend; cbn [closers map run].
  - exists m. split; [reflexivity|]. destruct m; try discriminate; auto.
  - rewrite (step_closer m f below Hend). now apply IH.
Qed.

(** *** Where a string value began *)

Lemma str_step_any_stack m st c m' st' :
  str_mode m = true -> step (m, st) c = Some (m', st') ->
  st' = st /\ step (m, []) c = Some (m', []).
Proof.
  intros Hm Hstep.
  destruct m as [| | | | | | q | q | q n | ns | l]; try discriminate;
    destruct q; try discriminate; cbn [step after_string] in Hstep |- *.
  - destruct (Ascii.eqb c QUOTE); [injection Hstep as <- <-; auto|].
    destruct (Ascii.eqb c BACKSLASH); [injection Hstep as <- <-; auto|].
    destruct (is_control c); [discriminate|]. injection Hstep as <- <-; auto.
  - destruct (is_simple_escape c); [injection Hstep as <- <-; auto|].
    destruct (Ascii.eqb c "u"%char); [|discriminate].
    injection Hstep as <- <-; auto.
  - destruct (is_hex_digit c); [|discriminate].
    destruct n; injection Hstep as <- <-; auto.
Qed.

Lemma enter_string m st c m' st' :
  step (m, st) c = Some (m', st') ->
  str_mode m = false -> str_mode m' = true ->
  c = QUOTE /\ value_start m = true /\ st' = st /\ m' = MStr false.
Proof.
  intros Hstep Hm Hm'.
  destruct m as [| | | | | | q | q | q n | ns | l];
    try destruct q; try destruct ns; try destruct l; try discriminate Hm.
  all: by_byte c.
  all: cbn in Hstep; unfold start_value, after_value in Hstep;
       rewrite ?Ebs, ?Equ, ?Elb, ?Erb, ?Elk, ?Erk in Hstep; cbn in Hstep.
  all: try discriminate Hstep.
  all: step_cases Hstep; try discriminate.
  all: try (injection Hstep as <- <-); try discriminate Hm'; auto.
Qed.

(** While the recogniser is inside a string value, the text read so far
    ends with that string: its opening quote stands where a value was
    expected, and every quote behind it is escaped. *)
Definition in_value_string (u : list ascii) (cfg : config) : Prop :=
  str_mode (fst cfg) = true ->
  exists pre body mv,
    u = pre ++ QUOTE :: body
    /\ run initial pre = Some (mv, snd cfg) /\ value_start mv = true
    /\ escapes_tracked body (fst cfg) /\ quotes_escaped body.

Lemma in_value_string_run u : forall cfg,
  run initial u = Some cfg -> in_value_string u cfg.
Proof.
  induction u as [|c u IH] using rev_ind; intros cfg Hrun.
  - cbn in Hrun. injection Hrun as <-. intros H. discriminate.
  - rewrite run_app in Hrun.
    destruct (run initial u) as [[m0 st0]|] eqn:Hu; [|discriminate].
    cbn [run] in Hrun. destruct cfg as [m st].
    destruct (step (m0, st0) c) as [cfg1|] eqn:Hs; [|discriminate].
    injection Hrun as ->. intros Hm. cbn [fst snd] in *.
    destruct (str_mode m0) eqn:Hm0.
    + destruct (IH (m0, st0) eq_refl Hm0)
        as (pre & body & mv & Eu & Hpre & Hmv & Het & Hqe).
      cbn [fst snd] in *.
      destruct (str_step_any_stack m0 st0 c m st Hm0 Hs) as (-> & Hs0).
      destruct (string_step body m0 c m Hm0 Hm Hs0 Het Hqe) as (Het' & Hqe').
      exists pre, (body ++ [c]), mv.
      split; [now rewrite Eu, <- app_assoc|]. auto.
    + destruct (enter_string m0 st0 c m st Hs Hm0 Hm) as (-> & Hv & -> & ->).
      exists u, [], m0. split; [reflexivity|]. split; [exact Hu|].
      split; [exact Hv|]. split; [reflexivity|].
      intros idx Hidx. cbn in Hidx. lia.
Qed.

(** What stands before a value: nothing but whitespace, or an opening
    square bracket, a colon, or a comma between array elements, each
    possibly followed by whitespace. *)
Lemma ws_keeps_value_start m st c m' st' :
  is_ws c = true -> step (m, st) c = Some (m', st') ->
  value_start m' = true -> m = m' /\ st = st'.
Proof.
  intros Hw Hstep Hv. apply is_ws_cases in Hw.
  destruct m as [| | | | | | q | q | q n | ns | l];
    try destruct q; try destruct ns; try destruct l;
    destruct Hw as [-> | [-> | [-> | ->]]];
    cbn in Hstep; try discriminate;
    try (injection Hstep as <- <-; cbn in Hv; try discriminate; auto).
  all: destruct st as [|[|] st]; cbn in Hstep; try discriminate;
       injection Hstep as <- <-; discriminate.
Qed.

Lemma reach_value_start m st c m' st' :
  is_ws c = false -> step (m, st) c = Some (m', st') ->
  value_start m' = true ->
  c = LBRACKET \/ c = COLON
  \/ (c = COMMA /\ flags_of m = (false, false)
      /\ exists below, st = FArray :: below).
Proof.
  intros Hw Hstep Hv.
  destruct m as [| | | | | | q | q | q n | ns | l];
    try destruct q; try destruct ns; try destruct l.
  all: destruct (Ascii.eqb c COMMA) eqn:Eco;
    [apply Ascii.eqb_eq in Eco; subst c|];
    [|destruct (Ascii.eqb c COLON) eqn:Ecl;
       [apply Ascii.eqb_eq in Ecl; subst c|]].
  all: try (right; left; reflexivity).
  all: try (cbn in Hstep; unfold start_value, after_value in Hstep;
            cbn in Hstep;
            first
              [ discriminate Hstep
              | destruct st as [|[|] st]; cbn in Hstep;
                first
                  [ discriminate Hstep
                  | injection Hstep as <- <-;
                    first
                      [ discriminate Hv
                      | right; right; split; [reflexivity|];
                        split; [reflexivity|]; eexists; reflexivity ] ] ]).
  all: by_byte c.
  all: cbn in Hstep; unfold start_value, after_value in Hstep;
       rewrite ?Hw, ?Eco, ?Ecl, ?Ebs, ?Equ, ?Elb, ?Erb, ?Elk, ?Erk in Hstep;
       cbn in Hstep.
  all: try discriminate Hstep.
  all: try (left; reflexivity).
  all: step_cases Hstep; try discriminate.
  all: try (injection Hstep as <- <-); try discriminate Hv; auto.
Qed.

Lemma value_start_shape pre : forall mv st,
  run initial pre = Some (mv, st) -> value_start mv = true ->
  Forall (fun c => is_ws c = true) pre
  \/ exists pre' x ws',
       pre = pre' ++ x :: ws'
       /\ Forall (fun c => is_ws c = true) ws'
       /\ (x = LBRACKET \/ x = COLON
           \/ (x = COMMA
               /\ exists m0 below,
                    run initial pre' = Some (m0, FArray :: below)
                    /\ flags_of m0 = (false, false))).
Proof.
  induction pre as [|c pre IH] using rev_ind; intros mv st Hrun Hv.
  - left. constructor.
  - rewrite run_app in Hrun.
    destruct (run initial pre) as [[m0 st0]|] eqn:Hp; [|discriminate].
    cbn [run] in Hrun.
    destruct (step (m0, st0) c) as [cfg1|] eqn:Hs; [|discriminate].
    injection Hrun as ->.
    destruct (is_ws c) eqn:Hw.
    + destruct (ws_keeps_value_start m0 st0 c mv st Hw Hs Hv) as (-> & ->).
      destruct (IH mv st eq_refl Hv)
        as [Hall | (pre' & x & ws' & -> & Hws & Hx)].
      * left. apply Forall_app. split; [exact Hall|]. now constructor.
      * right. exists pre', x, (ws' ++ [c]).
        split; [now rewrite <- app_assoc|]. split; [|exact Hx].
        apply Forall_app. split; [exact Hws|]. now constructor.
    + right. exists pre, c, []. split; [reflexivity|]. split; [constructor|].
      destruct (reach_value_start m0 st0 c mv st Hw Hs Hv)
        as [-> | [-> | (-> & Hf & below & ->)]]; auto.
      right; right. split; [reflexivity|]. eauto.
Qed.

(** *** The trailing-string check on a string value *)

Lemma find_open_quote_at buf q : forall k,
  (q = 0 \/ (get buf q = QUOTE /\ Nat.even (backslash_count buf q) = true)) ->
  (forall i, i < k -> get buf (q + 1 + i) = QUOTE ->
             Nat.even (backslash_count buf (q + 1 + i)) = false) ->
  find_open_quote buf (q + k) = q.
Proof.
  induction k as [|k IH]; intros Hq Hbody.
  - rewrite Nat.add_0_r. destruct q as [|q]; [reflexivity|].
    destruct Hq as [? | (Hg & He)]; [lia|].
    cbn [find_open_quote]. now rewrite Hg, Ascii.eqb_refl, He.
  - replace (q + S k) with (S (q + k)) by lia. cbn [find_open_quote].
    replace (S (q + k)) with (q + 1 + k) by lia.
    destruct (Ascii.eqb_spec (get buf (q + 1 + k)) QUOTE) as [E|E]; cbn [andb].
    + rewrite (Hbody k) by (auto; lia). apply IH; auto.
    + apply IH; auto.
Qed.

Lemma skip_ws_back_at buf p : forall k,
  (forall j, j < k -> is_ws (get buf (p + 1 + j)) = true) ->
  (p = 0 \/ is_ws (get buf p) = false) ->
  skip_ws_back buf (p + k) = p.
Proof.
  induction k as [|k IH]; intros Hws Hp.
  - rewrite Nat.add_0_r. destruct p as [|p]; [reflexivity|].
    destruct Hp as [? | Hp]; [lia|]. cbn [skip_ws_back]. now rewrite Hp.
  - replace (p + S k) with (S (p + k)) by lia. cbn [skip_ws_back].
    replace (S (p + k)) with (p + 1 + k) by lia.
    rewrite (Hws k) by lia. apply IH; auto.
Qed.

Lemma bs_count_inside pre body tail : forall i,
  i <= length body ->
  bs_count (pre ++ QUOTE :: body ++ tail) (length pre + 1 + i) = bs_count body i.
Proof.
  induction i as [|i IH]; intros Hi.
  - rewrite Nat.add_0_r, Nat.add_1_r. cbn [JsonRepair.backslash_count].
    unfold get. now rewrite app_nth2, Nat.sub_diag by lia.
  - replace (length pre + 1 + S i) with (S (length pre + 1 + i)) by lia.
    cbn [JsonRepair.backslash_count]. rewrite IH by lia.
    replace (get (pre ++ QUOTE :: body ++ tail) (length pre + 1 + i))
      with (get body i); [reflexivity|].
    unfold get. rewrite app_nth2 by lia.
    replace (length pre + 1 + i - length pre) with (S i) by lia.
    cbn [nth]. now rewrite app_nth1 by lia.
Qed.

Lemma ws_not_special c :
  is_ws c = true -> c <> BACKSLASH /\ c <> LBRACE /\ c <> COMMA /\ c <> QUOTE.
Proof.
  intros H. apply is_ws_cases in H.
  destruct H as [-> | [-> | [-> | ->]]]; repeat split; discriminate.
Qed.

Lemma nested_string_kept buf len pre body :
  holds buf len (pre ++ QUOTE :: body ++ [QUOTE]) ->
  quotes_escaped body ->
  (pre = []
   \/ exists pre' x ws',
        pre = pre' ++ x :: ws'
        /\ Forall (fun c => is_ws c = true) ws'
        /\ is_ws x = false /\ x <> LBRACE /\ x <> BACKSLASH
        /\ (x = COMMA -> find_context buf (length pre') = CTX_ARRAY)) ->
  kvp_trailing_string buf len = len.
Proof.
  intros Hh Hqe Hpre.
  set (text := pre ++ QUOTE :: body ++ [QUOTE]) in *.
  assert (Hlen : len = length pre + length body + 2).
  { destruct Hh as (_ & <-). unfold text.
    rewrite length_app. cbn [length]. rewrite length_app. cbn [length]. lia. }
  assert (Hget : forall i, i < len -> get buf i = get text i)
    by (intros i Hi; now apply (holds_get _ _ _ i Hh)).
  assert (Hbs : forall n, n <= len -> bs_count buf n = bs_count text n).
  { intros n Hn. apply bs_count_ext. intros j Hj. apply Hget. lia. }
  assert (Hq : get text (length pre) = QUOTE).
  { unfold text, get. now rewrite app_nth2, Nat.sub_diag by lia. }
  assert (Hb : forall i, i < length body ->
                         get text (length pre + 1 + i) = get body i).
  { intros i Hi. unfold text, get. rewrite app_nth2 by lia.
    replace (length pre + 1 + i - length pre) with (S i) by lia.
    cbn [nth]. now rewrite app_nth1 by lia. }
  assert (Hlast : get text (len - 1) = QUOTE).
  { unfold text, get. rewrite app_nth2 by lia.
    replace (len - 1 - length pre) with (S (length body)) by lia.
    cbn [nth]. now rewrite app_nth2, Nat.sub_diag by lia. }
  unfold kvp_trailing_string.
  destruct (Nat.ltb_spec 0 len); [|lia].
  rewrite Hget, Hlast, Ascii.eqb_refl by lia. cbn [andb]. cbv zeta.
  destruct (Nat.ltb_spec 0 (len - 1)); [|lia].
  replace (len - 1 - 1) with (length pre + length body) by lia.
  assert (Hopen : find_open_quote buf (length pre + length body) = length pre).
  { apply find_open_quote_at.
    - destruct Hpre as [-> | (pre' & x & ws' & Ep & Hws & Hx & _ & Hxb & _)];
        [now left | right].
      split; [rewrite Hget by lia; exact Hq|].
      rewrite Hbs by lia.
      assert (Elast : exists p c, pre = p ++ [c] /\ c <> BACKSLASH).
      { induction ws' as [|w0 ws0 _] using rev_ind.
        - exists pre', x. auto.
        - exists (pre' ++ x :: ws0), w0.
          split; [rewrite Ep, <- app_assoc; reflexivity|].
          apply Forall_app in Hws. destruct Hws as (_ & Hw0).
          inversion Hw0; subst. now apply ws_not_special. }
      destruct Elast as (p0 & c0 & Ep0 & Hc0).
      assert (El : length pre = S (length p0))
        by (rewrite Ep0, length_app; cbn; lia).
      rewrite El. cbn [JsonRepair.backslash_count].
      replace (get text (length p0)) with c0.
      + destruct (Ascii.eqb_spec c0 BACKSLASH); [contradiction | reflexivity].
      + unfold text. rewrite Ep0, <- app_assoc. unfold get.
        now rewrite app_nth2, Nat.sub_diag by lia.
    - intros i Hi Hg. rewrite Hget in Hg by lia. rewrite Hb in Hg by lia.
      rewrite Hbs by lia. unfold text. rewrite bs_count_inside by lia.
      now apply Hqe. }
  rewrite Hopen.
  destruct Hpre as [-> | (pre' & x & ws' & Ep & Hws & Hx & Hxl & _ & Hctx)].
  - cbn [length Nat.ltb Nat.leb skip_ws_back].
    destruct (Nat.ltb_spec 0 len); [|lia].
    rewrite Hget by lia. cbn [length] in Hq. rewrite Hq.
    change (Ascii.eqb QUOTE LBRACE) with false.
    change (Ascii.eqb QUOTE COMMA) with false.
    now rewrite !andb_false_r.
  - assert (El : length pre = length pre' + 1 + length ws')
      by (rewrite Ep, length_app; cbn; lia).
    destruct (Nat.ltb_spec 0 (length pre)); [|lia].
    replace (length pre - 1) with (length pre' + length ws') by lia.
    assert (Hpx : get text (length pre') = x).
    { unfold text. rewrite Ep, <- app_assoc. unfold get.
      now rewrite app_nth2, Nat.sub_diag by lia. }
    rewrite skip_ws_back_at.
    + destruct (Nat.ltb_spec (length pre') len); [|lia]. cbn [andb].
      rewrite Hget, Hpx by lia.
      destruct (Ascii.eqb_spec x LBRACE); [contradiction|].
      destruct (Ascii.eqb_spec x COMMA) as [Ec|]; [|reflexivity].
      now rewrite (Hctx Ec).
    + intros j Hj. rewrite Hget by lia.
      replace (get text (length pre' + 1 + j)) with (get ws' j).
      * unfold get. rewrite Forall_forall in Hws. apply Hws, nth_In, Hj.
      * unfold text. rewrite Ep, <- !app_assoc. unfold get.
        rewrite app_nth2 by lia.
        replace (length pre' + 1 + j - length pre') with (S j) by lia.
        cbn [nth app]. now rewrite app_nth1 by lia.
    + right. rewrite Hget by lia. now rewrite Hpx.
Qed.

(** A string that stands where a value is expected is never taken for
    an incomplete key. *)
Lemma string_value_kept buf t' stack :
  holds buf (S (length t')) (t' ++ [QUOTE]) ->
  run initial t' = Some (MStr false, stack) ->
  (forall c r, t' = c :: r -> is_ws c = false) ->
  peak initial t' <= 256 ->
  kvp_trailing_string buf (S (length t')) = S (length t').
Proof.
  intros Hh Hq Hhead Hpeak.
  destruct (in_value_string_run t' (MStr false, stack) Hq eq_refl)
    as (pre & body & mv & Eu & Hpre & Hmv & _ & Hqe).
  cbn [fst snd] in Hpre.
  assert (Etext : t' ++ [QUOTE] = pre ++ QUOTE :: body ++ [QUOTE]).
  { rewrite Eu, <- app_assoc. reflexivity. }
  apply (nested_string_kept _ _ pre body); [now rewrite <- Etext | exact Hqe |].
  destruct (value_start_shape pre mv stack Hpre Hmv)
    as [Hblank | (pre' & x & ws' & Ep & Hws & Hx)].
  - left. destruct pre as [|p0 pre0]; [reflexivity|]. exfalso.
    inversion Hblank as [|? ? Hp0 _]; subst.
    rewrite (Hhead p0 (pre0 ++ QUOTE :: body) eq_refl) in Hp0. discriminate.
  - right. exists pre', x, ws'. split; [exact Ep|]. split; [exact Hws|].
    destruct Hx as [-> | [-> | (-> & m0 & below & Hr0 & Hf0)]].
    + repeat split; try discriminate.
    + repeat split; try discriminate.
    + repeat split; try discriminate. intros _.
      assert (Hfp : firstn (length pre') buf = pre').
      { destruct Hh as (Ef & _).
        replace (length pre') with (Nat.min (length pre') (S (length t')))
          by (rewrite Eu, Ep, !length_app; lia).
        rewrite <- firstn_firstn, Ef, Eu, Ep, <- !app_assoc.
        rewrite firstn_app, Nat.sub_diag, firstn_all. cbn [firstn].
        now rewrite app_nil_r. }
      assert (Hpk : peak initial pre' <= 256).
      { pose proof (peak_prefix pre' initial
                      (COMMA :: ws' ++ QUOTE :: body)) as P.
        rewrite Eu, Ep, <- !app_assoc in Hpeak. cbn [app] in Hpeak. lia. }
      unfold initial in Hr0.
      pose proof (track_run_exact 256 pre' MValue [] m0 (FArray :: below)
                    Hr0 Hpk) as Hctx.
      rewrite Hf0 in Hctx. cbn [fst snd flags_of mirror map] in Hctx.
      unfold find_context. rewrite Hfp.
      unfold scan in Hctx. now rewrite Hctx.
Qed.

(** *** The closing loop *)

Lemma holds_snoc buf n text c :
  holds buf n text -> n < length buf ->
  holds (store buf n c) (S n) (text ++ [c]).
Proof.
  intros (E & Hl) Hn. split.
  - now rewrite firstn_store_snoc, E by lia.
  - rewrite length_app. cbn. lia.
Qed.

Lemma holds_last buf n text cl :
  holds buf n (text ++ [cl]) -> 0 < n /\ get buf (n - 1) = cl.
Proof.
  intros Hh. pose proof Hh as (_ & Hl). rewrite length_app in Hl. cbn in Hl.
  split; [lia|]. rewrite (holds_get _ _ _ (n - 1) Hh) by lia.
  unfold get. rewrite app_nth2 by lia.
  replace (n - 1 - length text) with 0 by lia. reflexivity.
Qed.

Lemma close_loop_closes cap stack : forall buf n text cl,
  holds buf n (text ++ [cl]) -> is_ws cl = false -> cl <> COMMA ->
  n + length stack < cap -> n + length stack <= length buf ->
  let r := close_loop (mirror stack) cap n buf in
  fst r = n + length stack
  /\ holds (snd r) (fst r) (text ++ cl :: closers stack)
  /\ length (snd r) = length buf.
Proof.
  induction stack as [|f below IH]; intros buf n text cl Hh Hws Hco Hcap Hlen;
    cbn [mirror map close_loop closers length] in *; cbv zeta.
  - cbn [fst snd]. rewrite Nat.add_0_r. auto.
  - destruct (holds_last buf n text cl Hh) as (Hn & Hl).
    destruct (Nat.ltb_spec n (cap - 1)); [|lia]. cbn [negb].
    rewrite trim_stops by (auto; now rewrite Hl).
    rewrite drop_comma_kept by (now rewrite Hl).
    set (c := match match f with
                    | FObject => BRACKET_BRACE
                    | FArray => BRACKET_SQUARE
                    end with
              | BRACKET_BRACE => RBRACE
              | BRACKET_SQUARE => RBRACKET
              end).
    assert (Ec : c = closer_of f) by (destruct f; reflexivity).
    assert (Hc : is_ws c = false /\ c <> COMMA)
      by (rewrite Ec; destruct f; split; (reflexivity || discriminate)).
    pose proof (IH (store buf n c) (S n) (text ++ [cl]) c) as Hrec.
    cbv zeta in Hrec. rewrite store_length in Hrec.
    destruct Hrec as (H1 & H2 & H3); try tauto; try lia.
    { apply holds_snoc; [exact Hh | lia]. }
    fold (mirror below). split; [lia|]. split; [|exact H3].
    rewrite <- app_assoc in H2. cbn [app] in H2. now rewrite <- Ec.
Qed.

Lemma run_blank w : Forall (fun c => is_ws c = true) w -> run initial w = Some initial.
Proof.
  induction 1 as [|c w Hc Hw IH]; [reflexivity|].
  unfold initial in *. cbn [run step]. now rewrite Hc.
Qed.

Lemma value_ended_flags m : value_ended m = true -> flags_of m = (false, false).
Proof. destruct m; try discriminate; reflexivity. Qed.

Lemma ltrim_app u sep c0 rest :
  ltrim u = c0 :: rest -> ltrim (u ++ sep) = (c0 :: rest) ++ sep.
Proof.
  induction u as [|c u IH]; [discriminate|]. cbn [ltrim app].
  destruct (is_ws c); [exact IH|]. now intros [= -> ->].
Qed.

Lemma scan_app cap a b st : scan cap (a ++ b) st = scan cap b (scan cap a st).
Proof. unfold scan. apply fold_left_app. Qed.

(** Whitespace and commas outside strings leave the scan as it is. *)
Lemma scan_inert cap sep k :
  Forall (fun c => is_ws c = true \/ c = COMMA) sep ->
  scan cap sep (false, false, k) = (false, false, k).
Proof.
  induction 1 as [|c sep Hc Hsep IH]; [reflexivity|].
  unfold scan in *. cbn [fold_left].
  replace (track cap c (false, false, k)) with (false, false, k); [exact IH|].
  unfold track. destruct Hc as [Hc | ->]; [|reflexivity].
  apply is_ws_cases in Hc. destruct Hc as [-> | [-> | [-> | ->]]]; reflexivity.
Qed.

Lemma kvp_kept_ws buf t w :
  holds buf (length t + length w) (t ++ w) ->
  Forall (fun c => is_ws c = true) w ->
  (exists t' c, t = t' ++ [c] /\ is_ws c = false) ->
  remove_incomplete_kvp buf (length t) = length t ->
  remove_incomplete_kvp buf (length t + length w) = length t.
Proof.
  intros Hh Hw Ht Hk. unfold remove_incomplete_kvp in *. cbv zeta in *.
  rewrite (trim_spec buf t w Hh Hw) by (right; exact Ht).
  destruct Ht as (t' & c & Et & Hc).
  rewrite trim_stops in Hk; [exact Hk | rewrite Et, length_app; cbn; lia |].
  rewrite (holds_get _ _ _ (length t - 1) (holds_prefix _ _ _ Hh))
    by (rewrite Et, length_app; cbn; lia).
  rewrite Et, length_app. cbn [length]. unfold get.
  rewrite app_nth2 by lia.
  replace (length t' + 1 - 1 - length t') with 0 by lia. exact Hc.
Qed.

(** What may follow the last complete value of a text that was cut:
    whitespace, or whitespace with one comma in it. *)
Definition cut_tail (sep : list ascii) : Prop :=
  exists w1 w2,
    Forall (fun c => is_ws c = true) w1 /\ Forall (fun c => is_ws c = true) w2
    /\ (sep = w1 \/ sep = w1 ++ COMMA :: w2).

Lemma cut_tail_inert sep :
  cut_tail sep -> Forall (fun c => is_ws c = true \/ c = COMMA) sep.
Proof.
  intros (w1 & w2 & H1 & H2 & [-> | ->]).
  - eapply Forall_impl; [|exact H1]. auto.
  - apply Forall_app. split; [eapply Forall_impl; [|exact H1]; auto|].
    constructor; [now right|]. eapply Forall_impl; [|exact H2]. auto.
Qed.

(** X29.  A JSON text cut right after a complete value, or after the
    comma that follows one (whitespace anywhere around), is repaired by
    dropping that comma and closing what is open.  If [u] is accepted by the
    JSON grammar up to its end, a value has just ended there and the nesting
    never exceeds min(max(max_depth,1),256), then for input [u] followed by
    such a tail the output is [u] without its leading and trailing
    whitespace followed by one closing bracket per open container, innermost
    first, and it is valid JSON. *)
Theorem repair_closes_open_containers :
  forall (u sep output : list ascii) (output_capacity : nat) (max_depth : Z)
         (m : mode) (stack : list frame),
    run initial u = Some (m, stack) ->
    value_ended m = true ->
    nesting u <= effective_max max_depth ->
    cut_tail sep ->
    length output = output_capacity ->
    length (u ++ sep) + effective_max max_depth + 2 <= output_capacity ->
    let '(ret, output') :=
      conduit_json_repair (u ++ sep) output output_capacity max_depth in
    ret = Z.of_nat (length (trim u) + length stack)
    /\ firstn (length (trim u) + length stack) output'
       = trim u ++ closers stack
    /\ valid (trim u ++ closers stack) = true.
Proof.
  intros u sep output cap md m stack Hrun Hend Hnest Hsep Hlen Hcap.
  pose proof (JsonRepairBounds.effective_max_range md) as Hem.
  rewrite length_app in Hcap.
  (* the text without its blank margins *)
  destruct (ltrim_split u) as (w0 & E0 & Hw0).
  destruct (rtrim_split (ltrim u)) as (wu & Es & Hwu & Ht).
  fold (trim u) in Es, Ht. set (t := trim u) in *.
  assert (Hrun_s : run initial (ltrim u) = Some (m, stack))
    by (now rewrite run_ltrim).
  pose proof Hrun_s as Hrun_t. rewrite Es, run_app in Hrun_t.
  destruct (run initial t) as [[mt st_t]|] eqn:Hrt; [|discriminate].
  destruct (trailing_ws_value_ended wu mt st_t m stack Hwu Hrun_t Hend)
    as (Hend_t & ->).
  destruct Ht as [Ht | (t' & cl & Et & Hcl)].
  { rewrite Ht in Hrt. cbn in Hrt. injection Hrt as <- <-. discriminate. }
  pose proof (ltrim_head u) as Hc0.
  destruct (ltrim u) as [|c0 rest] eqn:El.
  { destruct t'; rewrite Et in Es; discriminate. }
  (* depth and lengths *)
  assert (Hpeak_s : peak initial (c0 :: rest) <= effective_max md).
  { pose proof (peak_suffix w0 initial initial (c0 :: rest) (run_blank w0 Hw0))
      as P.
    rewrite <- E0 in P. unfold nesting in Hnest. lia. }
  assert (Hpeak_t : peak initial t <= effective_max md).
  { pose proof (peak_prefix t initial wu) as P. rewrite <- Es in P. lia. }
  assert (Hstack : length stack <= effective_max md).
  { pose proof (peak_suffix t initial (mt, stack) [] Hrt) as P.
    rewrite app_nil_r in P. cbn [peak snd] in P. lia. }
  assert (Hs_len : length (c0 :: rest) <= length u)
    by (rewrite E0, length_app; lia).
  assert (Hts : length t + length wu = length (c0 :: rest))
    by (rewrite Es, length_app; reflexivity).
  assert (Ht_pos : 0 < length t) by (rewrite Et, length_app; cbn; lia).
  (* validity of the closed text *)
  destruct (run_closers stack mt Hend_t) as (mf & Hrun_c & Hacc).
  assert (Hrun_tc : run initial (t ++ closers stack) = Some (mf, []))
    by (now rewrite run_app, Hrt).
  assert (Hvalid : valid (t ++ closers stack) = true)
    by (unfold valid; now rewrite Hrun_tc).
  unfold conduit_json_repair.
  destruct (Nat.ltb_spec cap 3) as [L|_]; [cbn in *; lia|].
  rewrite skip_leading_ws_ltrim, (ltrim_app u sep c0 rest El). cbn [app].
  destruct (Nat.leb_spec cap (effective_max md + 2)) as [L|_]; [cbn in *; lia|].
  set (full := c0 :: rest ++ sep).
  assert (Efs : full = (c0 :: rest) ++ sep) by reflexivity.
  assert (Hfull : full = t ++ wu ++ sep)
    by (rewrite Efs, Es, <- app_assoc; reflexivity).
  assert (Hfull_len : length full = length t + length wu + length sep)
    by (rewrite Hfull, !length_app; lia).
  clearbody full.
  (* first pass *)
  pose proof (copy_loop_spec (cap - (effective_max md + 2)) (effective_max md)
                full (mkpass false false [] 0 output)) as Hcopy.
  cbv zeta in Hcopy.
  set (st := copy_loop full _ _ _) in *.
  cbn [out JsonRepair.output in_string escape_next bracket_stack] in Hcopy.
  destruct Hcopy as (Hout & Hfirst & Hscan & Hlen'); [lia | lia |].
  rewrite Nat.add_0_l in Hout. simpl firstn in Hfirst at 2.
  rewrite app_nil_l in Hfirst.
  unfold initial in Hrun_s.
  pose proof (track_run_exact (effective_max md) (c0 :: rest) MValue [] m stack
                Hrun_s Hpeak_s) as Hk.
  rewrite (value_ended_flags m Hend) in Hk. cbn [fst snd flags_of mirror map] in Hk.
  rewrite Efs, scan_app, Hk, (scan_inert _ sep _ (cut_tail_inert sep Hsep))
    in Hscan.
  injection Hscan as Hin Hesc Hstk.
  rewrite Hin, Hstk, Hout.
  set (buf := JsonRepair.output st) in *.
  (* the text in the buffer *)
  assert (Hholds : holds buf (length full) full).
  { split; [|reflexivity]. now rewrite <- Hout. }
  assert (Hholds_tw : forall W rest',
            full = t ++ W ++ rest' -> holds buf (length t + length W) (t ++ W)).
  { intros W rest' E. rewrite E, app_assoc in Hholds.
    rewrite length_app in Hholds. rewrite <- length_app.
    eapply holds_prefix. exact Hholds. }
  assert (Hholds_t : holds buf (length t) t).
  { pose proof (Hholds_tw [] (wu ++ sep) Hfull) as H.
    now rewrite app_nil_r, Nat.add_0_r in H. }
  assert (Hholds_cl : holds buf (length t) (t' ++ [cl])) by (now rewrite <- Et).
  destruct (holds_last _ _ _ _ Hholds_cl) as (_ & Hlast).
  assert (Hstep : exists q, run initial t' = Some q /\ step q cl = Some (mt, stack)).
  { rewrite Et, run_app in Hrt.
    destruct (run initial t') as [q|]; [|discriminate].
    cbn [run] in Hrt. destruct (step q cl) as [q'|] eqn:E; [|discriminate].
    injection Hrt as ->. eauto. }
  destruct Hstep as ([mq sq] & Hq & Hstep).
  destruct (value_end_not_separator mq sq cl mt stack Hstep Hend_t)
    as (Hncomma & Hncolon).
  (* the tail fix-ups stop at the end of the last value *)
  assert (Hkvp : remove_incomplete_kvp buf (length t) = length t).
  { apply kvp_kept; try (rewrite Hlast; auto); auto.
    (* the text ends in a quote: the last value is a string *)
    intros ->.
    destruct (value_end_quote mq sq mt stack Hstep Hend_t) as (-> & <-).
    assert (El1 : length t = S (length t'))
      by (rewrite Et, length_app; cbn; lia).
    rewrite El1 in *.
    apply (string_value_kept buf t' stack); auto.
    - intros c r Ec. rewrite Et, Ec in Es. cbn [app] in Es.
      injection Es as <- _. exact Hc0.
    - pose proof (peak_prefix t' initial [QUOTE]) as P.
      rewrite <- Et in P. lia. }
  assert (Hchain :
    remove_incomplete_kvp buf
      (drop_comma buf (trim_trailing_whitespace buf (length full))) = length t).
  { destruct Hsep as (w1 & w2 & H1 & H2 & [E | E]).
    - (* whitespace only *)
      assert (Hw : Forall (fun c => is_ws c = true) (wu ++ sep))
        by (apply Forall_app; split; [exact Hwu | now rewrite E]).
      assert (Hh : holds buf (length t + length (wu ++ sep)) (t ++ wu ++ sep)).
      { apply (Hholds_tw (wu ++ sep) []). now rewrite app_nil_r. }
      replace (length full) with (length t + length (wu ++ sep))
        by (rewrite Hfull_len, length_app; lia).
      rewrite (trim_spec buf t (wu ++ sep) Hh Hw) by (right; eauto).
      rewrite drop_comma_kept by (rewrite Hlast; auto).
      exact Hkvp.
    - (* a comma among the whitespace *)
      set (W := wu ++ w1).
      assert (HW : Forall (fun c => is_ws c = true) W)
        by (apply Forall_app; split; assumption).
      assert (Efull2 : full = (t ++ W ++ [COMMA]) ++ w2).
      { rewrite Hfull, E. unfold W. now rewrite <- !app_assoc. }
      assert (Hh2 : holds buf (length (t ++ W ++ [COMMA]) + length w2)
                          ((t ++ W ++ [COMMA]) ++ w2)).
      { rewrite <- Efull2, <- length_app, <- Efull2. exact Hholds. }
      replace (length full) with (length (t ++ W ++ [COMMA]) + length w2)
        by (rewrite Efull2, !length_app; cbn; lia).
      rewrite (trim_spec buf (t ++ W ++ [COMMA]) w2 Hh2 H2).
      2:{ right. exists (t ++ W), COMMA. split; [now rewrite <- app_assoc|].
          reflexivity. }
      assert (Hlc : length (t ++ W ++ [COMMA]) = S (length t + length W))
        by (rewrite !length_app; cbn; lia).
      assert (Hgc : get buf (length t + length W) = COMMA).
      { rewrite (holds_get _ _ _ (length t + length W) Hholds)
          by (rewrite Efull2, length_app; lia).
        rewrite Efull2, <- !app_assoc, app_assoc. unfold get.
        now rewrite app_nth2, length_app, Nat.sub_diag by (rewrite length_app; lia). }
      unfold drop_comma. rewrite Hlc. cbn [Nat.ltb Nat.leb Nat.sub].
      rewrite Nat.sub_0_r, Hgc, Ascii.eqb_refl. cbn [andb].
      apply kvp_kept_ws; [| exact HW | eauto | exact Hkvp].
      apply (Hholds_tw W (COMMA :: w2)).
      rewrite Efull2, <- !app_assoc. reflexivity. }
  rewrite Hchain.
  (* the closers *)
  pose proof (close_loop_closes cap stack buf (length t)
                t' cl Hholds_cl Hcl Hncomma) as Hclose.
  cbv zeta in Hclose.
  destruct (close_loop (mirror stack) cap (length t) buf) as [o_d buf_d].
  cbn [fst snd] in Hclose.
  destruct Hclose as (Hod & Hhd & Hld); [lia | lia |].
  replace (t' ++ cl :: closers stack) with (t ++ closers stack) in Hhd
    by (rewrite Et, <- app_assoc; reflexivity).
  subst o_d.
  (* the comma pass *)
  set (n := length t + length stack) in *.
  pose proof (rtc_loop_spec n cap n 0 0 false false (store buf_d n NUL)) as Hrtc.
  cbv zeta in Hrtc. rewrite store_length in Hrtc.
  unfold remove_trailing_commas.
  destruct (remove_trailing_commas_loop _ _ _ _ _ _ _ _) as [final_len out_e].
  cbn [fst snd] in Hrtc.
  destruct Hrtc as (Hf & Hfl); try (subst n; lia).
  simpl skipn in Hf, Hfl. simpl firstn in Hf at 2. simpl firstn in Hfl at 1.
  rewrite app_nil_l in Hf, Hfl.
  destruct (holds_store_above _ _ _ n NUL Hhd (Nat.le_refl _)) as (Hst & _).
  rewrite Hst in Hf, Hfl.
  pose proof (strip_commas_valid (t ++ closers stack) MValue [] (mf, [])
                Hrun_tc) as Hsc.
  cbn [fst snd flags_of] in Hsc. rewrite Hsc in Hf, Hfl.
  assert (Efl : final_len = n).
  { rewrite <- Hfl, length_app. unfold closers. rewrite length_map. reflexivity. }
  clear Hfl. subst final_len. split; [reflexivity|]. split; [|exact Hvalid].
  rewrite firstn_store_below by lia. exact Hf.
Qed.

Lemma repair_closes_open_containers_witness :
  let u := json " {'a': [1, {'b': 'c,'" in
  let sep := json "  , " in
  let stack := [FObject; FArray; FObject] in
  run initial u = Some (MAfter, stack)
  /\ value_ended MAfter = true
  /\ nesting u <= effective_max 16
  /\ cut_tail sep
  /\ length (repeat NUL 64) = 64
  /\ length (u ++ sep) + effective_max 16 + 2 <= 64
  /\ (let '(ret, output') :=
        conduit_json_repair (u ++ sep) (repeat NUL 64) 64 16 in
      ret = Z.of_nat (length (trim u) + length stack)
      /\ firstn (length (trim u) + length stack) output'
         = trim u ++ closers stack
      /\ valid (trim u ++ closers stack) = true)
  /\ trim u ++ closers stack = json "{'a': [1, {'b': 'c,'}]}".
Proof.
  intros u sep stack.
  assert (H1 : run initial u = Some (MAfter, stack)) by reflexivity.
  assert (H2 : value_ended MAfter = true) by reflexivity.
  assert (H3 : nesting u <= effective_max 16) by (vm_compute; lia).
  assert (H4 : cut_tail sep).
  { exists [SP; SP], [SP]. split; [repeat constructor|].
    split; [repeat constructor|]. right. reflexivity. }
  assert (H5 : length (repeat NUL 64) = 64) by reflexivity.
  assert (H6 : length (u ++ sep) + effective_max 16 + 2 <= 64)
    by (vm_compute; lia).
  split; [exact H1|]. split; [exact H2|]. split; [exact H3|].
  split; [exact H4|]. split; [exact H5|]. split; [exact H6|].
  split; [|reflexivity].
  exact (repair_closes_open_containers u sep (repeat NUL 64) 64 16 MAfter stack
           H1 H2 H3 H4 H5 H6).
Defined.

(** *** A cut inside a string value *)

Lemma last_backslash_none buf : forall n i pos,
  (forall j, i <= j < i + n -> get buf j <> BACKSLASH) ->
  last_backslash buf i n pos = pos.
Proof.
  induction n as [|n IH]; intros i pos H; cbn [last_backslash]; [reflexivity|].
  destruct (Ascii.eqb_spec (get buf i) BACKSLASH) as [E|_].
  - exfalso. apply (H i); [lia | exact E].
  - apply IH. intros j Hj. apply H. lia.
Qed.

Lemma no_backslash_no_escape buf len :
  (forall j, len - 6 <= j < len -> get buf j <> BACKSLASH) ->
  remove_partial_unicode_escape buf len = len.
Proof.
  intros H. unfold remove_partial_unicode_escape.
  destruct (len <? 2); [reflexivity|].
  rewrite last_backslash_none.
  - now rewrite Nat.leb_refl.
  - intros j Hj. apply H. destruct (Nat.ltb_spec 6 len); lia.
Qed.

Lemma forall_skipn_get (P : ascii -> Prop) l k j :
  Forall P (skipn k l) -> k <= j < length l -> P (get l j).
Proof.
  intros H Hj. rewrite Forall_forall in H. apply H.
  unfold get. replace j with (k + (j - k)) by lia.
  rewrite <- nth_skipn. apply nth_In. rewrite length_skipn. lia.
Qed.

(** X30.  A JSON text cut inside a string value is repaired by closing
    the string and then what is open around it, provided none of the last
    six bytes is a backslash: if the input is accepted by the JSON grammar up
    to its end, ends inside a string that is a value, and nests no deeper
    than min(max(max_depth,1),256), then the output is the input without its
    leading whitespace, a closing quote and one closing bracket per open
    container, and it is valid JSON. *)
Theorem repair_closes_open_string :
  forall (u output : list ascii) (output_capacity : nat) (max_depth : Z)
         (stack : list frame),
    run initial u = Some (MStr false, stack) ->
    nesting u <= effective_max max_depth ->
    Forall (fun c => c <> BACKSLASH) (skipn (length u - 6) u) ->
    length output = output_capacity ->
    length u + effective_max max_depth + 2 <= output_capacity ->
    let '(ret, output') :=
      conduit_json_repair u output output_capacity max_depth in
    let text := ltrim u ++ QUOTE :: closers stack in
    ret = Z.of_nat (length text)
    /\ firstn (length text) output' = text
    /\ valid text = true.
Proof.
  intros u output cap md stack Hrun Hnest Hnb Hlen Hcap.
  pose proof (JsonRepairBounds.effective_max_range md) as Hem.
  destruct (ltrim_split u) as (w0 & E0 & Hw0).
  set (s := ltrim u) in *.
  assert (Hrun_s : run initial s = Some (MStr false, stack))
    by (unfold s; now rewrite run_ltrim).
  pose proof (ltrim_head u) as Hc0. fold s in Hc0.
  assert (Hs_len : length u = length w0 + length s)
    by (rewrite E0 at 1; apply length_app).
  assert (Hpeak_s : peak initial s <= effective_max md).
  { pose proof (peak_suffix w0 initial initial s (run_blank w0 Hw0)) as P.
    rewrite <- E0 in P. unfold nesting in Hnest. lia. }
  assert (Hstack : length stack <= effective_max md).
  { pose proof (peak_suffix s initial (MStr false, stack) [] Hrun_s) as P.
    rewrite app_nil_r in P. cbn [peak snd] in P. lia. }
  (* validity of the closed text *)
  destruct (run_closers stack MAfter eq_refl) as (mf & Hrun_c & Hacc).
  assert (Hrun_tc : run initial (s ++ QUOTE :: closers stack) = Some (mf, [])).
  { rewrite run_app, Hrun_s. cbn [run]. exact Hrun_c. }
  assert (Hvalid : valid (s ++ QUOTE :: closers stack) = true)
    by (unfold valid; now rewrite Hrun_tc).
  assert (Htext_len : length (s ++ QUOTE :: closers stack)
                      = S (length s) + length stack).
  { rewrite length_app. cbn [length]. unfold closers. rewrite length_map. lia. }
  cbv zeta. rewrite Htext_len.
  unfold conduit_json_repair.
  destruct (Nat.ltb_spec cap 3) as [L|_]; [lia|].
  rewrite skip_leading_ws_ltrim. fold s.
  destruct s as [|c0 rest] eqn:Es; [discriminate|]. rewrite <- Es in *.
  assert (Hs_pos : 0 < length s) by (rewrite Es; cbn; lia).
  destruct (Nat.leb_spec cap (effective_max md + 2)) as [L|_]; [lia|].
  assert (Hhead : forall c r, s = c :: r -> is_ws c = false).
  { intros c r E. rewrite Es in E. injection E as <- _. exact Hc0. }
  clear Hc0 Es c0 rest.
  (* first pass *)
  pose proof (copy_loop_spec (cap - (effective_max md + 2)) (effective_max md)
                s (mkpass false false [] 0 output)) as Hcopy.
  cbv zeta in Hcopy.
  set (st := copy_loop s _ _ _) in *.
  cbn [out JsonRepair.output in_string escape_next bracket_stack] in Hcopy.
  destruct Hcopy as (Hout & Hfirst & Hscan & Hlen'); [lia | lia |].
  rewrite Nat.add_0_l in Hout. simpl firstn in Hfirst at 2.
  rewrite app_nil_l in Hfirst.
  unfold initial in Hrun_s.
  pose proof (track_run_exact (effective_max md) s MValue [] (MStr false) stack
                Hrun_s Hpeak_s) as Hk.
  cbn [fst snd flags_of mirror map] in Hk.
  rewrite Hk in Hscan. injection Hscan as Hin Hesc Hstk.
  rewrite Hin, Hesc, Hstk, Hout.
  set (buf := JsonRepair.output st) in *.
  assert (Hholds : holds buf (length s) s).
  { split; [|reflexivity]. now rewrite <- Hout. }
  (* closing the string *)
  rewrite no_backslash_no_escape.
  2:{ intros j Hj. rewrite (holds_get _ _ _ j Hholds) by lia.
      replace (get s j) with (get u (length w0 + j)).
      - apply (forall_skipn_get (fun c => c <> BACKSLASH) u (length u - 6));
          [exact Hnb | lia].
      - rewrite E0. unfold get. rewrite app_nth2 by lia. f_equal. lia. }
  cbn [andb]. destruct (Nat.ltb_spec (length s) (cap - 1)); [|lia].
  set (buf1 := store buf (length s) QUOTE).
  assert (Hh1 : holds buf1 (S (length s)) (s ++ [QUOTE])).
  { apply holds_snoc; [exact Hholds | lia]. }
  destruct (holds_last _ _ _ _ Hh1) as (_ & Hlast).
  cbn [Nat.sub] in Hlast. rewrite Nat.sub_0_r in Hlast.
  assert (Hl1 : length buf1 = cap)
    by (unfold buf1; rewrite store_length; lia).
  (* tail fix-ups *)
  rewrite trim_stops
    by (try lia; cbn [Nat.sub]; rewrite Nat.sub_0_r, Hlast; reflexivity).
  rewrite drop_comma_kept
    by (cbn [Nat.sub]; rewrite Nat.sub_0_r, Hlast; discriminate).
  rewrite kvp_kept; try lia;
    try (cbn [Nat.sub]; rewrite Nat.sub_0_r, Hlast;
         first [reflexivity | discriminate]).
  2:{ intros _. apply (string_value_kept buf1 s stack); auto. lia. }
  (* the closers *)
  pose proof (close_loop_closes cap stack buf1 (S (length s))
                s QUOTE Hh1 eq_refl) as Hclose.
  cbv zeta in Hclose.
  destruct (close_loop (mirror stack) cap (S (length s)) buf1) as [o_d buf_d].
  cbn [fst snd] in Hclose.
  destruct Hclose as (Hod & Hhd & Hld); [discriminate | lia | lia |].
  subst o_d.
  (* the comma pass *)
  set (n := S (length s) + length stack) in *.
  pose proof (rtc_loop_spec n cap n 0 0 false false (store buf_d n NUL)) as Hrtc.
  cbv zeta in Hrtc. rewrite store_length in Hrtc.
  unfold remove_trailing_commas.
  destruct (remove_trailing_commas_loop _ _ _ _ _ _ _ _) as [final_len out_e].
  cbn [fst snd] in Hrtc.
  destruct Hrtc as (Hf & Hfl); try (subst n; lia).
  simpl skipn in Hf, Hfl. simpl firstn in Hf at 2. simpl firstn in Hfl at 1.
  rewrite app_nil_l in Hf, Hfl.
  destruct (holds_store_above _ _ _ n NUL Hhd (Nat.le_refl _)) as (Hst & _).
  rewrite Hst in Hf, Hfl.
  pose proof (strip_commas_valid (s ++ QUOTE :: closers stack) MValue []
                (mf, []) Hrun_tc) as Hsc.
  cbn [fst snd flags_of] in Hsc. rewrite Hsc in Hf, Hfl.
  assert (Efl : final_len = n) by (rewrite <- Hfl; exact Htext_len).
  clear Hfl. subst final_len. split; [reflexivity|]. split; [|exact Hvalid].
  rewrite firstn_store_below by lia. exact Hf.
Qed.

Lemma repair_closes_open_string_witness :
  let u := json " {'a': [1, 'x, y " in
  let stack := [FArray; FObject] in
  run initial u = Some (MStr false, stack)
  /\ nesting u <= effective_max 16
  /\ Forall (fun c => c <> BACKSLASH) (skipn (length u - 6) u)
  /\ length (repeat NUL 64) = 64
  /\ length u + effective_max 16 + 2 <= 64
  /\ (let '(ret, output') := conduit_json_repair u (repeat NUL 64) 64 16 in
      let text := ltrim u ++ QUOTE :: closers stack in
      ret = Z.of_nat (length text)
      /\ firstn (length text) output' = text
      /\ valid text = true)
  /\ ltrim u ++ QUOTE :: closers stack = json "{'a': [1, 'x, y ']}".
Proof.
  intros u stack.
  assert (H1 : run initial u = Some (MStr false, stack)) by reflexivity.
  assert (H2 : nesting u <= effective_max 16) by (vm_compute; lia).
  assert (H3 : Forall (fun c => c <> BACKSLASH) (skipn (length u - 6) u))
    by (repeat constructor; discriminate).
  assert (H4 : length (repeat NUL 64) = 64) by reflexivity.
  assert (H5 : length u + effective_max 16 + 2 <= 64) by (vm_compute; lia).
  split; [exact H1|]. split; [exact H2|]. split; [exact H3|].
  split; [exact H4|]. split; [exact H5|]. split; [|reflexivity].
  exact (repair_closes_open_string u (repeat NUL 64) 64 16 stack
           H1 H2 H3 H4 H5).
Defined.

End JsonRepairClosing.

(* ------------------------------------------------------------------ *)
(** ** JSON completer *)

Module JsonCompleterFacts.
Import Bytes BytesFacts JsonCompleter.
Import JsonRepair (QUOTE, BACKSLASH, COMMA, COLON, LBRACE, RBRACE,
                   LBRACKET, RBRACKET, json).

(** *** The scanning loops stay inside the input *)

Lemma skip_ws_loop_bounds json : forall n pos,
  pos <= skip_ws_loop json pos n <= pos + n.
Proof.
  induction n as [|n IH]; intros pos; simpl; [lia|].
  destruct (is_ws _); [|lia]. specialize (IH (S pos)). lia.
Qed.

Lemma skip_ws_bounds json len pos :
  pos <= len -> pos <= skip_ws json len pos <= len.
Proof.
  intros H. unfold skip_ws.
  pose proof (skip_ws_loop_bounds json (len - pos) pos). lia.
Qed.

Lemma skip_digits_bounds json : forall n cur,
  cur <= skip_digits json cur n <= cur + n.
Proof.
  induction n as [|n IH]; intros cur; simpl; [lia|].
  destruct (is_digit _); [|lia]. specialize (IH (S cur)). lia.
Qed.

Lemma digits_bounds json len cur :
  cur <= len -> cur <= digits json len cur <= len.
Proof.
  intros H. unfold digits.
  pose proof (skip_digits_bounds json (len - cur) cur). lia.
Qed.

Lemma skip_number_chars_bounds json : forall n cur,
  cur <= skip_number_chars json cur n <= cur + n.
Proof.
  induction n as [|n IH]; intros cur; simpl; [lia|].
  destruct (is_number_char _); [|lia]. specialize (IH (S cur)). lia.
Qed.

Lemma string_scan_bounds json : forall n cur escaped q,
  string_scan json cur n escaped = Some q -> cur <= q < cur + n.
Proof.
  induction n as [|n IH]; intros cur escaped q; simpl; [discriminate|].
  destruct (Ascii.eqb _ BACKSLASH).
  - intros H. apply IH in H. lia.
  - destruct (_ && _).
    + intros [= <-]. lia.
    + intros H. apply IH in H. lia.
Qed.

Lemma bracket_scan_bounds json open close : forall n cur level in_str esc,
  cur <= bracket_scan json open close cur n level in_str esc <= cur + n.
Proof.
  induction n as [|n IH]; intros cur level in_str esc; simpl; [lia|].
  assert (St : forall level in_str esc,
             cur <= bracket_scan json open close (S cur) n level in_str esc
             <= cur + S n).
  { intros l' i' e'. specialize (IH (S cur) l' i' e'). lia. }
  destruct in_str.
  - destruct (Ascii.eqb _ BACKSLASH); auto. destruct (_ && _); auto.
  - destruct (Ascii.eqb _ QUOTE); auto.
    destruct (Ascii.eqb _ open); auto.
    destruct (Ascii.eqb _ close); auto.
    destruct (_ =? 0)%Z; auto. lia.
Qed.

Lemma special_loop_bounds json len : forall value cur cur' rest,
  cur <= len ->
  special_loop json len cur value = Some (cur', rest) ->
  cur <= cur' <= len /\ length rest <= length value.
Proof.
  induction value as [|v value IH]; intros cur cur' rest Hc; simpl.
  - intros [= <- <-]. simpl. lia.
  - destruct (Nat.ltb_spec cur len) as [L|L].
    + destruct (Ascii.eqb _ v); [|discriminate].
      intros E. apply IH in E; [|lia]. lia.
    + intros [= <- <-]. simpl. lia.
Qed.

(** *** Well-placed completions *)

(** A reported completion applies at an offset between [lo] and the end
    of the input and has a non-empty suffix that fits [suffix_buf]. *)
Definition placed (len lo : nat) (c : completion) : Prop :=
  found c = true ->
  lo <= end_offset c <= len /\ 0 < suffix_len c < suffix_buf_size.

Lemma placed_r0 len lo : placed len lo r0.
Proof. unfold placed; simpl; discriminate. Qed.

Lemma placed_weaken len lo lo' c : lo' <= lo -> placed len lo c -> placed len lo' c.
Proof. unfold placed. intros H P F. specialize (P F). lia. Qed.

Lemma placed_found len lo s eo :
  lo <= eo <= len -> 0 < length s < suffix_buf_size ->
  placed len lo (found_literal s eo).
Proof. unfold placed; simpl; auto. Qed.

Lemma composite_placed returned len lo elem tail fallback :
  lo <= end_offset elem <= len ->
  0 < length tail -> 0 < length fallback < suffix_buf_size ->
  placed len lo (composite returned elem tail fallback).
Proof.
  unfold composite, placed. intros He Ht Hf.
  destruct (Nat.ltb_spec (suffix_len elem + length tail) suffix_buf_size);
    cbn [found end_offset suffix_len]; intros _; split; auto; lia.
Qed.

Lemma peek_length buf n : length (peek buf n) = n.
Proof. unfold peek. now rewrite length_map, length_seq. Qed.

Lemma peek_all buf : peek buf (length buf) = buf.
Proof.
  unfold peek. apply nth_ext with (d := NUL) (d' := NUL).
  - now rewrite length_map, length_seq.
  - intros i Hi. rewrite length_map, length_seq in Hi.
    rewrite (nth_indep _ NUL (get buf 0))
      by (rewrite length_map, length_seq; exact Hi).
    rewrite map_nth, seq_nth by exact Hi. reflexivity.
Qed.

Lemma suffix_bytes_length returned c : length (suffix_bytes returned c) = suffix_len c.
Proof. apply peek_length. Qed.

Lemma suffix_bytes_literal returned s eo :
  suffix_bytes returned (found_literal s eo) = s.
Proof. apply peek_all. Qed.

Lemma complete_string_placed json len pos :
  pos <= len -> placed len pos (complete_string json len pos).
Proof.
  intros H. unfold complete_string.
  destruct (Nat.leb_spec len pos); simpl; [apply placed_r0|].
  destruct (negb _); [apply placed_r0|].
  destruct (string_scan _ _ _ _); [apply placed_r0|].
  apply placed_found; [lia | unfold suffix_buf_size; simpl; lia].
Qed.

Lemma complete_special_placed json len pos value :
  pos <= len -> length value < suffix_buf_size ->
  placed len pos (complete_special json len pos value).
Proof.
  intros H Hv. unfold complete_special.
  destruct (special_loop json len pos value) as [[cur rest]|] eqn:E;
    [|apply placed_r0].
  apply special_loop_bounds in E; auto.
  destruct rest; [apply placed_r0|].
  apply placed_found; simpl in *; lia.
Qed.

Ltac found_here :=
  apply placed_found; [lia | unfold suffix_buf_size; simpl; lia].

Lemma complete_number_placed json len pos :
  pos <= len -> placed len pos (complete_number json len pos).
Proof.
  intros H. unfold complete_number. cbv zeta.
  set (c1 := if (pos <? len) && _ then pos + 1 else pos).
  assert (H1 : pos <= c1 <= len).
  { subst c1. destruct (Nat.ltb_spec pos len); simpl; [|lia].
    destruct (Ascii.eqb _ _); lia. }
  destruct (Nat.leb_spec len c1); [found_here|].
  destruct (Ascii.eqb _ "."%char); [found_here|].
  pose proof (digits_bounds json len c1 (proj2 H1)) as H2.
  set (c2 := digits json len c1) in *.
  set (frac := if (c2 <? len) && _ then _ else inr c2).
  assert (Hf : match frac with
               | inl r => placed len pos r
               | inr c3 => pos <= c3 <= len
               end).
  { subst frac. destruct (Nat.ltb_spec c2 len); simpl; [|lia].
    destruct (Ascii.eqb _ "."%char); [|lia].
    pose proof (digits_bounds json len (c2 + 1)) as Hd.
    destruct (Nat.eqb_spec (digits json len (c2 + 1)) (c2 + 1)).
    - found_here.
    - lia. }
  destruct frac as [r|c3]; auto.
  destruct (Nat.ltb_spec c3 len); cbn [andb]; [|apply placed_r0].
  destruct (Ascii.eqb (get json c3) "e"%char || Ascii.eqb (get json c3) "E"%char);
    [|apply placed_r0].
  set (c4 := if (c3 + 1 <? len) && _ then c3 + 1 + 1 else c3 + 1).
  assert (H4 : c3 + 1 <= c4 <= len).
  { subst c4. destruct (Nat.ltb_spec (c3 + 1) len); cbn [andb]; [|lia].
    destruct (_ || _); lia. }
  destruct ((len <=? c4) || negb (is_digit (get json c4)));
    [found_here | apply placed_r0].
Qed.

(** *** How the recursion ends *)

(** A call either returns a well-placed completion or, where [allow]
    admits it, finds the stack exhausted; the loop bounds of the model
    never run out. *)
Definition ends (allow : Prop) (len lo : nat) (o : outcome completion) : Prop :=
  match o with
  | Returned c => placed len lo c
  | StackOverflow => allow
  | OutOfSteps => False
  end.

Section Loops.

Variable returned : list ascii -> list ascii.
Variables (json : list ascii) (len : nat).
Variable rec : nat -> Z -> outcome completion.
Variable lo : nat.
Variable allow : Prop.

(** The recursive calls, all strictly right of [lo]. *)
Hypothesis rec_ok : forall cur depth,
  lo < cur -> cur < len -> ends allow len cur (rec cur depth).

Lemma matches_bound pos word :
  matches json len pos word = true -> pos + length word <= len.
Proof.
  unfold matches. intros H. apply andb_true_iff in H. destruct H as (H & _).
  now apply Nat.leb_le in H.
Qed.

Lemma find_end_ok pos :
  lo < pos -> pos <= len ->
  match find_end_of_complete_value json len rec pos with
  | Returned e => pos <= e <= len
  | StackOverflow => allow
  | OutOfSteps => False
  end.
Proof.
  intros Hlo Hpos. unfold find_end_of_complete_value. cbv zeta.
  pose proof (skip_ws_bounds json len pos Hpos) as Hws.
  set (p := skip_ws json len pos) in *.
  destruct (Nat.leb_spec len p) as [L|L]; [lia|].
  pose proof (rec_ok p 0%Z ltac:(lia) L) as Hc.
  destruct (rec p 0%Z) as [c| |]; [|exact Hc|exact Hc]. cbn [ends] in Hc.
  destruct (found c) eqn:Hf.
  { destruct (Hc Hf) as (H1 & _). lia. }
  destruct (Ascii.eqb _ QUOTE).
  { destruct (string_scan _ _ _ _) as [q|] eqn:E.
    - apply string_scan_bounds in E. lia.
    - lia. }
  destruct (_ || _).
  { pose proof (bracket_scan_bounds json (get json p)
                  (if Ascii.eqb (get json p) LBRACE then RBRACE else RBRACKET)
                  (len - p) p 0%Z false false). lia. }
  destruct (Ascii.eqb _ "t"%char).
  { destruct (matches _ _ _ _) eqn:E; try lia.
    apply matches_bound in E. simpl in E. lia. }
  destruct (Ascii.eqb _ "f"%char).
  { destruct (matches _ _ _ _) eqn:E; try lia.
    apply matches_bound in E. simpl in E. lia. }
  destruct (Ascii.eqb _ "n"%char).
  { destruct (matches _ _ _ _) eqn:E; try lia.
    apply matches_bound in E. simpl in E. lia. }
  destruct (_ || _).
  { pose proof (skip_number_chars_bounds json (len - p) p). lia. }
  lia.
Qed.

(** What one pass through the comma block leaves. *)
Lemma comma_step_cases closer cur rc lv :
  cur < len ->
  match comma_step json len closer cur rc lv with
  | Return r => r = found_literal [closer] lv
  | Break => True
  | Continue cur' lv' =>
      cur' < len
      /\ ((rc = true /\ cur < cur' /\ lv' = cur')
          \/ (rc = false /\ cur' = cur /\ lv' = lv))
  end.
Proof.
  intros Hc. unfold comma_step. destruct rc.
  - destruct (Ascii.eqb _ COMMA); auto. cbv zeta.
    pose proof (skip_ws_bounds json len (cur + 1)) as H.
    destruct (Nat.leb_spec len (skip_ws json len (cur + 1))); auto.
    split; auto. left. repeat split. lia.
  - split; auto.
Qed.

Lemma closing_placed closer lv :
  lo < lv <= len -> placed len (S lo) (found_literal [closer] lv).
Proof. intros H. found_here. Qed.

Lemma array_loop_ok : forall n depth cur (rc : bool) lv,
  lo < cur -> lo < lv <= len ->
  2 * (len - cur) + (if rc then 0 else 1) < n ->
  ends allow len (S lo) (array_loop returned json len rec n depth cur rc lv).
Proof.
  induction n as [|n IH]; intros depth cur rc lv Hcur Hlv Hn; [lia|].
  cbn [array_loop]. cbv zeta.
  destruct (Nat.ltb_spec cur len) as [L|L]; cbn [negb];
    [|now apply closing_placed].
  destruct (Ascii.eqb _ RBRACKET); [apply placed_r0|].
  pose proof (comma_step_cases RBRACKET cur rc lv L) as Hcs.
  destruct (comma_step json len RBRACKET cur rc lv) as [r | | cur' lv'].
  - subst r. now apply closing_placed.
  - now apply closing_placed.
  - destruct Hcs as (L' & Hcs).
    assert (Hlv' : lo < lv' <= len) by (destruct Hcs as [(_ & ? & ->) | (_ & -> & ->)]; lia).
    assert (Hcur' : cur <= cur') by (destruct Hcs as [(_ & ? & _) | (_ & -> & _)]; lia).
    destruct (Nat.leb_spec len cur'); [lia|].
    destruct (Ascii.eqb _ RBRACKET); [apply placed_r0|].
    pose proof (rec_ok cur' (depth + 1)%Z ltac:(lia) L') as He.
    destruct (rec cur' (depth + 1)%Z) as [elem| |]; [|exact He|exact He].
    cbn [ends] in He.
    destruct (found elem) eqn:Hf.
    { destruct (He Hf) as (H1 & H2).
      apply composite_placed; [lia | | unfold suffix_buf_size]; simpl; lia. }
    pose proof (find_end_ok cur' ltac:(lia) ltac:(lia)) as Hb.
    destruct (find_end_of_complete_value json len rec cur') as [e| |];
      [|exact Hb|exact Hb].
    apply IH; try lia.
    destruct Hcs as [(-> & ? & _) | (-> & -> & _)]; lia.
Qed.

Lemma complete_array_ok pos depth :
  lo = pos -> pos < len ->
  ends allow len pos (complete_array returned json len rec pos depth).
Proof.
  intros <- Hpos. unfold complete_array.
  destruct (_ || _); [apply placed_r0|]. cbv zeta.
  pose proof (skip_ws_bounds json len (lo + 1)) as Hws.
  destruct (_ || _); [found_here|].
  assert (Hc : ends allow len (S lo)
                 (array_loop returned json len rec (2 * len + 2) depth
                    (skip_ws json len (lo + 1)) false (lo + 1)))
    by (apply array_loop_ok; lia).
  destruct (array_loop _ _ _ _ _ _ _ _ _) as [c| |]; [|exact Hc|exact Hc].
  cbn [ends] in *. eapply placed_weaken; [|exact Hc]. lia.
Qed.

Lemma object_loop_ok : forall n depth cur (rc : bool) lv,
  lo < cur -> lo < lv <= len ->
  2 * (len - cur) + (if rc then 0 else 1) < n ->
  ends allow len (S lo) (object_loop returned json len rec n depth cur rc lv).
Proof.
  induction n as [|n IH]; intros depth cur rc lv Hcur Hlv Hn; [lia|].
  cbn [object_loop]. cbv zeta.
  destruct (Nat.ltb_spec cur len) as [L|L]; cbn [negb];
    [|now apply closing_placed].
  destruct (Ascii.eqb _ RBRACE); [apply placed_r0|].
  pose proof (comma_step_cases RBRACE cur rc lv L) as Hcs.
  destruct (comma_step json len RBRACE cur rc lv) as [r | | cur' lv'].
  - subst r. now apply closing_placed.
  - now apply closing_placed.
  - destruct Hcs as (L' & Hcs).
    assert (Hlv' : lo < lv' <= len) by (destruct Hcs as [(_ & ? & ->) | (_ & -> & ->)]; lia).
    assert (Hcur' : cur <= cur') by (destruct Hcs as [(_ & ? & _) | (_ & -> & _)]; lia).
    destruct (Nat.leb_spec len cur'); [lia|].
    destruct (Ascii.eqb _ RBRACE); [apply placed_r0|].
    (* key *)
    pose proof (complete_string_placed json len cur') as Hk.
    destruct (found (complete_string json len cur')) eqn:Hfk.
    { destruct (Hk ltac:(lia) Hfk) as (H1 & H2).
      apply composite_placed; [lia | | unfold suffix_buf_size]; simpl; lia. }
    pose proof (find_end_ok cur' ltac:(lia) ltac:(lia)) as Hke.
    destruct (find_end_of_complete_value json len rec cur') as [key_end| |];
      [|exact Hke|exact Hke].
    destruct (Nat.leb_spec key_end cur'); [now apply closing_placed|].
    (* colon *)
    pose proof (skip_ws_bounds json len key_end) as Hc1.
    set (c1 := skip_ws json len key_end) in *.
    destruct ((len <=? c1) || negb (Ascii.eqb (get json c1) COLON)) eqn:Hcolon.
    { found_here. }
    apply orb_false_iff in Hcolon. destruct Hcolon as (Hc1' & _).
    apply Nat.leb_gt in Hc1'.
    (* value *)
    pose proof (skip_ws_bounds json len (c1 + 1)) as Hc2.
    set (c2 := skip_ws json len (c1 + 1)) in *.
    destruct (Nat.leb_spec len c2); [found_here|].
    pose proof (rec_ok c2 (depth + 1)%Z ltac:(lia) ltac:(lia)) as Hv.
    destruct (rec c2 (depth + 1)%Z) as [val_comp| |]; [|exact Hv|exact Hv].
    cbn [ends] in Hv.
    destruct (found val_comp) eqn:Hfv.
    { destruct (Hv Hfv) as (V1 & V2).
      apply composite_placed; [lia | | unfold suffix_buf_size]; simpl; lia. }
    pose proof (find_end_ok c2 ltac:(lia) ltac:(lia)) as Hve.
    destruct (find_end_of_complete_value json len rec c2) as [val_end| |];
      [|exact Hve|exact Hve].
    apply IH; try lia.
Qed.

Lemma complete_object_ok pos depth :
  lo = pos -> pos < len ->
  ends allow len pos (complete_object returned json len rec pos depth).
Proof.
  intros <- Hpos. unfold complete_object.
  destruct (_ || _); [apply placed_r0|]. cbv zeta.
  pose proof (skip_ws_bounds json len (lo + 1)) as Hws.
  destruct (_ || _); [found_here|].
  assert (Hc : ends allow len (S lo)
                 (object_loop returned json len rec (2 * len + 2) depth
                    (skip_ws json len (lo + 1)) false (lo + 1)))
    by (apply object_loop_ok; lia).
  destruct (object_loop _ _ _ _ _ _ _ _ _) as [c| |]; [|exact Hc|exact Hc].
  cbn [ends] in *. eapply placed_weaken; [|exact Hc]. lia.
Qed.

End Loops.

(** A call of [complete_value] returns a well-placed completion unless the
    stack runs out, which it does not when it holds one activation per
    byte to the right of [pos]. *)
Lemma complete_value_ends returned (allow : Prop) json len max_depth :
  forall stack pos depth,
    pos <= len -> allow \/ len - pos < stack ->
    ends allow len pos (complete_value returned stack json len max_depth pos depth).
Proof.
  induction stack as [|stack IH]; intros pos depth Hpos Hstack.
  { cbn [complete_value ends]. destruct Hstack as [H | H]; [exact H | lia]. }
  cbn [complete_value]. cbv zeta.
  destruct (max_depth <=? depth)%Z; [apply placed_r0|].
  pose proof (skip_ws_bounds json len pos Hpos) as Hws.
  set (p := skip_ws json len pos) in *.
  destruct (Nat.leb_spec len p) as [L|L]; [apply placed_r0|].
  assert (Hrec : forall cur d, p < cur -> cur < len ->
            ends allow len cur
                 (complete_value returned stack json len max_depth cur d)).
  { intros cur d H1 H2. apply IH; [lia|].
    destruct Hstack as [H | H]; [now left | right; lia]. }
  assert (W : forall c, placed len p c -> placed len pos c)
    by (intros c; apply placed_weaken; lia).
  destruct (Ascii.eqb _ LBRACE).
  { pose proof (complete_object_ok returned json len _ p allow Hrec p depth
                  eq_refl L) as Hc.
    destruct (complete_object _ _ _ _ _ _) as [c| |]; [|exact Hc|exact Hc].
    apply W, Hc. }
  destruct (Ascii.eqb _ LBRACKET).
  { pose proof (complete_array_ok returned json len _ p allow Hrec p depth
                  eq_refl L) as Hc.
    destruct (complete_array _ _ _ _ _ _) as [c| |]; [|exact Hc|exact Hc].
    apply W, Hc. }
  destruct (Ascii.eqb _ QUOTE).
  { apply W, complete_string_placed; lia. }
  destruct (Ascii.eqb _ "t"%char).
  { apply W, complete_special_placed; [lia | unfold suffix_buf_size; simpl; lia]. }
  destruct (Ascii.eqb _ "f"%char).
  { apply W, complete_special_placed; [lia | unfold suffix_buf_size; simpl; lia]. }
  destruct (Ascii.eqb _ "n"%char).
  { apply W, complete_special_placed; [lia | unfold suffix_buf_size; simpl; lia]. }
  destruct (_ || _).
  { apply W, complete_number_placed; lia. }
  apply placed_r0.
Qed.

Lemma complete_value_total returned json len max_depth stack pos depth :
  pos <= len -> len - pos < stack ->
  exists c, complete_value returned stack json len max_depth pos depth = Returned c
            /\ placed len pos c.
Proof.
  intros Hpos Hstack.
  pose proof (complete_value_ends returned False json len max_depth stack pos
                depth Hpos (or_intror Hstack)) as H.
  destruct (complete_value _ _ _ _ _ _ _) as [c| |]; [eauto | contradiction..].
Qed.

Lemma complete_value_placed returned json len max_depth stack pos depth c :
  pos <= len ->
  complete_value returned stack json len max_depth pos depth = Returned c ->
  placed len pos c.
Proof.
  intros Hpos E.
  pose proof (complete_value_ends returned True json len max_depth stack pos
                depth Hpos (or_introl I)) as H.
  now rewrite E in H.
Qed.

(** *** Runs of opening brackets *)

Lemma get_brackets n j : j < n -> get (repeat LBRACKET n) j = LBRACKET.
Proof.
  intros H. unfold get. apply (repeat_spec n LBRACKET), nth_In.
  now rewrite repeat_length.
Qed.

Lemma skip_ws_at_bracket n pos :
  pos < n -> skip_ws (repeat LBRACKET n) n pos = pos.
Proof.
  intros H. unfold skip_ws. destruct (n - pos) as [|k] eqn:E; [lia|].
  cbn [skip_ws_loop]. now rewrite get_brackets.
Qed.

(** Each opening bracket costs one activation, whatever the depth counter
    says: past [max_depth] the element is declined, and
    [find_end_of_complete_value] then descends into it with the counter
    back at 0. *)
Lemma complete_value_brackets returned n max_depth :
  (0 < max_depth)%Z ->
  forall stack pos depth,
    stack + pos < n -> (depth < max_depth)%Z ->
    complete_value returned stack (repeat LBRACKET n) n max_depth pos depth
    = StackOverflow.
Proof.
  intros Hmax. induction stack as [|stack IH]; intros pos depth Hfit Hdepth;
    [reflexivity|].
  cbn [complete_value]. cbv zeta.
  destruct (Z.leb_spec max_depth depth); [lia|].
  rewrite skip_ws_at_bracket by lia.
  destruct (Nat.leb_spec n pos); [lia|].
  rewrite get_brackets by lia.
  change (Ascii.eqb LBRACKET LBRACE) with false.
  change (Ascii.eqb LBRACKET LBRACKET) with true. cbv iota.
  unfold complete_array.
  destruct (Nat.leb_spec n pos); [lia|].
  rewrite get_brackets by lia.
  change (Ascii.eqb LBRACKET LBRACKET) with true. cbn [negb orb].
  rewrite skip_ws_at_bracket by lia.
  destruct (Nat.leb_spec n (pos + 1)); [lia|].
  rewrite get_brackets by lia.
  change (Ascii.eqb LBRACKET RBRACKET) with false. cbn [orb].
  replace (2 * n + 2) with (S (2 * n + 1)) by lia.
  cbn [array_loop]. cbv zeta.
  destruct (Nat.ltb_spec (pos + 1) n); [|lia]. cbn [negb].
  rewrite get_brackets by lia.
  change (Ascii.eqb LBRACKET RBRACKET) with false. cbv iota.
  unfold comma_step.
  destruct (Nat.leb_spec n (pos + 1)); [lia|].
  rewrite get_brackets by lia.
  change (Ascii.eqb LBRACKET RBRACKET) with false. cbv iota.
  destruct (Z.ltb_spec (depth + 1) max_depth) as [D|D].
  - rewrite IH by lia. reflexivity.
  - destruct stack as [|stack']; [reflexivity|].
    assert (E : complete_value returned (S stack') (repeat LBRACKET n) n max_depth
                  (pos + 1) (depth + 1)%Z = Returned r0).
    { cbn [complete_value]. destruct (Z.leb_spec max_depth (depth + 1)); [|lia].
      reflexivity. }
    rewrite E. cbn [found r0]. cbv iota.
    unfold find_end_of_complete_value.
    rewrite skip_ws_at_bracket by lia.
    destruct (Nat.leb_spec n (pos + 1)); [lia|].
    rewrite IH by lia. reflexivity.
Qed.

(** *** The output *)

Lemma memcpy_prefix_suffix dst a b :
  length a + length b <= length dst ->
  firstn (length a + length b) (memcpy (memcpy dst 0 a) (length a) b) = a ++ b.
Proof.
  intros H.
  rewrite (memcpy_spec (memcpy dst 0 a)) by (rewrite memcpy_length; lia).
  rewrite firstn_memcpy_0 by lia.
  rewrite app_assoc, firstn_app.
  replace (length a + length b - length (a ++ b)) with 0
    by (rewrite length_app; lia).
  rewrite firstn_all2 by (rewrite length_app; lia).
  simpl. apply app_nil_r.
Qed.

(** The depth limit in force: a [max_depth] below 1 stands for 64. *)
Definition depth_limit (max_depth : Z) : Z :=
  if (max_depth <? 1)%Z then 64%Z else max_depth.

Lemma depth_limit_positive max_depth : (depth_limit max_depth <=? 0)%Z = false.
Proof.
  unfold depth_limit. destruct (Z.ltb_spec max_depth 1); apply Z.leb_gt; lia.
Qed.

(** With room for the input and a full suffix, the completed text is read
    off the completion record. *)
Lemma completed_spec returned stack input cap max_depth c :
  complete_value returned stack input (length input)
    (depth_limit max_depth) 0 0%Z = Returned c ->
  length input + suffix_buf_size <= cap ->
  completed returned stack input cap max_depth
  = Some (if found c
          then firstn (end_offset c) input ++ suffix_bytes returned c
          else []).
Proof.
  intros Hc Hcap. unfold suffix_buf_size in Hcap.
  pose proof (complete_value_placed _ _ _ _ _ _ _ _ (Nat.le_0_l _) Hc) as Hp.
  unfold completed, conduit_json_complete. fold (depth_limit max_depth).
  destruct (Nat.ltb_spec cap 1) as [L|_]; [lia|].
  destruct (Nat.eqb_spec (length input) 0) as [E|E].
  { assert (Hc0 : found c = false).
    { destruct input; [|discriminate]. destruct stack; [discriminate|].
      cbn in Hc. destruct (depth_limit max_depth <=? 0)%Z;
        injection Hc as <-; reflexivity. }
    rewrite Hc0. cbn. reflexivity. }
  rewrite Hc. destruct (found c) eqn:Hf; cbn [negb].
  2:{ cbn. reflexivity. }
  destruct (Hp Hf) as ((_ & Heo) & Hs). unfold suffix_buf_size in Hs.
  set (total := end_offset c + suffix_len c).
  destruct (Nat.ltb_spec cap (total + 1)) as [L|L]; [lia|].
  destruct (Z.ltb_spec (Z.of_nat total) 0); [lia|].
  rewrite Nat2Z.id. f_equal.
  assert (Hfl : length (firstn (end_offset c) input) = end_offset c)
    by (rewrite length_firstn; lia).
  rewrite firstn_store_below by lia.
  pose proof (memcpy_prefix_suffix (repeat NUL cap)
                (firstn (end_offset c) input) (suffix_bytes returned c)) as M.
  rewrite Hfl, suffix_bytes_length in M. apply M. rewrite repeat_length. lia.
Qed.

(** C2 (failing input).  With ['] standing for the double quote, the text
    ['abc\] is a JSON string cut after a backslash (['abc\n'] is valid
    JSON).  [complete_string] follows the escapes to find the closing
    quote: in ['a\'] it does not take the escaped quote for the end of the
    string and completes the text to ['a\''], which is valid.  But at the
    end of the input it appends a quote whether or not an escape is
    pending: ['abc\] is completed to ['abc\'], in which the backslash
    escapes the appended quote and the string is still open. *)
Theorem cut_after_backslash_gets_escaped_quote :
  forall (returned : list ascii -> list ascii) (stack : nat),
    let input := json "'abc\" in
    Json.valid (input ++ json "n'") = true
    /\ complete_string input (length input) 0 = found_literal [QUOTE] 5
    /\ completed returned (S stack) input 256 16 = Some (json "'abc\'")
    /\ Json.valid (json "'abc\'") = false
    /\ completed returned (S stack) (json "'a\'") 256 16 = Some (json "'a\''")
    /\ Json.valid (json "'a\''") = true.
Proof.
  intros returned stack input.
  split; [reflexivity|]. split; [reflexivity|]. split.
  { rewrite (completed_spec returned (S stack) input 256 16
               (found_literal [QUOTE] 5)); [reflexivity | reflexivity |].
    vm_compute. lia. }
  split; [reflexivity|]. split; [|reflexivity].
  rewrite (completed_spec returned (S stack) (json "'a\'") 256 16
             (found_literal [QUOTE] 4)); [reflexivity | reflexivity |].
  vm_compute. lia.
Qed.

End JsonCompleterFacts.

(* ------------------------------------------------------------------ *)
(** ** JSON completer: sizing and the scalar completions *)

Module JsonCompleterCases.
Import Bytes BytesFacts JsonRepair JsonCompleter JsonCompleterFacts.

(** X20.  With room for [input_len + 128] bytes and a stack that holds
    [input_len + 1] nested activations of [complete_value],
    [conduit_json_complete] never returns -1, and the completed text is
    either empty (nothing to complete) or a prefix of the input followed by
    1 to 127 suffix bytes.  [max_depth] does not bound the stack the
    recursion needs: on [n] opening brackets it nests [n] activations
    whatever [max_depth] is, so a stack that holds fewer overflows. *)
Theorem completer_stack_follows_input_not_max_depth :
  forall (returned : list ascii -> list ascii) (stack output_capacity : nat)
         (max_depth : Z),
    (forall input : list ascii,
       length input + suffix_buf_size <= output_capacity ->
       length input < stack ->
       exists text,
         completed returned stack input output_capacity max_depth = Some text
         /\ (text = []
             \/ exists k suffix,
                  k <= length input /\ 0 < length suffix < suffix_buf_size
                  /\ text = firstn k input ++ suffix))
    /\ (forall (n : nat) (output : list ascii),
          0 < output_capacity -> stack < n ->
          conduit_json_complete returned stack (repeat LBRACKET n) output
            output_capacity max_depth
          = StackOverflow).
Proof.
  intros returned stack cap md. split.
  - intros input Hcap Hstack.
    destruct (complete_value_total returned input (length input) (depth_limit md)
                stack 0 0%Z) as (c & Hc & Hp); [lia | lia |].
    rewrite (completed_spec returned stack input cap md c Hc Hcap).
    eexists. split; [reflexivity|].
    destruct (found c) eqn:Hf; [right | now left].
    destruct (Hp Hf) as ((_ & Heo) & Hs).
    exists (end_offset c), (suffix_bytes returned c).
    rewrite suffix_bytes_length. auto.
  - intros n output Hcap Hstack. unfold conduit_json_complete.
    destruct (Nat.ltb_spec cap 1); [lia|].
    rewrite repeat_length.
    destruct (Nat.eqb_spec n 0); [lia|].
    fold (depth_limit md).
    pose proof (depth_limit_positive md) as Hpos. apply Z.leb_gt in Hpos.
    rewrite complete_value_brackets by lia. reflexivity.
Qed.

Lemma completer_stack_follows_input_not_max_depth_witness :
  let input := json "{'k': [tr" in
  (length input + suffix_buf_size <= 137 /\ length input < 10
   /\ completed intact 10 input 137 0 = Some (json "{'k': [true]}")
   /\ exists text,
        completed intact 10 input 137 0 = Some text
        /\ (text = []
            \/ exists k suffix,
                 k <= length input /\ 0 < length suffix < suffix_buf_size
                 /\ text = firstn k input ++ suffix))
  /\ (0 < 137 /\ 10 < 11
      /\ conduit_json_complete intact 10 (repeat LBRACKET 11) (repeat NUL 137)
           137 0
         = StackOverflow
      /\ conduit_json_complete intact 10 (repeat LBRACKET 10) (repeat NUL 137)
           137 0
         = Returned (20%Z, repeat LBRACKET 10 ++ repeat RBRACKET 10
                           ++ repeat NUL 117)).
Proof.
  intros input.
  assert (H1 : length input + suffix_buf_size <= 137) by (vm_compute; lia).
  assert (H2 : length input < 10) by (vm_compute; lia).
  assert (H3 : 0 < 137) by lia.
  assert (H4 : 10 < 11) by lia.
  split.
  - split; [exact H1|]. split; [exact H2|]. split; [reflexivity|].
    exact (proj1 (completer_stack_follows_input_not_max_depth intact 10 137 0)
             input H1 H2).
  - split; [exact H3|]. split; [exact H4|]. split; [|reflexivity].
    exact (proj2 (completer_stack_follows_input_not_max_depth intact 10 137 0)
             11 (repeat NUL 137) H3 H4).
Defined.

(** Evaluate the byte comparisons whose two sides are known. *)
Ltac eval_eqb :=
  repeat match goal with
         | |- context [Ascii.eqb ?a ?b] =>
             let v := eval vm_compute in (Ascii.eqb a b) in
             match v with
             | true => change (Ascii.eqb a b) with true
             | false => change (Ascii.eqb a b) with false
             end
         end.

Lemma get_app_at (pre : list ascii) x rest : get (pre ++ x :: rest) (length pre) = x.
Proof. unfold get. now rewrite app_nth2, Nat.sub_diag by lia. Qed.

Lemma get_app_before (pre tail : list ascii) j :
  j < length pre -> get (pre ++ tail) j = get pre j.
Proof. intros H. unfold get. now rewrite app_nth1. Qed.

Lemma get_app_after (pre tail : list ascii) j :
  get (pre ++ tail) (length pre + j) = get tail j.
Proof.
  unfold get. rewrite app_nth2 by lia. f_equal. lia.
Qed.

Lemma forall_get (P : ascii -> Prop) l j :
  Forall P l -> j < length l -> P (get l j).
Proof.
  intros H Hj. unfold get. rewrite Forall_forall in H. apply H, nth_In, Hj.
Qed.

Lemma skip_ws_loop_over json : forall k n pos,
  (forall j, j < k -> is_ws (get json (pos + j)) = true) ->
  is_ws (get json (pos + k)) = false -> k < n ->
  skip_ws_loop json pos n = pos + k.
Proof.
  induction k as [|k IH]; intros n pos Hws Hstop Hn;
    (destruct n as [|n]; [lia|]); cbn [skip_ws_loop].
  - rewrite Nat.add_0_r in *. now rewrite Hstop.
  - rewrite <- (Nat.add_0_r pos) at 1. rewrite Hws by lia.
    rewrite (IH n (S pos)); [lia | | | lia].
    + intros j Hj. replace (S pos + j) with (pos + S j) by lia. apply Hws. lia.
    + now replace (S pos + k) with (pos + S k) by lia.
Qed.

(** Leading whitespace is skipped up to the first other byte. *)
Lemma skip_ws_leading ws x rest :
  Forall (fun c => is_ws c = true) ws -> is_ws x = false ->
  skip_ws (ws ++ x :: rest) (length (ws ++ x :: rest)) 0 = length ws.
Proof.
  intros Hws Hx. unfold skip_ws.
  rewrite (skip_ws_loop_over _ (length ws)); [reflexivity | | |].
  - intros j Hj. cbn [Nat.add]. rewrite get_app_before by exact Hj.
    now apply (forall_get (fun c => is_ws c = true)).
  - cbn [Nat.add]. now rewrite get_app_at.
  - rewrite length_app. cbn [length]. lia.
Qed.

Lemma string_scan_none json : forall n cur e,
  (forall j, cur <= j < cur + n -> get json j <> QUOTE) ->
  string_scan json cur n e = None.
Proof.
  induction n as [|n IH]; intros cur e H; cbn [string_scan]; [reflexivity|].
  destruct (Ascii.eqb (get json cur) BACKSLASH); [apply IH; intros; apply H; lia|].
  destruct (Ascii.eqb_spec (get json cur) QUOTE) as [E|_].
  - exfalso. apply (H cur); [lia | exact E].
  - cbn [andb]. apply IH. intros; apply H; lia.
Qed.

(** X21.  A string value cut before its closing quote is completed by
    that quote: for input consisting of optional whitespace, a quote and any
    bytes that contain no further quote, the completed text is the input
    followed by one quote. *)
Theorem open_string_gets_its_quote :
  forall (returned : list ascii -> list ascii) (stack : nat)
         (ws s : list ascii) (output_capacity : nat) (max_depth : Z),
    Forall (fun c => is_ws c = true) ws ->
    Forall (fun c => c <> QUOTE) s ->
    let input := ws ++ QUOTE :: s in
    length input + suffix_buf_size <= output_capacity ->
    completed returned (S stack) input output_capacity max_depth
    = Some (input ++ [QUOTE]).
Proof.
  intros returned stack ws s cap md Hws Hs input Hcap.
  assert (Hlen : length input = length ws + S (length s)).
  { unfold input. rewrite length_app. reflexivity. }
  assert (Hskip : skip_ws input (length input) 0 = length ws)
    by (apply skip_ws_leading; auto).
  assert (Hget : get input (length ws) = QUOTE) by apply get_app_at.
  assert (Hscan : forall j, length ws + 1 <= j < length input ->
                            get input j <> QUOTE).
  { intros j Hj. unfold input.
    replace j with (length ws + S (j - length ws - 1)) by lia.
    rewrite get_app_after. cbn [get nth]. fold (get s (j - length ws - 1)).
    apply (forall_get (fun c => c <> QUOTE)); [exact Hs | lia]. }
  clearbody input.
  rewrite (completed_spec returned (S stack) input cap md
             (found_literal [QUOTE] (length input)));
    [cbn [found_literal found end_offset];
     now rewrite suffix_bytes_literal, firstn_all | | exact Hcap].
  cbn [complete_value].
  rewrite depth_limit_positive. cbv zeta. rewrite Hskip.
  destruct (Nat.leb_spec (length input) (length ws)); [lia|].
  rewrite Hget. eval_eqb. cbv iota.
  f_equal. unfold complete_string.
  destruct (Nat.leb_spec (length input) (length ws)); [lia|].
  rewrite Hget. eval_eqb. cbn [negb orb].
  rewrite string_scan_none.
  - f_equal. lia.
  - intros j Hj. apply Hscan. lia.
Qed.

Lemma open_string_gets_its_quote_witness :
  let ws := [SP; LF] in
  let s := bytes "a\nb, [" in
  Forall (fun c => is_ws c = true) ws
  /\ Forall (fun c => c <> QUOTE) s
  /\ length (ws ++ QUOTE :: s) + suffix_buf_size <= 200
  /\ completed intact 1 (ws ++ QUOTE :: s) 200 3
     = Some ((ws ++ QUOTE :: s) ++ [QUOTE]).
Proof.
  intros ws s.
  assert (H1 : Forall (fun c => is_ws c = true) ws) by (repeat constructor).
  assert (H2 : Forall (fun c => c <> QUOTE) s)
    by (repeat constructor; discriminate).
  assert (H3 : length (ws ++ QUOTE :: s) + suffix_buf_size <= 200)
    by (vm_compute; lia).
  split; [exact H1|]. split; [exact H2|]. split; [exact H3|].
  exact (open_string_gets_its_quote intact 0 ws s 200 3 H1 H2 H3).
Defined.

Lemma special_loop_prefix a : forall pre b,
  b <> [] ->
  special_loop (pre ++ a) (length pre + length a) (length pre) (a ++ b)
  = Some (length pre + length a, b).
Proof.
  induction a as [|x a IH]; intros pre b Hb.
  - cbn [app length]. rewrite Nat.add_0_r.
    destruct b as [|y b]; [congruence|]. cbn [special_loop].
    now rewrite Nat.ltb_irrefl.
  - cbn [app length special_loop].
    destruct (Nat.ltb_spec (length pre) (length pre + S (length a))); [|lia].
    rewrite get_app_at, Ascii.eqb_refl.
    replace (pre ++ x :: a) with ((pre ++ [x]) ++ a) by (now rewrite <- app_assoc).
    replace (S (length pre)) with (length (pre ++ [x]))
      by (rewrite length_app; cbn; lia).
    replace (length pre + S (length a)) with (length (pre ++ [x]) + length a)
      by (rewrite length_app; cbn; lia).
    now apply IH.
Qed.

(** The three literals of JSON. *)
Definition literal (word : list ascii) : Prop :=
  word = bytes "true" \/ word = bytes "false" \/ word = bytes "null".

(** X22.  A literal cut short is completed to the literal: for input
    consisting of optional whitespace and a proper, non-empty prefix of
    [true], [false] or [null], the completed text is the whitespace followed
    by the whole word. *)
Theorem literal_prefix_is_completed :
  forall (returned : list ascii -> list ascii) (stack : nat)
         (ws word : list ascii) (k output_capacity : nat) (max_depth : Z),
    Forall (fun c => is_ws c = true) ws ->
    literal word ->
    0 < k < length word ->
    let input := ws ++ firstn k word in
    length input + suffix_buf_size <= output_capacity ->
    completed returned (S stack) input output_capacity max_depth
    = Some (ws ++ word).
Proof.
  intros returned stack ws word k cap md Hws Hword Hk input Hcap.
  set (pfx := firstn k word) in *. set (rest := skipn k word).
  assert (Hparts : pfx ++ rest = word) by apply firstn_skipn.
  assert (Hlk : length pfx = k) by (unfold pfx; rewrite length_firstn; lia).
  assert (Hrest : rest <> []).
  { intros E. apply (f_equal (@length ascii)) in E. unfold rest in E.
    rewrite length_skipn in E. cbn in E. lia. }
  assert (Hlen : length input = length ws + k).
  { unfold input. now rewrite length_app, Hlk. }
  assert (Hhead : exists pre, pfx = get word 0 :: pre).
  { unfold pfx. destruct word as [|y word']; [cbn in Hk; lia|].
    destruct k; [lia|]. cbn. eauto. }
  destruct Hhead as (pre & Ep).
  assert (Hnotws : is_ws (get word 0) = false).
  { destruct Hword as [-> | [-> | ->]]; reflexivity. }
  assert (Hskip : skip_ws input (length input) 0 = length ws).
  { unfold input. rewrite Ep. apply skip_ws_leading; auto. }
  assert (Hget : get input (length ws) = get word 0).
  { unfold input. rewrite Ep. apply get_app_at. }
  assert (Hloop : special_loop input (length input) (length ws) word
                  = Some (length input, rest)).
  { rewrite <- Hparts, Hlen, <- Hlk. unfold input.
    now apply special_loop_prefix. }
  assert (Htext : input ++ rest = ws ++ word).
  { unfold input. now rewrite <- app_assoc, Hparts. }
  clearbody input pfx rest.
  rewrite (completed_spec returned (S stack) input cap md
             (found_literal rest (length input)));
    [cbn [found_literal found end_offset];
     now rewrite suffix_bytes_literal, firstn_all, Htext
    | | exact Hcap].
  cbn [complete_value].
  rewrite depth_limit_positive. cbv zeta. rewrite Hskip.
  destruct (Nat.leb_spec (length input) (length ws)); [lia|].
  rewrite Hget.
  destruct Hword as [-> | [-> | ->]]; cbn [get nth bytes list_ascii_of_string];
    eval_eqb; cbv iota; f_equal; unfold complete_special;
    cbn [bytes list_ascii_of_string] in Hloop; rewrite Hloop;
    destruct rest; congruence.
Qed.

Lemma literal_prefix_is_completed_witness :
  let ws := [SP; TAB] in
  let word := bytes "false" in
  Forall (fun c => is_ws c = true) ws
  /\ literal word
  /\ 0 < 2 < length word
  /\ length (ws ++ firstn 2 word) + suffix_buf_size <= 132
  /\ completed intact 1 (ws ++ bytes "fa") 132 0 = Some (ws ++ bytes "false").
Proof.
  intros ws word.
  assert (H1 : Forall (fun c => is_ws c = true) ws) by (repeat constructor).
  assert (H2 : literal word) by (right; left; reflexivity).
  assert (H3 : 0 < 2 < length word) by (cbn; lia).
  assert (H4 : length (ws ++ firstn 2 word) + suffix_buf_size <= 132)
    by (vm_compute; lia).
  split; [exact H1|]. split; [exact H2|]. split; [exact H3|]. split; [exact H4|].
  exact (literal_prefix_is_completed intact 0 ws word 2 132 0 H1 H2 H3 H4).
Defined.

(** *** An array element followed by whitespace *)

Lemma ws_byte_facts w :
  is_ws w = true ->
  is_digit w = false /\ is_number_char w = false
  /\ Ascii.eqb w "."%char = false /\ Ascii.eqb w "e"%char = false
  /\ Ascii.eqb w "E"%char = false /\ Ascii.eqb w COMMA = false
  /\ Ascii.eqb w RBRACKET = false.
Proof.
  intros H. apply JsonFacts.is_ws_cases in H.
  destruct H as [-> | [-> | [-> | ->]]]; repeat split.
Qed.

Lemma digit_byte_facts c :
  is_digit c = true ->
  is_ws c = false /\ is_number_char c = true
  /\ Ascii.eqb c LBRACE = false /\ Ascii.eqb c LBRACKET = false
  /\ Ascii.eqb c RBRACKET = false /\ Ascii.eqb c QUOTE = false
  /\ Ascii.eqb c "t"%char = false /\ Ascii.eqb c "f"%char = false
  /\ Ascii.eqb c "n"%char = false /\ Ascii.eqb c "-"%char = false
  /\ Ascii.eqb c "."%char = false.
Proof.
  intros H.
  assert (Hne : forall x, is_digit x = false -> Ascii.eqb c x = false).
  { intros x Hx. destruct (Ascii.eqb_spec c x) as [-> |]; congruence. }
  split.
  { destruct (is_ws c) eqn:E; [|reflexivity].
    apply JsonFacts.is_ws_cases in E.
    destruct E as [-> | [-> | [-> | ->]]]; discriminate. }
  split.
  { unfold is_number_char. rewrite H. now rewrite !orb_true_r. }
  repeat split; apply Hne; reflexivity.
Qed.

Lemma skip_digits_over json : forall k n cur,
  (forall j, j < k -> is_digit (get json (cur + j)) = true) ->
  is_digit (get json (cur + k)) = false -> k < n ->
  skip_digits json cur n = cur + k.
Proof.
  induction k as [|k IH]; intros n cur Hd Hstop Hn;
    (destruct n as [|n]; [lia|]); cbn [skip_digits].
  - rewrite Nat.add_0_r in *. now rewrite Hstop.
  - rewrite <- (Nat.add_0_r cur) at 1. rewrite Hd by lia.
    rewrite (IH n (S cur)); [lia | | | lia].
    + intros j Hj. replace (S cur + j) with (cur + S j) by lia. apply Hd. lia.
    + now replace (S cur + k) with (cur + S k) by lia.
Qed.

Lemma skip_number_chars_over json : forall k n cur,
  (forall j, j < k -> is_number_char (get json (cur + j)) = true) ->
  is_number_char (get json (cur + k)) = false -> k < n ->
  skip_number_chars json cur n = cur + k.
Proof.
  induction k as [|k IH]; intros n cur Hd Hstop Hn;
    (destruct n as [|n]; [lia|]); cbn [skip_number_chars].
  - rewrite Nat.add_0_r in *. now rewrite Hstop.
  - rewrite <- (Nat.add_0_r cur) at 1. rewrite Hd by lia.
    rewrite (IH n (S cur)); [lia | | | lia].
    + intros j Hj. replace (S cur + j) with (cur + S j) by lia. apply Hd. lia.
    + now replace (S cur + k) with (cur + S k) by lia.
Qed.

Section ElementThenSpace.

Variable returned : list ascii -> list ascii.
Variables (d rest : list ascii) (w : ascii).
Hypothesis d_digits : Forall (fun c => is_digit c = true) d.
Hypothesis d_some : d <> [].
Hypothesis w_space : is_ws w = true.

Let text := LBRACKET :: d ++ w :: rest.
Let len := length text.

Lemma ets_len : len = S (length d + S (length rest)).
Proof. unfold len, text. cbn [length]. now rewrite length_app. Qed.

Lemma ets_digit j : j < length d -> is_digit (get text (1 + j)) = true.
Proof.
  intros Hj. unfold text. cbn [Nat.add get nth].
  fold (get (d ++ w :: rest) j). rewrite get_app_before by exact Hj.
  now apply (forall_get (fun c => is_digit c = true)).
Qed.

Lemma ets_space : get text (1 + length d) = w.
Proof.
  unfold text. cbn [Nat.add get nth].
  fold (get (d ++ w :: rest) (length d)). apply get_app_at.
Qed.

Lemma ets_first : is_digit (get text 1) = true.
Proof.
  apply (ets_digit 0). destruct d; [congruence | cbn; lia].
Qed.

Lemma ets_skip_ws : skip_ws text len 1 = 1.
Proof.
  unfold skip_ws. rewrite (skip_ws_loop_over _ 0); [lia | intros; lia | |].
  - rewrite Nat.add_0_r. apply digit_byte_facts, ets_first.
  - rewrite ets_len. lia.
Qed.

Lemma ets_number : complete_number text len 1 = r0.
Proof.
  destruct (digit_byte_facts _ ets_first)
    as (_ & _ & _ & _ & _ & _ & _ & _ & _ & Hminus & Hdot).
  destruct (ws_byte_facts w w_space) as (Wd & _ & Wdot & We & WE & _).
  pose proof ets_len as Hlen.
  unfold complete_number. rewrite Hminus, andb_false_r.
  destruct (Nat.leb_spec len 1); [lia|]. rewrite Hdot.
  assert (Hdig : digits text len 1 = 1 + length d).
  { unfold digits. apply skip_digits_over.
    - apply ets_digit.
    - now rewrite ets_space.
    - lia. }
  rewrite Hdig, ets_space, Wdot, andb_false_r. cbv iota.
  rewrite ets_space, We, WE, andb_false_r. reflexivity.
Qed.

Lemma ets_value stack limit depth :
  exists c, complete_value returned (S stack) text len limit 1 depth = Returned c
            /\ found c = false.
Proof.
  destruct (digit_byte_facts _ ets_first)
    as (_ & _ & Hlb & Hlk & _ & Hq & Ht & Hf & Hn & _ & _).
  pose proof ets_len as Hlen.
  cbn [complete_value]. destruct (limit <=? depth)%Z; [now exists r0|].
  cbv zeta. rewrite ets_skip_ws.
  destruct (Nat.leb_spec len 1); [lia|].
  rewrite Hlb, Hlk, Hq, Ht, Hf, Hn, ets_first, orb_true_r, ets_number.
  now exists r0.
Qed.

Lemma ets_end stack limit :
  find_end_of_complete_value text len
    (complete_value returned (S stack) text len limit) 1
  = Returned (1 + length d).
Proof.
  destruct (digit_byte_facts _ ets_first)
    as (_ & _ & Hlb & Hlk & _ & Hq & Ht & Hf & Hn & _ & _).
  destruct (ws_byte_facts w w_space) as (_ & Wn & _).
  pose proof ets_len as Hlen.
  unfold find_end_of_complete_value. rewrite ets_skip_ws.
  destruct (Nat.leb_spec len 1); [lia|].
  destruct (ets_value stack limit 0%Z) as (c & -> & ->).
  rewrite Hq, Hlb, Hlk, Ht, Hf, Hn, ets_first, orb_true_r. cbn [orb].
  f_equal. apply skip_number_chars_over.
  - intros j Hj. apply digit_byte_facts, ets_digit, Hj.
  - now rewrite ets_space.
  - lia.
Qed.

Lemma ets_array stack limit depth :
  complete_array returned text len
    (complete_value returned (S stack) text len limit) 0 depth
  = Returned (found_literal [RBRACKET] (1 + length d)).
Proof.
  destruct (digit_byte_facts _ ets_first)
    as (_ & _ & _ & _ & Hrk & _).
  destruct (ws_byte_facts w w_space) as (_ & _ & _ & _ & _ & Wc & Wk).
  pose proof ets_len as Hlen.
  unfold complete_array.
  destruct (Nat.leb_spec len 0); [lia|].
  change (get text 0) with LBRACKET. eval_eqb. cbn [negb orb Nat.add].
  rewrite ets_skip_ws. destruct (Nat.leb_spec len 1); [lia|].
  rewrite Hrk. cbn [orb].
  replace (2 * len + 2) with (S (S (2 * len))) by lia.
  cbn [array_loop]. destruct (Nat.ltb_spec 1 len); [|lia]. cbn [negb].
  rewrite Hrk. unfold comma_step at 1.
  destruct (Nat.leb_spec len 1); [lia|]. rewrite Hrk.
  destruct (ets_value stack limit (depth + 1)%Z) as (c & -> & ->).
  rewrite ets_end.
  destruct (Nat.ltb_spec (1 + length d) len); [|lia]. cbn [negb].
  rewrite ets_space, Wk. unfold comma_step. now rewrite ets_space, Wc.
Qed.

Lemma ets_complete stack limit :
  (limit <=? 0)%Z = false ->
  complete_value returned (S (S stack)) text len limit 0 0%Z
  = Returned (found_literal [RBRACKET] (1 + length d)).
Proof.
  intros Hlimit. pose proof ets_len as Hlen.
  cbn [complete_value].
  rewrite Hlimit. cbv zeta.
  assert (Hskip : skip_ws text len 0 = 0).
  { unfold skip_ws. rewrite (skip_ws_loop_over _ 0); [lia | intros; lia | |].
    - reflexivity.
    - lia. }
  rewrite Hskip. destruct (Nat.leb_spec len 0); [lia|].
  change (get text 0) with LBRACKET. eval_eqb. cbv iota.
  exact (ets_array stack limit 0%Z).
Qed.

End ElementThenSpace.

(** X23.  Whitespace between an array element and what follows ends the
    array for the completer: for input [[] digits, a whitespace byte and
    anything at all, the completed text is the bracket, the digits and a
    closing bracket.  A text such as "[1 ]" is therefore reported as
    incomplete, and "[1 ,2]" loses its second element. *)
Theorem space_after_element_ends_array :
  forall (returned : list ascii -> list ascii) (stack : nat)
         (d rest : list ascii) (w : ascii) (output_capacity : nat)
         (max_depth : Z),
    Forall (fun c => is_digit c = true) d ->
    d <> [] ->
    is_ws w = true ->
    let input := LBRACKET :: d ++ w :: rest in
    length input + suffix_buf_size <= output_capacity ->
    completed returned (S (S stack)) input output_capacity max_depth
    = Some (LBRACKET :: d ++ [RBRACKET]).
Proof.
  intros returned stack d rest w cap md Hd Hne Hw input Hcap.
  pose proof (ets_complete returned d rest w Hd Hne Hw stack (depth_limit md)
                (depth_limit_positive md)) as Hc.
  rewrite (completed_spec returned (S (S stack)) input cap md _ Hc Hcap).
  cbn [found_literal found end_offset]. rewrite suffix_bytes_literal.
  f_equal. unfold input.
  cbn [Nat.add firstn app]. f_equal.
  rewrite firstn_app, Nat.sub_diag, firstn_all. cbn [firstn].
  now rewrite app_nil_r.
Qed.

Lemma space_after_element_ends_array_witness :
  let d := bytes "12" in
  let rest := json ", 'x']" in
  Forall (fun c => is_digit c = true) d
  /\ d <> []
  /\ is_ws SP = true
  /\ length (LBRACKET :: d ++ SP :: rest) + suffix_buf_size <= 160
  /\ completed intact 2 (json "[12 , 'x']") 160 8 = Some (json "[12]")
  /\ Json.valid (json "[12 , 'x']") = true.
Proof.
  intros d rest.
  assert (H1 : Forall (fun c => is_digit c = true) d) by (repeat constructor).
  assert (H2 : d <> []) by discriminate.
  assert (H3 : is_ws SP = true) by reflexivity.
  assert (H4 : length (LBRACKET :: d ++ SP :: rest) + suffix_buf_size <= 160)
    by (vm_compute; lia).
  split; [exact H1|]. split; [exact H2|]. split; [exact H3|]. split; [exact H4|].
  split; [|reflexivity].
  exact (space_after_element_ends_array intact 0 d rest SP 160 8 H1 H2 H3 H4).
Defined.

End JsonCompleterCases.

(* ------------------------------------------------------------------ *)
(** ** The concrete scenarios of the specification *)

Module Scenarios.
Import Bytes.

Example sse_event_and_data :
  snd (SSE.run [SSE.IngestLine (bytes "event: ping");
                SSE.IngestLine (bytes "data: hi"); SSE.IngestLine []] true)
  = [SSE.mkevent None (Some (bytes "ping")) (bytes "hi") (-1)].
Proof. reflexivity. Qed.

Example sse_data_lines_joined :
  snd (SSE.run [SSE.IngestLine (bytes "data: a");
                SSE.IngestLine (bytes "data: b"); SSE.IngestLine []] true)
  = [SSE.mkevent None None (bytes "a" ++ [LF] ++ bytes "b") (-1)].
Proof. reflexivity. Qed.

Example sse_retry_only_block :
  let r := SSE.run [SSE.IngestLine (bytes "retry: 5000"); SSE.IngestLine []] true in
  snd r = [] /\ SSE.reconnection_time (fst r) = 5000%Z.
Proof. split; reflexivity. Qed.

(** A reset does not erase the buffers, and an empty value writes nothing:
    the second block reports the text of the first. *)
Example sse_empty_values_show_earlier_text :
  snd (SSE.run [SSE.IngestLine (bytes "event: ping");
                SSE.IngestLine (bytes "data: hi"); SSE.IngestLine [];
                SSE.IngestLine (bytes "event"); SSE.IngestLine []] true)
  = [SSE.mkevent None (Some (bytes "ping")) (bytes "hi") (-1);
     SSE.mkevent None (Some (bytes "ping")) (bytes "hi") (-1)].
Proof. reflexivity. Qed.

Example repair_open_array :
  JsonRepair.repaired (JsonRepair.json "{'a': [1, 2,") 64 16
  = Some (JsonRepair.json "{'a': [1, 2]}").
Proof. reflexivity. Qed.

Example repair_open_string :
  JsonRepair.repaired (JsonRepair.json "{'key':'val") 64 16
  = Some (JsonRepair.json "{'key':'val'}").
Proof. reflexivity. Qed.

Example repair_incomplete_key :
  JsonRepair.repaired (JsonRepair.json "{'a':1,'") 64 16
  = Some (JsonRepair.json "{'a':1}").
Proof. reflexivity. Qed.

(** The composite suffix of a nested completion is read back from the
    frame of the callee that built it. *)
Example complete_open_array :
  JsonCompleter.conduit_json_complete JsonCompleter.intact 3
    (JsonRepair.json "{'x': [1,") (repeat NUL 16) 16 16
  = JsonCompleter.Returned (10%Z, JsonRepair.json "{'x': [1]}" ++ repeat NUL 6)
  /\ JsonCompleter.conduit_json_complete (fun _ => []) 3
       (JsonRepair.json "{'x': [1,") (repeat NUL 16) 16 16
     = JsonCompleter.Returned (10%Z, JsonRepair.json "{'x': [1" ++ repeat NUL 8)
  /\ JsonCompleter.conduit_json_complete JsonCompleter.intact 2
       (JsonRepair.json "{'x': [1,") (repeat NUL 16) 16 16
     = JsonCompleter.StackOverflow.
Proof. repeat split. Qed.

Example complete_already_complete :
  JsonCompleter.conduit_json_complete JsonCompleter.intact 3
    (JsonRepair.json "{'x': 1}") (repeat NUL 16) 16 16
  = JsonCompleter.Returned (0%Z, repeat NUL 16).
Proof. reflexivity. Qed.

Example line_buffer_crlf_then_lf :
  let t := LineBuffer.run 0
             [LineBuffer.Append (bytes "a" ++ [CR; LF] ++ bytes "b" ++ [LF]) true;
              LineBuffer.NextLine 16; LineBuffer.NextLine 16] in
  LineBuffer.lines t = [bytes "a"; bytes "b"]
  /\ LineBuffer.conduit_line_buffer_pending (LineBuffer.final t) = 0.
Proof. vm_compute. split; reflexivity. Qed.

Example cosine_of_unit_vectors :
  let one := VectorOps.fone in
  let zero := VectorOps.fzero in
  VectorOps.conduit_cosine_similarity [one; zero; zero] [one; zero; zero] 3 = one
  /\ VectorOps.conduit_cosine_similarity [one; zero] [zero; one] 2 = zero.
Proof. vm_compute. split; reflexivity. Qed.

End Scenarios.
